(** * A segregated-free-list allocator (mm.c): shallow embedding and proofs

    The heap is a byte-addressed memory; headers, footers and list links are
    64-bit little-endian words inside it.  Values of type [size_t] and
    [word_t] are integers in [0, 2^64) and every arithmetic operation on them
    wraps; pointer arithmetic is plain integer arithmetic on addresses. *)

From Stdlib Require Import ZArith List Bool Lia.
Import ListNotations.
Open Scope Z_scope.

(** ** Machine words *)

Definition wrap64 (x : Z) : Z := x mod 2 ^ 64.

Definition NULL : Z := 0.

(** [(void * )-1], the failure value of [mem_sbrk]. *)
Definition SBRK_FAIL : Z := 2 ^ 64 - 1.

(** [(intptr_t)x] for a 64-bit [x]. *)
Definition to_intptr (x : Z) : Z := if x <? 2 ^ 63 then x else x - 2 ^ 64.

(** ** Basic constants *)

Definition LENGTH : Z := 14.
Definition wsize : Z := 8.
Definition dsize : Z := 2 * wsize.
Definition min_block_size : Z := dsize.
Definition chunksize : Z := Z.shiftl 1 12.
Definition alloc_mask : Z := 1.
Definition prev_alloc_mask : Z := 2.
Definition prev_mini_mask : Z := 4.
Definition size_mask : Z := 2 ^ 64 - 16.

(** ** Short helper functions *)

Definition max (x y : Z) : Z := if y <? x then x else y.

Definition round_up (size n : Z) : Z :=
  wrap64 (n * (wrap64 (size + (n - 1)) / n)).

Definition pack_all (size : Z) (alloc prev_alloc prev_mini : bool) : Z :=
  let word := size in
  let word := if alloc then Z.lor word alloc_mask else word in
  let word := if prev_alloc then Z.lor word prev_alloc_mask else word in
  let word := if prev_mini then Z.lor word prev_mini_mask else word in
  word.

Definition extract_size (word : Z) : Z := Z.land word size_mask.

Definition extract_alloc (word : Z) : bool :=
  negb (Z.land word alloc_mask =? 0).

Definition payload_to_header (bp : Z) : Z := bp - 8.

Definition header_to_payload (block : Z) : Z := block + 8.

Definition find_prev_footer (block : Z) : Z := block - 8.

Definition find_class (asize : Z) : Z :=
  if asize <? 32 then 0
  else if asize <? 64 then 1
  else if asize <? 128 then 2
  else if asize <? 256 then 3
  else if asize <? 512 then 4
  else if asize <? 1024 then 5
  else if asize <? 2048 then 6
  else if asize <? 3072 then 7
  else if asize <? 4096 then 8
  else if asize <? 6656 then 9
  else if asize <? 8192 then 10
  else if asize <? 16384 then 11
  else if asize <? 32768 then 12
  else 13.

(** ** Memory *)

(** One byte per address. *)
Definition memory : Type := Z -> Z.

Definition load64 (m : memory) (a : Z) : Z :=
  m a mod 256
  + 2 ^ 8 * (m (a + 1) mod 256)
  + 2 ^ 16 * (m (a + 2) mod 256)
  + 2 ^ 24 * (m (a + 3) mod 256)
  + 2 ^ 32 * (m (a + 4) mod 256)
  + 2 ^ 40 * (m (a + 5) mod 256)
  + 2 ^ 48 * (m (a + 6) mod 256)
  + 2 ^ 56 * (m (a + 7) mod 256).

Definition store64 (m : memory) (a v : Z) : memory :=
  fun x =>
    if (a <=? x) && (x <? a + 8) then (v / 2 ^ (8 * (x - a))) mod 256
    else m x.

Definition store8 (m : memory) (a v : Z) : memory :=
  fun x => if x =? a then v mod 256 else m x.

(** [memcpy] on regions that do not overlap, [memset]. *)
Definition memcpy (m : memory) (dst src n : Z) : memory :=
  fun x => if (dst <=? x) && (x <? dst + n) then m (src + (x - dst)) else m x.

Definition memset (m : memory) (dst c n : Z) : memory :=
  fun x => if (dst <=? x) && (x <? dst + n) then c mod 256 else m x.

(** ** Allocator state *)

(** The three globals of mm.c ([heap_start], [seg_list], [mini_list]), the
    heap bytes, and the state of the memory provider. *)
Record state : Type := mkState {
  mem : memory;
  mem_start_brk : Z;
  mem_brk : Z;
  mem_max_addr : Z;
  heap_start : Z;
  seg_list : list Z;
  mini_list : Z
}.

Definition set_mem (s : state) (m : memory) : state :=
  mkState m (mem_start_brk s) (mem_brk s) (mem_max_addr s)
          (heap_start s) (seg_list s) (mini_list s).

Definition set_brk (s : state) (b : Z) : state :=
  mkState (mem s) (mem_start_brk s) b (mem_max_addr s)
          (heap_start s) (seg_list s) (mini_list s).

Definition set_heap_start (s : state) (h : Z) : state :=
  mkState (mem s) (mem_start_brk s) (mem_brk s) (mem_max_addr s)
          h (seg_list s) (mini_list s).

Definition set_seg_list (s : state) (l : list Z) : state :=
  mkState (mem s) (mem_start_brk s) (mem_brk s) (mem_max_addr s)
          (heap_start s) l (mini_list s).

Definition set_mini_list (s : state) (p : Z) : state :=
  mkState (mem s) (mem_start_brk s) (mem_brk s) (mem_max_addr s)
          (heap_start s) (seg_list s) p.

Definition read (s : state) (a : Z) : Z := load64 (mem s) a.

Definition write (s : state) (a v : Z) : state :=
  set_mem s (store64 (mem s) a v).

Fixpoint upd (l : list Z) (i : nat) (v : Z) : list Z :=
  match l, i with
  | [], _ => []
  | _ :: t, O => v :: t
  | h :: t, S i' => h :: upd t i' v
  end.

Definition seg_get (s : state) (class : Z) : Z :=
  nth (Z.to_nat class) (seg_list s) NULL.

Definition seg_set (s : state) (class v : Z) : state :=
  set_seg_list s (upd (seg_list s) (Z.to_nat class) v).

(** ** The memory provider (memlib) *)

(** Modelled from the spec: memlib.c is not part of the sources.  The
    provider owns a region from [mem_start_brk] up to [mem_max_addr];
    [mem_heap_lo] and [mem_heap_hi] are the inclusive bounds of the
    committed heap, and [mem_sbrk] extends it by [incr] bytes and returns
    the low address of the new region, or fails with [(void * )-1] and
    changes nothing. *)
Definition mem_heap_lo (s : state) : Z := mem_start_brk s.

Definition mem_heap_hi (s : state) : Z := mem_brk s - 1.

Definition mem_sbrk (s : state) (incr : Z) : state * Z :=
  if (incr <? 0) || (mem_max_addr s <? mem_brk s + incr)
  then (s, SBRK_FAIL)
  else (set_brk s (mem_brk s + incr), mem_brk s).

(** ** Block accessors *)

Definition header (s : state) (block : Z) : Z := read s block.

Definition get_size (s : state) (block : Z) : Z :=
  extract_size (header s block).

Definition get_alloc (s : state) (block : Z) : bool :=
  extract_alloc (header s block).

Definition get_prev_alloc (s : state) (block : Z) : bool :=
  negb (Z.shiftr (Z.land (header s block) prev_alloc_mask) 1 =? 0).

Definition get_prev_mini (s : state) (block : Z) : bool :=
  negb (Z.shiftr (Z.land (header s block) prev_mini_mask) 2 =? 0).

(** The links of a free block live in its payload: [payload.prev] at offset
    8, [payload.next] at offset 16; a mini block has [next] at offset 8. *)
Definition payload_prev (s : state) (block : Z) : Z := read s (block + 8).
Definition payload_next (s : state) (block : Z) : Z := read s (block + 16).
Definition set_payload_prev (s : state) (block v : Z) : state :=
  write s (block + 8) v.
Definition set_payload_next (s : state) (block v : Z) : state :=
  write s (block + 16) v.
Definition mini_next (s : state) (block : Z) : Z := read s (block + 8).
Definition set_mini_next (s : state) (block v : Z) : state :=
  write s (block + 8) v.

Definition header_to_footer (s : state) (block : Z) : Z :=
  block + 8 + get_size s block - dsize.

Definition footer_to_header (s : state) (footer : Z) : Z :=
  footer + wsize - extract_size (read s footer).

Definition write_epilogue (s : state) (block : Z) (prev_alloc prev_mini : bool)
  : state :=
  write s block (pack_all 0 true prev_alloc prev_mini).

Definition find_next (s : state) (block : Z) : Z := block + get_size s block.

Definition write_pack (s : state) (block size : Z)
           (alloc prev_alloc prev_mini : bool) : state :=
  let s1 := write s block (pack_all size alloc prev_alloc prev_mini) in
  if negb alloc && negb (size =? min_block_size) then
    write s1 (header_to_footer s1 block)
          (pack_all size alloc prev_alloc prev_mini)
  else s1.

Definition is_mini_block (s : state) (block : Z) : bool :=
  get_size s block =? min_block_size.

Definition write_prev_alloc (s : state) (block : Z) (prev_alloc : bool)
  : state :=
  let s1 := if prev_alloc
            then write s block (Z.lor (header s block) prev_alloc_mask)
            else s in
  let alloc := get_alloc s1 block in
  let is_mini := is_mini_block s1 block in
  if negb alloc && negb is_mini then
    let footer := header_to_footer s1 block in
    if prev_alloc
    then write s1 footer (Z.lor (read s1 footer) prev_alloc_mask)
    else s1
  else s1.

Definition find_prev (s : state) (block : Z) : Z :=
  let prev_mini := get_prev_mini s block in
  if negb prev_mini then
    let footerp := find_prev_footer block in
    let not_head := extract_size (read s footerp) in
    if not_head =? 0 then NULL else footer_to_header s footerp
  else block - min_block_size.

(** ** Free lists *)

Definition is_head (s : state) (block : Z) : Z :=
  let class := find_class (get_size s block) in
  let curr := seg_get s class in
  if block =? curr then class else -1.

Definition insert_free (s : state) (block : Z) : state :=
  if is_mini_block s block then
    if negb (mini_list s =? NULL) then
      let s1 := set_mini_next s block (mini_list s) in
      set_mini_list s1 block
    else
      let s1 := set_mini_list s block in
      set_mini_next s1 (mini_list s1) NULL
  else
    let class := find_class (get_size s block) in
    let curr := seg_get s class in
    let s1 := seg_set s class block in
    if negb (curr =? NULL) then
      let s2 := set_payload_prev s1 curr block in
      set_payload_next s2 block curr
    else
      let s2 := set_payload_next s1 block NULL in
      set_payload_prev s2 block NULL.

(** The [while] loop of the mini branch of [remove_free]: advance [curr]
    until its successor is [mini_block].  A loop is given fuel; [None] means
    that it was not over when the fuel ran out. *)
Fixpoint mini_scan (fuel : nat) (s : state) (curr mini_block : Z) : option Z :=
  match fuel with
  | O => None
  | S f =>
      if negb (mini_next s curr =? mini_block)
      then mini_scan f s (mini_next s curr) mini_block
      else Some curr
  end.

Definition remove_free (fuel : nat) (s : state) (block : Z) : option state :=
  if is_mini_block s block then
    let mini_block := block in
    if mini_next s (mini_list s) =? NULL then
      Some (set_mini_list s NULL)
    else if mini_block =? mini_list s then
      Some (set_mini_list s (mini_next s (mini_list s)))
    else
      match mini_scan fuel s (mini_list s) mini_block with
      | None => None
      | Some curr => Some (set_mini_next s curr (mini_next s mini_block))
      end
  else
    let prev := payload_prev s block in
    let next := payload_next s block in
    let head_ind := is_head s block in
    let head := negb (head_ind =? -1) in
    let tail := payload_next s block =? NULL in
    if head then
      let class := head_ind in
      Some (seg_set s class (payload_next s block))
    else if tail then
      Some (set_payload_next s prev NULL)
    else
      let s1 := set_payload_next s prev next in
      Some (set_payload_prev s1 next prev).

(** ** Coalescing, heap extension, splitting *)

Definition coalesce_block (fuel : nat) (s : state) (block : Z)
  : option (state * Z) :=
  let current_size := get_size s block in
  let prev_alloc := get_prev_alloc s block in
  let prev := if negb prev_alloc then find_prev s block else NULL in
  let next := find_next s block in
  let next_alloc := get_alloc s next in
  let next_size := get_size s next in
  if prev_alloc && next_alloc then
    let s1 := write_pack s next next_size true false (is_mini_block s block) in
    Some (insert_free s1 block, block)
  else if negb prev_alloc && next_alloc then
    match remove_free fuel s prev with
    | None => None
    | Some s1 =>
        let total_size := wrap64 (current_size + get_size s1 prev) in
        let prev_prev_alloc := get_prev_alloc s1 prev in
        let prev_prev_mini := get_prev_mini s1 prev in
        let s2 := write_pack s1 prev total_size false
                             prev_prev_alloc prev_prev_mini in
        let s3 := write_pack s2 next next_size true false false in
        Some (insert_free s3 prev, prev)
    end
  else if prev_alloc && negb next_alloc then
    match remove_free fuel s next with
    | None => None
    | Some s1 =>
        let total_size := wrap64 (current_size + next_size) in
        let prev_mini := get_prev_mini s1 block in
        let s2 := write_pack s1 block total_size false true prev_mini in
        let next_next := find_next s2 next in
        let next_next_size := get_size s2 next_next in
        let next_next_alloc := get_alloc s2 next_next in
        let s3 := write_pack s2 next_next next_next_size next_next_alloc
                             false false in
        Some (insert_free s3 block, block)
    end
  else
    match remove_free fuel s prev with
    | None => None
    | Some s1 =>
        match remove_free fuel s1 next with
        | None => None
        | Some s2 =>
            let total_size :=
              wrap64 (wrap64 (current_size + get_size s2 prev)
                      + get_size s2 next) in
            let prev_prev_alloc := get_prev_alloc s2 prev in
            let prev_prev_mini := get_prev_mini s2 prev in
            let s3 := write_pack s2 prev total_size false
                                 prev_prev_alloc prev_prev_mini in
            let next_next := find_next s3 next in
            let next_next_size := get_size s3 next_next in
            let next_next_alloc := get_alloc s3 next_next in
            let s4 := write_pack s3 next_next next_next_size next_next_alloc
                                 false false in
            Some (insert_free s4 prev, prev)
        end
    end.

Definition extend_heap (fuel : nat) (s : state) (size : Z)
  : option (state * Z) :=
  let size := round_up size dsize in
  let '(s1, bp) := mem_sbrk s (to_intptr size) in
  if bp =? SBRK_FAIL then Some (s1, NULL)
  else
    let block := payload_to_header bp in
    let prev_alloc := get_prev_alloc s1 block in
    let prev_mini := get_prev_mini s1 block in
    let s2 := write_pack s1 block size false prev_alloc prev_mini in
    let block_next := find_next s2 block in
    let s3 := write_epilogue s2 block_next (get_alloc s2 block)
                             (is_mini_block s2 block) in
    coalesce_block fuel s3 block.

Definition split_block (s : state) (block asize : Z) : state * Z :=
  let block_size := get_size s block in
  let prev_alloc := get_prev_alloc s block in
  let prev_mini := get_prev_mini s block in
  if min_block_size <=? wrap64 (block_size - asize) then
    let s1 := write_pack s block asize true prev_alloc prev_mini in
    let block_next := find_next s1 block in
    let s2 := write_pack s1 block_next (wrap64 (block_size - asize))
                         false true (asize =? min_block_size) in
    let next_next := find_next s2 block_next in
    let s3 := write_prev_alloc s2 next_next false in
    (s3, block_next)
  else (s, NULL).

(** ** Placement *)

(** How the inner [while] loop of [find_fit] ends: by its [return best]
    ([Halt]) or by reaching the end of the list ([Finished]). *)
Inductive scan_result : Type :=
| Halt (best : Z)
| Finished (best : Z).

Fixpoint scan_class (fuel : nat) (s : state) (asize best block : Z)
  : option scan_result :=
  match fuel with
  | O => None
  | S f =>
      if block =? NULL then Some (Finished best)
      else if negb (get_alloc s block) && (asize <=? get_size s block) then
        if best =? NULL then
          scan_class f s asize block (payload_next s block)
        else if get_size s block <? get_size s best then
          scan_class f s asize block (payload_next s block)
        else Some (Halt best)
      else scan_class f s asize best (payload_next s block)
  end.

(** The [for] loop of [find_fit] over the classes [i], [i+1], ...; [n] is
    the number of classes left. *)
Fixpoint find_fit_from (fuel : nat) (s : state) (asize : Z) (n : nat) (i : Z)
  : option Z :=
  match n with
  | O => Some NULL
  | S n' =>
      match scan_class fuel s asize NULL (seg_get s i) with
      | None => None
      | Some (Halt best) => Some best
      | Some (Finished best) =>
          if negb (best =? NULL) then Some best
          else find_fit_from fuel s asize n' (i + 1)
      end
  end.

Definition find_fit (fuel : nat) (s : state) (asize : Z) : option Z :=
  if (asize =? min_block_size) && negb (mini_list s =? NULL) then
    Some (mini_list s)
  else
    let class := find_class asize in
    find_fit_from fuel s asize (Z.to_nat (LENGTH - class)) class.

(** ** The public interface *)

Definition mm_init (fuel : nat) (s : state) : option (state * bool) :=
  let '(s1, start) := mem_sbrk s (2 * wsize) in
  if start =? SBRK_FAIL then Some (s1, false)
  else
    let s2 := set_seg_list s1 (repeat NULL (Z.to_nat LENGTH)) in
    let s3 := set_mini_list s2 NULL in
    let s4 := write s3 start (pack_all 0 true false false) in
    let s5 := write s4 (start + 8) (pack_all 0 true true false) in
    let s6 := set_heap_start s5 (start + 8) in
    match extend_heap fuel s6 chunksize with
    | None => None
    | Some (s7, b) => Some (s7, negb (b =? NULL))
    end.

(** The part of [malloc] after the heap is known to be initialised. *)
Definition malloc_body (fuel : nat) (s : state) (size : Z)
  : option (state * Z) :=
  if size =? 0 then Some (s, NULL)
  else
    let asize := round_up (wrap64 (size + wsize)) dsize in
    match find_fit fuel s asize with
    | None => None
    | Some found =>
        let placed :=
          if found =? NULL then
            let extendsize := max asize chunksize in
            extend_heap fuel s extendsize
          else Some (s, found) in
        match placed with
        | None => None
        | Some (s1, block) =>
            if block =? NULL then Some (s1, NULL)
            else
              match remove_free fuel s1 block with
              | None => None
              | Some s2 =>
                  let block_size := get_size s2 block in
                  let prev_alloc := get_prev_alloc s2 block in
                  let prev_mini := get_prev_mini s2 block in
                  let s3 := write_pack s2 block block_size true
                                       prev_alloc prev_mini in
                  let next := find_next s3 block in
                  let s4 := write_prev_alloc s3 next true in
                  let '(s5, temp) := split_block s4 block asize in
                  if negb (temp =? NULL) then
                    match coalesce_block fuel s5 temp with
                    | None => None
                    | Some (s6, _) => Some (s6, header_to_payload block)
                    end
                  else Some (s5, header_to_payload block)
              end
        end
    end.

Definition malloc (fuel : nat) (s : state) (size : Z) : option (state * Z) :=
  if heap_start s =? NULL then
    match mm_init fuel s with
    | None => None
    | Some (s1, ok) =>
        if negb ok then Some (s1, NULL) else malloc_body fuel s1 size
    end
  else malloc_body fuel s size.

Definition free (fuel : nat) (s : state) (bp : Z) : option state :=
  if bp =? NULL then Some s
  else
    let block := payload_to_header bp in
    let block_size := get_size s block in
    let prev_alloc := get_prev_alloc s block in
    let prev_mini := get_prev_mini s block in
    let s1 := write_pack s block block_size false prev_alloc prev_mini in
    let next := find_next s1 block in
    let s2 := write_prev_alloc s1 next false in
    match coalesce_block fuel s2 block with
    | None => None
    | Some (s3, _) => Some s3
    end.

Definition realloc (fuel : nat) (s : state) (ptr size : Z)
  : option (state * Z) :=
  let block := payload_to_header ptr in
  if size =? 0 then
    match free fuel s ptr with
    | None => None
    | Some s1 => Some (s1, NULL)
    end
  else if ptr =? NULL then malloc fuel s size
  else
    match malloc fuel s size with
    | None => None
    | Some (s1, newptr) =>
        if newptr =? NULL then Some (s1, NULL)
        else
          let copysize := wrap64 (get_size s1 block - wsize) in
          let copysize := if size <? copysize then size else copysize in
          let s2 := set_mem s1 (memcpy (mem s1) newptr ptr copysize) in
          match free fuel s2 ptr with
          | None => None
          | Some s3 => Some (s3, newptr)
          end
    end.

Definition calloc (fuel : nat) (s : state) (elements size : Z)
  : option (state * Z) :=
  let asize := wrap64 (elements * size) in
  if elements =? 0 then Some (s, NULL)
  else if negb (asize / elements =? size) then Some (s, NULL)
  else
    match malloc fuel s asize with
    | None => None
    | Some (s1, bp) =>
        if bp =? NULL then Some (s1, NULL)
        else Some (set_mem s1 (memset (mem s1) bp 0 asize), bp)
    end.

(** ** Client traces *)

(** A client calls the four entry points and writes bytes into the
    allocations it holds. *)
Inductive call : Type :=
| Malloc (size : Z)
| Free (bp : Z)
| Realloc (ptr size : Z)
| Calloc (elements size : Z)
| Store (addr byte : Z).

(** The allocations the client holds: payload pointer and requested size. *)
Definition live_set : Type := list (Z * Z).

Fixpoint drop_live (p : Z) (live : live_set) : live_set :=
  match live with
  | [] => []
  | (q, n) :: t => if q =? p then t else (q, n) :: drop_live p t
  end.

Definition holds (live : live_set) (p : Z) : bool :=
  existsb (fun e => fst e =? p) live.

Definition add_live (p n : Z) (live : live_set) : live_set :=
  if p =? NULL then live else (p, n) :: live.

(** A call is well-formed when it frees or reallocates only what the client
    holds (or [NULL]) and writes only inside a held allocation. *)
Definition call_wf (live : live_set) (c : call) : bool :=
  match c with
  | Malloc _ => true
  | Free bp => (bp =? NULL) || holds live bp
  | Realloc ptr _ => (ptr =? NULL) || holds live ptr
  | Calloc _ _ => true
  | Store addr _ =>
      existsb (fun e => (fst e <=? addr) && (addr <? fst e + snd e)) live
  end.

(** The arguments are machine words. *)
Definition in_word (x : Z) : bool := (0 <=? x) && (x <? 2 ^ 64).

Definition call_args (c : call) : bool :=
  match c with
  | Malloc size => in_word size
  | Free bp => in_word bp
  | Realloc ptr size => in_word ptr && in_word size
  | Calloc elements size => in_word elements && in_word size
  | Store addr byte => in_word addr && (0 <=? byte) && (byte <? 256)
  end.

Definition exec (fuel : nat) (s : state) (live : live_set) (c : call)
  : option (state * live_set * Z) :=
  match c with
  | Malloc size =>
      match malloc fuel s size with
      | None => None
      | Some (s', p) => Some (s', add_live p size live, p)
      end
  | Free bp =>
      match free fuel s bp with
      | None => None
      | Some s' => Some (s', drop_live bp live, NULL)
      end
  | Realloc ptr size =>
      match realloc fuel s ptr size with
      | None => None
      | Some (s', p) =>
          if size =? 0 then Some (s', drop_live ptr live, p)
          else if ptr =? NULL then Some (s', add_live p size live, p)
          else if p =? NULL then Some (s', live, p)
          else Some (s', add_live p size (drop_live ptr live), p)
      end
  | Calloc elements size =>
      match calloc fuel s elements size with
      | None => None
      | Some (s', p) =>
          Some (s', add_live p (wrap64 (elements * size)) live, p)
      end
  | Store addr byte =>
      Some (set_mem s (store8 (mem s) addr byte), live, NULL)
  end.

(** The state before the first call: nothing committed, [heap_start] and
    the list heads zero. *)
Definition boot (m : memory) (lo max_addr : Z) : state :=
  mkState m lo lo max_addr NULL (repeat NULL (Z.to_nat LENGTH)) NULL.

(** What the allocator expects of the provider: the region starts at a
    16-byte boundary and lies in the lower half of the address space. *)
Definition provider_ok (lo max_addr : Z) : Prop :=
  0 <= lo /\ lo mod 16 = 0 /\ lo <= max_addr /\ max_addr < 2 ^ 63.

(** Runs a list of calls, stopping with [None] at a call that is not
    well-formed or that does not return within the fuel. *)
Fixpoint run (fuel : nat) (s : state) (live : live_set) (cs : list call)
  : option (state * live_set) :=
  match cs with
  | [] => Some (s, live)
  | c :: cs' =>
      if call_wf live c && call_args c then
        match exec fuel s live c with
        | None => None
        | Some (s', live', _) => run fuel s' live' cs'
        end
      else None
  end.

(** States reachable by well-formed calls that all satisfy [ok]. *)
Inductive reachable (ok : call -> bool) : state -> live_set -> Prop :=
| reach_boot : forall m lo max_addr,
    provider_ok lo max_addr ->
    reachable ok (boot m lo max_addr) []
| reach_call : forall s live c fuel s' live' r,
    reachable ok s live ->
    call_wf live c = true ->
    call_args c = true ->
    ok c = true ->
    exec fuel s live c = Some (s', live', r) ->
    reachable ok s' live'.

Definition any_call (c : call) : bool := true.

(** The calls whose size adjustment [round_up (size + wsize) dsize] does
    not wrap around. *)
Definition fits (size : Z) : bool := size + 23 <? 2 ^ 64.

Definition no_wrap (c : call) : bool :=
  match c with
  | Malloc size => fits size
  | Free _ => true
  | Realloc _ size => fits size
  | Calloc elements size =>
      (2 ^ 64 <=? elements * size) || fits (elements * size)
  | Store _ _ => true
  end.

(** * Specification-level definitions *)

(** Flags as numbers. *)
Definition flag (b : bool) : Z := if b then 1 else 0.

(** ** What the heap checker looks at *)

(** The epilogue header is the last word of the committed heap. *)
Definition epilogue (s : state) : Z := mem_heap_hi s - 7.

(** The blocks that the walk of [general_heap_checker] visits: it starts at
    [heap_start] and follows [find_next] until it meets the epilogue. *)
Inductive heap_block (s : state) : Z -> Prop :=
| hb_first : heap_start s <> NULL -> heap_block s (heap_start s)
| hb_next : forall b, heap_block s b -> b <> epilogue s ->
            heap_block s (find_next s b).

Definition check_non_consecutive_free (s : state) (block : Z) : bool :=
  let next := find_next s block in
  let curr_alloc := get_alloc s block in
  let next_alloc := get_alloc s next in
  if negb curr_alloc && negb next_alloc then false else true.

Definition check_block_size (s : state) (block : Z) : bool :=
  let size := get_size s block in
  if (size <? min_block_size) || negb (size mod 16 =? 0) then false else true.

(** No two neighbours are both free. *)
Definition no_adjacent_free (s : state) : Prop :=
  forall b, heap_block s b -> b <> epilogue s ->
            check_non_consecutive_free s b = true.

(** Each right neighbour (the epilogue included) records in its header
    whether the block before it is allocated and whether it is a mini
    block. *)
Definition flags_agree (s : state) : Prop :=
  forall b, heap_block s b -> b <> epilogue s ->
    get_prev_alloc s (find_next s b) = get_alloc s b /\
    get_prev_mini s (find_next s b) = (get_size s b =? 16).

Definition bucket0_empty (s : state) : Prop := seg_get s 0 = NULL.

(** ** The fit policy, in the words of the specification *)

(** A bucket as the list of the blocks that its [next] links chain. *)
Fixpoint next_chain (s : state) (head : Z) (l : list Z) : Prop :=
  match l with
  | [] => head = NULL
  | x :: l' => head = x /\ x <> NULL /\ next_chain s (payload_next s x) l'
  end.

(** A fit for [asize]: a free block of at least that size. *)
Definition is_fit (s : state) (asize b : Z) : bool :=
  negb (get_alloc s b) && (asize <=? get_size s b).

(** Bounded best fit over one bucket: walk the list and keep the smallest
    fit seen; stop at the first fit [b] for which [worse best b] holds once
    a best is set.  [worse] compares the sizes of the best so far and of
    the current candidate. *)
Fixpoint bounded_best_fit (worse : Z -> Z -> bool) (s : state) (asize : Z)
         (best : option Z) (l : list Z) : option Z :=
  match l with
  | [] => best
  | b :: l' =>
      if is_fit s asize b then
        match best with
        | None => bounded_best_fit worse s asize (Some b) l'
        | Some c =>
            if worse (get_size s c) (get_size s b) then Some c
            else
              bounded_best_fit worse s asize
                (Some (if get_size s b <? get_size s c then b else c)) l'
        end
      else bounded_best_fit worse s asize best l'
  end.

(** The first bucket with a fit decides. *)
Fixpoint first_fitting_bucket (worse : Z -> Z -> bool) (s : state) (asize : Z)
         (buckets : list (list Z)) : Z :=
  match buckets with
  | [] => NULL
  | l :: rest =>
      if existsb (is_fit s asize) l then
        match bounded_best_fit worse s asize None l with
        | Some b => b
        | None => NULL
        end
      else first_fitting_bucket worse s asize rest
  end.

Definition find_fit_spec (worse : Z -> Z -> bool) (s : state) (asize : Z)
           (buckets : list (list Z)) : Z :=
  if (asize =? 16) && negb (mini_list s =? NULL) then mini_list s
  else
    first_fitting_bucket worse s asize
      (skipn (Z.to_nat (find_class asize)) buckets).

(** "The current candidate is larger than the best so far". *)
Definition strictly_larger (best cur : Z) : bool := best <? cur.

(** "The current candidate is not smaller than the best so far". *)
Definition not_smaller (best cur : Z) : bool := best <=? cur.

(** ** The abstract heap *)

(** A block is allocated, free and on its list, or free and on no list (a
    block in the hands of [coalesce_block]). *)
Inductive status : Type := SAlloc | SFree | SHole.

Definition is_alloc (st : status) : bool :=
  match st with SAlloc => true | _ => false end.

(** What the header of a block says: its size, its status, and the two
    flags about the block before it. *)
Record ablock : Type := mkBlock {
  b_size : Z;
  b_st : status;
  b_pa : bool;
  b_pm : bool
}.

(** The heap as the list of its blocks, in address order. *)
Definition blocks : Type := list ablock.

Fixpoint end_addr (a : Z) (l : blocks) : Z :=
  match l with
  | [] => a
  | b :: l' => end_addr (a + b_size b) l'
  end.

Fixpoint layout (a : Z) (l : blocks) : list (Z * ablock) :=
  match l with
  | [] => []
  | b :: l' => (a, b) :: layout (a + b_size b) l'
  end.

Definition size_ok (sz : Z) : Prop := 16 <= sz /\ sz mod 16 = 0.

Definition sizes_ok (l : blocks) : Prop :=
  Forall (fun b => size_ok (b_size b)) l.

Definition no_holes (l : blocks) : Prop :=
  Forall (fun b => b_st b <> SHole) l.

Fixpoint no_adj_free (l : blocks) : Prop :=
  match l with
  | b1 :: ((b2 :: _) as l') =>
      (is_alloc (b_st b1) = true \/ is_alloc (b_st b2) = true) /\
      no_adj_free l'
  | _ => True
  end.

(** The flags in the headers, and in the epilogue ([epa], [epm]), describe
    the block before. *)
Fixpoint flags_ok (pa pm : bool) (l : blocks) (epa epm : bool) : Prop :=
  match l with
  | [] => epa = pa /\ epm = pm
  | b :: l' =>
      b_pa b = pa /\ b_pm b = pm /\
      flags_ok (is_alloc (b_st b)) (b_size b =? 16) l' epa epm
  end.

Definition hdr_word (b : ablock) : Z :=
  pack_all (b_size b) (is_alloc (b_st b)) (b_pa b) (b_pm b).

(** The boundary words of one block: its header, and a footer equal to
    the header when the block is free and not a mini block. *)
Definition block_at (m : memory) (x : Z) (b : ablock) : Prop :=
  load64 m x = hdr_word b /\
  (is_alloc (b_st b) = false -> b_size b <> 16 ->
   load64 m (x + b_size b - 8) = hdr_word b).

Definition mem_ok (m : memory) (hs : Z) (bl : blocks) : Prop :=
  forall x b, In (x, b) (layout hs bl) -> block_at m x b.

(** A bucket: [next] links from the head to [NULL], and each block but the
    head has the block before it in [prev]. *)
Fixpoint dchain (m : memory) (head : Z) (l : list Z) : Prop :=
  match l with
  | [] => head = NULL
  | x :: l' =>
      head = x /\ dchain m (load64 m (x + 16)) l' /\
      match l' with
      | [] => True
      | y :: _ => load64 m (y + 8) = x
      end
  end.

(** The mini list: [next] links only. *)
Fixpoint mchain (m : memory) (head : Z) (l : list Z) : Prop :=
  match l with
  | [] => head = NULL
  | x :: l' => head = x /\ mchain m (load64 m (x + 8)) l'
  end.

(** A free block of size [sz] on a list, at [x]. *)
Definition free_at (hs : Z) (bl : blocks) (x sz : Z) : Prop :=
  exists b, In (x, b) (layout hs bl) /\ b_st b = SFree /\ b_size b = sz.

(** An allocated block of size [sz] at [x]. *)
Definition alloc_at (hs : Z) (bl : blocks) (x sz : Z) : Prop :=
  exists b, In (x, b) (layout hs bl) /\ b_st b = SAlloc /\ b_size b = sz.

(** The free lists hold exactly the blocks that are [SFree]: those of size
    16 in the mini list, the others in the bucket of their class. *)
Record lists_ok (s : state) (bl : blocks) (fl : Z -> list Z) (ml : list Z)
  : Prop := mkListsOk {
  lo_len : length (seg_list s) = 14%nat;
  lo_chain : forall c, 0 <= c < 14 -> dchain (mem s) (seg_get s c) (fl c);
  lo_mem : forall c x, 0 <= c < 14 ->
      (In x (fl c) <->
       exists sz, free_at (heap_start s) bl x sz /\
                  sz <> 16 /\ find_class sz = c);
  lo_nodup : forall c, 0 <= c < 14 -> NoDup (fl c);
  lo_mchain : mchain (mem s) (mini_list s) ml;
  lo_mmem : forall x, In x ml <-> free_at (heap_start s) bl x 16;
  lo_mnodup : NoDup ml
}.

(** What the client holds are allocated blocks, each large enough for the
    size that was asked for. *)
Definition live_ok (hs : Z) (bl : blocks) (live : live_set) : Prop :=
  NoDup (map fst live) /\
  forall p n, In (p, n) live ->
    0 <= n /\ exists sz, alloc_at hs bl (p - 8) sz /\ n + 8 <= sz.

Definition bounds_ok (s : state) : Prop :=
  0 <= mem_start_brk s /\ mem_start_brk s mod 16 = 0 /\
  heap_start s = mem_start_brk s + 8 /\
  mem_brk s <= mem_max_addr s /\ mem_max_addr s < 2 ^ 63.

(** The boundary words in memory agree with the block list [bl] and the
    epilogue flags [epa], [epm]. *)
Record heap_mem (s : state) (bl : blocks) (epa epm : bool) : Prop :=
  mkHeapMem {
  hm_bounds : bounds_ok s;
  hm_sizes : sizes_ok bl;
  hm_mem : mem_ok (mem s) (heap_start s) bl;
  hm_end : end_addr (heap_start s) bl = mem_brk s - 8;
  hm_epi : load64 (mem s) (mem_brk s - 8) = pack_all 0 true epa epm;
  hm_pro : load64 (mem s) (mem_start_brk s) = pack_all 0 true false false
}.

(** The memory agrees with the block list and the free lists; the flags
    need not be consistent and blocks may be off their list. *)
Definition world (s : state) (bl : blocks) (epa epm : bool)
           (fl : Z -> list Z) (ml : list Z) : Prop :=
  heap_mem s bl epa epm /\ lists_ok s bl fl ml.

(** The invariant of an initialised heap with block list [bl]. *)
Record heap_ok (s : state) (live : live_set) (bl : blocks) : Prop := mkHeapOk {
  ho_world : exists epa epm fl ml,
      world s bl epa epm fl ml /\ flags_ok true false bl epa epm;
  ho_holes : no_holes bl;
  ho_adj : no_adj_free bl;
  ho_live : live_ok (heap_start s) bl live
}.

(** Before the first call nothing is committed. *)
Definition fresh (s : state) (live : live_set) : Prop :=
  heap_start s = NULL /\ mem_brk s = mem_start_brk s /\
  provider_ok (mem_start_brk s) (mem_max_addr s) /\ live = [] /\
  seg_list s = repeat NULL (Z.to_nat LENGTH).

Definition heap_inv (s : state) (live : live_set) : Prop :=
  fresh s live \/ exists bl, heap_ok s live bl.

(** Blocks other than the one at [x0] that are allocated stay allocated,
    with their size and the bytes of their payload. *)
Definition keeps (x0 : Z) (s : state) (bl : blocks) (s' : state)
           (bl' : blocks) : Prop :=
  forall x sz, x <> x0 -> alloc_at (heap_start s) bl x sz ->
    alloc_at (heap_start s') bl' x sz /\
    forall y, x + 8 <= y < x + sz -> mem s' y = mem s y.

(** ** Concrete heaps used in examples *)

(** Whether a computation with fuel came to its end. *)
Definition returns {A : Type} (r : option A) : bool :=
  match r with Some _ => true | None => false end.

Definition zero_memory : memory := fun _ => 0.

(** A provider whose region starts at 0x10000, before the first call. *)
Definition demo_boot : state := boot zero_memory 65536 1000000.

Definition state_after (cs : list call) : state :=
  match run 20 demo_boot [] cs with
  | Some (s, _) => s
  | None => demo_boot
  end.

Definition live_after (cs : list call) : live_set :=
  match run 20 demo_boot [] cs with
  | Some (_, live) => live
  | None => []
  end.

(** Three allocations, the first one freed, then a reallocation of the
    third with a size whose adjustment wraps around to zero. *)
Definition trace_wrapping_realloc : list call :=
  [Malloc 24; Malloc 24; Malloc 40; Free 65552; Realloc 65616 (2 ^ 64 - 8)].

(** A mini allocation followed by a request whose adjustment wraps. *)
Definition trace_wrapping_malloc : list call :=
  [Malloc 1; Malloc (2 ^ 64 - 8)].

(** A wrapping request hands out a block that stays on its free list; the
    client then writes, inside what it was given, a list link and a header
    that place a block at an address that is not 8 modulo 16. *)
Definition trace_forged_link : list call :=
  [Malloc 24; Malloc (2 ^ 64 - 8);
   Store 65592 68; Store 65594 1; Store 65604 32;
   Store 65612 40; Store 65614 1].

(** Five allocations with the second one freed. *)
Definition trace_five : list call :=
  [Malloc 24; Malloc 24; Malloc 24; Malloc 24; Malloc 24; Free 65584].

(** A wrapping request, two allocations, a header of size zero written
    through the first pointer, and the block under it freed. *)
Definition trace_zero_size : list call :=
  [Malloc 24; Malloc (2 ^ 64 - 8); Malloc 24; Malloc 24;
   Store 65608 3; Store 65616 72; Store 65618 1; Free 65616].

(** Blocks of 48, 48 and 32 bytes on the list of class 1, in that order. *)
Definition trace_three_free : list call :=
  [Malloc 40; Malloc 1; Malloc 40; Malloc 1; Malloc 24; Malloc 1;
   Free 65680; Free 65616; Free 65552].

Definition buckets_three_free : list (list Z) :=
  [[]; [65544; 65608; 65672]; []; []; []; []; []; [];
   [65720]; []; []; []; []; []].

(** Two blocks freed and taken again, then freed in the other order. *)
Definition trace_stale_prev : list call :=
  [Malloc 24; Malloc 24; Malloc 24; Malloc 24; Free 65616; Free 65552;
   Malloc 24; Malloc 24; Free 65552; Free 65616].

(** The state inside [malloc 24] on a new heap, at the call of
    [split_block]: the block found is marked allocated and its right
    neighbour has been told so. *)
Definition state_before_split : state :=
  match mm_init 20 demo_boot with
  | Some (s1, _) =>
      match remove_free 20 s1 65544 with
      | Some s2 =>
          let s3 := write_pack s2 65544 (get_size s2 65544) true
                               (get_prev_alloc s2 65544)
                               (get_prev_mini s2 65544) in
          write_prev_alloc s3 (find_next s3 65544) true
      | None => demo_boot
      end
  | None => demo_boot
  end.

(** The code keeps the best block so far in a pointer, [NULL] for none. *)
Definition best_of_ptr (best : Z) : option Z :=
  if best =? NULL then None else Some best.

Definition ptr_of_best (o : option Z) : Z :=
  match o with Some b => b | None => NULL end.

Definition scan_best (r : scan_result) : Z :=
  match r with Halt b => b | Finished b => b end.

(** [m'] is [m] outside the addresses [lo, hi). *)
Definition outside (m m' : memory) (lo hi : Z) : Prop :=
  forall y, y < lo \/ hi <= y -> m' y = m y.

(** The last word of a block that is a footer: free and not mini. *)
Definition foot (b : ablock) : Z :=
  if is_alloc (b_st b) || (b_size b =? 16) then 0 else 8.

(** The words of a free block that hold links: one for a mini block, two
    otherwise. *)
Definition links (sz : Z) : Z := if sz =? 16 then 16 else 24.

(** Two states with the same globals and provider state: only the heap
    bytes may differ. *)
Definition same_globals (s s' : state) : Prop :=
  heap_start s' = heap_start s /\ mem_brk s' = mem_brk s /\
  mem_start_brk s' = mem_start_brk s /\ mem_max_addr s' = mem_max_addr s /\
  seg_list s' = seg_list s /\ mini_list s' = mini_list s.

Definition no_free (l : blocks) : Prop :=
  forall b, In b l -> b_st b <> SFree.

(** Two states with the same heap boundaries. *)
Definition same_heap (s s' : state) : Prop :=
  heap_start s' = heap_start s /\ mem_brk s' = mem_brk s /\
  mem_start_brk s' = mem_start_brk s /\ mem_max_addr s' = mem_max_addr s.

(** The bucket lists with the list of class [c] replaced. *)
Definition set_bucket (fl : Z -> list Z) (c : Z) (l : list Z) : Z -> list Z :=
  fun j => if j =? c then l else fl j.

(** Whether the first and the last block of a stretch are allocated (an
    empty stretch counts as allocated: its neighbours are the prologue,
    the epilogue, or allocated blocks). *)
Definition first_alloc (l : blocks) : bool :=
  match l with [] => true | b :: _ => is_alloc (b_st b) end.

Fixpoint last_alloc (l : blocks) : bool :=
  match l with
  | [] => true
  | b :: l' => match l' with [] => is_alloc (b_st b) | _ => last_alloc l' end
  end.

(** The stretch [R] with the prev-flags of its first header rewritten. *)
Definition retag (fa fm : bool) (R : blocks) : blocks :=
  match R with
  | [] => []
  | n :: R0 => mkBlock (b_size n) (b_st n) fa fm :: R0
  end.

(** The flags of the epilogue after the header that follows a stretch is
    rewritten: they change when that header is the epilogue itself. *)
Definition retag_epi (f : bool) (R : blocks) (e : bool) : bool :=
  match R with [] => f | _ => e end.

(** What [coalesce_block] on the block at [x], of size [szb], achieves:
    a well-formed heap [bl'] in which the result [r] is a free block that
    covers the block at [x]. *)
Definition coalesced (s : state) (bl0 : blocks) (x szb : Z)
           (s' : state) (r : Z) (bl' : blocks) : Prop :=
  (exists epa' epm' fl' ml',
     world s' bl' epa' epm' fl' ml' /\ flags_ok true false bl' epa' epm') /\
  no_holes bl' /\ no_adj_free bl' /\ same_heap s s' /\
  (forall x0, keeps x0 s bl0 s' bl') /\
  exists rsz, free_at (heap_start s) bl' r rsz /\ r <= x /\ x + szb <= r + rsz.

(** The state in which [coalesce_block] is called on the block [h] between
    [L] and [R]: [h] is off the lists, and the flags in the header after
    it may be stale. *)
Record coalesce_pre (s : state) (L : blocks) (h : ablock) (R : blocks)
       (epa epm : bool) (fl : Z -> list Z) (ml : list Z) : Prop :=
  mkCoalescePre {
  cp_world : world s (L ++ h :: R) epa epm fl ml;
  cp_hole : b_st h = SHole;
  cp_flags_l : flags_ok true false L (b_pa h) (b_pm h);
  cp_flags_r : exists fa0 fm0, flags_ok fa0 fm0 R epa epm;
  cp_holes_l : no_holes L;
  cp_holes_r : no_holes R;
  cp_adj_l : no_adj_free L;
  cp_adj_r : no_adj_free R
}.

(** A heap at rest: consistent flags, every free block on its list, no two
    free blocks next to each other. *)
Definition tidy (s : state) (bl : blocks) : Prop :=
  (exists epa epm fl ml,
     world s bl epa epm fl ml /\ flags_ok true false bl epa epm) /\
  no_holes bl /\ no_adj_free bl.

(** The heap of [s'] is that of [s], possibly extended. *)
Definition grown (s s' : state) : Prop :=
  heap_start s' = heap_start s /\ mem_start_brk s' = mem_start_brk s /\
  mem_max_addr s' = mem_max_addr s /\ mem_brk s <= mem_brk s'.

(** Fuel that suffices for every loop over a free list: a list holds at
    most one block for each 16 bytes of the region. *)
Definition enough (fuel : nat) (s : state) : Prop :=
  mem_max_addr s < Z.of_nat fuel.

(** What [find_fit] may return for a request of [asize] bytes: nothing, or
    a listed free block that is large enough. *)
Definition fit_for (s : state) (bl : blocks) (asize r : Z) : Prop :=
  r = NULL \/ exists sz, free_at (heap_start s) bl r sz /\ asize <= sz.

(** The end of [malloc], from the point where the block found is off its
    list: mark it allocated, split it, and give the rest back. *)
Definition place (fuel : nat) (s2 : state) (block asize : Z) : option state :=
  let block_size := get_size s2 block in
  let prev_alloc := get_prev_alloc s2 block in
  let prev_mini := get_prev_mini s2 block in
  let s3 := write_pack s2 block block_size true prev_alloc prev_mini in
  let next := find_next s3 block in
  let s4 := write_prev_alloc s3 next true in
  let '(s5, temp) := split_block s4 block asize in
  if negb (temp =? NULL) then
    match coalesce_block fuel s5 temp with
    | None => None
    | Some (s6, _) => Some s6
    end
  else Some s5.

(** The pointer [p] is a new allocation of at least [size] bytes in the
    heap [bl'], where the heap [bl] had no allocation. *)
Definition allocated (s : state) (bl bl' : blocks) (size p : Z) : Prop :=
  size <> 0 /\ (forall sz0, ~ alloc_at (heap_start s) bl (p - 8) sz0) /\
  exists sz, alloc_at (heap_start s) bl' (p - 8) sz /\ size + 8 <= sz.

(** The bytes the client holds are the same in [s'] as in [s]. *)
Definition payloads_kept (s s' : state) (live : live_set) : Prop :=
  forall q n y, In (q, n) live -> q <= y < q + n -> mem s' y = mem s y.

(** The provider's region is the same. *)
Definition same_region (s s' : state) : Prop :=
  mem_start_brk s' = mem_start_brk s /\ mem_max_addr s' = mem_max_addr s.

(** What a call of [malloc] with [size] leaves: the invariant, the bytes
    the client holds, and a result that is [NULL] or a new pointer,
    aligned and inside the heap. *)
Definition malloc_res (s : state) (live : live_set) (size : Z)
           (s' : state) (p : Z) : Prop :=
  heap_inv s' (add_live p size live) /\ same_region s s' /\
  payloads_kept s s' live /\
  (p <> NULL ->
   size <> 0 /\ p mod 16 = 0 /\ mem_heap_lo s' <= p /\
   p + size <= mem_heap_hi s' /\ forall n, ~ In (p, n) live) /\
  (p = NULL -> heap_start s <> NULL -> s' = s).

(** What a call of [free] leaves. *)
Definition free_res (s : state) (live : live_set) (bp : Z) (s' : state)
  : Prop :=
  heap_inv s' (drop_live bp live) /\ same_region s s' /\
  payloads_kept s s' (drop_live bp live) /\
  (bp = NULL -> s' = s).

(** [realloc] moved the allocation at [ptr], a block of [S] bytes, to the
    new allocation [p]. *)
Definition moved (s : state) (bl : blocks) (ptr size S : Z)
           (s' : state) (p : Z) (bl' : blocks) : Prop :=
  allocated s bl bl' size p /\ keeps (ptr - 8) s bl s' bl' /\
  forall i, 0 <= i < Z.min size (S - 8) -> mem s' (p + i) = mem s (ptr + i).

(** What the client holds after [realloc ptr size] returned [p]. *)
Definition realloc_live (live : live_set) (ptr size p : Z) : live_set :=
  if size =? 0 then drop_live ptr live
  else if ptr =? NULL then add_live p size live
  else if p =? NULL then live
  else add_live p size (drop_live ptr live).

(** What a call of [realloc] leaves; [realloc] of a held pointer to a new
    size fails and changes nothing, or moves the first bytes. *)
Definition realloc_res (s : state) (live : live_set) (ptr size : Z)
           (s' : state) (p : Z) : Prop :=
  heap_inv s' (realloc_live live ptr size p) /\ same_region s s' /\
  (forall q k y, In (q, k) live -> q <> ptr -> q <= y < q + k ->
                 mem s' y = mem s y) /\
  (size = 0 -> p = NULL) /\
  (size <> 0 -> ptr <> NULL ->
   (p = NULL /\ s' = s) \/
   (p <> NULL /\ p mod 16 = 0 /\ mem_heap_lo s' <= p /\
    p + size <= mem_heap_hi s' /\
    forall i, 0 <= i < Z.min size (get_size s (ptr - 8) - 8) ->
              mem s' (p + i) = mem s (ptr + i))).

(** What a call of [calloc] leaves: [NULL] and nothing changed when the
    count is zero or the product overflows, else as [malloc] of the
    product, with the new payload zeroed. *)
Definition calloc_res (s : state) (live : live_set) (elements size : Z)
           (s' : state) (p : Z) : Prop :=
  heap_inv s' (add_live p (wrap64 (elements * size)) live) /\
  same_region s s' /\ payloads_kept s s' live /\
  (elements = 0 \/ 2 ^ 64 <= elements * size -> p = NULL /\ s' = s) /\
  (p <> NULL ->
   elements * size < 2 ^ 64 /\
   p mod 16 = 0 /\ mem_heap_lo s' <= p /\
   p + elements * size <= mem_heap_hi s' /\
   (forall n, ~ In (p, n) live) /\
   forall i, 0 <= i < elements * size -> mem s' (p + i) = 0).

(** ** The heap checker *)

(** [check_prologue_epilogue]: both boundary words are allocated and of
    size zero. *)
Definition check_prologue_epilogue (s : state) : bool :=
  let prologue := mem_heap_lo s in
  let epilogue := mem_heap_hi s - 7 in
  let pro_alloc_true := Bool.eqb (extract_alloc (read s prologue)) true in
  if negb pro_alloc_true then false
  else
    let epi_alloc_true := Bool.eqb (get_alloc s epilogue) true in
    if negb epi_alloc_true then false
    else
      let pro_size := extract_size (read s prologue) in
      if negb (pro_size =? 0) then false
      else
        let epi_size := get_size s epilogue in
        if negb (epi_size =? 0) then false else true.

Definition check_alignment (block : Z) : bool :=
  let is_aligned := header_to_payload block mod 16 =? 0 in
  if negb is_aligned then false else true.

Definition check_boundary (s : state) (block : Z) : bool :=
  if mem_heap_hi s <? block then false
  else if block <? mem_heap_lo s then false
  else true.

Definition check_header_footer_match (s : state) (block : Z) : bool :=
  let curr_alloc := get_alloc s block in
  let header := read s block in
  let footer := read s (header_to_footer s block) in
  let next := find_next s block in
  let is_mini := get_prev_mini s next in
  if negb curr_alloc && negb is_mini && negb (header =? footer) then false
  else true.

(** The [while] loop of [general_heap_checker], from the block [curr]. *)
Fixpoint heap_walk (fuel : nat) (s : state) (curr epilogue : Z)
  : option bool :=
  match fuel with
  | O => None
  | S f =>
      if curr =? epilogue then Some true
      else if negb (check_alignment curr) then Some false
      else if negb (check_boundary s curr) then Some false
      else if negb (check_block_size s curr) then Some false
      else if negb (check_header_footer_match s curr) then Some false
      else if negb (check_non_consecutive_free s curr) then Some false
      else heap_walk f s (find_next s curr) epilogue
  end.

Definition general_heap_checker (fuel : nat) (s : state) : option bool :=
  if negb (check_prologue_epilogue s) then Some false
  else heap_walk fuel s (heap_start s) (mem_heap_hi s - 7).

(** The [while] loop of [check_list] over the bucket of class [i]. *)
Fixpoint check_bucket (fuel : nat) (s : state) (i curr : Z) : option bool :=
  match fuel with
  | O => None
  | S f =>
      if curr =? NULL then Some true
      else if mem_heap_hi s <? curr then Some false
      else if curr <? mem_heap_lo s then Some false
      else
        let next := payload_next s curr in
        if negb (next =? NULL) && negb (payload_prev s next =? curr)
        then Some false
        else
          let class := find_class (get_size s curr) in
          if negb (class =? i) then Some false
          else check_bucket f s i (payload_next s curr)
  end.

(** The [for] loop of [check_list] over the classes [i], [i+1], ...; [n]
    is the number of classes left. *)
Fixpoint check_list_from (fuel : nat) (s : state) (n : nat) (i : Z)
  : option bool :=
  match n with
  | O => Some true
  | S n' =>
      match check_bucket fuel s i (seg_get s i) with
      | None => None
      | Some false => Some false
      | Some true => check_list_from fuel s n' (i + 1)
      end
  end.

Definition check_list (fuel : nat) (s : state) : option bool :=
  check_list_from fuel s (Z.to_nat LENGTH) 0.

Definition mm_checkheap (fuel : nat) (s : state) (line : Z) : option bool :=
  match general_heap_checker fuel s with
  | None => None
  | Some false => Some false
  | Some true =>
      match check_list fuel s with
      | None => None
      | Some false => Some false
      | Some true => Some true
      end
  end.

(** Three allocations, one freed and taken again by [calloc], and a byte
    written by the client. *)
Definition trace_mixed : list call :=
  [Malloc 24; Malloc 24; Malloc 40; Free 65584; Calloc 2 8; Store 65620 7].

(** A heap with one block of 4096 bytes between prologue and epilogue,
    built by hand: free and on no list, free and at the head of its
    bucket, and allocated. *)
Definition one_block (alloc : bool) : state :=
  let s0 := write demo_boot 65536 (pack_all 0 true false false) in
  let s1 := write_pack s0 65544 4096 alloc true false in
  let s2 := write_epilogue s1 69640 alloc false in
  set_heap_start (set_brk s2 69648) 65544.

Definition hole_state : state := one_block false.

Definition listed_state : state := insert_free hole_state 65544.

Definition alloc_state : state := one_block true.

Definition bucket_4096 : Z -> list Z :=
  fun c => if c =? 9 then [65544] else [].

(** The provider cannot extend the heap by [size] bytes, rounded up: the
    increment is negative as an [intptr_t], or the region is exhausted. *)
Definition sbrk_fails (s : state) (size : Z) : Prop :=
  2 ^ 63 <= round_up size dsize \/
  mem_max_addr s < mem_brk s + round_up size dsize.

(** * Words and bytes *)

Ltac Zify.zify_post_hook ::= Z.to_euclidean_division_equations.

Lemma wrap64_small : forall x, 0 <= x < 2 ^ 64 -> wrap64 x = x.
Proof. intros x H. unfold wrap64. apply Z.mod_small; exact H. Qed.

Lemma wrap64_range : forall x, 0 <= wrap64 x < 2 ^ 64.
Proof. intros x. unfold wrap64. apply Z.mod_pos_bound. reflexivity. Qed.

Lemma land_bit : forall w k, 0 <= k ->
  Z.land w (2 ^ k) = if Z.testbit w k then 2 ^ k else 0.
Proof.
  intros w k Hk. apply Z.bits_inj'. intros n Hn.
  rewrite Z.land_spec, Z.pow2_bits_eqb by exact Hk.
  destruct (Z.eqb_spec k n) as [->|Hne].
  - destruct (Z.testbit w n) eqn:E; simpl.
    + rewrite Z.pow2_bits_true by exact Hn. reflexivity.
    + rewrite Z.bits_0. reflexivity.
  - rewrite andb_false_r.
    destruct (Z.testbit w k).
    + rewrite Z.pow2_bits_false by congruence. reflexivity.
    + rewrite Z.bits_0. reflexivity.
Qed.

Lemma testbit_div : forall w k, 0 <= k ->
  Z.testbit w k = ((w / 2 ^ k) mod 2 =? 1).
Proof.
  intros w k Hk. rewrite Z.testbit_odd, Z.shiftr_div_pow2 by exact Hk.
  rewrite Zodd_mod. reflexivity.
Qed.

Lemma extract_alloc_arith : forall w, extract_alloc w = (w mod 2 =? 1).
Proof.
  intros w. unfold extract_alloc, alloc_mask.
  change 1 with (2 ^ 0) at 1. rewrite land_bit by lia.
  rewrite testbit_div by lia. change (2 ^ 0) with 1. rewrite Z.div_1_r.
  destruct (w mod 2 =? 1); reflexivity.
Qed.

Lemma prev_alloc_arith : forall w,
  negb (Z.shiftr (Z.land w prev_alloc_mask) 1 =? 0) = ((w / 2) mod 2 =? 1).
Proof.
  intros w. unfold prev_alloc_mask.
  change 2 with (2 ^ 1) at 1. rewrite land_bit by lia.
  rewrite testbit_div by lia. change (2 ^ 1) with 2.
  destruct ((w / 2) mod 2 =? 1); reflexivity.
Qed.

Lemma prev_mini_arith : forall w,
  negb (Z.shiftr (Z.land w prev_mini_mask) 2 =? 0) = ((w / 4) mod 2 =? 1).
Proof.
  intros w. unfold prev_mini_mask.
  change 4 with (2 ^ 2) at 1. rewrite land_bit by lia.
  rewrite testbit_div by lia. change (2 ^ 2) with 4.
  destruct ((w / 4) mod 2 =? 1); reflexivity.
Qed.

Lemma extract_size_arith : forall w, 0 <= w < 2 ^ 64 ->
  extract_size w = 16 * (w / 16).
Proof.
  intros w Hw. unfold extract_size, size_mask.
  assert (Hsplit : w = Z.lor (Z.land w (2 ^ 64 - 16)) (Z.land w 15)).
  { rewrite <- Z.land_lor_distr_r.
    change (Z.lor (2 ^ 64 - 16) 15) with (Z.ones 64).
    rewrite Z.land_ones by lia. symmetry. apply Z.mod_small. exact Hw. }
  assert (Hdisj : Z.land (Z.land w (2 ^ 64 - 16)) (Z.land w 15) = 0).
  { rewrite Z.land_assoc, (Z.land_comm (Z.land w _) w), Z.land_assoc.
    rewrite <- Z.land_assoc.
    change (Z.land (2 ^ 64 - 16) 15) with 0. apply Z.land_0_r. }
  rewrite <- Z.lxor_lor, <- Z.add_nocarry_lxor in Hsplit by exact Hdisj.
  change 15 with (Z.ones 4) in Hsplit. rewrite Z.land_ones in Hsplit by lia.
  change (2 ^ 4) with 16 in Hsplit.
  pose proof (Z.div_mod w 16). lia.
Qed.

Lemma lor_bit_arith : forall w k, 0 <= k ->
  Z.lor w (2 ^ k) = if Z.testbit w k then w else w + 2 ^ k.
Proof.
  intros w k Hk.
  pose proof (Z.add_lor_land w (2 ^ k)) as H.
  rewrite land_bit in H by exact Hk.
  destruct (Z.testbit w k); lia.
Qed.

Lemma pack_all_arith : forall size a pa pm,
  0 <= size -> size mod 16 = 0 ->
  pack_all size a pa pm = size + flag a + 2 * flag pa + 4 * flag pm.
Proof.
  intros size a pa pm H0 Hm. unfold pack_all, alloc_mask, prev_alloc_mask,
    prev_mini_mask.
  assert (Hbit : forall w k p, 0 <= k -> p = 2 ^ k -> (w / p) mod 2 = 0 ->
                 Z.lor w p = w + p).
  { intros w k p Hk -> Hz. rewrite lor_bit_arith by exact Hk.
    rewrite testbit_div by exact Hk. rewrite Hz. reflexivity. }
  assert (E1 : (if a then Z.lor size 1 else size) = size + flag a).
  { destruct a; simpl; [|lia]. apply (Hbit size 0 1); [lia | reflexivity | lia]. }
  rewrite E1.
  assert (E2 : (if pa then Z.lor (size + flag a) 2 else size + flag a)
               = size + flag a + 2 * flag pa).
  { destruct pa; simpl; [|lia]. apply (Hbit _ 1 2); [lia | reflexivity | ].
    destruct a; simpl; lia. }
  rewrite E2.
  destruct pm; simpl; [|lia]. apply (Hbit _ 2 4); [lia | reflexivity | ].
  destruct a, pa; simpl; lia.
Qed.

(** A boundary word built by [pack_all] from a size that is a multiple of
    16 gives its four components back. *)
Section Pack.
Variables (size : Z) (a pa pm : bool).
Hypothesis Hsize : 0 <= size < 2 ^ 64.
Hypothesis Hmul : size mod 16 = 0.

Lemma pack_all_range : 0 <= pack_all size a pa pm < 2 ^ 64.
Proof.
  rewrite pack_all_arith by lia.
  destruct a, pa, pm; unfold flag; lia.
Qed.

Lemma extract_size_pack : extract_size (pack_all size a pa pm) = size.
Proof.
  rewrite extract_size_arith by apply pack_all_range.
  rewrite pack_all_arith by lia.
  destruct a, pa, pm; unfold flag; lia.
Qed.

Lemma extract_alloc_pack : extract_alloc (pack_all size a pa pm) = a.
Proof.
  rewrite extract_alloc_arith, pack_all_arith by lia.
  destruct a, pa, pm; unfold flag; simpl; lia.
Qed.

Lemma prev_alloc_pack :
  negb (Z.shiftr (Z.land (pack_all size a pa pm) prev_alloc_mask) 1 =? 0)
  = pa.
Proof.
  rewrite prev_alloc_arith, pack_all_arith by lia.
  destruct a, pa, pm; unfold flag; simpl; lia.
Qed.

Lemma prev_mini_pack :
  negb (Z.shiftr (Z.land (pack_all size a pa pm) prev_mini_mask) 2 =? 0)
  = pm.
Proof.
  rewrite prev_mini_arith, pack_all_arith by lia.
  destruct a, pa, pm; unfold flag; simpl; lia.
Qed.

Lemma lor_prev_alloc_pack :
  Z.lor (pack_all size a pa pm) prev_alloc_mask = pack_all size a true pm.
Proof.
  unfold prev_alloc_mask. change 2 with (2 ^ 1).
  rewrite lor_bit_arith, testbit_div by lia.
  rewrite !pack_all_arith by lia. change (2 ^ 1) with 2.
  destruct a, pa, pm; unfold flag; simpl;
    match goal with |- context [?x =? 1] => destruct (Z.eqb_spec x 1) end;
    lia.
Qed.
End Pack.

(** ** Loads and stores *)

Lemma load64_range : forall m a, 0 <= load64 m a < 2 ^ 64.
Proof.
  intros m a. unfold load64.
  pose proof (Z.mod_pos_bound (m a) 256 eq_refl).
  pose proof (Z.mod_pos_bound (m (a + 1)) 256 eq_refl).
  pose proof (Z.mod_pos_bound (m (a + 2)) 256 eq_refl).
  pose proof (Z.mod_pos_bound (m (a + 3)) 256 eq_refl).
  pose proof (Z.mod_pos_bound (m (a + 4)) 256 eq_refl).
  pose proof (Z.mod_pos_bound (m (a + 5)) 256 eq_refl).
  pose proof (Z.mod_pos_bound (m (a + 6)) 256 eq_refl).
  pose proof (Z.mod_pos_bound (m (a + 7)) 256 eq_refl).
  generalize dependent (m a mod 256).
  generalize dependent (m (a + 1) mod 256).
  generalize dependent (m (a + 2) mod 256).
  generalize dependent (m (a + 3) mod 256).
  generalize dependent (m (a + 4) mod 256).
  generalize dependent (m (a + 5) mod 256).
  generalize dependent (m (a + 6) mod 256).
  generalize dependent (m (a + 7) mod 256).
  intros. lia.
Qed.

(** A load sees only the eight bytes it covers. *)
Lemma load64_ext : forall m m' a,
  (forall y, a <= y < a + 8 -> m' y = m y) -> load64 m' a = load64 m a.
Proof.
  intros m m' a H. unfold load64.
  rewrite (H a), (H (a + 1)), (H (a + 2)), (H (a + 3)), (H (a + 4)),
    (H (a + 5)), (H (a + 6)), (H (a + 7)) by lia.
  reflexivity.
Qed.

Lemma store64_other : forall m a v y,
  y < a \/ a + 8 <= y -> store64 m a v y = m y.
Proof.
  intros m a v y H. unfold store64.
  destruct (Z.leb_spec a y), (Z.ltb_spec y (a + 8)); simpl; try reflexivity.
  lia.
Qed.

Lemma store64_byte : forall m a v i,
  0 <= i < 8 -> store64 m a v (a + i) = (v / 2 ^ (8 * i)) mod 256.
Proof.
  intros m a v i H. unfold store64.
  destruct (Z.leb_spec a (a + i)), (Z.ltb_spec (a + i) (a + 8)); simpl;
    try lia.
  replace (a + i - a) with i by lia. reflexivity.
Qed.

Lemma bytes_of_word : forall v, 0 <= v < 2 ^ 64 ->
  (v / 2 ^ (8 * 0)) mod 256
  + 2 ^ 8 * ((v / 2 ^ (8 * 1)) mod 256)
  + 2 ^ 16 * ((v / 2 ^ (8 * 2)) mod 256)
  + 2 ^ 24 * ((v / 2 ^ (8 * 3)) mod 256)
  + 2 ^ 32 * ((v / 2 ^ (8 * 4)) mod 256)
  + 2 ^ 40 * ((v / 2 ^ (8 * 5)) mod 256)
  + 2 ^ 48 * ((v / 2 ^ (8 * 6)) mod 256)
  + 2 ^ 56 * ((v / 2 ^ (8 * 7)) mod 256) = v.
Proof.
  intros v Hv.
  assert (step : forall x k k', 0 <= k -> k' = k + 8 ->
            x / 2 ^ k = (x / 2 ^ k') * 256 + (x / 2 ^ k) mod 256).
  { intros x k k' Hk ->. rewrite Z.pow_add_r by lia.
    rewrite <- Z.div_div by lia. change (2 ^ 8) with 256.
    pose proof (Z.div_mod (x / 2 ^ k) 256). lia. }
  pose proof (step v 0 8 ltac:(lia) eq_refl) as S0.
  pose proof (step v 8 16 ltac:(lia) eq_refl) as S1.
  pose proof (step v 16 24 ltac:(lia) eq_refl) as S2.
  pose proof (step v 24 32 ltac:(lia) eq_refl) as S3.
  pose proof (step v 32 40 ltac:(lia) eq_refl) as S4.
  pose proof (step v 40 48 ltac:(lia) eq_refl) as S5.
  pose proof (step v 48 56 ltac:(lia) eq_refl) as S6.
  pose proof (step v 56 64 ltac:(lia) eq_refl) as S7.
  assert (Htop : v / 2 ^ 64 = 0) by (apply Z.div_small; lia).
  rewrite Htop in S7.
  change (8 * 0) with 0. change (8 * 1) with 8. change (8 * 2) with 16.
  change (8 * 3) with 24. change (8 * 4) with 32. change (8 * 5) with 40.
  change (8 * 6) with 48. change (8 * 7) with 56.
  set (d0 := v / 2 ^ 0) in *. set (d1 := v / 2 ^ 8) in *.
  set (d2 := v / 2 ^ 16) in *. set (d3 := v / 2 ^ 24) in *.
  set (d4 := v / 2 ^ 32) in *. set (d5 := v / 2 ^ 40) in *.
  set (d6 := v / 2 ^ 48) in *. set (d7 := v / 2 ^ 56) in *.
  assert (E0 : d0 = v) by (subst d0; change (2 ^ 0) with 1; apply Z.div_1_r).
  clearbody d0 d1 d2 d3 d4 d5 d6 d7.
  set (r0 := d0 mod 256) in *. set (r1 := d1 mod 256) in *.
  set (r2 := d2 mod 256) in *. set (r3 := d3 mod 256) in *.
  set (r4 := d4 mod 256) in *. set (r5 := d5 mod 256) in *.
  set (r6 := d6 mod 256) in *. set (r7 := d7 mod 256) in *.
  clearbody r0 r1 r2 r3 r4 r5 r6 r7.
  lia.
Qed.

Lemma load64_store64_same : forall m a v,
  0 <= v < 2 ^ 64 -> load64 (store64 m a v) a = v.
Proof.
  intros m a v Hv. unfold load64.
  pose proof (store64_byte m a v 0 ltac:(lia)) as E0.
  replace (a + 0) with a in E0 by lia. rewrite E0.
  rewrite !store64_byte by lia.
  rewrite !Z.mod_mod by lia.
  apply bytes_of_word. exact Hv.
Qed.

Lemma load64_store64_other : forall m a v b,
  b + 8 <= a \/ a + 8 <= b -> load64 (store64 m a v) b = load64 m b.
Proof.
  intros m a v b H. apply load64_ext. intros y Hy.
  apply store64_other. lia.
Qed.

(** * Runs and reachable states *)

Lemma run_reachable : forall ok cs fuel s live s' live',
  reachable ok s live ->
  forallb ok cs = true ->
  run fuel s live cs = Some (s', live') ->
  reachable ok s' live'.
Proof.
  intros ok cs. induction cs as [|c cs IH]; intros fuel s live s' live' Hr Hok Hrun.
  - simpl in Hrun. injection Hrun as <- <-. exact Hr.
  - simpl in Hrun, Hok. apply andb_prop in Hok as [Hc Hcs].
    destruct (call_wf live c && call_args c) eqn:Hwf; [|discriminate].
    apply andb_prop in Hwf as [Hwf Hargs].
    destruct (exec fuel s live c) as [[[s1 live1] r]|] eqn:He; [|discriminate].
    eapply IH; [|exact Hcs|exact Hrun].
    eapply reach_call; eauto.
Qed.

Lemma demo_provider_ok : provider_ok 65536 1000000.
Proof. unfold provider_ok. repeat split; try lia; reflexivity. Qed.

Lemma reachable_after : forall ok cs,
  forallb ok cs = true ->
  returns (run 20 demo_boot [] cs) = true ->
  reachable ok (state_after cs) (live_after cs).
Proof.
  intros ok cs Hok Hrun. unfold state_after, live_after.
  destruct (run 20 demo_boot [] cs) as [[s l]|] eqn:E; [|discriminate].
  eapply run_reachable; [|exact Hok|exact E].
  apply reach_boot. exact demo_provider_ok.
Qed.

Lemma heap_block_first_demo : forall cs,
  heap_start (state_after cs) = 65544 -> heap_block (state_after cs) 65544.
Proof.
  intros cs H. pose proof (hb_first (state_after cs)) as Hb.
  rewrite H in Hb. apply Hb. discriminate.
Qed.

(** * Counterexamples: requests whose size adjustment wraps *)

Lemma adjacent_free_after_wrapping_realloc :
  ~ (forall s live, reachable any_call s live -> no_adjacent_free s).
Proof.
  intros H.
  assert (Hr : reachable any_call (state_after trace_wrapping_realloc)
                         (live_after trace_wrapping_realloc)).
  { apply reachable_after; [reflexivity|vm_compute; reflexivity]. }
  specialize (H _ _ Hr 65544).
  assert (Hc : check_non_consecutive_free
                 (state_after trace_wrapping_realloc) 65544 = true).
  { apply H.
    - apply heap_block_first_demo. vm_compute. reflexivity.
    - vm_compute. discriminate. }
  vm_compute in Hc. discriminate.
Qed.

Lemma flags_disagree_after_wrapping_malloc :
  ~ (forall s live, reachable any_call s live -> flags_agree s).
Proof.
  intros H.
  assert (Hr : reachable any_call (state_after trace_wrapping_malloc)
                         (live_after trace_wrapping_malloc)).
  { apply reachable_after; [reflexivity|vm_compute; reflexivity]. }
  specialize (H _ _ Hr 65544).
  assert (Hc : get_prev_mini (state_after trace_wrapping_malloc)
                 (find_next (state_after trace_wrapping_malloc) 65544)
               = (get_size (state_after trace_wrapping_malloc) 65544 =? 16)).
  { apply H.
    - apply heap_block_first_demo. vm_compute. reflexivity.
    - vm_compute. discriminate. }
  vm_compute in Hc. discriminate.
Qed.

Lemma misaligned_pointer_after_wrapping_malloc :
  ~ (forall s live fuel req s' p,
       reachable any_call s live -> 0 < req < 2 ^ 64 ->
       malloc fuel s req = Some (s', p) -> p <> NULL ->
       p mod 16 = 0 /\ mem_heap_lo s' <= p <= mem_heap_hi s').
Proof.
  intros H.
  assert (Hr : reachable any_call (state_after trace_forged_link)
                         (live_after trace_forged_link)).
  { apply reachable_after; [reflexivity|vm_compute; reflexivity]. }
  destruct (malloc 20 (state_after trace_forged_link) 24) as [[s' p]|] eqn:E.
  - assert (Hp : p = 65612).
    { apply (f_equal (fun r => match r with Some (_, q) => q | None => 0 end))
        in E. vm_compute in E. symmetry. exact E. }
    destruct (H _ _ 20%nat 24 s' p Hr ltac:(lia) E) as [Hal _].
    + rewrite Hp. discriminate.
    + rewrite Hp in Hal. vm_compute in Hal. discriminate.
  - apply (f_equal returns) in E. vm_compute in E. discriminate.
Qed.

Lemma bucket0_filled_after_wrapping_malloc :
  ~ (forall s live, reachable any_call s live -> bucket0_empty s).
Proof.
  intros H.
  assert (Hr : reachable any_call (state_after trace_zero_size)
                         (live_after trace_zero_size)).
  { apply reachable_after; [reflexivity|vm_compute; reflexivity]. }
  specialize (H _ _ Hr). vm_compute in H. discriminate.
Qed.

Lemma realloc_wrapping_loses_contents :
  ~ (forall s live fuel p n req s' q,
       reachable any_call s live -> In (p, n) live -> 0 < req < 2 ^ 64 ->
       realloc fuel s p req = Some (s', q) ->
       (q <> NULL ->
        forall i, 0 <= i < Z.min req (get_size s (p - 8) - 8) ->
                  mem s' (q + i) = mem s (p + i)) /\
       (q = NULL -> s' = s)).
Proof.
  intros H.
  assert (Hr : reachable any_call (state_after trace_five)
                         (live_after trace_five)).
  { apply reachable_after; [reflexivity|vm_compute; reflexivity]. }
  destruct (realloc 20 (state_after trace_five) 65648 (2 ^ 64 - 8))
    as [[s' q]|] eqn:E.
  - assert (Hq : q = 65584).
    { apply (f_equal (fun r => match r with Some (_, q) => q | None => 0 end))
        in E. vm_compute in E. symmetry. exact E. }
    assert (Hb : mem s' 65584 = 104).
    { apply (f_equal (fun r => match r with
                               | Some (t, _) => mem t 65584
                               | None => 0 end)) in E.
      vm_compute in E. symmetry. exact E. }
    destruct (H _ _ 20%nat 65648 24 (2 ^ 64 - 8) s' q Hr) as [Hcopy _];
      [vm_compute; tauto | lia | exact E |].
    specialize (Hcopy ltac:(rewrite Hq; discriminate) 0).
    rewrite Hq in Hcopy. change (65584 + 0) with 65584 in Hcopy.
    rewrite Hb in Hcopy.
    assert (Hlt : 0 <= 0 < Z.min (2 ^ 64 - 8)
                    (get_size (state_after trace_five) (65648 - 8) - 8))
      by (vm_compute; split; [discriminate|reflexivity]).
    specialize (Hcopy Hlt). vm_compute in Hcopy. discriminate.
  - apply (f_equal returns) in E. vm_compute in E. discriminate.
Qed.

(** * Edge cases of the public interface *)

(** On a heap that is not initialised yet, [malloc 0] runs [mm_init] and so
    commits memory, and [realloc NULL 0] (which frees) does not. *)
Lemma malloc_zero_initialises :
  ~ ((forall fuel s, malloc fuel s 0 = Some (s, NULL)) /\
     (forall fuel s, free fuel s NULL = Some s) /\
     (forall fuel s n, realloc fuel s NULL n = malloc fuel s n) /\
     (forall fuel s p,
        realloc fuel s p 0 =
        match free fuel s p with
        | Some s1 => Some (s1, NULL)
        | None => None
        end)).
Proof.
  intros [H _]. specialize (H 20%nat demo_boot).
  apply (f_equal (fun r => match r with
                           | Some (t, _) => mem_brk t
                           | None => 0 end)) in H.
  vm_compute in H. discriminate.
Qed.

Lemma malloc_body_zero : forall fuel s, malloc_body fuel s 0 = Some (s, NULL).
Proof. intros fuel s. reflexivity. Qed.

(** C4 (amended): [malloc 0] returns [NULL], and leaves an initialised heap
    as it is; [free NULL] changes nothing; [realloc NULL n] is [malloc n]
    for [n <> 0], and [realloc NULL 0] returns [NULL] and changes nothing;
    [realloc p 0] is [free p] followed by the result [NULL]. *)
Theorem api_edge_cases :
  (forall fuel s s' p, malloc fuel s 0 = Some (s', p) -> p = NULL) /\
  (forall fuel s, heap_start s <> NULL -> malloc fuel s 0 = Some (s, NULL)) /\
  (forall fuel s, free fuel s NULL = Some s) /\
  (forall fuel s n, n <> 0 -> realloc fuel s NULL n = malloc fuel s n) /\
  (forall fuel s, realloc fuel s NULL 0 = Some (s, NULL)) /\
  (forall fuel s p,
     realloc fuel s p 0 =
     match free fuel s p with
     | Some s1 => Some (s1, NULL)
     | None => None
     end).
Proof.
  split; [|split; [|split; [|split; [|split]]]].
  - intros fuel s s' p H. unfold malloc in H.
    destruct (heap_start s =? NULL).
    + destruct (mm_init fuel s) as [[s1 ok]|]; [|discriminate].
      destruct ok; simpl in H.
      * rewrite malloc_body_zero in H. congruence.
      * congruence.
    + rewrite malloc_body_zero in H. congruence.
  - intros fuel s Hs. unfold malloc.
    destruct (Z.eqb_spec (heap_start s) NULL) as [E|_]; [contradiction|].
    apply malloc_body_zero.
  - intros fuel s. reflexivity.
  - intros fuel s n Hn. unfold realloc.
    destruct (Z.eqb_spec n 0) as [E|_]; [contradiction|]. reflexivity.
  - intros fuel s. reflexivity.
  - intros fuel s p. reflexivity.
Qed.

Lemma api_edge_cases_witness :
  malloc 1 (state_after [Malloc 24]) 0 = Some (state_after [Malloc 24], NULL)
  /\ realloc 1 demo_boot NULL 24 = malloc 1 demo_boot 24.
Proof.
  destruct api_edge_cases as (_ & H2 & _ & H4 & _).
  split.
  - apply H2. vm_compute. discriminate.
  - apply H4. discriminate.
Defined.

(** * Two places where the code does not do what it sets out to do *)

(** C8: [split_block] calls [write_prev_alloc next_next false], which
    writes nothing: the right neighbour keeps [prev_alloc = true] although
    the remainder before it is free.  The rest of the split is as
    described. *)
Theorem split_block_leaves_prev_alloc_set :
  let s := state_before_split in
  let s' := fst (split_block s 65544 32) in
  let rest := snd (split_block s 65544 32) in
  get_alloc s 65544 = true /\ get_size s 65544 = 4096 /\
  rest = 65576 /\
  get_size s' 65544 = 32 /\ get_alloc s' 65544 = true /\
  get_size s' rest = 4064 /\ get_alloc s' rest = false /\
  get_prev_alloc s' rest = true /\ get_prev_mini s' rest = false /\
  find_next s' rest = find_next s 65544 /\
  get_prev_alloc s (find_next s 65544) = true /\
  get_prev_alloc s' (find_next s' rest) = true.
Proof. vm_compute. repeat split; reflexivity. Qed.

(** C9: the head of a bucket can have a [prev] link that is not [NULL]:
    [remove_free] of the head does not clear the [prev] of the block that
    becomes the head, and [insert_free] into a bucket that is not empty
    does not write the [prev] of the block it inserts. *)
Theorem head_prev_not_null :
  let s1 := state_after (firstn 7 trace_stale_prev) in
  let s2 := state_after trace_stale_prev in
  (seg_get s1 1 = 65608 /\ payload_prev s1 65608 = 65544 /\
   payload_next s1 65608 = NULL) /\
  (seg_get s2 1 = 65608 /\ payload_prev s2 65608 = 65544 /\
   payload_next s2 65608 = 65544).
Proof. vm_compute. repeat split; reflexivity. Qed.

(** * The fit policy *)

Lemma find_class_range : forall asize, 0 <= find_class asize <= 13.
Proof.
  intros asize. unfold find_class.
  repeat match goal with |- context [if ?c then _ else _] => destruct c end;
    lia.
Qed.

Lemma next_chain_nonnull : forall s l head x,
  next_chain s head l -> In x l -> x <> NULL.
Proof.
  intros s l. induction l as [|y l IH]; intros head x Hc Hin.
  - destruct Hin.
  - destruct Hc as (_ & Hy & Hc). destruct Hin as [<-|Hin]; eauto.
Qed.

Lemma bounded_best_fit_in : forall w s asize l best b,
  bounded_best_fit w s asize best l = Some b -> best = Some b \/ In b l.
Proof.
  intros w s asize l. induction l as [|x l IH]; intros best b H; simpl in H.
  - left. exact H.
  - destruct (is_fit s asize x).
    + destruct best as [c|].
      * destruct (w (get_size s c) (get_size s x)).
        -- left. exact H.
        -- apply IH in H. destruct H as [H|H]; [|right; right; exact H].
           destruct (get_size s x <? get_size s c); injection H as <-;
             [right; left; reflexivity | left; reflexivity].
      * apply IH in H. destruct H as [H|H]; [|right; right; exact H].
        injection H as <-. right. left. reflexivity.
    + apply IH in H. destruct H as [H|H]; [left|right; right]; exact H.
Qed.

Lemma bounded_best_fit_some : forall w s asize l c,
  bounded_best_fit w s asize (Some c) l <> None.
Proof.
  intros w s asize l. induction l as [|x l IH]; intros c; simpl.
  - discriminate.
  - destruct (is_fit s asize x); [|apply IH].
    destruct (w (get_size s c) (get_size s x)); [discriminate|apply IH].
Qed.

Lemma bounded_best_fit_none : forall w s asize l,
  bounded_best_fit w s asize None l = None <->
  existsb (is_fit s asize) l = false.
Proof.
  intros w s asize l. induction l as [|x l IH]; simpl.
  - tauto.
  - destruct (is_fit s asize x); simpl.
    + split; [|discriminate]. intros H.
      exfalso. exact (bounded_best_fit_some _ _ _ _ _ H).
    + exact IH.
Qed.

Lemma ptr_of_best_of_ptr : forall b, ptr_of_best (best_of_ptr b) = b.
Proof.
  intros b. unfold best_of_ptr, NULL.
  destruct (Z.eqb_spec b 0) as [->|]; reflexivity.
Qed.

(** The inner loop of [find_fit] on a bucket that chains the list [l]. *)
Lemma scan_class_bounded_best_fit : forall s asize l fuel best block,
  next_chain s block l -> (length l < fuel)%nat ->
  exists r,
    scan_class fuel s asize best block = Some r /\
    scan_best r =
      ptr_of_best (bounded_best_fit not_smaller s asize (best_of_ptr best) l)
    /\ (forall b, r = Halt b -> b <> NULL).
Proof.
  intros s asize l. induction l as [|x l IH]; intros fuel best block Hc Hf.
  - simpl in Hc. subst block. destruct fuel as [|f]; [simpl in Hf; lia|].
    exists (Finished best). simpl. rewrite ptr_of_best_of_ptr.
    repeat split. discriminate.
  - destruct Hc as (-> & Hx & Hc).
    destruct fuel as [|f]; [simpl in Hf; lia|]. simpl in Hf.
    assert (Hf' : (length l < f)%nat) by lia.
    simpl scan_class. simpl bounded_best_fit.
    destruct (Z.eqb_spec x NULL) as [E|_]; [contradiction|].
    fold (is_fit s asize x).
    destruct (is_fit s asize x).
    + unfold best_of_ptr at 1.
      destruct (Z.eqb_spec best NULL) as [E|Hb].
      * destruct (IH f x _ Hc Hf') as (r & H1 & H2 & H3).
        exists r. unfold best_of_ptr in H2.
        destruct (Z.eqb_spec x NULL) as [E'|_]; [contradiction|]. auto.
      * unfold not_smaller.
        destruct (Z.ltb_spec (get_size s x) (get_size s best)) as [Hlt|Hge].
        -- destruct (Z.leb_spec (get_size s best) (get_size s x)); [lia|].
           destruct (IH f x _ Hc Hf') as (r & H1 & H2 & H3).
           exists r. unfold best_of_ptr in H2.
           destruct (Z.eqb_spec x NULL) as [E'|_]; [contradiction|]. auto.
        -- destruct (Z.leb_spec (get_size s best) (get_size s x)); [|lia].
           exists (Halt best). simpl. repeat split.
           intros b Hb'. injection Hb' as <-. exact Hb.
    + apply IH; assumption.
Qed.

Lemma find_fit_from_spec : forall s asize bs fuel i,
  (forall k, (k < length bs)%nat ->
             next_chain s (seg_get s (i + Z.of_nat k)) (nth k bs [])) ->
  (forall l, In l bs -> (length l < fuel)%nat) ->
  find_fit_from fuel s asize (length bs) i
  = Some (first_fitting_bucket not_smaller s asize bs).
Proof.
  intros s asize bs. induction bs as [|l bs IH]; intros fuel i Hc Hf.
  - reflexivity.
  - simpl length. simpl find_fit_from. simpl first_fitting_bucket.
    assert (Hl : next_chain s (seg_get s i) l).
    { specialize (Hc 0%nat ltac:(simpl; lia)). simpl in Hc.
      rewrite Z.add_0_r in Hc. exact Hc. }
    destruct (scan_class_bounded_best_fit s asize l fuel NULL _ Hl
                (Hf l (or_introl eq_refl))) as (r & H1 & H2 & H3).
    rewrite H1. change (best_of_ptr NULL) with (@None Z) in H2.
    destruct (existsb (is_fit s asize) l) eqn:Ex.
    + destruct (bounded_best_fit not_smaller s asize None l) as [b|] eqn:Eb.
      * assert (Hb : b <> NULL).
        { apply bounded_best_fit_in in Eb. destruct Eb as [Eb|Eb];
            [discriminate|]. eapply next_chain_nonnull; eauto. }
        simpl in H2. destruct r as [b'|b']; simpl in H2; subst b'.
        -- reflexivity.
        -- destruct (Z.eqb_spec b NULL); [contradiction|]. reflexivity.
      * apply bounded_best_fit_none in Eb. congruence.
    + apply (proj2 (bounded_best_fit_none not_smaller s asize l)) in Ex.
      rewrite Ex in H2. simpl in H2.
      destruct r as [b'|b']; simpl in H2; subst b'.
      * exfalso. apply (H3 NULL); reflexivity.
      * simpl. apply IH.
        -- intros k Hk. specialize (Hc (S k) ltac:(simpl; lia)).
           simpl nth in Hc.
           replace (i + 1 + Z.of_nat k) with (i + Z.of_nat (S k)) by lia.
           exact Hc.
        -- intros l' Hl'. apply Hf. right. exact Hl'.
Qed.

Lemma nth_skipn_list : forall (A : Type) (l : list A) c k d,
  nth k (skipn c l) d = nth (c + k) l d.
Proof.
  intros A l. induction l as [|x l IH]; intros c k d.
  - destruct c, k; reflexivity.
  - destruct c; [reflexivity|]. simpl. apply IH.
Qed.

(** C7 (amended): [find_fit] is the bounded best fit over the first bucket
    that has a fit, where the walk of a bucket stops at the first fit that
    is not smaller than the best so far (a fit of the same size stops it
    too). *)
Theorem find_fit_bounded_best_fit : forall s buckets fuel asize,
  length buckets = 14%nat ->
  (forall i, (i < 14)%nat ->
             next_chain s (seg_get s (Z.of_nat i)) (nth i buckets [])) ->
  (forall l, In l buckets -> (length l < fuel)%nat) ->
  find_fit fuel s asize = Some (find_fit_spec not_smaller s asize buckets).
Proof.
  intros s buckets fuel asize Hlen Hc Hf.
  unfold find_fit, find_fit_spec, min_block_size, dsize, wsize.
  change (2 * 8) with 16.
  destruct ((asize =? 16) && negb (mini_list s =? NULL)); [reflexivity|].
  pose proof (find_class_range asize) as Hr.
  set (c := find_class asize) in *.
  assert (Hn : Z.to_nat (LENGTH - c) = length (skipn (Z.to_nat c) buckets)).
  { rewrite length_skipn, Hlen. unfold LENGTH. lia. }
  rewrite Hn. apply find_fit_from_spec.
  - intros k Hk. rewrite <- Hn in Hk. unfold LENGTH in Hk.
    rewrite nth_skipn_list.
    replace (c + Z.of_nat k) with (Z.of_nat (Z.to_nat c + k)) by lia.
    apply Hc. lia.
  - intros l Hl. apply Hf.
    rewrite <- (firstn_skipn (Z.to_nat c) buckets).
    apply in_or_app. right. exact Hl.
Qed.

Lemma find_fit_bounded_best_fit_witness :
  find_fit 4 (state_after trace_three_free) 32
  = Some (find_fit_spec not_smaller (state_after trace_three_free) 32
            buckets_three_free).
Proof.
  apply find_fit_bounded_best_fit.
  - reflexivity.
  - intros i Hi.
    do 14 (destruct i as [|i];
           [vm_compute; repeat split; discriminate|]).
    lia.
  - intros l Hl. vm_compute in Hl.
    repeat (destruct Hl as [<-|Hl]; [simpl; lia|]). destruct Hl.
Defined.

(** With "larger" read strictly, the walk would go past a block of the
    same size and take the smaller block behind it; the code stops and
    takes the first. *)
Lemma find_fit_stops_at_equal_size :
  ~ (forall s buckets fuel asize,
       length buckets = 14%nat ->
       (forall i, (i < 14)%nat ->
                  next_chain s (seg_get s (Z.of_nat i)) (nth i buckets [])) ->
       (forall l, In l buckets -> (length l < fuel)%nat) ->
       find_fit fuel s asize
       = Some (find_fit_spec strictly_larger s asize buckets)).
Proof.
  intros H.
  specialize (H (state_after trace_three_free) buckets_three_free 4%nat 32
                eq_refl).
  assert (E : find_fit 4 (state_after trace_three_free) 32
              = Some (find_fit_spec strictly_larger
                        (state_after trace_three_free) 32
                        buckets_three_free)).
  { apply H.
    - intros i Hi.
      do 14 (destruct i as [|i];
             [vm_compute; repeat split; discriminate|]).
      lia.
    - intros l Hl. vm_compute in Hl.
      repeat (destruct Hl as [<-|Hl]; [simpl; lia|]). destruct Hl. }
  vm_compute in E. discriminate.
Qed.

(** * Geometry of the block list *)

Lemma end_addr_app : forall l1 l2 a,
  end_addr a (l1 ++ l2) = end_addr (end_addr a l1) l2.
Proof.
  intros l1. induction l1 as [|b l1 IH]; intros l2 a; simpl.
  - reflexivity.
  - apply IH.
Qed.

Lemma layout_app : forall l1 l2 a,
  layout a (l1 ++ l2) = layout a l1 ++ layout (end_addr a l1) l2.
Proof.
  intros l1. induction l1 as [|b l1 IH]; intros l2 a; simpl.
  - reflexivity.
  - rewrite IH. reflexivity.
Qed.

Lemma in_layout_app : forall l1 l2 a e,
  In e (layout a (l1 ++ l2)) <->
  In e (layout a l1) \/ In e (layout (end_addr a l1) l2).
Proof. intros l1 l2 a e. rewrite layout_app. apply in_app_iff. Qed.

Lemma sizes_ok_app : forall l1 l2,
  sizes_ok (l1 ++ l2) <-> sizes_ok l1 /\ sizes_ok l2.
Proof. intros l1 l2. unfold sizes_ok. apply Forall_app. Qed.

Lemma sizes_ok_cons : forall b l,
  sizes_ok (b :: l) <-> size_ok (b_size b) /\ sizes_ok l.
Proof.
  intros b l. unfold sizes_ok. split.
  - intros H. inversion H; subst. auto.
  - intros [H1 H2]. constructor; assumption.
Qed.

Lemma end_addr_ge : forall l a, sizes_ok l -> a <= end_addr a l.
Proof.
  intros l. induction l as [|b l IH]; intros a H; simpl.
  - lia.
  - apply sizes_ok_cons in H as [[H1 _] H2]. specialize (IH (a + b_size b) H2).
    lia.
Qed.

Lemma layout_bounds : forall l a x b,
  sizes_ok l -> In (x, b) (layout a l) ->
  a <= x /\ x + b_size b <= end_addr a l /\ size_ok (b_size b).
Proof.
  intros l. induction l as [|c l IH]; intros a x b Hs Hin; simpl in *.
  - destruct Hin.
  - apply sizes_ok_cons in Hs as [Hc Hs].
    destruct Hin as [E|Hin].
    + injection E as <- <-. pose proof (end_addr_ge l (a + b_size c) Hs).
      destruct Hc. repeat split; try lia; assumption.
    + destruct (IH _ _ _ Hs Hin) as (H1 & H2 & H3). destruct Hc.
      repeat split; try lia; apply H3.
Qed.

(** Two blocks of the list are the same block or do not overlap. *)
Lemma layout_disjoint : forall l a x b y c,
  sizes_ok l -> In (x, b) (layout a l) -> In (y, c) (layout a l) ->
  (x = y /\ b = c) \/ x + b_size b <= y \/ y + b_size c <= x.
Proof.
  intros l. induction l as [|d l IH]; intros a x b y c Hs Hx Hy; simpl in *.
  - destruct Hx.
  - apply sizes_ok_cons in Hs as [Hd Hs].
    destruct Hx as [Ex|Hx], Hy as [Ey|Hy].
    + injection Ex as <- <-. injection Ey as <- <-. left. auto.
    + injection Ex as <- <-. apply (layout_bounds _ _ _ _ Hs) in Hy. lia.
    + injection Ey as <- <-. apply (layout_bounds _ _ _ _ Hs) in Hx. lia.
    + eapply IH; eassumption.
Qed.

Lemma layout_same_addr : forall l a x b c,
  sizes_ok l -> In (x, b) (layout a l) -> In (x, c) (layout a l) -> b = c.
Proof.
  intros l a x b c Hs Hb Hc.
  destruct (layout_disjoint _ _ _ _ _ _ Hs Hb Hc) as [[_ E]|[H|H]].
  - exact E.
  - apply (layout_bounds _ _ _ _ Hs) in Hb. destruct Hb as (_ & _ & [? _]). lia.
  - apply (layout_bounds _ _ _ _ Hs) in Hc. destruct Hc as (_ & _ & [? _]). lia.
Qed.

Lemma layout_align : forall l a x b,
  sizes_ok l -> a mod 16 = 8 -> In (x, b) (layout a l) -> x mod 16 = 8.
Proof.
  intros l. induction l as [|c l IH]; intros a x b Hs Ha Hin; simpl in *.
  - destruct Hin.
  - apply sizes_ok_cons in Hs as [[Hc1 Hc2] Hs].
    destruct Hin as [E|Hin].
    + injection E as <- <-. exact Ha.
    + apply (IH (a + b_size c) x b Hs); [lia|exact Hin].
Qed.

Lemma layout_split : forall l a x b,
  In (x, b) (layout a l) ->
  exists l1 l2, l = l1 ++ b :: l2 /\ end_addr a l1 = x.
Proof.
  intros l. induction l as [|c l IH]; intros a x b Hin; simpl in *.
  - destruct Hin.
  - destruct Hin as [E|Hin].
    + injection E as <- <-. exists [], l. auto.
    + destruct (IH _ _ _ Hin) as (l1 & l2 & -> & E).
      exists (c :: l1), l2. auto.
Qed.

Lemma layout_mid : forall l1 b l2 a,
  In (end_addr a l1, b) (layout a (l1 ++ b :: l2)).
Proof.
  intros l1 b l2 a. apply in_layout_app. right. left. reflexivity.
Qed.

Lemma end_addr_mid : forall l1 b l2 a,
  end_addr a (l1 ++ b :: l2) = end_addr (end_addr a l1 + b_size b) l2.
Proof. intros. rewrite end_addr_app. reflexivity. Qed.

Lemma free_at_app : forall l1 l2 a x sz,
  free_at a (l1 ++ l2) x sz <->
  free_at a l1 x sz \/ free_at (end_addr a l1) l2 x sz.
Proof.
  intros l1 l2 a x sz. unfold free_at. split.
  - intros (b & Hin & H). apply in_layout_app in Hin as [Hin|Hin]; eauto.
  - intros [(b & Hin & H)|(b & Hin & H)]; exists b; split; auto;
      apply in_layout_app; auto.
Qed.

Lemma alloc_at_app : forall l1 l2 a x sz,
  alloc_at a (l1 ++ l2) x sz <->
  alloc_at a l1 x sz \/ alloc_at (end_addr a l1) l2 x sz.
Proof.
  intros l1 l2 a x sz. unfold alloc_at. split.
  - intros (b & Hin & H). apply in_layout_app in Hin as [Hin|Hin]; eauto.
  - intros [(b & Hin & H)|(b & Hin & H)]; exists b; split; auto;
      apply in_layout_app; auto.
Qed.

Lemma free_at_cons : forall b l a x sz,
  free_at a (b :: l) x sz <->
  (x = a /\ b_st b = SFree /\ b_size b = sz) \/
  free_at (a + b_size b) l x sz.
Proof.
  intros b l a x sz. unfold free_at. simpl. split.
  - intros (c & [E|Hin] & H).
    + injection E as <- <-. left. tauto.
    + right. eauto.
  - intros [(-> & H)|(c & Hin & H)]; eauto.
Qed.

Lemma alloc_at_cons : forall b l a x sz,
  alloc_at a (b :: l) x sz <->
  (x = a /\ b_st b = SAlloc /\ b_size b = sz) \/
  alloc_at (a + b_size b) l x sz.
Proof.
  intros b l a x sz. unfold alloc_at. simpl. split.
  - intros (c & [E|Hin] & H).
    + injection E as <- <-. left. tauto.
    + right. eauto.
  - intros [(-> & H)|(c & Hin & H)]; eauto.
Qed.

Lemma free_at_nil : forall a x sz, ~ free_at a [] x sz.
Proof. intros a x sz (b & [] & _). Qed.

Lemma alloc_at_nil : forall a x sz, ~ alloc_at a [] x sz.
Proof. intros a x sz (b & [] & _). Qed.

Lemma mem_ok_app : forall m l1 l2 a,
  mem_ok m a (l1 ++ l2) <-> mem_ok m a l1 /\ mem_ok m (end_addr a l1) l2.
Proof.
  intros m l1 l2 a. unfold mem_ok. split.
  - intros H. split; intros x b Hin; apply H; apply in_layout_app; auto.
  - intros [H1 H2] x b Hin. apply in_layout_app in Hin as [Hin|Hin]; auto.
Qed.

Lemma mem_ok_cons : forall m b l a,
  mem_ok m a (b :: l) <-> block_at m a b /\ mem_ok m (a + b_size b) l.
Proof.
  intros m b l a. unfold mem_ok. simpl. split.
  - intros H. split; [apply H; left; reflexivity|].
    intros x c Hin. apply H. right. exact Hin.
  - intros [H1 H2] x c [E|Hin]; [injection E as <- <-; exact H1|auto].
Qed.

Lemma free_at_bounds : forall l a x sz,
  sizes_ok l -> free_at a l x sz ->
  a <= x /\ x + sz <= end_addr a l /\ size_ok sz.
Proof.
  intros l a x sz Hs (b & Hin & _ & <-). eapply layout_bounds; eassumption.
Qed.

Lemma alloc_at_bounds : forall l a x sz,
  sizes_ok l -> alloc_at a l x sz ->
  a <= x /\ x + sz <= end_addr a l /\ size_ok sz.
Proof.
  intros l a x sz Hs (b & Hin & _ & <-). eapply layout_bounds; eassumption.
Qed.

(** A block is not both free and allocated, and has one size. *)
Lemma free_alloc_disjoint : forall l a x sz y sz',
  sizes_ok l -> free_at a l x sz -> alloc_at a l y sz' ->
  x + sz <= y \/ y + sz' <= x.
Proof.
  intros l a x sz y sz' Hs (b & Hb & Hst & <-) (c & Hc & Hst' & <-).
  destruct (layout_disjoint _ _ _ _ _ _ Hs Hb Hc) as [[_ E]|H]; [|exact H].
  subst c. congruence.
Qed.

Lemma free_at_disjoint : forall l a x sz y sz',
  sizes_ok l -> free_at a l x sz -> free_at a l y sz' ->
  (x = y /\ sz = sz') \/ x + sz <= y \/ y + sz' <= x.
Proof.
  intros l a x sz y sz' Hs (b & Hb & Hst & <-) (c & Hc & Hst' & <-).
  destruct (layout_disjoint _ _ _ _ _ _ Hs Hb Hc) as [[E1 E2]|H]; [|auto].
  subst. auto.
Qed.

Lemma alloc_at_disjoint : forall l a x sz y sz',
  sizes_ok l -> alloc_at a l x sz -> alloc_at a l y sz' ->
  (x = y /\ sz = sz') \/ x + sz <= y \/ y + sz' <= x.
Proof.
  intros l a x sz y sz' Hs (b & Hb & Hst & <-) (c & Hc & Hst' & <-).
  destruct (layout_disjoint _ _ _ _ _ _ Hs Hb Hc) as [[E1 E2]|H]; [|auto].
  subst. auto.
Qed.

(** * Frames: what a write leaves alone *)

Lemma outside_refl : forall m lo hi, outside m m lo hi.
Proof. intros m lo hi y _. reflexivity. Qed.

Lemma outside_store64 : forall m a v, outside m (store64 m a v) a (a + 8).
Proof. intros m a v y H. apply store64_other. exact H. Qed.

Lemma outside_widen : forall m m' lo hi lo' hi',
  outside m m' lo hi -> lo' <= lo -> hi <= hi' -> outside m m' lo' hi'.
Proof. intros m m' lo hi lo' hi' H H1 H2 y Hy. apply H. lia. Qed.

Lemma outside_trans : forall m1 m2 m3 lo hi,
  outside m1 m2 lo hi -> outside m2 m3 lo hi -> outside m1 m3 lo hi.
Proof.
  intros m1 m2 m3 lo hi H1 H2 y Hy. rewrite H2, H1 by exact Hy. reflexivity.
Qed.

Lemma outside_load64 : forall m m' lo hi a,
  outside m m' lo hi -> a + 8 <= lo \/ hi <= a ->
  load64 m' a = load64 m a.
Proof.
  intros m m' lo hi a H Ha. apply load64_ext. intros y Hy. apply H. lia.
Qed.

Lemma block_at_outside : forall m m' lo hi x b,
  block_at m x b -> size_ok (b_size b) -> outside m m' lo hi ->
  x + b_size b <= lo \/ hi <= x ->
  block_at m' x b.
Proof.
  intros m m' lo hi x b [H1 H2] [Hs _] Ho Hr. split.
  - rewrite (outside_load64 _ _ _ _ _ Ho) by lia. exact H1.
  - intros Ha Hm. rewrite (outside_load64 _ _ _ _ _ Ho) by lia. auto.
Qed.

(** A write between the header and the footer of a block. *)
Lemma block_at_inner : forall m m' lo hi x b,
  block_at m x b -> outside m m' lo hi ->
  x + 8 <= lo -> hi <= x + b_size b - foot b ->
  block_at m' x b.
Proof.
  intros m m' lo hi x b [H1 H2] Ho Hlo Hhi. split.
  - rewrite (outside_load64 _ _ _ _ _ Ho) by lia. exact H1.
  - intros Ha Hm. unfold foot in Hhi. rewrite Ha in Hhi.
    destruct (Z.eqb_spec (b_size b) 16) as [E|_]; [contradiction|].
    simpl in Hhi. rewrite (outside_load64 _ _ _ _ _ Ho) by lia. auto.
Qed.

Lemma mem_ok_outside : forall m m' lo hi a l,
  mem_ok m a l -> sizes_ok l -> outside m m' lo hi ->
  end_addr a l <= lo \/ hi <= a ->
  mem_ok m' a l.
Proof.
  intros m m' lo hi a l H Hs Ho Hr x b Hin.
  pose proof (layout_bounds _ _ _ _ Hs Hin) as (B1 & B2 & B3).
  eapply block_at_outside; eauto. lia.
Qed.

(** A write inside one block of the list, between header and footer. *)
Lemma mem_ok_inner : forall m m' lo hi a l x b,
  mem_ok m a l -> sizes_ok l -> In (x, b) (layout a l) ->
  outside m m' lo hi ->
  x + 8 <= lo -> hi <= x + b_size b - foot b ->
  mem_ok m' a l.
Proof.
  intros m m' lo hi a l x b H Hs Hin Ho Hlo Hhi y c Hc.
  pose proof (layout_bounds _ _ _ _ Hs Hc) as (B1 & B2 & B3).
  assert (Hf : 0 <= foot b) by (unfold foot; destruct (_ || _); lia).
  destruct (layout_disjoint _ _ _ _ _ _ Hs Hin Hc) as [[-> ->]|Hd].
  - eapply block_at_inner; eauto.
  - eapply block_at_outside; eauto. lia.
Qed.

Lemma dchain_frame : forall m m' l h,
  dchain m h l ->
  (forall u, In u l -> load64 m' (u + 16) = load64 m (u + 16)) ->
  (forall u, In u (tl l) -> load64 m' (u + 8) = load64 m (u + 8)) ->
  dchain m' h l.
Proof.
  intros m m' l. induction l as [|x l IH]; intros h Hc Hn Hp.
  - exact Hc.
  - destruct Hc as (-> & Hc & Hl). simpl. split; [reflexivity|]. split.
    + rewrite Hn by (left; reflexivity). apply IH.
      * exact Hc.
      * intros u Hu. apply Hn. right. exact Hu.
      * intros u Hu. apply Hp. simpl. destruct l; [destruct Hu|].
        right. exact Hu.
    + destruct l as [|y l]; [exact I|].
      rewrite Hp by (left; reflexivity). exact Hl.
Qed.

Lemma mchain_frame : forall m m' l h,
  mchain m h l ->
  (forall u, In u l -> load64 m' (u + 8) = load64 m (u + 8)) ->
  mchain m' h l.
Proof.
  intros m m' l. induction l as [|x l IH]; intros h Hc Hn.
  - exact Hc.
  - destruct Hc as (-> & Hc). simpl. split; [reflexivity|].
    rewrite Hn by (left; reflexivity). apply IH; [exact Hc|].
    intros u Hu. apply Hn. right. exact Hu.
Qed.

Lemma dchain_head : forall m h l, dchain m h l -> h = hd NULL l.
Proof. intros m h [|x l] H; simpl in *; tauto. Qed.

Lemma mchain_head : forall m h l, mchain m h l -> h = hd NULL l.
Proof. intros m h [|x l] H; simpl in *; tauto. Qed.

(** * Reading a well-formed heap *)

Lemma world_block : forall s bl epa epm fl ml x b,
  world s bl epa epm fl ml -> In (x, b) (layout (heap_start s) bl) ->
  block_at (mem s) x b /\ 8 <= x /\ x + b_size b <= mem_brk s - 8 /\
  x mod 16 = 8 /\ size_ok (b_size b) /\ b_size b < 2 ^ 63.
Proof.
  intros s bl epa epm fl ml x b W Hin.
  destruct W as [[(B1 & B2 & B3 & B4 & B5) Hs Hm He _] _].
  pose proof (layout_bounds _ _ _ _ Hs Hin) as (L1 & L2 & L3).
  assert (Hal : x mod 16 = 8).
  { eapply layout_align; [exact Hs| |exact Hin]. rewrite B3. lia. }
  destruct L3 as [L3 L4].
  split; [apply Hm; exact Hin|].
  repeat split; try lia; auto.
Qed.

Lemma world_block_lt : forall s bl epa epm fl ml x b,
  world s bl epa epm fl ml -> In (x, b) (layout (heap_start s) bl) ->
  x + b_size b < 2 ^ 63 /\ mem_brk s < 2 ^ 63.
Proof.
  intros s bl epa epm fl ml x b W Hin.
  destruct W as [[(B1 & B2 & B3 & B4 & B5) Hs Hm He _] _].
  pose proof (layout_bounds _ _ _ _ Hs Hin) as (L1 & L2 & L3). lia.
Qed.

Lemma block_at_fields : forall m x b,
  block_at m x b -> size_ok (b_size b) -> b_size b < 2 ^ 63 ->
  extract_size (load64 m x) = b_size b /\
  extract_alloc (load64 m x) = is_alloc (b_st b) /\
  negb (Z.shiftr (Z.land (load64 m x) prev_alloc_mask) 1 =? 0) = b_pa b /\
  negb (Z.shiftr (Z.land (load64 m x) prev_mini_mask) 2 =? 0) = b_pm b.
Proof.
  intros m x b [H _] [H1 H2] H3. rewrite H. unfold hdr_word.
  repeat split.
  - apply extract_size_pack; lia.
  - apply extract_alloc_pack; lia.
  - apply prev_alloc_pack; lia.
  - apply prev_mini_pack; lia.
Qed.

Lemma world_fields : forall s bl epa epm fl ml x b,
  world s bl epa epm fl ml -> In (x, b) (layout (heap_start s) bl) ->
  get_size s x = b_size b /\ get_alloc s x = is_alloc (b_st b) /\
  get_prev_alloc s x = b_pa b /\ get_prev_mini s x = b_pm b.
Proof.
  intros s bl epa epm fl ml x b W Hin.
  destruct (world_block _ _ _ _ _ _ _ _ W Hin) as (Hb & _ & _ & _ & Hs & Hlt).
  exact (block_at_fields _ _ _ Hb Hs Hlt).
Qed.

Lemma world_epilogue_fields : forall s bl epa epm fl ml,
  world s bl epa epm fl ml ->
  get_size s (mem_brk s - 8) = 0 /\ get_alloc s (mem_brk s - 8) = true /\
  get_prev_alloc s (mem_brk s - 8) = epa /\
  get_prev_mini s (mem_brk s - 8) = epm.
Proof.
  intros s bl epa epm fl ml W. destruct W as [[_ _ _ _ He _] _].
  unfold get_size, get_alloc, get_prev_alloc, get_prev_mini, header, read.
  rewrite He. repeat split.
  - apply extract_size_pack; [lia|reflexivity].
  - apply extract_alloc_pack; [lia|reflexivity].
  - apply prev_alloc_pack; [lia|reflexivity].
  - apply prev_mini_pack; [lia|reflexivity].
Qed.

Lemma world_free_at : forall s bl epa epm fl ml x sz,
  world s bl epa epm fl ml -> free_at (heap_start s) bl x sz ->
  8 <= x /\ x + sz <= mem_brk s - 8 /\ x mod 16 = 8 /\ size_ok sz /\
  sz < 2 ^ 63 /\ get_size s x = sz /\ get_alloc s x = false.
Proof.
  intros s bl epa epm fl ml x sz W (b & Hin & Hst & <-).
  destruct (world_block _ _ _ _ _ _ _ _ W Hin) as (_ & H1 & H2 & H3 & H4 & H5).
  destruct (world_fields _ _ _ _ _ _ _ _ W Hin) as (F1 & F2 & _).
  rewrite Hst in F2. repeat split; auto; apply H4.
Qed.

Lemma size_ok_not_mini : forall sz, size_ok sz -> sz <> 16 -> 32 <= sz.
Proof. intros sz [H1 H2] H3. lia. Qed.

(** * Frames for the free lists and for the allocated payloads *)

Lemma lists_ok_frame : forall s s' bl bl' fl ml lo hi,
  lists_ok s bl fl ml ->
  heap_start s' = heap_start s -> seg_list s' = seg_list s ->
  mini_list s' = mini_list s ->
  outside (mem s) (mem s') lo hi ->
  (forall x sz, free_at (heap_start s) bl x sz ->
                hi <= x + 8 \/ x + links sz <= lo) ->
  (forall x sz, free_at (heap_start s) bl' x sz <->
                free_at (heap_start s) bl x sz) ->
  lists_ok s' bl' fl ml.
Proof.
  intros s s' bl bl' fl ml lo hi [L1 L2 L3 L4 L5 L6 L7] Hh Hsl Hml Ho Hfr Heq.
  constructor.
  - rewrite Hsl. exact L1.
  - intros c Hc. unfold seg_get. rewrite Hsl.
    apply (dchain_frame (mem s)); [apply L2; exact Hc| |].
    + intros u Hu. apply (L3 c u Hc) in Hu as (sz & Hf & Hne & _).
      specialize (Hfr _ _ Hf). unfold links in Hfr.
      destruct (Z.eqb_spec sz 16); [contradiction|].
      apply (outside_load64 _ _ _ _ _ Ho). lia.
    + intros u Hu. assert (Hu' : In u (fl c)).
      { destruct (fl c); [destruct Hu|right; exact Hu]. }
      apply (L3 c u Hc) in Hu' as (sz & Hf & Hne & _).
      specialize (Hfr _ _ Hf). unfold links in Hfr.
      destruct (Z.eqb_spec sz 16); [contradiction|].
      apply (outside_load64 _ _ _ _ _ Ho). lia.
  - intros c x Hc. rewrite Hh. rewrite (L3 c x Hc).
    split; intros (sz & Hf & H); exists sz; split; try apply Heq; tauto.
  - exact L4.
  - rewrite Hml. apply (mchain_frame (mem s)); [exact L5|].
    intros u Hu. apply L6 in Hu. specialize (Hfr _ _ Hu).
    unfold links in Hfr. simpl in Hfr.
    apply (outside_load64 _ _ _ _ _ Ho). lia.
  - intros x. rewrite Hh, L6. symmetry. apply Heq.
  - exact L7.
Qed.

Lemma keeps_refl : forall x0 s bl, keeps x0 s bl s bl.
Proof. intros x0 s bl x sz _ H. split; [exact H|reflexivity]. Qed.

Lemma keeps_trans : forall x0 s1 bl1 s2 bl2 s3 bl3,
  keeps x0 s1 bl1 s2 bl2 -> keeps x0 s2 bl2 s3 bl3 ->
  keeps x0 s1 bl1 s3 bl3.
Proof.
  intros x0 s1 bl1 s2 bl2 s3 bl3 H12 H23 x sz Hx Ha.
  destruct (H12 x sz Hx Ha) as [A1 P1].
  destruct (H23 x sz Hx A1) as [A2 P2].
  split; [exact A2|]. intros y Hy. rewrite P2, P1 by exact Hy. reflexivity.
Qed.

Lemma keeps_frame : forall x0 s s' bl bl' lo hi,
  heap_start s' = heap_start s ->
  outside (mem s) (mem s') lo hi ->
  (forall x sz, x <> x0 -> alloc_at (heap_start s) bl x sz ->
                (hi <= x + 8 \/ x + sz <= lo) /\
                alloc_at (heap_start s) bl' x sz) ->
  keeps x0 s bl s' bl'.
Proof.
  intros x0 s s' bl bl' lo hi Hh Ho H x sz Hx Ha.
  destruct (H x sz Hx Ha) as [Hr Ha']. rewrite Hh. split; [exact Ha'|].
  intros y Hy. apply Ho. lia.
Qed.

(** * Rewriting a stretch of the heap *)

Lemma same_globals_refl : forall s, same_globals s s.
Proof. intros s. unfold same_globals. tauto. Qed.

Lemma same_globals_trans : forall s1 s2 s3,
  same_globals s1 s2 -> same_globals s2 s3 -> same_globals s1 s3.
Proof.
  unfold same_globals. intros s1 s2 s3 H1 H2.
  destruct H1 as (A1 & A2 & A3 & A4 & A5 & A6).
  destruct H2 as (B1 & B2 & B3 & B4 & B5 & B6).
  repeat split; congruence.
Qed.

Lemma same_globals_set_mem : forall s m, same_globals s (set_mem s m).
Proof. intros s m. unfold same_globals. simpl. tauto. Qed.

Lemma no_free_free_at : forall l a x sz, no_free l -> ~ free_at a l x sz.
Proof.
  intros l a x sz Hn (b & Hin & Hst & _).
  apply layout_split in Hin as (l1 & l2 & -> & _).
  apply (Hn b); [apply in_or_app; right; left; reflexivity|exact Hst].
Qed.

Lemma links_le : forall sz, size_ok sz -> 16 <= links sz <= sz.
Proof.
  intros sz [H1 H2]. unfold links.
  destruct (Z.eqb_spec sz 16); lia.
Qed.

(** The blocks [mid] between [l1] and [l2] are rewritten as [mid'], of the
    same total size; neither has blocks that are on a list. *)
Lemma world_surgery : forall s s' l1 mid mid' l2 epa epm fl ml x,
  world s (l1 ++ mid ++ l2) epa epm fl ml ->
  x = end_addr (heap_start s) l1 ->
  no_free mid -> no_free mid' ->
  end_addr x mid' = end_addr x mid ->
  sizes_ok mid' ->
  same_globals s s' ->
  outside (mem s) (mem s') x (end_addr x mid) ->
  mem_ok (mem s') x mid' ->
  world s' (l1 ++ mid' ++ l2) epa epm fl ml.
Proof.
  intros s s' l1 mid mid' l2 epa epm fl ml x W Hx Hn Hn' He Hs' Hg Ho Hm'.
  destruct W as [[Hb Hs Hm Hend Hepi Hpro] Hl].
  destruct Hg as (G1 & G2 & G3 & G4 & G5 & G6).
  apply sizes_ok_app in Hs as [Hs1 Hs23].
  apply sizes_ok_app in Hs23 as [Hs2 Hs3].
  apply mem_ok_app in Hm as [Hm1 Hm23].
  apply mem_ok_app in Hm23 as [Hm2 Hm3].
  rewrite !end_addr_app in Hend. rewrite <- Hx in *.
  pose proof (end_addr_ge _ x Hs2) as Hge2.
  pose proof (end_addr_ge _ (end_addr x mid) Hs3) as Hge3.
  split; [constructor|].
  - unfold bounds_ok in *. rewrite G1, G2, G3, G4. exact Hb.
  - apply sizes_ok_app. split; [exact Hs1|].
    apply sizes_ok_app. split; assumption.
  - rewrite G1. apply mem_ok_app. split.
    + eapply mem_ok_outside; eauto. rewrite <- Hx. lia.
    + rewrite <- Hx. apply mem_ok_app. split; [exact Hm'|].
      rewrite He. eapply mem_ok_outside; eauto. lia.
  - rewrite G1, G2, !end_addr_app, <- Hx, He. exact Hend.
  - rewrite G2. rewrite (outside_load64 _ _ _ _ _ Ho) by lia. exact Hepi.
  - rewrite G3. rewrite (outside_load64 _ _ _ _ _ Ho); [exact Hpro|].
    left. pose proof (end_addr_ge _ (heap_start s) Hs1) as Hge1.
    rewrite <- Hx in Hge1. destruct Hb as (_ & _ & B3 & _). lia.
  - apply (lists_ok_frame s s' (l1 ++ mid ++ l2) _ fl ml x (end_addr x mid)
             Hl G1 G5 G6 Ho).
    + intros y sz Hf. apply free_at_app in Hf as [Hf|Hf].
      * destruct (free_at_bounds _ _ _ _ Hs1 Hf) as (B1 & B2 & B3).
        pose proof (links_le _ B3). right. lia.
      * rewrite <- Hx in Hf. apply free_at_app in Hf as [Hf|Hf].
        -- exfalso. exact (no_free_free_at _ _ _ _ Hn Hf).
        -- destruct (free_at_bounds _ _ _ _ Hs3 Hf) as (B1 & B2 & B3).
           left. lia.
    + intros y sz. rewrite !free_at_app, <- !Hx, He.
      split; intros [H|[H|H]]; auto; exfalso;
        first [exact (no_free_free_at _ _ _ _ Hn H)
              |exact (no_free_free_at _ _ _ _ Hn' H)].
Qed.

Lemma surgery_keeps : forall x0 s s' l1 mid mid' l2 x,
  sizes_ok (l1 ++ mid ++ l2) ->
  x = end_addr (heap_start s) l1 ->
  end_addr x mid' = end_addr x mid ->
  heap_start s' = heap_start s ->
  outside (mem s) (mem s') x (end_addr x mid) ->
  (forall y sz, y <> x0 -> alloc_at x mid y sz ->
     alloc_at x mid' y sz /\
     forall z, y + 8 <= z < y + sz -> mem s' z = mem s z) ->
  keeps x0 s (l1 ++ mid ++ l2) s' (l1 ++ mid' ++ l2).
Proof.
  intros x0 s s' l1 mid mid' l2 x Hs Hx He Hh Ho Hmid y sz Hy Ha.
  apply sizes_ok_app in Hs as [Hs1 Hs23].
  apply sizes_ok_app in Hs23 as [Hs2 Hs3].
  rewrite Hh. apply alloc_at_app in Ha as [Ha|Ha].
  - split; [apply alloc_at_app; left; exact Ha|].
    destruct (alloc_at_bounds _ _ _ _ Hs1 Ha) as (B1 & B2 & B3).
    intros z Hz. apply Ho. lia.
  - rewrite <- Hx in Ha. apply alloc_at_app in Ha as [Ha|Ha].
    + destruct (Hmid y sz Hy Ha) as [Ha' Hp]. split; [|exact Hp].
      apply alloc_at_app. right. rewrite <- Hx.
      apply alloc_at_app. left. exact Ha'.
    + split.
      * apply alloc_at_app. right. rewrite <- Hx.
        apply alloc_at_app. right. rewrite He. exact Ha.
      * destruct (alloc_at_bounds _ _ _ _ Hs3 Ha) as (B1 & B2 & B3).
        intros z Hz. apply Ho. lia.
Qed.

(** Rewriting the flags of the epilogue. *)
Lemma world_epilogue : forall s s' bl epa epm epa' epm' fl ml,
  world s bl epa epm fl ml ->
  same_globals s s' ->
  outside (mem s) (mem s') (mem_brk s - 8) (mem_brk s) ->
  load64 (mem s') (mem_brk s - 8) = pack_all 0 true epa' epm' ->
  world s' bl epa' epm' fl ml /\ forall x0, keeps x0 s bl s' bl.
Proof.
  intros s s' bl epa epm epa' epm' fl ml W Hg Ho Hepi.
  destruct W as [[Hb Hs Hm Hend He Hpro] Hl].
  destruct Hg as (G1 & G2 & G3 & G4 & G5 & G6).
  split.
  - split; [constructor|].
    + unfold bounds_ok in *. rewrite G1, G2, G3, G4. exact Hb.
    + exact Hs.
    + rewrite G1. eapply mem_ok_outside; eauto. lia.
    + rewrite G1, G2. exact Hend.
    + rewrite G2. exact Hepi.
    + rewrite G3. rewrite (outside_load64 _ _ _ _ _ Ho); [exact Hpro|].
      left. pose proof (end_addr_ge _ (heap_start s) Hs) as Hge1.
      destruct Hb as (_ & _ & B3 & _). lia.
    + apply (lists_ok_frame s s' bl _ fl ml _ _ Hl G1 G5 G6 Ho); [|tauto].
      intros y sz Hf. destruct (free_at_bounds _ _ _ _ Hs Hf) as (B1 & B2 & B3).
      pose proof (links_le _ B3). right. lia.
  - intros x0. eapply keeps_frame; eauto.
    intros y sz _ Ha. split; [|exact Ha].
    destruct (alloc_at_bounds _ _ _ _ Hs Ha) as (B1 & B2 & B3). right. lia.
Qed.

(** * The writers of boundary words *)

Lemma write_pack_alloc : forall s x size pa pm,
  write_pack s x size true pa pm = write s x (pack_all size true pa pm).
Proof. reflexivity. Qed.

Lemma write_pack_free : forall s x size pa pm,
  0 <= size < 2 ^ 64 -> size mod 16 = 0 ->
  write_pack s x size false pa pm =
  if size =? 16 then write s x (pack_all size false pa pm)
  else write (write s x (pack_all size false pa pm)) (x + size - 8)
             (pack_all size false pa pm).
Proof.
  intros s x size pa pm H1 H2. unfold write_pack, min_block_size, dsize, wsize.
  change (2 * 8) with 16. simpl negb. rewrite andb_true_l.
  destruct (size =? 16); simpl; [reflexivity|].
  unfold header_to_footer, get_size, header, read, write, dsize, wsize.
  simpl mem. rewrite load64_store64_same by (apply pack_all_range; assumption).
  rewrite extract_size_pack by assumption.
  change (2 * 8) with 16.
  replace (x + 8 + size - 16) with (x + size - 8) by lia. reflexivity.
Qed.

Lemma write_same_globals : forall s a v, same_globals s (write s a v).
Proof. intros s a v. apply same_globals_set_mem. Qed.

Lemma write_outside : forall s a v,
  outside (mem s) (mem (write s a v)) a (a + 8).
Proof. intros s a v. apply outside_store64. Qed.

Lemma write_pack_same_globals : forall s x size al pa pm,
  same_globals s (write_pack s x size al pa pm).
Proof.
  intros s x size al pa pm. unfold write_pack.
  destruct (negb al && negb (size =? min_block_size)).
  - eapply same_globals_trans; apply write_same_globals.
  - apply write_same_globals.
Qed.

(** [write_pack] writes the boundary words of a block of the given size. *)
Lemma write_pack_block : forall s x size st pa pm,
  size_ok size -> size < 2 ^ 63 ->
  block_at (mem (write_pack s x size (is_alloc st) pa pm)) x
           (mkBlock size st pa pm) /\
  outside (mem s) (mem (write_pack s x size (is_alloc st) pa pm))
          x (x + size) /\
  (is_alloc st = true ->
   outside (mem s) (mem (write_pack s x size (is_alloc st) pa pm))
           x (x + 8)).
Proof.
  intros s x size st pa pm [H1 H2] H3.
  assert (Hw : 0 <= pack_all size (is_alloc st) pa pm < 2 ^ 64)
    by (apply pack_all_range; lia).
  destruct (is_alloc st) eqn:Ea.
  - rewrite write_pack_alloc. repeat split.
    + unfold hdr_word. simpl. rewrite Ea.
      apply load64_store64_same. exact Hw.
    + simpl. rewrite Ea. discriminate.
    + eapply outside_widen; [apply write_outside|lia|lia].
    + intros _. apply write_outside.
  - rewrite write_pack_free by lia.
    destruct (Z.eqb_spec size 16) as [E|E].
    + repeat split.
      * unfold hdr_word. simpl. rewrite Ea.
        apply load64_store64_same. exact Hw.
      * simpl. intros _ Hne. contradiction.
      * eapply outside_widen; [apply write_outside|lia|lia].
      * discriminate.
    + repeat split.
      * unfold hdr_word. simpl. rewrite Ea.
        rewrite load64_store64_other by lia.
        apply load64_store64_same. exact Hw.
      * simpl. intros _ _. rewrite load64_store64_same by exact Hw.
        unfold hdr_word. simpl. rewrite Ea. reflexivity.
      * set (w := pack_all size false pa pm) in *.
        apply (outside_trans _ (mem (write s x w))).
        -- eapply outside_widen; [apply (write_outside s x w)|lia|lia].
        -- eapply outside_widen;
             [apply (write_outside (write s x w) (x + size - 8) w)|lia|lia].
      * discriminate.
Qed.

Lemma write_prev_alloc_false : forall s b, write_prev_alloc s b false = s.
Proof.
  intros s b. unfold write_prev_alloc.
  destruct (negb (get_alloc s b) && negb (is_mini_block s b)); reflexivity.
Qed.

Lemma write_prev_alloc_true : forall s x size pa pm,
  0 <= size < 2 ^ 63 -> size mod 16 = 0 ->
  load64 (mem s) x = pack_all size true pa pm ->
  write_prev_alloc s x true = write s x (pack_all size true true pm).
Proof.
  intros s x size pa pm H1 H2 Hh. unfold write_prev_alloc.
  unfold header, read. rewrite Hh.
  rewrite lor_prev_alloc_pack by lia.
  unfold get_alloc, header, read, write. simpl mem.
  rewrite load64_store64_same by (apply pack_all_range; lia).
  rewrite extract_alloc_pack by lia. reflexivity.
Qed.

(** The words strictly between the header and the footer of a free block
    are not touched by [write_pack]. *)
Lemma write_pack_load_inner : forall s x size pa pm w,
  size_ok size -> size < 2 ^ 63 -> x + 8 <= w -> w + 8 <= x + size - 8 ->
  load64 (mem (write_pack s x size false pa pm)) w = load64 (mem s) w.
Proof.
  intros s x size pa pm w [H1 H2] H3 H4 H5.
  rewrite write_pack_free by lia.
  destruct (size =? 16); unfold write; simpl;
    repeat rewrite load64_store64_other by lia; reflexivity.
Qed.

(** * The array of bucket heads *)

Lemma length_upd : forall l i v, length (upd l i v) = length l.
Proof.
  intros l. induction l as [|h t IH]; intros i v.
  - reflexivity.
  - destruct i; simpl; [reflexivity|]. rewrite IH. reflexivity.
Qed.

Lemma nth_upd_same : forall l i v d,
  (i < length l)%nat -> nth i (upd l i v) d = v.
Proof.
  intros l. induction l as [|h t IH]; intros i v d H; simpl in H.
  - lia.
  - destruct i; simpl; [reflexivity|]. apply IH. lia.
Qed.

Lemma nth_upd_other : forall l i j v d,
  i <> j -> nth i (upd l j v) d = nth i l d.
Proof.
  intros l. induction l as [|h t IH]; intros i j v d H.
  - reflexivity.
  - destruct i, j; simpl; try reflexivity; try congruence.
    apply IH. congruence.
Qed.

Lemma seg_get_set_same : forall s c v,
  length (seg_list s) = 14%nat -> 0 <= c < 14 ->
  seg_get (seg_set s c v) c = v.
Proof.
  intros s c v Hl Hc. unfold seg_get, seg_set. simpl.
  apply nth_upd_same. lia.
Qed.

Lemma seg_get_set_other : forall s c c' v,
  0 <= c -> 0 <= c' -> c' <> c ->
  seg_get (seg_set s c v) c' = seg_get s c'.
Proof.
  intros s c c' v H1 H2 Hne. unfold seg_get, seg_set. simpl.
  apply nth_upd_other. lia.
Qed.

(** * Writes to the links of free blocks *)

(** A write inside one block leaves the words of the other blocks. *)
Lemma other_block_load : forall m m' lo hi l a x b u bu w,
  sizes_ok l -> In (x, b) (layout a l) -> In (u, bu) (layout a l) ->
  u <> x -> outside m m' lo hi ->
  x <= lo -> hi <= x + b_size b ->
  u <= w -> w + 8 <= u + b_size bu ->
  load64 m' w = load64 m w.
Proof.
  intros m m' lo hi l a x b u bu w Hs Hx Hu Hne Ho H1 H2 H3 H4.
  apply (outside_load64 _ _ _ _ _ Ho).
  destruct (layout_disjoint _ _ _ _ _ _ Hs Hx Hu) as [[E _]|Hd];
    [congruence|lia].
Qed.

Lemma foot_links : forall b,
  size_ok (b_size b) -> is_alloc (b_st b) = false ->
  links (b_size b) <= b_size b - foot b.
Proof.
  intros b [H1 H2] Ha. unfold foot, links. rewrite Ha. simpl.
  destruct (Z.eqb_spec (b_size b) 16); lia.
Qed.

(** A write to the link words of a block that is not allocated keeps the
    boundary words. *)
Lemma heap_mem_link_write : forall s s' bl epa epm x b lo hi,
  heap_mem s bl epa epm ->
  In (x, b) (layout (heap_start s) bl) -> is_alloc (b_st b) = false ->
  heap_start s' = heap_start s -> mem_brk s' = mem_brk s ->
  mem_start_brk s' = mem_start_brk s -> mem_max_addr s' = mem_max_addr s ->
  outside (mem s) (mem s') lo hi ->
  x + 8 <= lo -> hi <= x + links (b_size b) ->
  heap_mem s' bl epa epm.
Proof.
  intros s s' bl epa epm x b lo hi [Hb Hs Hm He Hepi Hpro] Hin Ha G1 G2 G3 G4 Ho
    Hlo Hhi.
  pose proof (layout_bounds _ _ _ _ Hs Hin) as (B1 & B2 & B3).
  pose proof (foot_links b B3 Ha) as Hf.
  pose proof (links_le _ B3) as Hl.
  constructor.
  - unfold bounds_ok in *. rewrite G1, G2, G3, G4. exact Hb.
  - exact Hs.
  - rewrite G1. eapply mem_ok_inner; eauto. lia.
  - rewrite G1, G2. exact He.
  - rewrite G2. rewrite (outside_load64 _ _ _ _ _ Ho) by lia. exact Hepi.
  - rewrite G3. rewrite (outside_load64 _ _ _ _ _ Ho); [exact Hpro|].
    left. destruct Hb as (_ & _ & B4 & _). lia.
Qed.

Lemma keeps_link_write : forall x0 s s' bl x b lo hi,
  sizes_ok bl ->
  In (x, b) (layout (heap_start s) bl) -> is_alloc (b_st b) = false ->
  heap_start s' = heap_start s ->
  outside (mem s) (mem s') lo hi ->
  x <= lo -> hi <= x + b_size b ->
  keeps x0 s bl s' bl.
Proof.
  intros x0 s s' bl x b lo hi Hs Hin Ha G1 Ho Hlo Hhi.
  eapply keeps_frame; eauto.
  intros y sz _ Hal. split; [|exact Hal].
  destruct Hal as (c & Hc & Hst & <-).
  destruct (layout_disjoint _ _ _ _ _ _ Hs Hin Hc) as [[_ E]|Hd].
  - subst c. rewrite Hst in Ha. discriminate.
  - lia.
Qed.

(** Changing the status of a block between [SFree] and [SHole]. *)
Lemma heap_mem_relabel : forall s l1 b b' l2 epa epm,
  heap_mem s (l1 ++ b :: l2) epa epm ->
  b_size b' = b_size b -> is_alloc (b_st b') = is_alloc (b_st b) ->
  b_pa b' = b_pa b -> b_pm b' = b_pm b ->
  heap_mem s (l1 ++ b' :: l2) epa epm.
Proof.
  intros s l1 b b' l2 epa epm [Hb Hs Hm He Hepi Hpro] E1 E2 E3 E4.
  apply sizes_ok_app in Hs as [Hs1 Hs2].
  apply sizes_ok_cons in Hs2 as [Hsb Hs2].
  apply mem_ok_app in Hm as [Hm1 Hm2].
  apply mem_ok_cons in Hm2 as [Hmb Hm2].
  constructor.
  - exact Hb.
  - apply sizes_ok_app. split; [exact Hs1|].
    apply sizes_ok_cons. rewrite E1. auto.
  - apply mem_ok_app. split; [exact Hm1|].
    apply mem_ok_cons. rewrite E1. split; [|exact Hm2].
    unfold block_at, hdr_word in *. rewrite E1, E2, E3, E4. exact Hmb.
  - rewrite end_addr_mid, E1, <- end_addr_mid. exact He.
  - exact Hepi.
  - exact Hpro.
Qed.

Lemma alloc_at_relabel : forall l1 b b' l2 a x sz,
  b_size b' = b_size b -> b_st b <> SAlloc -> b_st b' <> SAlloc ->
  (alloc_at a (l1 ++ b' :: l2) x sz <-> alloc_at a (l1 ++ b :: l2) x sz).
Proof.
  intros l1 b b' l2 a x sz E H1 H2.
  rewrite !alloc_at_app, !alloc_at_cons, E. intuition congruence.
Qed.

Lemma free_at_relabel_free : forall l1 b b' l2 a x sz,
  b_size b' = b_size b -> b_st b <> SFree -> b_st b' = SFree ->
  (free_at a (l1 ++ b' :: l2) x sz <->
   (x = end_addr a l1 /\ sz = b_size b) \/ free_at a (l1 ++ b :: l2) x sz).
Proof.
  intros l1 b b' l2 a x sz E H1 H2.
  rewrite !free_at_app, !free_at_cons, E. intuition congruence.
Qed.

Lemma free_at_relabel_hole : forall l1 b b' l2 a x sz,
  sizes_ok (l1 ++ b :: l2) ->
  b_size b' = b_size b -> b_st b = SFree -> b_st b' <> SFree ->
  (free_at a (l1 ++ b' :: l2) x sz <->
   x <> end_addr a l1 /\ free_at a (l1 ++ b :: l2) x sz).
Proof.
  intros l1 b b' l2 a x sz Hs E H1 H2.
  assert (Hmid : free_at a (l1 ++ b :: l2) (end_addr a l1) (b_size b)).
  { exists b. split; [apply layout_mid|auto]. }
  split.
  - intros H. assert (Hf : free_at a (l1 ++ b :: l2) x sz).
    { revert H. rewrite !free_at_app, !free_at_cons, E. intuition congruence. }
    split; [|exact Hf]. intros ->.
    revert H. rewrite !free_at_app, !free_at_cons, E.
    apply sizes_ok_app in Hs as [Hs1 Hs2].
    apply sizes_ok_cons in Hs2 as [[Hb _] Hs2].
    intros [H|[H|H]].
    + apply (free_at_bounds _ _ _ _ Hs1) in H.
      destruct H as (_ & H & [? _]). lia.
    + intuition congruence.
    + apply (free_at_bounds _ _ _ _ Hs2) in H. lia.
  - intros [Hne H]. revert H.
    rewrite !free_at_app, !free_at_cons, E. intuition congruence.
Qed.

(** * What is on the lists *)

Lemma bucket_elem : forall s bl epa epm fl ml c u,
  world s bl epa epm fl ml -> 0 <= c < 14 -> In u (fl c) ->
  exists bu, In (u, bu) (layout (heap_start s) bl) /\ b_st bu = SFree /\
             32 <= b_size bu /\ find_class (b_size bu) = c /\
             8 <= u < 2 ^ 63.
Proof.
  intros s bl epa epm fl ml c u W Hc Hu.
  pose proof W as [Hh Hl].
  apply (lo_mem _ _ _ _ Hl c u Hc) in Hu as (sz & (bu & Hin & Hst & <-) & Hne & Hcl).
  destruct (world_block _ _ _ _ _ _ _ _ W Hin) as (_ & B1 & B2 & _ & B3 & B4).
  destruct (world_block_lt _ _ _ _ _ _ _ _ W Hin) as [B5 _].
  pose proof (size_ok_not_mini _ B3 Hne). destruct B3.
  exists bu. repeat split; auto; lia.
Qed.

Lemma mini_elem : forall s bl epa epm fl ml u,
  world s bl epa epm fl ml -> In u ml ->
  exists bu, In (u, bu) (layout (heap_start s) bl) /\ b_st bu = SFree /\
             b_size bu = 16 /\ 8 <= u < 2 ^ 63.
Proof.
  intros s bl epa epm fl ml u W Hu.
  pose proof W as [Hh Hl].
  apply (lo_mmem _ _ _ _ Hl) in Hu as (bu & Hin & Hst & Hsz).
  destruct (world_block _ _ _ _ _ _ _ _ W Hin) as (_ & B1 & B2 & _ & B3 & B4).
  destruct (world_block_lt _ _ _ _ _ _ _ _ W Hin) as [B5 _].
  exists bu. repeat split; auto; lia.
Qed.

Lemma bucket_head : forall s bl epa epm fl ml c,
  world s bl epa epm fl ml -> 0 <= c < 14 ->
  seg_get s c = hd NULL (fl c) /\ 0 <= seg_get s c < 2 ^ 63 /\
  (seg_get s c = NULL -> fl c = []).
Proof.
  intros s bl epa epm fl ml c W Hc. pose proof W as [Hh Hl].
  pose proof (dchain_head _ _ _ (lo_chain _ _ _ _ Hl c Hc)) as Hd.
  split; [exact Hd|]. destruct (fl c) as [|u l] eqn:E.
  - simpl in Hd. rewrite Hd. unfold NULL. split; [lia|reflexivity].
  - simpl in Hd. assert (Hu : In u (fl c)) by (rewrite E; left; reflexivity).
    destruct (bucket_elem _ _ _ _ _ _ _ _ W Hc Hu) as (_ & _ & _ & _ & _ & B).
    rewrite Hd. split; [lia|]. unfold NULL. lia.
Qed.

Lemma mini_head : forall s bl epa epm fl ml,
  world s bl epa epm fl ml ->
  mini_list s = hd NULL ml /\ 0 <= mini_list s < 2 ^ 63 /\
  (mini_list s = NULL -> ml = []).
Proof.
  intros s bl epa epm fl ml W. pose proof W as [Hh Hl].
  pose proof (mchain_head _ _ _ (lo_mchain _ _ _ _ Hl)) as Hd.
  split; [exact Hd|]. destruct ml as [|u l] eqn:E.
  - simpl in Hd. rewrite Hd. unfold NULL. split; [lia|reflexivity].
  - simpl in Hd. assert (Hu : In u (u :: l)) by (left; reflexivity).
    destruct (mini_elem _ _ _ _ _ _ _ W Hu) as (_ & _ & _ & _ & B).
    rewrite Hd. split; [lia|]. unfold NULL. lia.
Qed.

Lemma set_bucket_same : forall fl c l, set_bucket fl c l c = l.
Proof. intros. unfold set_bucket. rewrite Z.eqb_refl. reflexivity. Qed.

Lemma set_bucket_other : forall fl c l j,
  j <> c -> set_bucket fl c l j = fl j.
Proof.
  intros. unfold set_bucket. destruct (Z.eqb_spec j c); [contradiction|].
  reflexivity.
Qed.

Lemma keeps_relabel : forall x0 s bl s' bl',
  keeps x0 s bl s' bl ->
  (forall x sz, alloc_at (heap_start s') bl x sz ->
                alloc_at (heap_start s') bl' x sz) ->
  keeps x0 s bl s' bl'.
Proof.
  intros x0 s bl s' bl' H Ha x sz Hx Hal.
  destruct (H x sz Hx Hal) as [H1 H2]. split; [apply Ha; exact H1|exact H2].
Qed.

Lemma hole_not_listed : forall s l1 b l2 epa epm fl ml u bu,
  world s (l1 ++ b :: l2) epa epm fl ml -> b_st b <> SFree ->
  In (u, bu) (layout (heap_start s) (l1 ++ b :: l2)) -> b_st bu = SFree ->
  u <> end_addr (heap_start s) l1.
Proof.
  intros s l1 b l2 epa epm fl ml u bu [[_ Hs _ _ _ _] _] Hb Hu Hst ->.
  pose proof (layout_same_addr _ _ _ _ _ Hs Hu (layout_mid l1 b l2 _)).
  subst bu. contradiction.
Qed.

(** [insert_free] on a mini block. *)
Lemma insert_free_mini : forall s l1 b l2 epa epm fl ml x s',
  world s (l1 ++ b :: l2) epa epm fl ml ->
  b_st b = SHole -> x = end_addr (heap_start s) l1 -> b_size b = 16 ->
  mem s' = store64 (mem s) (x + 8) (mini_list s) ->
  mini_list s' = x -> seg_list s' = seg_list s -> same_heap s s' ->
  world s' (l1 ++ mkBlock (b_size b) SFree (b_pa b) (b_pm b) :: l2)
        epa epm fl (x :: ml).
Proof.
  intros s l1 b l2 epa epm fl ml x s' W Hst Hx E16 Hmem Hml Hsl
    (G1 & G2 & G3 & G4).
  set (b' := mkBlock (b_size b) SFree (b_pa b) (b_pm b)).
  pose proof W as [Hh Hl].
  assert (Hin : In (x, b) (layout (heap_start s) (l1 ++ b :: l2)))
    by (rewrite Hx; apply layout_mid).
  destruct (world_block _ _ _ _ _ _ _ _ W Hin) as (_ & B1 & B2 & _ & B3 & B4).
  destruct (mini_head _ _ _ _ _ _ W) as (Hhd & Hrange & Hnil).
  assert (Ho : outside (mem s) (mem s') (x + 8) (x + 8 + 8))
    by (rewrite Hmem; apply outside_store64).
  assert (Hsz : sizes_ok (l1 ++ b :: l2)) by apply Hh.
  assert (Hfr : forall u bu w,
            In (u, bu) (layout (heap_start s) (l1 ++ b :: l2)) ->
            b_st bu = SFree -> u <= w -> w + 8 <= u + b_size bu ->
            load64 (mem s') w = load64 (mem s) w).
  { intros u bu w Hu Hsu H1 H2.
    eapply (other_block_load _ _ _ _ _ _ x b u bu); eauto; try lia.
    rewrite Hx. eapply hole_not_listed; eauto. congruence. }
  split.
  - apply (heap_mem_relabel s' l1 b); try reflexivity.
    + eapply (heap_mem_link_write s s'); eauto.
      * rewrite Hst. reflexivity.
      * lia.
      * unfold links. rewrite E16. simpl. lia.
    + simpl. rewrite Hst. reflexivity.
  - constructor.
    + rewrite Hsl. apply Hl.
    + intros c Hc. unfold seg_get. rewrite Hsl.
      apply (dchain_frame (mem s)); [apply Hl; exact Hc| |].
      * intros u Hu.
        destruct (bucket_elem _ _ _ _ _ _ _ _ W Hc Hu)
          as (bu & Hbu & Hsu & Hsz32 & _).
        apply (Hfr u bu); auto; lia.
      * intros u Hu. assert (Hu' : In u (fl c)).
        { destruct (fl c); [destruct Hu|right; exact Hu]. }
        destruct (bucket_elem _ _ _ _ _ _ _ _ W Hc Hu')
          as (bu & Hbu & Hsu & Hsz32 & _).
        apply (Hfr u bu); auto; lia.
    + intros c u Hc. rewrite G1. rewrite (lo_mem _ _ _ _ Hl c u Hc).
      assert (Hnf : b_st b <> SFree) by congruence.
      split; intros (sz & Hf & Hne & Hcl); exists sz;
        (split; [|split; assumption]).
      * apply (proj2 (free_at_relabel_free l1 b b' l2 _ u sz
                        eq_refl Hnf eq_refl)). right. exact Hf.
      * apply (proj1 (free_at_relabel_free l1 b b' l2 _ u sz
                        eq_refl Hnf eq_refl)) in Hf.
        destruct Hf as [[_ E]|Hf]; [congruence|exact Hf].
    + apply Hl.
    + simpl. split; [exact Hml|]. rewrite Hmem.
      rewrite load64_store64_same by lia.
      apply (mchain_frame (mem s)); [apply Hl|].
      intros u Hu.
      destruct (mini_elem _ _ _ _ _ _ _ W Hu) as (bu & Hbu & Hsu & Hs16 & _).
      rewrite <- Hmem. apply (Hfr u bu); auto; lia.
    + intros u. rewrite G1. simpl. rewrite (lo_mmem _ _ _ _ Hl).
      assert (Hnf : b_st b <> SFree) by congruence.
      rewrite (free_at_relabel_free l1 b b' l2 _ u 16 eq_refl Hnf eq_refl).
      rewrite <- Hx. intuition congruence.
    + constructor; [|apply Hl]. intros Hu.
      destruct (mini_elem _ _ _ _ _ _ _ W Hu) as (bu & Hbu & Hsu & _).
      apply (hole_not_listed _ _ _ _ _ _ _ _ _ _ W) in Hbu; auto; congruence.
Qed.

(** [insert_free] on a block that is not a mini block: the old head [curr]
    of its bucket gets the block in [prev] (memory [m1]), then the block
    gets its links. *)
Lemma insert_free_big : forall s l1 b l2 epa epm fl ml x s' m1 c,
  world s (l1 ++ b :: l2) epa epm fl ml ->
  b_st b = SHole -> x = end_addr (heap_start s) l1 -> b_size b <> 16 ->
  c = find_class (b_size b) ->
  (seg_get s c = NULL -> m1 = mem s) ->
  outside (mem s) m1 (seg_get s c + 8) (seg_get s c + 8 + 8) ->
  outside m1 (mem s') (x + 8) (x + 24) ->
  load64 (mem s') (x + 16) = seg_get s c ->
  (seg_get s c <> NULL -> load64 (mem s') (seg_get s c + 8) = x) ->
  seg_list s' = upd (seg_list s) (Z.to_nat c) x ->
  mini_list s' = mini_list s -> same_heap s s' ->
  world s' (l1 ++ mkBlock (b_size b) SFree (b_pa b) (b_pm b) :: l2)
        epa epm (set_bucket fl c (x :: fl c)) ml /\
  forall x0, keeps x0 s (l1 ++ b :: l2) s'
               (l1 ++ mkBlock (b_size b) SFree (b_pa b) (b_pm b) :: l2).
Proof.
  intros s l1 b l2 epa epm fl ml x s' m1 c W Hst Hx N16 Hc' Hm1 Ho1 Ho2
    M1 M2 Hsl Hml (G1 & G2 & G3 & G4).
  set (b' := mkBlock (b_size b) SFree (b_pa b) (b_pm b)).
  set (bl := l1 ++ b :: l2) in *.
  pose proof W as [Hh Hl].
  assert (Hin : In (x, b) (layout (heap_start s) bl))
    by (rewrite Hx; apply layout_mid).
  destruct (world_block _ _ _ _ _ _ _ _ W Hin) as (_ & B1 & B2 & _ & B3 & B4).
  pose proof (size_ok_not_mini _ B3 N16) as B32.
  pose proof (find_class_range (b_size b)) as Hcr. rewrite <- Hc' in Hcr.
  assert (Hc : 0 <= c < 14) by lia.
  destruct (bucket_head _ _ _ _ _ _ c W Hc) as (Hhd & Hrange & Hnil).
  set (curr := seg_get s c) in *.
  assert (Hsz : sizes_ok bl) by apply Hh.
  assert (Hnf : b_st b <> SFree) by congruence.
  assert (Hcurr : curr <> NULL ->
            exists bc, In (curr, bc) (layout (heap_start s) bl) /\
                       b_st bc = SFree /\ 32 <= b_size bc /\
                       find_class (b_size bc) = c /\ In curr (fl c)).
  { intros Hn. destruct (fl c) as [|u l] eqn:E; [simpl in Hhd; congruence|].
    simpl in Hhd. assert (Hu : In curr (fl c)) by (rewrite E, Hhd; left; auto).
    destruct (bucket_elem _ _ _ _ _ _ _ _ W Hc Hu) as (bc & H1 & H2 & H3 & H4 & _).
    exists bc. repeat split; auto. rewrite Hhd. left. reflexivity. }
  assert (Hfr : forall u bu w,
            In (u, bu) (layout (heap_start s) bl) -> b_st bu = SFree ->
            u <= w -> w + 8 <= u + b_size bu ->
            u <> curr \/ curr + 16 <= w ->
            load64 (mem s') w = load64 (mem s) w).
  { intros u bu w Hu Hsu H1 H2 H3.
    assert (E1 : load64 (mem s') w = load64 m1 w).
    { eapply (other_block_load _ _ _ _ _ _ x b u bu); eauto; try lia.
      rewrite Hx. eapply hole_not_listed; eauto. }
    rewrite E1. destruct (Z.eq_dec curr NULL) as [En|Nn].
    - rewrite (Hm1 En). reflexivity.
    - destruct (Hcurr Nn) as (bc & Hbc & Hsc & Hc32 & _).
      destruct (Z.eq_dec u curr) as [->|Hne].
      + apply (outside_load64 _ _ _ _ _ Ho1). lia.
      + eapply (other_block_load _ _ _ _ _ _ curr bc u bu); eauto; lia. }
  assert (Hh' : heap_mem s' bl epa epm).
  { assert (Hh1 : heap_mem (set_mem s m1) bl epa epm).
    { destruct (Z.eq_dec curr NULL) as [En|Nn].
      - rewrite (Hm1 En). destruct s; exact Hh.
      - destruct (Hcurr Nn) as (bc & Hbc & Hsc & Hc32 & _).
        apply (heap_mem_link_write s (set_mem s m1) bl epa epm curr bc
                 (curr + 8) (curr + 8 + 8) Hh Hbc);
          [rewrite Hsc; reflexivity | reflexivity | reflexivity | reflexivity
          | reflexivity | exact Ho1 | lia | ].
        unfold links. destruct (Z.eqb_spec (b_size bc) 16); lia. }
    apply (heap_mem_link_write (set_mem s m1) s' bl epa epm x b
             (x + 8) (x + 24) Hh1 Hin);
      [rewrite Hst; reflexivity | exact G1 | exact G2 | exact G3 | exact G4
      | exact Ho2 | lia | ].
    unfold links. destruct (Z.eqb_spec (b_size b) 16); [contradiction|lia]. }
  split; [split|].
  - apply (heap_mem_relabel s' l1 b); try reflexivity; [exact Hh'|].
    simpl. rewrite Hst. reflexivity.
  - constructor.
    + rewrite Hsl, length_upd. apply Hl.
    + intros j Hj. unfold seg_get. rewrite Hsl.
      destruct (Z.eq_dec j c) as [->|Hjc].
      * rewrite set_bucket_same, nth_upd_same
          by (rewrite (lo_len _ _ _ _ Hl); lia).
        simpl. split; [reflexivity|]. rewrite M1. split.
        -- apply (dchain_frame (mem s)); [apply Hl; exact Hc| |].
           ++ intros u Hu.
              destruct (bucket_elem _ _ _ _ _ _ _ _ W Hc Hu)
                as (bu & Hbu & Hsu & Hsz32 & _).
              apply (Hfr u bu); auto; lia.
           ++ intros u Hu.
              assert (Hu' : In u (fl c))
                by (destruct (fl c); [destruct Hu|right; exact Hu]).
              destruct (bucket_elem _ _ _ _ _ _ _ _ W Hc Hu')
                as (bu & Hbu & Hsu & Hsz32 & _).
              apply (Hfr u bu); auto; try lia. left.
              pose proof (lo_nodup _ _ _ _ Hl c Hc) as Hnd.
              destruct (fl c) as [|h t]; [destruct Hu|].
              simpl in Hhd, Hu. inversion Hnd; subst. congruence.
        -- destruct (fl c) as [|y t] eqn:E; [exact I|].
           simpl in Hhd. rewrite <- Hhd. apply M2.
           destruct Hrange as [Hr0 _]. intros En.
           assert (Hy : In y (fl c)) by (rewrite E; left; reflexivity).
           destruct (bucket_elem _ _ _ _ _ _ _ _ W Hc Hy) as (_ & _ & _ & _ & _ & Hy8).
           unfold NULL in En. lia.
      * rewrite set_bucket_other by exact Hjc.
        rewrite nth_upd_other by lia.
        apply (dchain_frame (mem s)); [apply Hl; exact Hj| |].
        -- intros u Hu.
           destruct (bucket_elem _ _ _ _ _ _ _ _ W Hj Hu)
             as (bu & Hbu & Hsu & Hsz32 & Hcu & _).
           apply (Hfr u bu); auto; lia.
        -- intros u Hu.
           assert (Hu' : In u (fl j))
             by (destruct (fl j); [destruct Hu|right; exact Hu]).
           destruct (bucket_elem _ _ _ _ _ _ _ _ W Hj Hu')
             as (bu & Hbu & Hsu & Hsz32 & Hcu & Hu8).
           apply (Hfr u bu); auto; try lia. left. intros ->.
           assert (Nn : curr <> NULL).
           { intros En. unfold NULL in En. lia. }
           destruct (Hcurr Nn) as (bc & Hbc & _ & _ & Hcc & _).
           rewrite (layout_same_addr _ _ _ _ _ Hsz Hbu Hbc) in Hcu. congruence.
    + intros j u Hj. rewrite G1. unfold set_bucket.
      assert (Hiff : forall sz, free_at (heap_start s) (l1 ++ b' :: l2) u sz <->
                (u = x /\ sz = b_size b) \/ free_at (heap_start s) bl u sz).
      { intros sz. rewrite Hx.
        apply (free_at_relabel_free l1 b b' l2 _ u sz eq_refl Hnf eq_refl). }
      destruct (Z.eqb_spec j c) as [->|Hjc].
      * simpl. rewrite (lo_mem _ _ _ _ Hl c u Hc). split.
        -- intros [<-|(sz & Hf & H)].
           ++ exists (b_size b). rewrite Hiff. auto.
           ++ exists sz. rewrite Hiff. tauto.
        -- intros (sz & Hf & H). apply Hiff in Hf as [[-> _]|Hf]; [auto|].
           right. exists sz. tauto.
      * rewrite (lo_mem _ _ _ _ Hl j u Hj). split.
        -- intros (sz & Hf & H). exists sz. rewrite Hiff. tauto.
        -- intros (sz & Hf & H1 & H2).
           apply Hiff in Hf as [[-> ->]|Hf]; [congruence|].
           exists sz. tauto.
    + intros j Hj. unfold set_bucket. destruct (Z.eqb_spec j c) as [->|Hjc].
      * constructor; [|apply Hl; exact Hc]. intros Hu.
        destruct (bucket_elem _ _ _ _ _ _ _ _ W Hc Hu) as (bu & Hbu & Hsu & _).
        apply (hole_not_listed _ _ _ _ _ _ _ _ _ _ W) in Hbu; auto; congruence.
      * apply Hl; exact Hj.
    + rewrite Hml. apply (mchain_frame (mem s)); [apply Hl|].
      intros u Hu.
      destruct (mini_elem _ _ _ _ _ _ _ W Hu) as (bu & Hbu & Hsu & Hs16 & _).
      apply (Hfr u bu); auto; try lia. left. intros ->.
      assert (Nn : curr <> NULL).
      { intros En. destruct (world_block _ _ _ _ _ _ _ _ W Hbu) as (_ & ? & _).
        unfold NULL in En. lia. }
      destruct (Hcurr Nn) as (bc & Hbc & _ & Hc32 & _).
      rewrite (layout_same_addr _ _ _ _ _ Hsz Hbu Hbc) in Hs16. lia.
    + intros u. rewrite G1, (lo_mmem _ _ _ _ Hl).
      rewrite (free_at_relabel_free l1 b b' l2 _ u 16 eq_refl Hnf eq_refl).
      intuition congruence.
    + apply Hl.
  - intros x0. apply keeps_relabel.
    + apply (keeps_trans x0 s bl (set_mem s m1) bl).
      * destruct (Z.eq_dec curr NULL) as [En|Nn].
        -- rewrite (Hm1 En). destruct s; apply keeps_refl.
        -- destruct (Hcurr Nn) as (bc & Hbc & Hsc & Hc32 & _).
           apply (keeps_link_write x0 s (set_mem s m1) bl curr bc
                    (curr + 8) (curr + 8 + 8) Hsz Hbc);
             [rewrite Hsc; reflexivity | reflexivity | exact Ho1 | lia | lia].
      * apply (keeps_link_write x0 (set_mem s m1) s' bl x b
                 (x + 8) (x + 24) Hsz Hin);
          [rewrite Hst; reflexivity | exact G1 | exact Ho2 | lia | lia].
    + intros y sz. rewrite G1.
      apply (proj2 (alloc_at_relabel l1 b b' l2 _ y sz eq_refl
                      ltac:(congruence) ltac:(discriminate))).
Qed.

Lemma same_heap_refl : forall s, same_heap s s.
Proof. intros s. unfold same_heap. tauto. Qed.

Lemma same_heap_trans : forall s1 s2 s3,
  same_heap s1 s2 -> same_heap s2 s3 -> same_heap s1 s3.
Proof.
  unfold same_heap. intros s1 s2 s3 (A1 & A2 & A3 & A4) (B1 & B2 & B3 & B4).
  repeat split; congruence.
Qed.

Lemma same_globals_heap : forall s s', same_globals s s' -> same_heap s s'.
Proof. unfold same_globals, same_heap. tauto. Qed.

(** [insert_free] puts a block that is off the lists on its list. *)
Lemma insert_free_ok : forall s l1 b l2 epa epm fl ml x,
  world s (l1 ++ b :: l2) epa epm fl ml ->
  b_st b = SHole -> x = end_addr (heap_start s) l1 ->
  exists fl' ml',
    world (insert_free s x)
          (l1 ++ mkBlock (b_size b) SFree (b_pa b) (b_pm b) :: l2)
          epa epm fl' ml' /\
    same_heap s (insert_free s x) /\
    forall x0, keeps x0 s (l1 ++ b :: l2) (insert_free s x)
                 (l1 ++ mkBlock (b_size b) SFree (b_pa b) (b_pm b) :: l2).
Proof.
  intros s l1 b l2 epa epm fl ml x W Hst Hx.
  set (b' := mkBlock (b_size b) SFree (b_pa b) (b_pm b)).
  set (bl := l1 ++ b :: l2) in *.
  pose proof W as [Hh Hl].
  assert (Hin : In (x, b) (layout (heap_start s) bl))
    by (rewrite Hx; apply layout_mid).
  destruct (world_block _ _ _ _ _ _ _ _ W Hin) as (_ & B1 & B2 & _ & B3 & B4).
  destruct (world_block_lt _ _ _ _ _ _ _ _ W Hin) as [B5 _].
  destruct (world_fields _ _ _ _ _ _ _ _ W Hin) as (F1 & _).
  assert (Hsz : sizes_ok bl) by apply Hh.
  unfold insert_free, is_mini_block. rewrite F1.
  unfold min_block_size, dsize, wsize. change (2 * 8) with 16.
  destruct (Z.eqb_spec (b_size b) 16) as [E16|N16].
  - destruct (mini_head _ _ _ _ _ _ W) as (Hhd & Hrange & Hnil).
    assert (Hk : forall s', heap_start s' = heap_start s ->
               mem s' = store64 (mem s) (x + 8) (mini_list s) ->
               forall x0, keeps x0 s bl s' (l1 ++ b' :: l2)).
    { intros s' G1 Hmem x0. apply keeps_relabel.
      - apply (keeps_link_write x0 s s' bl x b (x + 8) (x + 8 + 8) Hsz Hin);
          [rewrite Hst; reflexivity | exact G1
          | rewrite Hmem; apply outside_store64 | lia | lia].
      - intros y sz. rewrite G1.
        apply (proj2 (alloc_at_relabel l1 b b' l2 _ y sz eq_refl
                        ltac:(congruence) ltac:(discriminate))). }
    destruct (Z.eqb_spec (mini_list s) NULL) as [En|Nn]; simpl negb; cbv iota.
    + exists fl, (x :: ml). split; [|split].
      * apply (insert_free_mini s l1 b l2 epa epm fl ml x); auto.
        -- simpl. unfold set_mini_next, write. simpl. rewrite En. reflexivity.
        -- unfold same_heap. simpl. tauto.
      * unfold same_heap. simpl. tauto.
      * apply Hk; [reflexivity|]. simpl. rewrite En. reflexivity.
    + exists fl, (x :: ml). split; [|split].
      * apply (insert_free_mini s l1 b l2 epa epm fl ml x); auto.
        unfold same_heap. simpl. tauto.
      * unfold same_heap. simpl. tauto.
      * apply Hk; reflexivity.
  - pose proof (size_ok_not_mini _ B3 N16) as B32.
    set (c := find_class (b_size b)).
    pose proof (find_class_range (b_size b)) as Hcr. fold c in Hcr.
    assert (Hc : 0 <= c < 14) by lia.
    destruct (bucket_head _ _ _ _ _ _ c W Hc) as (Hhd & Hrange & Hnil).
    set (curr := seg_get s c) in *.
    exists (set_bucket fl c (x :: fl c)), ml.
    destruct (Z.eqb_spec curr NULL) as [En|Nn]; simpl negb; cbv iota.
    + match goal with |- world ?t _ _ _ _ _ /\ _ => set (s' := t) end.
      assert (R := insert_free_big s l1 b l2 epa epm fl ml x s' (mem s) c
                     W Hst Hx N16 eq_refl).
      fold curr in R. destruct R as [R1 R2].
      * reflexivity.
      * apply outside_refl.
      * subst s'. simpl. unfold NULL.
        apply (outside_trans _ (store64 (mem s) (x + 16) 0)).
        -- eapply outside_widen; [apply outside_store64|lia|lia].
        -- eapply outside_widen; [apply outside_store64|lia|lia].
      * subst s'. simpl. rewrite load64_store64_other by lia.
        rewrite En. apply load64_store64_same. unfold NULL. lia.
      * contradiction.
      * reflexivity.
      * reflexivity.
      * unfold same_heap. simpl. tauto.
      * split; [exact R1|]. split; [|exact R2].
        unfold same_heap. simpl. tauto.
    + match goal with |- world ?t _ _ _ _ _ /\ _ => set (s' := t) end.
      assert (Hcu : In curr (fl c)).
      { destruct (fl c) as [|u l]; [simpl in Hhd; contradiction|].
        simpl in Hhd. rewrite Hhd. left. reflexivity. }
      destruct (bucket_elem _ _ _ _ _ _ _ _ W Hc Hcu)
        as (bc & Hbc & Hsc & Hc32 & _ & Hc8).
      assert (Hd : x + b_size b <= curr \/ curr + b_size bc <= x).
      { destruct (layout_disjoint _ _ _ _ _ _ Hsz Hin Hbc) as [[_ E]|Hd];
          [|exact Hd]. subst bc. congruence. }
      assert (R := insert_free_big s l1 b l2 epa epm fl ml x s'
                     (store64 (mem s) (curr + 8) x) c W Hst Hx N16 eq_refl).
      fold curr in R. destruct R as [R1 R2].
      * intros En. contradiction.
      * apply outside_store64.
      * subst s'. simpl.
        eapply outside_widen; [apply outside_store64|lia|lia].
      * subst s'. simpl. apply load64_store64_same. lia.
      * intros _. subst s'. simpl.
        rewrite load64_store64_other by lia.
        apply load64_store64_same. lia.
      * reflexivity.
      * reflexivity.
      * unfold same_heap. simpl. tauto.
      * split; [exact R1|]. split; [|exact R2].
        unfold same_heap. simpl. tauto.
Qed.

(** * Taking a block off its list *)

Lemma dchain_app_inv : forall m la h x lb,
  dchain m h (la ++ x :: lb) ->
  dchain m (load64 m (x + 16)) lb /\
  match lb with [] => True | z :: _ => load64 m (z + 8) = x end.
Proof.
  intros m la. induction la as [|a la IH]; intros h x lb H.
  - destruct H as (_ & H1 & H2). auto.
  - destruct H as (_ & H1 & _). eapply IH. exact H1.
Qed.

Lemma dchain_pred : forall m la h y x lb,
  dchain m h (la ++ y :: x :: lb) ->
  load64 m (x + 8) = y /\ load64 m (y + 16) = x /\
  load64 m (x + 16) = hd NULL lb.
Proof.
  intros m la h y x lb H.
  apply dchain_app_inv in H as [H1 H2].
  pose proof (dchain_head _ _ _ H1) as E1. simpl in E1.
  destruct H1 as (_ & H3 & _).
  pose proof (dchain_head _ _ _ H3) as E2. auto.
Qed.

(** The list without [x], once [y]'s [next] skips [x] and the [prev] of
    the block after [x], if there is one, is [y]. *)
Lemma dchain_unlink : forall m m' la h y x lb,
  dchain m h (la ++ y :: x :: lb) ->
  load64 m' (y + 16) = hd NULL lb ->
  match lb with [] => True | z :: _ => load64 m' (z + 8) = y end ->
  (forall u, In u (la ++ lb) -> load64 m' (u + 16) = load64 m (u + 16)) ->
  (forall u, In u (la ++ y :: tl lb) -> load64 m' (u + 8) = load64 m (u + 8)) ->
  dchain m' h (la ++ y :: lb).
Proof.
  intros m m' la. induction la as [|a la IH]; intros h y x lb H Hy Hz Hn Hp.
  - simpl in *. destruct H as (-> & H1 & _). split; [reflexivity|].
    destruct H1 as (_ & H2 & _). split; [|exact Hz].
    rewrite Hy. rewrite (dchain_head _ _ _ H2) in H2.
    apply (dchain_frame m); [exact H2|exact Hn|].
    intros u Hu. apply Hp. right. exact Hu.
  - simpl in H. destruct H as (-> & H1 & H2). simpl.
    split; [reflexivity|]. split.
    + rewrite Hn by (left; reflexivity).
      apply (IH _ y x lb H1 Hy Hz).
      * intros u Hu. apply Hn. right. exact Hu.
      * intros u Hu. apply Hp. right. exact Hu.
    + destruct la as [|a' la]; simpl in *.
      * rewrite Hp by (right; left; reflexivity). exact H2.
      * rewrite Hp by (right; left; reflexivity). exact H2.
Qed.

Lemma mchain_app_inv : forall m la h x lb,
  mchain m h (la ++ x :: lb) -> mchain m (load64 m (x + 8)) lb.
Proof.
  intros m la. induction la as [|a la IH]; intros h x lb H.
  - destruct H as (_ & H1). exact H1.
  - destruct H as (_ & H1). eapply IH. exact H1.
Qed.

Lemma mchain_unlink : forall m m' la h y x lb,
  mchain m h (la ++ y :: x :: lb) ->
  load64 m' (y + 8) = hd NULL lb ->
  (forall u, In u (la ++ lb) -> load64 m' (u + 8) = load64 m (u + 8)) ->
  mchain m' h (la ++ y :: lb).
Proof.
  intros m m' la. induction la as [|a la IH]; intros h y x lb H Hy Hn.
  - simpl in *. destruct H as (-> & _ & H2). split; [reflexivity|].
    rewrite Hy. rewrite (mchain_head _ _ _ H2) in H2.
    apply (mchain_frame m); [exact H2|exact Hn].
  - simpl in H. destruct H as (-> & H1). simpl. split; [reflexivity|].
    rewrite Hn by (left; reflexivity).
    apply (IH _ y x lb H1 Hy). intros u Hu. apply Hn. right. exact Hu.
Qed.

Lemma nodup_head_not_later : forall (la : list Z) y x lb,
  NoDup (la ++ y :: x :: lb) -> hd NULL (la ++ y :: x :: lb) <> x.
Proof.
  intros la y x lb H. destruct la as [|a la]; simpl in *.
  - inversion H as [|? ? Hn _]; subst. intros ->. apply Hn. left. reflexivity.
  - inversion H as [|? ? Hn _]; subst. intros ->. apply Hn.
    apply in_or_app. right. right. left. reflexivity.
Qed.

(** The scan of the mini list stops at the block before [x]. *)
Lemma mini_scan_spec : forall s la fuel h y x lb,
  mchain (mem s) h (la ++ y :: x :: lb) ->
  NoDup (la ++ y :: x :: lb) ->
  ((length la < fuel)%nat -> mini_scan fuel s h x = Some y) /\
  (forall r, mini_scan fuel s h x = Some r -> r = y).
Proof.
  intros s la. induction la as [|a la IH]; intros fuel h y x lb H Hnd.
  - simpl in H. destruct H as (-> & Hx & _).
    destruct fuel as [|f]; simpl.
    + split; [lia|discriminate].
    + unfold mini_next, read. rewrite Hx, Z.eqb_refl. simpl.
      split; [reflexivity|congruence].
  - simpl in H. destruct H as (-> & H1).
    pose proof (mchain_head _ _ _ H1) as E.
    inversion Hnd as [|? ? _ Hnd']; subst.
    assert (Hne : load64 (mem s) (a + 8) <> x).
    { rewrite E. apply (nodup_head_not_later la y x lb Hnd'). }
    destruct fuel as [|f]; simpl.
    + split; [lia|discriminate].
    + unfold mini_next at 1 3, read.
      destruct (Z.eqb_spec (load64 (mem s) (a + 8)) x) as [Ex|_];
        [contradiction|].
      simpl negb. cbv iota. unfold mini_next, read.
      destruct (IH f _ y x lb H1 Hnd') as [I1 I2].
      split; [intros Hf; apply I1; lia|exact I2].
Qed.

Lemma in_not_head_split : forall (l : list Z) x,
  In x l -> hd NULL l <> x ->
  exists la y lb, l = la ++ y :: x :: lb.
Proof.
  intros l x Hin Hhd. apply in_split in Hin as (l1 & lb & ->).
  destruct l1 as [|a l1] using rev_ind.
  - simpl in Hhd. contradiction.
  - exists l1, a, lb. rewrite <- app_assoc. reflexivity.
Qed.

Lemma remove_middle_in : forall (l1 l2 : list Z) x,
  NoDup (l1 ++ x :: l2) ->
  NoDup (l1 ++ l2) /\
  forall u, In u (l1 ++ l2) <-> In u (l1 ++ x :: l2) /\ u <> x.
Proof.
  intros l1 l2 x H. split; [eapply NoDup_remove_1; exact H|].
  pose proof (NoDup_remove_2 _ _ _ H) as Hn.
  intros u. rewrite !in_app_iff. simpl. rewrite in_app_iff in Hn.
  split.
  - intros Hu. split; [tauto|]. intros ->. tauto.
  - intros [[Hu|[Hu|Hu]] Hne]; auto. congruence.
Qed.

(** The membership part of [lists_ok] after the block at [x], on the list
    of class [c], is taken off. *)
Lemma lists_ok_remove : forall s s' l1 b l2 fl ml c l' x,
  lists_ok s (l1 ++ b :: l2) fl ml -> sizes_ok (l1 ++ b :: l2) ->
  b_st b = SFree -> b_size b <> 16 -> c = find_class (b_size b) ->
  x = end_addr (heap_start s) l1 ->
  heap_start s' = heap_start s -> length (seg_list s') = 14%nat ->
  (forall j, 0 <= j < 14 ->
             dchain (mem s') (seg_get s' j) (set_bucket fl c l' j)) ->
  mchain (mem s') (mini_list s') ml ->
  (forall u, In u l' <-> In u (fl c) /\ u <> x) -> NoDup l' ->
  lists_ok s' (l1 ++ mkBlock (b_size b) SHole (b_pa b) (b_pm b) :: l2)
           (set_bucket fl c l') ml.
Proof.
  intros s s' l1 b l2 fl ml c l' x Hl Hs Hst N16 Hc Hx G1 Hlen Hch Hmc Hin Hnd.
  set (b' := mkBlock (b_size b) SHole (b_pa b) (b_pm b)).
  assert (Hiff : forall u sz,
            free_at (heap_start s) (l1 ++ b' :: l2) u sz <->
            u <> x /\ free_at (heap_start s) (l1 ++ b :: l2) u sz).
  { intros u sz. rewrite Hx.
    apply (free_at_relabel_hole l1 b b' l2 _ u sz Hs eq_refl Hst).
    discriminate. }
  assert (Hxf : forall sz, free_at (heap_start s) (l1 ++ b :: l2) x sz ->
                           sz = b_size b).
  { intros sz (bx & Hbx & _ & <-). rewrite Hx in Hbx.
    rewrite (layout_same_addr _ _ _ _ _ Hs Hbx (layout_mid l1 b l2 _)).
    reflexivity. }
  pose proof (find_class_range (b_size b)) as Hcr. rewrite <- Hc in Hcr.
  constructor.
  - exact Hlen.
  - exact Hch.
  - intros j u Hj. rewrite G1. unfold set_bucket.
    destruct (Z.eqb_spec j c) as [->|Hjc].
    + rewrite Hin, (lo_mem _ _ _ _ Hl c u Hj). split.
      * intros [(sz & Hf & H) Hne]. exists sz. rewrite Hiff. tauto.
      * intros (sz & Hf & H). apply Hiff in Hf as [Hne Hf].
        split; [|exact Hne]. exists sz. tauto.
    + rewrite (lo_mem _ _ _ _ Hl j u Hj). split.
      * intros (sz & Hf & H1 & H2). exists sz. rewrite Hiff.
        repeat split; auto. intros ->. apply Hxf in Hf. congruence.
      * intros (sz & Hf & H). apply Hiff in Hf as [Hne Hf]. exists sz. tauto.
  - intros j Hj. unfold set_bucket. destruct (Z.eqb_spec j c) as [->|Hjc].
    + exact Hnd.
    + apply Hl. exact Hj.
  - exact Hmc.
  - intros u. rewrite G1, Hiff, (lo_mmem _ _ _ _ Hl). split; [|tauto].
    intros Hf. split; [|exact Hf]. intros ->. apply Hxf in Hf. congruence.
  - apply Hl.
Qed.

Lemma lists_ok_remove_mini : forall s s' l1 b l2 fl ml ml' x,
  lists_ok s (l1 ++ b :: l2) fl ml -> sizes_ok (l1 ++ b :: l2) ->
  b_st b = SFree -> b_size b = 16 ->
  x = end_addr (heap_start s) l1 ->
  heap_start s' = heap_start s -> length (seg_list s') = 14%nat ->
  (forall j, 0 <= j < 14 -> dchain (mem s') (seg_get s' j) (fl j)) ->
  mchain (mem s') (mini_list s') ml' ->
  (forall u, In u ml' <-> In u ml /\ u <> x) -> NoDup ml' ->
  lists_ok s' (l1 ++ mkBlock (b_size b) SHole (b_pa b) (b_pm b) :: l2)
           fl ml'.
Proof.
  intros s s' l1 b l2 fl ml ml' x Hl Hs Hst E16 Hx G1 Hlen Hch Hmc Hin Hnd.
  set (b' := mkBlock (b_size b) SHole (b_pa b) (b_pm b)).
  assert (Hiff : forall u sz,
            free_at (heap_start s) (l1 ++ b' :: l2) u sz <->
            u <> x /\ free_at (heap_start s) (l1 ++ b :: l2) u sz).
  { intros u sz. rewrite Hx.
    apply (free_at_relabel_hole l1 b b' l2 _ u sz Hs eq_refl Hst).
    discriminate. }
  assert (Hxf : forall sz, free_at (heap_start s) (l1 ++ b :: l2) x sz ->
                           sz = b_size b).
  { intros sz (bx & Hbx & _ & <-). rewrite Hx in Hbx.
    rewrite (layout_same_addr _ _ _ _ _ Hs Hbx (layout_mid l1 b l2 _)).
    reflexivity. }
  constructor.
  - exact Hlen.
  - exact Hch.
  - intros j u Hj. rewrite G1, (lo_mem _ _ _ _ Hl j u Hj). split.
    + intros (sz & Hf & H1 & H2). exists sz. rewrite Hiff.
      repeat split; auto. intros ->. apply Hxf in Hf. congruence.
    + intros (sz & Hf & H). apply Hiff in Hf as [Hne Hf]. exists sz. tauto.
  - apply Hl.
  - exact Hmc.
  - intros u. rewrite G1, Hiff, Hin, (lo_mmem _ _ _ _ Hl). tauto.
  - exact Hnd.
Qed.

Lemma blocks_apart : forall l a u bu v bv,
  sizes_ok l -> In (u, bu) (layout a l) -> In (v, bv) (layout a l) ->
  u <> v -> u + b_size bu <= v \/ v + b_size bv <= u.
Proof.
  intros l a u bu v bv Hs Hu Hv Hne.
  destruct (layout_disjoint _ _ _ _ _ _ Hs Hu Hv) as [[E _]|H];
    [contradiction|exact H].
Qed.

Lemma heap_mem_same_mem : forall s s' bl epa epm,
  heap_mem s bl epa epm -> same_heap s s' -> mem s' = mem s ->
  heap_mem s' bl epa epm.
Proof.
  intros s s' bl epa epm [Hb Hs Hm He Hepi Hpro] (G1 & G2 & G3 & G4) Hmem.
  constructor.
  - unfold bounds_ok in *. rewrite G1, G2, G3, G4. exact Hb.
  - exact Hs.
  - rewrite G1, Hmem. exact Hm.
  - rewrite G1, G2. exact He.
  - rewrite G2, Hmem. exact Hepi.
  - rewrite G3, Hmem. exact Hpro.
Qed.

Lemma keeps_same_mem : forall x0 s s' bl,
  heap_start s' = heap_start s -> mem s' = mem s -> keeps x0 s bl s' bl.
Proof.
  intros x0 s s' bl G1 Hmem x sz _ H. rewrite G1, Hmem.
  split; [exact H|reflexivity].
Qed.

(** [remove_free] on a block that is not a mini block. *)
Lemma remove_free_big_ok : forall fuel s l1 b l2 epa epm fl ml x s',
  world s (l1 ++ b :: l2) epa epm fl ml ->
  b_st b = SFree -> x = end_addr (heap_start s) l1 -> b_size b <> 16 ->
  remove_free fuel s x = Some s' ->
  exists fl',
    world s' (l1 ++ mkBlock (b_size b) SHole (b_pa b) (b_pm b) :: l2)
          epa epm fl' ml /\
    same_heap s s' /\
    forall x0, keeps x0 s (l1 ++ b :: l2) s'
                 (l1 ++ mkBlock (b_size b) SHole (b_pa b) (b_pm b) :: l2).
Proof.
  intros fuel s l1 b l2 epa epm fl ml x s' W Hst Hx N16 Hrm.
  set (b' := mkBlock (b_size b) SHole (b_pa b) (b_pm b)).
  set (bl := l1 ++ b :: l2) in *.
  pose proof W as [Hh Hl].
  assert (Hin : In (x, b) (layout (heap_start s) bl))
    by (rewrite Hx; apply layout_mid).
  destruct (world_block _ _ _ _ _ _ _ _ W Hin) as (_ & B1 & B2 & _ & B3 & B4).
  destruct (world_fields _ _ _ _ _ _ _ _ W Hin) as (F1 & _).
  assert (Hsz : sizes_ok bl) by apply Hh.
  pose proof (size_ok_not_mini _ B3 N16) as B32.
  set (c := find_class (b_size b)).
  pose proof (find_class_range (b_size b)) as Hcr. fold c in Hcr.
  assert (Hc : 0 <= c < 14) by lia.
  destruct (bucket_head _ _ _ _ _ _ c W Hc) as (Hhd & Hrange & Hnil).
  assert (Hxc : In x (fl c)).
  { apply (lo_mem _ _ _ _ Hl c x Hc). exists (b_size b).
    repeat split; auto. exists b. auto. }
  pose proof (lo_nodup _ _ _ _ Hl c Hc) as Hnd.
  pose proof (lo_chain _ _ _ _ Hl c Hc) as Hch.
  assert (Hk : forall s1 x0, heap_start s1 = heap_start s ->
               keeps x0 s bl s1 bl -> keeps x0 s bl s1 (l1 ++ b' :: l2)).
  { intros s1 x0 G1 K. apply keeps_relabel; [exact K|].
    intros y sz. rewrite G1.
    apply (proj2 (alloc_at_relabel l1 b b' l2 _ y sz eq_refl
                    ltac:(congruence) ltac:(discriminate))). }
  assert (Hrl : forall s1, heap_mem s1 bl epa epm ->
                           heap_mem s1 (l1 ++ b' :: l2) epa epm).
  { intros s1 H1. apply (heap_mem_relabel s1 l1 b); try reflexivity; auto.
    simpl. rewrite Hst. reflexivity. }
  unfold remove_free, is_mini_block in Hrm. rewrite F1 in Hrm.
  unfold min_block_size, dsize, wsize in Hrm. change (2 * 8) with 16 in Hrm.
  destruct (Z.eqb_spec (b_size b) 16) as [E|_]; [contradiction|].
  unfold is_head in Hrm. rewrite F1 in Hrm. fold c in Hrm.
  unfold payload_next, payload_prev, read in Hrm.
  destruct (Z.eqb_spec x (seg_get s c)) as [Ehead|Nhead].
  - (* the head of the bucket *)
    destruct (Z.eqb_spec c (-1)) as [E|_]; [lia|]. simpl in Hrm.
    injection Hrm as <-.
    destruct (fl c) as [|h lb] eqn:Efl; [destruct Hxc|].
    simpl in Hhd. assert (h = x) by congruence. subst h.
    exists (set_bucket fl c lb). split; [split|split].
    + apply Hrl. apply (heap_mem_same_mem s); auto.
      unfold same_heap. simpl. tauto.
    + apply (lists_ok_remove s _ l1 b l2 fl ml c lb x); auto.
      * unfold seg_set. simpl. rewrite length_upd. apply Hl.
      * intros j Hj. unfold set_bucket.
        destruct (Z.eqb_spec j c) as [->|Hjc].
        -- rewrite seg_get_set_same by (try apply Hl; lia).
           simpl. destruct Hch as (_ & H1 & _).
           rewrite <- Ehead in H1. exact H1.
        -- rewrite seg_get_set_other by lia. simpl. apply Hl. exact Hj.
      * simpl. apply Hl.
      * intros u. rewrite Efl. inversion Hnd; subst. simpl.
        split; [intros Hu; split; [auto|congruence]|].
        intros [[E|Hu] Hne]; [congruence|exact Hu].
      * inversion Hnd; auto.
    + unfold same_heap. simpl. tauto.
    + intros x0. apply Hk; [reflexivity|].
      apply keeps_same_mem; reflexivity.
  - (* further down the list *)
    destruct (Z.eqb_spec (-1) (-1)) as [_|E]; [|contradiction].
    simpl negb in Hrm. cbv iota in Hrm.
    destruct (in_not_head_split (fl c) x Hxc) as (la & y & lb & Efl);
      [congruence|].
    rewrite Efl in Hch, Hnd.
    destruct (dchain_pred _ _ _ _ _ _ Hch) as (Py & Ny & Nx).
    rewrite Py, Nx in Hrm.
    assert (Hyc : In y (fl c)).
    { rewrite Efl. apply in_or_app. right. left. reflexivity. }
    destruct (bucket_elem _ _ _ _ _ _ _ _ W Hc Hyc)
      as (by_ & Hby & Hsy & Hy32 & _ & Hy8).
    assert (Hel : forall u, In u (fl c) ->
              exists bu, In (u, bu) (layout (heap_start s) bl) /\
                         32 <= b_size bu /\ 8 <= u < 2 ^ 63).
    { intros u Hu.
      destruct (bucket_elem _ _ _ _ _ _ _ _ W Hc Hu) as (bu & H1 & _ & H2 & _ & H3).
      exists bu. auto. }
    assert (Hrem := remove_middle_in (la ++ [y]) lb x).
    rewrite <- !app_assoc in Hrem. simpl in Hrem.
    destruct (Hrem Hnd) as [Hnd' Hin'].
    assert (Hyx : forall u, In u (la ++ lb) -> u <> y).
    { intros u Hu ->. apply NoDup_remove_2 in Hnd'. contradiction. }
    set (fl' := set_bucket fl c (la ++ y :: lb)).
    assert (Hother : forall m', 
              (forall u bu w, In (u, bu) (layout (heap_start s) bl) ->
                 b_st bu = SFree -> u <= w -> w + 8 <= u + b_size bu ->
                 ~ In u (fl c) -> load64 m' w = load64 (mem s) w) ->
              (forall j, 0 <= j < 14 -> j <> c ->
                 dchain m' (seg_get s j) (fl j)) /\
              mchain m' (mini_list s) ml).
    { intros m' Hm'. split.
      - intros j Hj Hjc.
        assert (Hnc : forall u, In u (fl j) -> 
                  exists bu, In (u, bu) (layout (heap_start s) bl) /\
                    b_st bu = SFree /\ 32 <= b_size bu /\ ~ In u (fl c)).
        { intros u Hu.
          destruct (bucket_elem _ _ _ _ _ _ _ _ W Hj Hu)
            as (bu & H1 & H2 & H3 & H4 & _).
          exists bu. repeat split; auto. intros Huc.
          destruct (bucket_elem _ _ _ _ _ _ _ _ W Hc Huc)
            as (bu' & H1' & _ & _ & H4' & _).
          rewrite (layout_same_addr _ _ _ _ _ Hsz H1 H1') in H4. congruence. }
        apply (dchain_frame (mem s)); [apply Hl; exact Hj| |].
        + intros u Hu. destruct (Hnc u Hu) as (bu & H1 & H2 & H3 & H4).
          apply (Hm' u bu); auto; lia.
        + intros u Hu. assert (Hu' : In u (fl j))
            by (destruct (fl j); [destruct Hu|right; exact Hu]).
          destruct (Hnc u Hu') as (bu & H1 & H2 & H3 & H4).
          apply (Hm' u bu); auto; lia.
      - apply (mchain_frame (mem s)); [apply Hl|].
        intros u Hu.
        destruct (mini_elem _ _ _ _ _ _ _ W Hu) as (bu & H1 & H2 & H3 & _).
        apply (Hm' u bu); auto; try lia. intros Huc.
        destruct (bucket_elem _ _ _ _ _ _ _ _ W Hc Huc)
          as (bu' & H1' & _ & H3' & _).
        rewrite (layout_same_addr _ _ _ _ _ Hsz H1 H1') in H3. lia. }
    destruct lb as [|z lb].
    + (* the tail *)
      simpl in Nx. change (hd NULL (@nil Z)) with NULL in Hrm.
      rewrite Z.eqb_refl in Hrm. injection Hrm as <-.
      assert (Ho : outside (mem s) (store64 (mem s) (y + 16) NULL)
                           (y + 16) (y + 16 + 8)) by apply outside_store64.
      assert (Hld : forall u bu w, In (u, bu) (layout (heap_start s) bl) ->
                u <= w -> w + 8 <= u + b_size bu ->
                u <> y \/ w + 8 <= y + 16 ->
                load64 (store64 (mem s) (y + 16) NULL) w = load64 (mem s) w).
      { intros u bu w Hu H1 H2 H3.
        destruct (Z.eq_dec u y) as [->|Hne].
        - apply load64_store64_other. lia.
        - destruct (blocks_apart _ _ _ _ _ _ Hsz Hu Hby Hne);
            apply load64_store64_other; lia. }
      destruct (Hother (store64 (mem s) (y + 16) NULL)) as [Hch' Hmc'].
      { intros u bu w Hu _ H1 H2 Hnu. apply (Hld u bu); auto.
        left. intros ->. contradiction. }
      exists fl'. split; [split|split].
      * apply Hrl.
        apply (heap_mem_link_write s _ bl epa epm y by_ (y + 16) (y + 16 + 8)
                 Hh Hby); try reflexivity; try exact Ho; try lia.
        -- rewrite Hsy. reflexivity.
        -- unfold links. destruct (Z.eqb_spec (b_size by_) 16); lia.
      * apply (lists_ok_remove s _ l1 b l2 fl ml c (la ++ [y]) x); auto.
        -- simpl. apply Hl.
        -- intros j Hj. unfold set_bucket.
           destruct (Z.eqb_spec j c) as [->|Hjc]; [|apply Hch'; auto].
           simpl. unfold seg_get in *. simpl.
           apply (dchain_unlink (mem s) _ la _ y x []); auto.
           ++ change (hd NULL (@nil Z)) with NULL.
              apply load64_store64_same. unfold NULL. lia.
           ++ intros u Hu. rewrite app_nil_r in Hu.
              destruct (Hel u) as (bu & H1 & H2 & H3).
              { rewrite Efl. apply in_or_app. left. exact Hu. }
              apply (Hld u bu); auto; try lia. left. apply Hyx.
              rewrite app_nil_r. exact Hu.
           ++ intros u Hu. simpl in Hu.
              destruct (Hel u) as (bu & H1 & H2 & H3).
              { rewrite Efl. apply in_app_or in Hu as [Hu|[Hu|[]]];
                  apply in_or_app; [left|right; left]; auto. }
              apply (Hld u bu); auto; lia.
        -- intros u. rewrite Efl. rewrite <- (Hin' u).
           rewrite !in_app_iff. simpl. tauto.
      * unfold same_heap. simpl. tauto.
      * intros x0. apply Hk; [reflexivity|].
        apply (keeps_link_write x0 s _ bl y by_ (y + 16) (y + 16 + 8) Hsz Hby);
          try reflexivity; try exact Ho; try lia.
        rewrite Hsy. reflexivity.
    + (* in the middle *)
      simpl in Nx, Hrm.
      assert (Hzc : In z (fl c)).
      { rewrite Efl. apply in_or_app. right. right. right. left. reflexivity. }
      destruct (bucket_elem _ _ _ _ _ _ _ _ W Hc Hzc)
        as (bz & Hbz & Hsz' & Hz32 & _ & Hz8).
      destruct (Z.eqb_spec z NULL) as [E|_]; [unfold NULL in E; lia|].
      injection Hrm as <-.
      assert (Hzy : z <> y).
      { apply Hyx. apply in_or_app. right. left. reflexivity. }
      set (m' := store64 (store64 (mem s) (y + 16) z) (z + 8) y).
      assert (Hld : forall u bu w, In (u, bu) (layout (heap_start s) bl) ->
                u <= w -> w + 8 <= u + b_size bu ->
                u <> y \/ w + 8 <= y + 16 ->
                u <> z \/ z + 16 <= w ->
                load64 m' w = load64 (mem s) w).
      { intros u bu w Hu H1 H2 H3 H4. unfold m'.
        assert (E1 : load64 (store64 (mem s) (y + 16) z) w = load64 (mem s) w).
        { destruct (Z.eq_dec u y) as [->|Hne].
          - apply load64_store64_other. lia.
          - destruct (blocks_apart _ _ _ _ _ _ Hsz Hu Hby Hne);
              apply load64_store64_other; lia. }
        rewrite <- E1.
        destruct (Z.eq_dec u z) as [->|Hne].
        - apply load64_store64_other. lia.
        - destruct (blocks_apart _ _ _ _ _ _ Hsz Hu Hbz Hne);
            apply load64_store64_other; lia. }
      destruct (Hother m') as [Hch' Hmc'].
      { intros u bu w Hu _ H1 H2 Hnu. apply (Hld u bu); auto.
        - left. intros ->. contradiction.
        - left. intros ->. contradiction. }
      assert (Hyz : y + b_size by_ <= z \/ z + b_size bz <= y).
      { apply (blocks_apart _ _ _ _ _ _ Hsz Hby Hbz). congruence. }
      exists fl'. split; [split|split].
      * apply Hrl.
        apply (heap_mem_link_write (write s (y + 16) z) _ bl epa epm z bz
                 (z + 8) (z + 8 + 8)); try reflexivity; auto;
          try apply outside_store64; try lia.
        -- apply (heap_mem_link_write s _ bl epa epm y by_
                    (y + 16) (y + 16 + 8) Hh Hby); try reflexivity;
             try apply outside_store64; try lia.
           ++ rewrite Hsy. reflexivity.
           ++ unfold links. destruct (Z.eqb_spec (b_size by_) 16); lia.
        -- rewrite Hsz'. reflexivity.
        -- unfold links. destruct (Z.eqb_spec (b_size bz) 16); lia.
      * apply (lists_ok_remove s _ l1 b l2 fl ml c (la ++ y :: z :: lb) x);
          auto.
        -- simpl. apply Hl.
        -- intros j Hj. unfold set_bucket.
           destruct (Z.eqb_spec j c) as [->|Hjc]; [|apply Hch'; auto].
           simpl. unfold seg_get in *. simpl. fold m'.
           apply (dchain_unlink (mem s) _ la _ y x (z :: lb)); auto.
           ++ change (hd NULL (z :: lb)) with z.
              unfold m'. rewrite load64_store64_other by lia.
              apply load64_store64_same. lia.
           ++ unfold m'. apply load64_store64_same. lia.
           ++ intros u Hu.
              destruct (Hel u) as (bu & H1 & H2 & H3).
              { rewrite Efl. apply in_app_or in Hu as [Hu|Hu];
                  apply in_or_app; [left|right; right; right]; auto. }
              apply (Hld u bu); auto; lia.
           ++ intros u Hu. simpl in Hu.
              destruct (Hel u) as (bu & H1 & H2 & H3).
              { rewrite Efl. apply in_app_or in Hu as [Hu|[Hu|Hu]];
                  apply in_or_app; [left|right; left|right; right; right; right];
                  auto. }
              apply (Hld u bu); auto; try lia. left. intros ->.
              assert (Hz1 : NoDup (la ++ y :: z :: lb)) by exact Hnd'.
              replace (la ++ y :: z :: lb) with ((la ++ [y]) ++ z :: lb) in Hz1
                by (rewrite <- app_assoc; reflexivity).
              apply NoDup_remove_2 in Hz1. apply Hz1.
              rewrite <- app_assoc. simpl. exact Hu.
        -- intros u. rewrite Efl. rewrite <- (Hin' u). tauto.
      * unfold same_heap. simpl. tauto.
      * intros x0. apply Hk; [reflexivity|].
        apply (keeps_trans x0 s bl (write s (y + 16) z) bl).
        -- apply (keeps_link_write x0 s _ bl y by_ (y + 16) (y + 16 + 8)
                     Hsz Hby); try reflexivity; try apply outside_store64;
             try lia. rewrite Hsy. reflexivity.
        -- apply (keeps_link_write x0 (write s (y + 16) z)
                     (write (write s (y + 16) z) (z + 8) y) bl z bz
                     (z + 8) (z + 8 + 8) Hsz Hbz); try reflexivity;
             try apply outside_store64; try lia.
           rewrite Hsz'. reflexivity.
Qed.

(** [remove_free] on a mini block. *)
Lemma remove_free_mini_ok : forall fuel s l1 b l2 epa epm fl ml x s',
  world s (l1 ++ b :: l2) epa epm fl ml ->
  b_st b = SFree -> x = end_addr (heap_start s) l1 -> b_size b = 16 ->
  remove_free fuel s x = Some s' ->
  exists ml',
    world s' (l1 ++ mkBlock (b_size b) SHole (b_pa b) (b_pm b) :: l2)
          epa epm fl ml' /\
    same_heap s s' /\
    forall x0, keeps x0 s (l1 ++ b :: l2) s'
                 (l1 ++ mkBlock (b_size b) SHole (b_pa b) (b_pm b) :: l2).
Proof.
  intros fuel s l1 b l2 epa epm fl ml x s' W Hst Hx E16 Hrm.
  set (b' := mkBlock (b_size b) SHole (b_pa b) (b_pm b)).
  set (bl := l1 ++ b :: l2) in *.
  pose proof W as [Hh Hl].
  assert (Hin : In (x, b) (layout (heap_start s) bl))
    by (rewrite Hx; apply layout_mid).
  destruct (world_fields _ _ _ _ _ _ _ _ W Hin) as (F1 & _).
  assert (Hsz : sizes_ok bl) by apply Hh.
  destruct (mini_head _ _ _ _ _ _ W) as (Hhd & Hrange & Hnil).
  assert (Hxm : In x ml).
  { apply (lo_mmem _ _ _ _ Hl). exists b. auto. }
  pose proof (lo_mnodup _ _ _ _ Hl) as Hnd.
  pose proof (lo_mchain _ _ _ _ Hl) as Hch.
  assert (Hk : forall s1 x0, heap_start s1 = heap_start s ->
               keeps x0 s bl s1 bl -> keeps x0 s bl s1 (l1 ++ b' :: l2)).
  { intros s1 x0 G1 K. apply keeps_relabel; [exact K|].
    intros y sz. rewrite G1.
    apply (proj2 (alloc_at_relabel l1 b b' l2 _ y sz eq_refl
                    ltac:(congruence) ltac:(discriminate))). }
  assert (Hrl : forall s1, heap_mem s1 bl epa epm ->
                           heap_mem s1 (l1 ++ b' :: l2) epa epm).
  { intros s1 H1. apply (heap_mem_relabel s1 l1 b); try reflexivity; auto.
    simpl. rewrite Hst. reflexivity. }
  unfold remove_free, is_mini_block in Hrm. rewrite F1 in Hrm.
  unfold min_block_size, dsize, wsize in Hrm. change (2 * 8) with 16 in Hrm.
  destruct (Z.eqb_spec (b_size b) 16) as [_|N]; [|contradiction].
  unfold mini_next, read in Hrm.
  destruct (Z.eqb_spec (load64 (mem s) (mini_list s + 8)) NULL) as [En|Nn].
  - (* a single block on the list *)
    injection Hrm as <-.
    destruct ml as [|h t]; [destruct Hxm|]. simpl in Hhd.
    destruct Hch as (_ & Hch). rewrite <- Hhd in Hch.
    pose proof (mchain_head _ _ _ Hch) as Et. rewrite En in Et.
    destruct t as [|z t].
    2:{ simpl in Et. subst z.
        destruct (mini_elem _ _ _ _ _ _ NULL W) as (_ & _ & _ & _ & Hz);
          [right; left; reflexivity|]. unfold NULL in Hz. lia. }
    destruct Hxm as [->|[]].
    exists []. split; [split|split].
    + apply Hrl. apply (heap_mem_same_mem s); auto.
      unfold same_heap. simpl. tauto.
    + apply (lists_ok_remove_mini s _ l1 b l2 fl [x] [] x); auto.
      * apply Hl.
      * intros j Hj. apply Hl. exact Hj.
      * intros u. simpl. intuition congruence.
      * constructor.
    + unfold same_heap. simpl. tauto.
    + intros x0. apply Hk; [reflexivity|].
      apply keeps_same_mem; reflexivity.
  - destruct (Z.eqb_spec x (mini_list s)) as [Ehead|Nhead].
    + (* the head of the list *)
      injection Hrm as <-.
      destruct ml as [|h lb]; [destruct Hxm|]. simpl in Hhd.
      assert (Eh : h = x) by congruence. rewrite Eh in *. clear Eh.
      destruct Hch as (_ & Hch). rewrite <- Ehead.
      exists lb. split; [split|split].
      * apply Hrl. apply (heap_mem_same_mem s); auto.
        unfold same_heap. simpl. tauto.
      * apply (lists_ok_remove_mini s _ l1 b l2 fl (x :: lb) lb x); auto.
        -- apply Hl.
        -- intros j Hj. apply Hl. exact Hj.
        -- inversion Hnd; subst. intros u. simpl.
           split; [intros Hu; split; [auto|congruence]|].
           intros [[E|Hu] Hne]; [congruence|exact Hu].
        -- inversion Hnd; auto.
      * unfold same_heap. simpl. tauto.
      * intros x0. apply Hk; [reflexivity|].
        apply keeps_same_mem; reflexivity.
    + (* further down the list *)
      destruct (in_not_head_split ml x Hxm) as (la & y & lb & Eml);
        [congruence|].
      subst ml.
      destruct (mini_scan fuel s (mini_list s) x) as [r|] eqn:Escan;
        [|discriminate].
      destruct (mini_scan_spec s la fuel _ y x lb Hch Hnd) as [_ Hsp].
      apply Hsp in Escan. subst r. injection Hrm as <-.
      pose proof (mchain_head _ _ _ (mchain_app_inv _ (la ++ [y]) _ x lb
        ltac:(rewrite <- app_assoc; exact Hch))) as Nx.
      assert (Hym : In y (la ++ y :: x :: lb)).
      { apply in_or_app. right. left. reflexivity. }
      destruct (mini_elem _ _ _ _ _ _ _ W Hym) as (by_ & Hby & Hsy & Hy16 & Hy8).
      assert (Hrem := remove_middle_in (la ++ [y]) lb x).
      rewrite <- !app_assoc in Hrem. simpl in Hrem.
      destruct (Hrem Hnd) as [Hnd' Hin'].
      set (v := load64 (mem s) (x + 8)) in *.
      assert (Hld : forall u bu w, In (u, bu) (layout (heap_start s) bl) ->
                u <= w -> w + 8 <= u + b_size bu -> u <> y ->
                load64 (store64 (mem s) (y + 8) v) w = load64 (mem s) w).
      { intros u bu w Hu H1 H2 Hne.
        destruct (blocks_apart _ _ _ _ _ _ Hsz Hu Hby Hne);
          apply load64_store64_other; lia. }
      exists (la ++ y :: lb). split; [split|split].
      * apply Hrl.
        apply (heap_mem_link_write s _ bl epa epm y by_ (y + 8) (y + 8 + 8)
                 Hh Hby); try reflexivity; try apply outside_store64; try lia.
        -- rewrite Hsy. reflexivity.
        -- unfold links. rewrite Hy16. simpl. lia.
      * apply (lists_ok_remove_mini s _ l1 b l2 fl _ (la ++ y :: lb) x
                 Hl Hsz Hst E16 Hx); auto.
        -- apply Hl.
        -- intros j Hj. simpl. unfold seg_get. simpl.
           apply (dchain_frame (mem s)); [apply Hl; exact Hj| |].
           ++ intros u Hu.
              destruct (bucket_elem _ _ _ _ _ _ _ _ W Hj Hu)
                as (bu & H1 & H2 & H3 & _).
              apply (Hld u bu); auto; try lia. intros ->.
              rewrite (layout_same_addr _ _ _ _ _ Hsz H1 Hby) in H3. lia.
           ++ intros u Hu. assert (Hu' : In u (fl j))
                by (destruct (fl j); [destruct Hu|right; exact Hu]).
              destruct (bucket_elem _ _ _ _ _ _ _ _ W Hj Hu')
                as (bu & H1 & H2 & H3 & _).
              apply (Hld u bu); auto; try lia. intros ->.
              rewrite (layout_same_addr _ _ _ _ _ Hsz H1 Hby) in H3. lia.
        -- simpl. apply (mchain_unlink (mem s) _ la _ y x lb); auto.
           ++ rewrite <- Nx. apply load64_store64_same.
              unfold v. pose proof (load64_range (mem s) (x + 8)). lia.
           ++ intros u Hu.
              assert (Hum : In u (la ++ y :: x :: lb)).
              { apply in_app_or in Hu as [Hu|Hu]; apply in_or_app;
                  [left|right; right; right]; auto. }
              destruct (mini_elem _ _ _ _ _ _ _ W Hum) as (bu & H1 & _ & H3 & _).
              apply (Hld u bu); auto; try lia. intros ->.
              apply NoDup_remove_2 in Hnd'. contradiction.
      * unfold same_heap. simpl. tauto.
      * intros x0. apply Hk; [reflexivity|].
        apply (keeps_link_write x0 s _ bl y by_ (y + 8) (y + 8 + 8) Hsz Hby);
          try reflexivity; try apply outside_store64; try lia.
        rewrite Hsy. reflexivity.
Qed.

(** [remove_free] takes a block that is on its list off it. *)
Lemma remove_free_ok : forall fuel s l1 b l2 epa epm fl ml x s',
  world s (l1 ++ b :: l2) epa epm fl ml ->
  b_st b = SFree -> x = end_addr (heap_start s) l1 ->
  remove_free fuel s x = Some s' ->
  exists fl' ml',
    world s' (l1 ++ mkBlock (b_size b) SHole (b_pa b) (b_pm b) :: l2)
          epa epm fl' ml' /\
    same_heap s s' /\
    (length ml' <= length ml)%nat /\
    forall x0, keeps x0 s (l1 ++ b :: l2) s'
                 (l1 ++ mkBlock (b_size b) SHole (b_pa b) (b_pm b) :: l2).
Proof.
  intros fuel s l1 b l2 epa epm fl ml x s' W Hst Hx Hrm.
  destruct (Z.eq_dec (b_size b) 16) as [E|N].
  - destruct (remove_free_mini_ok _ _ _ _ _ _ _ _ _ _ _ W Hst Hx E Hrm)
      as (ml' & H1 & H2 & H3).
    exists fl, ml'. split; [exact H1|]. split; [exact H2|].
    split; [|exact H3].
    pose proof W as [Hh Hl]. destruct H1 as [_ Hl'].
    apply NoDup_incl_length; [apply Hl'|].
    intros u Hu. apply (lo_mmem _ _ _ _ Hl).
    apply (lo_mmem _ _ _ _ Hl') in Hu.
    destruct H2 as (G1 & _). rewrite G1 in Hu.
    apply (free_at_relabel_hole l1 b
             (mkBlock (b_size b) SHole (b_pa b) (b_pm b)) l2 _ u 16
             (hm_sizes _ _ _ _ Hh) eq_refl Hst ltac:(discriminate)) in Hu.
    tauto.
  - destruct (remove_free_big_ok _ _ _ _ _ _ _ _ _ _ _ W Hst Hx N Hrm)
      as (fl' & H1 & H2 & H3).
    exists fl', ml. split; [exact H1|]. split; [exact H2|].
    split; [lia|exact H3].
Qed.

(** With more fuel than the mini list is long, [remove_free] returns. *)
Lemma remove_free_total : forall fuel s l1 b l2 epa epm fl ml x,
  world s (l1 ++ b :: l2) epa epm fl ml ->
  b_st b = SFree -> x = end_addr (heap_start s) l1 ->
  (length ml < fuel)%nat ->
  exists s', remove_free fuel s x = Some s'.
Proof.
  intros fuel s l1 b l2 epa epm fl ml x W Hst Hx Hf.
  pose proof W as [Hh Hl].
  assert (Hin : In (x, b) (layout (heap_start s) (l1 ++ b :: l2)))
    by (rewrite Hx; apply layout_mid).
  destruct (world_fields _ _ _ _ _ _ _ _ W Hin) as (F1 & _).
  unfold remove_free, is_mini_block. rewrite F1.
  unfold min_block_size, dsize, wsize. change (2 * 8) with 16.
  destruct (Z.eqb_spec (b_size b) 16) as [E16|N16].
  - destruct (_ =? NULL); [eauto|].
    destruct (Z.eqb_spec x (mini_list s)) as [Eh|Nh]; [eauto|].
    assert (Hxm : In x ml).
    { apply (lo_mmem _ _ _ _ Hl). exists b. auto. }
    destruct (mini_head _ _ _ _ _ _ W) as (Hhd & _).
    destruct (in_not_head_split ml x Hxm) as (la & y & lb & Eml);
      [congruence|].
    subst ml.
    destruct (mini_scan_spec s la fuel _ y x lb (lo_mchain _ _ _ _ Hl)
                (lo_mnodup _ _ _ _ Hl)) as [Hsc _].
    rewrite Hsc; [eauto|]. rewrite length_app in Hf. simpl in Hf. lia.
  - destruct (negb _); [eauto|]. destruct (_ =? NULL); eauto.
Qed.

(** * Facts about block lists *)

Lemma flags_ok_app : forall l1 l2 pa pm epa epm,
  flags_ok pa pm (l1 ++ l2) epa epm <->
  exists ma mm, flags_ok pa pm l1 ma mm /\ flags_ok ma mm l2 epa epm.
Proof.
  intros l1. induction l1 as [|b l1 IH]; intros l2 pa pm epa epm; simpl.
  - split.
    + intros H. exists pa, pm. auto.
    + intros (ma & mm & [-> ->] & H). exact H.
  - rewrite IH. split.
    + intros (H1 & H2 & ma & mm & H3 & H4). exists ma, mm. tauto.
    + intros (ma & mm & (H1 & H2 & H3) & H4).
      split; [exact H1|]. split; [exact H2|]. exists ma, mm. tauto.
Qed.

Lemma flags_ok_last : forall l pa pm epa epm,
  flags_ok pa pm l epa epm -> l <> [] -> epa = last_alloc l.
Proof.
  intros l. induction l as [|b l IH]; intros pa pm epa epm H Hne.
  - contradiction.
  - simpl in H. destruct H as (_ & _ & H). destruct l as [|c l].
    + simpl in H. destruct H as [-> _]. reflexivity.
    + apply IH in H; [|discriminate]. exact H.
Qed.

Lemma flags_ok_last_true : forall l pm epa epm,
  flags_ok true pm l epa epm -> epa = last_alloc l.
Proof.
  intros l pm epa epm H. destruct l as [|b l].
  - simpl in H. destruct H as [-> _]. reflexivity.
  - eapply flags_ok_last; [exact H|discriminate].
Qed.

Lemma flags_ok_retag : forall R fa0 fm0 fa fm epa epm,
  flags_ok fa0 fm0 R epa epm ->
  flags_ok fa fm (retag fa fm R) (retag_epi fa R epa) (retag_epi fm R epm).
Proof.
  intros R fa0 fm0 fa fm epa epm H. destruct R as [|n R]; simpl in *.
  - auto.
  - destruct H as (_ & _ & H). auto.
Qed.

Lemma no_adj_free_app : forall l1 l2,
  no_adj_free (l1 ++ l2) <->
  no_adj_free l1 /\ no_adj_free l2 /\
  (last_alloc l1 = true \/ first_alloc l2 = true).
Proof.
  intros l1. induction l1 as [|b l1 IH]; intros l2.
  - simpl. tauto.
  - destruct l1 as [|c l1].
    + simpl. destruct l2 as [|d l2]; simpl; tauto.
    + change ((b :: c :: l1) ++ l2) with (b :: (c :: l1) ++ l2).
      change (no_adj_free (b :: (c :: l1) ++ l2)) with
        ((is_alloc (b_st b) = true \/ is_alloc (b_st c) = true) /\
         no_adj_free ((c :: l1) ++ l2)).
      rewrite IH.
      change (no_adj_free (b :: c :: l1)) with
        ((is_alloc (b_st b) = true \/ is_alloc (b_st c) = true) /\
         no_adj_free (c :: l1)).
      change (last_alloc (b :: c :: l1)) with (last_alloc (c :: l1)).
      tauto.
Qed.

Lemma no_holes_app : forall l1 l2,
  no_holes (l1 ++ l2) <-> no_holes l1 /\ no_holes l2.
Proof. intros. unfold no_holes. apply Forall_app. Qed.

Lemma no_holes_cons : forall b l,
  no_holes (b :: l) <-> b_st b <> SHole /\ no_holes l.
Proof.
  intros b l. unfold no_holes. split.
  - intros H. inversion H; subst. auto.
  - intros [H1 H2]. constructor; assumption.
Qed.

Lemma no_holes_retag : forall fa fm R, no_holes R -> no_holes (retag fa fm R).
Proof.
  intros fa fm [|n R] H; simpl; [exact H|].
  apply no_holes_cons in H as [H1 H2]. apply no_holes_cons. auto.
Qed.

Lemma no_adj_free_retag : forall fa fm R,
  no_adj_free R -> no_adj_free (retag fa fm R).
Proof. intros fa fm [|n [|c R]] H; simpl in *; auto. Qed.

Lemma first_alloc_retag : forall fa fm R,
  first_alloc (retag fa fm R) = first_alloc R.
Proof. intros fa fm [|n R]; reflexivity. Qed.

Lemma end_addr_retag : forall fa fm R a,
  end_addr a (retag fa fm R) = end_addr a R.
Proof. intros fa fm [|n R] a; reflexivity. Qed.

Lemma end_addr_size_ok : forall l a,
  sizes_ok l -> l <> [] -> size_ok (end_addr a l - a).
Proof.
  intros l. induction l as [|b l IH]; intros a Hs Hne; [contradiction|].
  apply sizes_ok_cons in Hs as [[H1 H2] Hs]. simpl.
  destruct l as [|c l].
  - simpl. replace (a + b_size b - a) with (b_size b) by lia. split; auto.
  - destruct (IH (a + b_size b) Hs ltac:(discriminate)) as [I1 I2].
    split; lia.
Qed.

(** * Steps of coalescing *)

(** Rewriting the header that follows the stretch [L]: the first block of
    [R], which is allocated, or the epilogue. *)
Lemma retag_next_ok : forall s L R epa epm fl ml fa fm,
  world s (L ++ R) epa epm fl ml ->
  first_alloc R = true ->
  let next := end_addr (heap_start s) L in
  let s' := write s next (pack_all (get_size s next) true fa fm) in
  world s' (L ++ retag fa fm R) (retag_epi fa R epa) (retag_epi fm R epm)
        fl ml /\
  same_heap s s' /\
  forall x0, keeps x0 s (L ++ R) s' (L ++ retag fa fm R).
Proof.
  intros s L R epa epm fl ml fa fm W Hfa next s'.
  pose proof W as [Hh Hl].
  destruct R as [|n R].
  - rewrite app_nil_r in *. simpl retag. simpl retag_epi.
    assert (En : next = mem_brk s - 8) by apply Hh.
    destruct (world_epilogue_fields _ _ _ _ _ _ W) as (F1 & _).
    destruct (world_epilogue s s' L epa epm fa fm fl ml W) as [W' K].
    + apply write_same_globals.
    + subst s'. simpl. rewrite En.
      eapply outside_widen; [apply outside_store64|lia|lia].
    + subst s'. simpl. rewrite En, F1.
      apply load64_store64_same. apply pack_all_range; [lia|reflexivity].
    + rewrite ?app_nil_r. split; [exact W'|]. split; [|exact K].
      unfold same_heap. simpl. tauto.
  - simpl in Hfa. simpl retag. simpl retag_epi.
    assert (Hin : In (next, n) (layout (heap_start s) (L ++ n :: R)))
      by apply layout_mid.
    destruct (world_block _ _ _ _ _ _ _ _ W Hin) as (_ & B1 & B2 & _ & B3 & B4).
    destruct (world_fields _ _ _ _ _ _ _ _ W Hin) as (F1 & _).
    assert (Hst : b_st n = SAlloc) by (destruct (b_st n); simpl in Hfa; congruence).
    set (n' := mkBlock (b_size n) (b_st n) fa fm).
    assert (Ho : outside (mem s) (mem s') next (next + 8))
      by (subst s'; simpl; apply outside_store64).
    destruct B3 as [B3 B3'].
    split; [|split].
    + apply (world_surgery s s' L [n] [n'] R epa epm fl ml next W eq_refl).
      * intros b [<-|[]]. congruence.
      * intros b [<-|[]]. simpl. congruence.
      * reflexivity.
      * apply sizes_ok_cons. split; [split; assumption|constructor].
      * apply write_same_globals.
      * simpl. eapply outside_widen; [exact Ho|lia|lia].
      * apply mem_ok_cons. split; [|intros ? ? []].
        split.
        -- subst s'. simpl. unfold hdr_word. simpl. rewrite F1, Hst. simpl.
           apply load64_store64_same. apply pack_all_range; lia.
        -- simpl. rewrite Hst. discriminate.
    + unfold same_heap. simpl. tauto.
    + intros x0.
      apply (surgery_keeps x0 s s' L [n] [n'] R next); auto.
      * apply Hh.
      * simpl. eapply outside_widen; [exact Ho|lia|lia].
      * intros y sz Hy Ha. apply alloc_at_cons in Ha as [(-> & _ & <-)|Ha];
          [|exfalso; exact (alloc_at_nil _ _ _ Ha)].
        split.
        -- apply alloc_at_cons. left. simpl. auto.
        -- intros z Hz. apply Ho. lia.
Qed.

(** Merging a stretch of blocks that are off the lists into one. *)
Lemma merge_ok : forall s L mid R epa epm fl ml pa pm,
  world s (L ++ mid ++ R) epa epm fl ml ->
  mid <> [] -> (forall b, In b mid -> b_st b = SHole) ->
  let x := end_addr (heap_start s) L in
  let total := end_addr x mid - x in
  let s' := write_pack s x total false pa pm in
  size_ok total /\ total < 2 ^ 63 /\
  world s' (L ++ mkBlock total SHole pa pm :: R) epa epm fl ml /\
  same_heap s s' /\
  forall x0, keeps x0 s (L ++ mid ++ R) s' (L ++ mkBlock total SHole pa pm :: R).
Proof.
  intros s L mid R epa epm fl ml pa pm W Hne Hmid x total s'.
  pose proof W as [Hh Hl].
  pose proof (hm_sizes _ _ _ _ Hh) as Hs.
  apply sizes_ok_app in Hs as [Hs1 Hs23].
  apply sizes_ok_app in Hs23 as [Hs2 Hs3].
  pose proof (end_addr_size_ok mid x Hs2 Hne) as Ht. fold total in Ht.
  assert (Hlt : total < 2 ^ 63).
  { destruct Hh as [(B1 & B2 & B3 & B4 & B5) _ _ He _].
    rewrite !end_addr_app in He. fold x in He.
    pose proof (end_addr_ge R (end_addr x mid) Hs3).
    pose proof (end_addr_ge L (heap_start s) Hs1). fold x in H0.
    unfold total. lia. }
  destruct (write_pack_block s x total SHole pa pm Ht Hlt) as (Hb & Ho & _).
  simpl is_alloc in Hb, Ho. fold s' in Hb, Ho.
  assert (Hend : end_addr x [mkBlock total SHole pa pm] = end_addr x mid).
  { simpl. unfold total. lia. }
  split; [exact Ht|]. split; [exact Hlt|]. split; [|split].
  - apply (world_surgery s s' L mid [mkBlock total SHole pa pm] R
             epa epm fl ml x W eq_refl).
    + intros b Hb' E. rewrite (Hmid b Hb') in E. discriminate.
    + intros b [<-|[]]. discriminate.
    + exact Hend.
    + apply sizes_ok_cons. split; [exact Ht|constructor].
    + apply write_pack_same_globals.
    + replace (end_addr x mid) with (x + total) by (unfold total; lia).
      exact Ho.
    + apply mem_ok_cons. split; [exact Hb|intros ? ? []].
  - apply same_globals_heap. apply write_pack_same_globals.
  - intros x0.
    apply (surgery_keeps x0 s s' L mid [mkBlock total SHole pa pm] R x);
      auto.
    + apply Hh.
    + apply write_pack_same_globals.
    + replace (end_addr x mid) with (x + total) by (unfold total; lia).
      exact Ho.
    + intros y sz _ (b & Hin & Hst & _). exfalso.
      apply layout_split in Hin as (m1 & m2 & -> & _).
      rewrite (Hmid b) in Hst; [discriminate|].
      apply in_or_app. right. left. reflexivity.
Qed.

Lemma is_alloc_first : forall s L R epa epm fl ml,
  world s (L ++ R) epa epm fl ml ->
  get_alloc s (end_addr (heap_start s) L) = first_alloc R /\
  get_size s (end_addr (heap_start s) L)
  = match R with [] => 0 | n :: _ => b_size n end.
Proof.
  intros s L R epa epm fl ml W. destruct R as [|n R].
  - rewrite app_nil_r in W.
    destruct (world_epilogue_fields _ _ _ _ _ _ W) as (F1 & F2 & _).
    replace (end_addr (heap_start s) L) with (mem_brk s - 8)
      by (symmetry; apply W).
    auto.
  - destruct (world_fields _ _ _ _ _ _ _ _ W (layout_mid L n R _))
      as (F1 & F2 & _). auto.
Qed.

(** The end of every case of [coalesce_block]: the header after the block
    is told that the block is free, and the block goes on its list. *)
Lemma finish_ok : forall s L h R epa epm fl ml fa0 fm0 bl0 s0,
  world s (L ++ h :: R) epa epm fl ml -> b_st h = SHole ->
  flags_ok true false L (b_pa h) (b_pm h) -> b_pa h = true ->
  flags_ok fa0 fm0 R epa epm -> first_alloc R = true ->
  no_holes L -> no_holes R -> no_adj_free L -> no_adj_free R ->
  same_heap s0 s -> (forall x0, keeps x0 s0 bl0 s (L ++ h :: R)) ->
  let x := end_addr (heap_start s) L in
  let next := x + b_size h in
  let s1 := write s next
                  (pack_all (get_size s next) true false (b_size h =? 16)) in
  coalesced s0 bl0 x (b_size h) (insert_free s1 x) x
            (L ++ mkBlock (b_size h) SFree (b_pa h) (b_pm h)
               :: retag false (b_size h =? 16) R).
Proof.
  intros s L h R epa epm fl ml fa0 fm0 bl0 s0 W Hst HfL Hpa HfR Hfa
    HhL HhR HaL HaR Hsh0 Hk0 x next s1.
  set (pmf := b_size h =? 16).
  assert (W1 : world s ((L ++ [h]) ++ R) epa epm fl ml)
    by (rewrite <- app_assoc; exact W).
  destruct (retag_next_ok s (L ++ [h]) R epa epm fl ml false pmf W1 Hfa)
    as (W2 & Hsh1 & K1).
  rewrite end_addr_app in W2, Hsh1, K1. simpl in W2, Hsh1, K1.
  fold x next in W2, Hsh1, K1. fold s1 in W2, Hsh1, K1.
  rewrite <- !app_assoc in W2. simpl in W2.
  assert (K1' : forall x0, keeps x0 s (L ++ h :: R) s1
                             (L ++ h :: retag false pmf R)).
  { intros x0. specialize (K1 x0). rewrite <- !app_assoc in K1. exact K1. }
  clear K1.
  assert (Ex : x = end_addr (heap_start s1) L) by reflexivity.
  destruct (insert_free_ok s1 L h (retag false pmf R) _ _ fl ml x W2 Hst Ex)
    as (fl' & ml' & W3 & Hsh2 & K2).
  set (h' := mkBlock (b_size h) SFree (b_pa h) (b_pm h)) in *.
  unfold coalesced. split; [|split; [|split; [|split; [|split]]]].
  - exists (retag_epi false R epa), (retag_epi pmf R epm), fl', ml'.
    split; [exact W3|].
    apply flags_ok_app. exists (b_pa h), (b_pm h). split; [exact HfL|].
    simpl. split; [reflexivity|]. split; [reflexivity|].
    eapply flags_ok_retag. exact HfR.
  - apply no_holes_app. split; [exact HhL|].
    apply no_holes_cons. split; [discriminate|].
    apply no_holes_retag. exact HhR.
  - apply no_adj_free_app. split; [exact HaL|]. split.
    + change (h' :: retag false pmf R) with ([h'] ++ retag false pmf R).
      apply no_adj_free_app. split; [exact I|].
      split; [apply no_adj_free_retag; exact HaR|].
      right. rewrite first_alloc_retag. exact Hfa.
    + left. rewrite <- (flags_ok_last_true _ _ _ _ HfL). exact Hpa.
  - eapply same_heap_trans; [exact Hsh0|].
    eapply same_heap_trans; [exact Hsh1|exact Hsh2].
  - intros x0. eapply keeps_trans; [apply Hk0|].
    eapply keeps_trans; [apply K1'|apply K2].
  - exists (b_size h). split; [|lia].
    destruct Hsh0 as (G & _). rewrite <- G.
    exists h'. split; [apply layout_mid|]. auto.
Qed.

Lemma not_alloc_free : forall b,
  b_st b <> SHole -> is_alloc (b_st b) = false -> b_st b = SFree.
Proof. intros b H1 H2. destruct (b_st b); simpl in *; congruence. Qed.

(** When the header of a block says that the block before it is free,
    there is such a block. *)
Lemma prev_block : forall L pa pm,
  flags_ok true false L pa pm -> pa = false -> no_holes L ->
  exists L' p, L = L' ++ [p] /\ b_st p = SFree /\ pm = (b_size p =? 16) /\
               flags_ok true false L' (b_pa p) (b_pm p).
Proof.
  intros L pa pm Hf Hpa Hh.
  destruct L as [|b0 L0] using rev_ind.
  - simpl in Hf. destruct Hf as [E _]. congruence.
  - clear IHL0. exists L0, b0.
    apply flags_ok_app in Hf as (ma & mm & H1 & H2).
    simpl in H2. destruct H2 as (E1 & E2 & E3 & E4).
    apply no_holes_app in Hh as [_ Hh]. apply no_holes_cons in Hh as [Hh _].
    split; [reflexivity|]. split; [|split].
    + apply not_alloc_free; [exact Hh|congruence].
    + congruence.
    + rewrite E1, E2. exact H1.
Qed.

Lemma find_prev_ok : forall s L' p mid epa epm fl ml x,
  world s ((L' ++ [p]) ++ mid) epa epm fl ml -> b_st p = SFree ->
  x = end_addr (heap_start s) (L' ++ [p]) ->
  get_prev_mini s x = (b_size p =? 16) ->
  find_prev s x = end_addr (heap_start s) L'.
Proof.
  intros s L' p mid epa epm fl ml x W Hst Hx Hpm.
  rewrite <- app_assoc in W. simpl in W.
  pose proof (layout_mid L' p mid (heap_start s)) as Hin.
  destruct (world_block _ _ _ _ _ _ _ _ W Hin) as ([_ Hf] & B1 & B2 & _ & [B3 B3'] & B4).
  rewrite end_addr_app in Hx. simpl in Hx.
  unfold find_prev. rewrite Hpm.
  unfold min_block_size, dsize, wsize, find_prev_footer. change (2 * 8) with 16.
  destruct (Z.eqb_spec (b_size p) 16) as [E|N]; simpl.
  - lia.
  - unfold footer_to_header, read, wsize.
    replace (x - 8) with (end_addr (heap_start s) L' + b_size p - 8) by lia.
    rewrite Hf by (auto; rewrite Hst; reflexivity).
    unfold hdr_word. rewrite extract_size_pack by lia.
    destruct (Z.eqb_spec (b_size p) 0); lia.
Qed.

(** What [coalesce_block] reads at its start. *)
Lemma coalesce_reads : forall s L h R epa epm fl ml,
  world s (L ++ h :: R) epa epm fl ml ->
  let x := end_addr (heap_start s) L in
  get_size s x = b_size h /\ get_prev_alloc s x = b_pa h /\
  get_prev_mini s x = b_pm h /\ find_next s x = x + b_size h /\
  is_mini_block s x = (b_size h =? 16) /\
  get_alloc s (x + b_size h) = first_alloc R /\
  get_size s (x + b_size h) = match R with [] => 0 | n :: _ => b_size n end.
Proof.
  intros s L h R epa epm fl ml W x.
  pose proof (layout_mid L h R (heap_start s)) as Hin.
  destruct (world_fields _ _ _ _ _ _ _ _ W Hin) as (F1 & F2 & F3 & F4).
  fold x in F1, F3, F4.
  assert (W' : world s ((L ++ [h]) ++ R) epa epm fl ml)
    by (rewrite <- app_assoc; exact W).
  destruct (is_alloc_first _ _ _ _ _ _ _ W') as [G1 G2].
  rewrite end_addr_app in G1, G2. simpl in G1, G2. fold x in G1, G2.
  unfold find_next, is_mini_block. rewrite F1.
  repeat split; auto.
Qed.

Lemma coalesce_case1 : forall fuel s L h R epa epm fl ml,
  coalesce_pre s L h R epa epm fl ml ->
  b_pa h = true -> first_alloc R = true ->
  let x := end_addr (heap_start s) L in
  exists s' bl', coalesce_block fuel s x = Some (s', x) /\
    coalesced s (L ++ h :: R) x (b_size h) s' x bl'.
Proof.
  intros fuel s L h R epa epm fl ml [W Hh Fl [fa0 [fm0 Fr]] Hl Hr Al Ar] Hpa Hna x.
  destruct (coalesce_reads _ _ _ _ _ _ _ _ W)
    as (F1 & F2 & F3 & F4 & F5 & F6 & F7).
  fold x in F1, F2, F3, F4, F5, F6, F7.
  unfold coalesce_block. rewrite F2, F4, F6, Hpa, Hna. simpl.
  rewrite write_pack_alloc, F5.
  eexists. eexists. split; [reflexivity|].
  apply (finish_ok s L h R epa epm fl ml fa0 fm0 (L ++ h :: R) s); auto.
  - apply same_heap_refl.
  - intros x0. apply keeps_refl.
Qed.

Lemma prev_block_last : forall L' p pa pm,
  flags_ok true false (L' ++ [p]) pa pm -> pa = false ->
  no_holes (L' ++ [p]) -> no_adj_free (L' ++ [p]) ->
  b_st p = SFree /\ pm = (b_size p =? 16) /\
  flags_ok true false L' (b_pa p) (b_pm p) /\ b_pa p = true /\
  no_holes L' /\ no_adj_free L'.
Proof.
  intros L' p pa pm Hf Hpa Hh Ha.
  apply flags_ok_app in Hf as (ma & mm & H1 & H2).
  simpl in H2. destruct H2 as (E1 & E2 & E3 & E4).
  apply no_holes_app in Hh as [Hh' Hh]. apply no_holes_cons in Hh as [Hh _].
  apply no_adj_free_app in Ha as (Ha1 & _ & Ha2).
  assert (Hst : b_st p = SFree)
    by (apply not_alloc_free; [exact Hh|congruence]).
  split; [exact Hst|]. split; [congruence|].
  split; [rewrite E1, E2; exact H1|].
  split; [|split; assumption].
  rewrite E1. rewrite (flags_ok_last_true _ _ _ _ H1).
  destruct Ha2 as [Ha2|Ha2]; [exact Ha2|].
  simpl in Ha2. rewrite Hst in Ha2. discriminate.
Qed.

Lemma coalesced_widen : forall s bl x1 sz1 s' r bl' x sz,
  coalesced s bl x1 sz1 s' r bl' -> x1 <= x -> x + sz <= x1 + sz1 ->
  coalesced s bl x sz s' r bl'.
Proof.
  intros s bl x1 sz1 s' r bl' x sz (H1 & H2 & H3 & H4 & H5 & rsz & H6 & H7 & H8)
    Hx Hs.
  split; [exact H1|]. split; [exact H2|]. split; [exact H3|].
  split; [exact H4|]. split; [exact H5|].
  exists rsz. split; [exact H6|]. lia.
Qed.

Lemma coalesce_case2 : forall fuel s L' p h R epa epm fl ml s1,
  coalesce_pre s (L' ++ [p]) h R epa epm fl ml ->
  b_pa h = false -> first_alloc R = true ->
  let prev := end_addr (heap_start s) L' in
  let x := end_addr (heap_start s) (L' ++ [p]) in
  remove_free fuel s prev = Some s1 ->
  exists s' bl', coalesce_block fuel s x = Some (s', prev) /\
    coalesced s ((L' ++ [p]) ++ h :: R) x (b_size h) s' prev bl'.
Proof.
  intros fuel s L' p h R epa epm fl ml s1
    [W Hh Fl [fa0 [fm0 Fr]] Hl Hr Al Ar] Hpa Hna prev x Hrm.
  destruct (prev_block_last _ _ _ _ Fl Hpa Hl Al)
    as (Hst & Hpm & Fl' & Hppa & Hl' & Al').
  destruct (coalesce_reads _ _ _ _ _ _ _ _ W)
    as (F1 & F2 & F3 & F4 & F5 & F6 & F7).
  fold x in F1, F2, F3, F4, F5, F6, F7.
  assert (Hfp : find_prev s x = prev).
  { apply (find_prev_ok s L' p (h :: R) epa epm fl ml x W Hst eq_refl).
    rewrite F3. exact Hpm. }
  assert (Hx : x = prev + b_size p)
    by (unfold x, prev; rewrite end_addr_app; simpl; lia).
  assert (W0 : world s (L' ++ p :: h :: R) epa epm fl ml)
    by (rewrite <- app_assoc in W; exact W).
  destruct (remove_free_ok fuel s L' p (h :: R) epa epm fl ml prev s1
              W0 Hst eq_refl Hrm) as (fl1 & ml1 & W1 & SH1 & _ & K1).
  set (p' := mkBlock (b_size p) SHole (b_pa p) (b_pm p)) in *.
  assert (Hs1 : heap_start s1 = heap_start s) by apply SH1.
  pose proof (layout_mid L' p' (h :: R) (heap_start s1)) as Hin1.
  destruct (world_fields _ _ _ _ _ _ _ _ W1 Hin1) as (G1 & _ & G3 & G4).
  rewrite Hs1 in G1, G3, G4. fold prev in G1, G3, G4. simpl in G1, G3, G4.
  assert (Hmid : forall b, In b [p'; h] -> b_st b = SHole).
  { intros b [E|[E|[]]]; subst b; [reflexivity|exact Hh]. }
  destruct (merge_ok s1 L' [p'; h] R epa epm fl1 ml1 (b_pa p) (b_pm p)
              W1 ltac:(discriminate) Hmid) as (T1 & T2 & W2 & SH2 & K2).
  rewrite Hs1 in T1, T2, W2, SH2, K2. fold prev in T1, T2, W2, SH2, K2.
  simpl in T1, T2, W2, SH2, K2.
  replace (prev + b_size p + b_size h - prev) with (b_size h + b_size p)
    in T1, T2, W2, SH2, K2 by lia.
  set (total := b_size h + b_size p) in *.
  set (s2 := write_pack s1 prev total false (b_pa p) (b_pm p)) in *.
  set (m := mkBlock total SHole (b_pa p) (b_pm p)) in *.
  assert (Hs2 : heap_start s2 = heap_start s)
    by (destruct SH2 as [E _]; rewrite E; exact Hs1).
  destruct (coalesce_reads _ _ _ _ _ _ _ _ W2) as (_ & _ & _ & _ & _ & _ & N7).
  rewrite Hs2 in N7. fold prev in N7. simpl in N7.
  assert (Hnx : prev + total = x + b_size h) by (unfold total; lia).
  rewrite Hnx in N7.
  pose proof (layout_mid (L' ++ [p]) h R (heap_start s)) as Hi.
  destruct (world_block _ _ _ _ _ _ _ _ W Hi) as (_ & _ & _ & _ & [B1 _] & _).
  pose proof (layout_mid L' p (h :: R) (heap_start s)) as Hi'.
  destruct (world_block _ _ _ _ _ _ _ _ W0 Hi') as (_ & _ & _ & _ & [B2 _] & _).
  assert (Htot : (total =? 16) = false)
    by (apply Z.eqb_neq; unfold total; lia).
  assert (FIN := finish_ok s2 L' m R epa epm fl1 ml1 fa0 fm0
                  ((L' ++ [p]) ++ h :: R) s W2 eq_refl Fl' Hppa Fr Hna
                  Hl' Hr Al' Ar).
  rewrite Hs2 in FIN. fold prev in FIN. simpl in FIN.
  rewrite Hnx, Htot, N7 in FIN.
  unfold coalesce_block.
  rewrite F1, F2, F4, F6, Hpa, Hna, Hfp. simpl. rewrite Hrm.
  rewrite G1, G3, G4. rewrite wrap64_small by (destruct T1; fold total; lia).
  fold total. fold s2. rewrite write_pack_alloc, F7.
  eexists. eexists. split; [reflexivity|].
  apply (coalesced_widen _ _ prev total); [|lia|lia].
  apply FIN.
  - apply (same_heap_trans _ s1); assumption.
  - intros x0. rewrite <- app_assoc. simpl.
    apply (keeps_trans _ _ _ s1 (L' ++ p' :: h :: R)); [apply K1|apply K2].
Qed.

Lemma next_block_first : forall R,
  first_alloc R = false -> no_holes R -> no_adj_free R ->
  exists n R', R = n :: R' /\ b_st n = SFree /\ first_alloc R' = true /\
               no_holes R' /\ no_adj_free R'.
Proof.
  intros [|n R'] Hf Hh Ha; [discriminate|].
  exists n, R'. simpl in Hf.
  apply no_holes_cons in Hh as [Hh Hh'].
  assert (Hst : b_st n = SFree) by (apply not_alloc_free; assumption).
  change (n :: R') with ([n] ++ R') in Ha.
  apply no_adj_free_app in Ha as (_ & Ha & Hor).
  repeat split; auto.
  destruct Hor as [Hor|Hor]; [|exact Hor].
  simpl in Hor. congruence.
Qed.

Lemma coalesce_case3 : forall fuel s L h n R' epa epm fl ml s1,
  coalesce_pre s L h (n :: R') epa epm fl ml ->
  b_pa h = true -> b_st n = SFree -> first_alloc R' = true ->
  let x := end_addr (heap_start s) L in
  remove_free fuel s (x + b_size h) = Some s1 ->
  exists s' bl', coalesce_block fuel s x = Some (s', x) /\
    coalesced s (L ++ h :: n :: R') x (b_size h) s' x bl'.
Proof.
  intros fuel s L h n R' epa epm fl ml s1
    [W Hh Fl [fa0 [fm0 Fr]] Hl Hr Al Ar] Hpa Hst Hna x Hrm.
  destruct (coalesce_reads _ _ _ _ _ _ _ _ W)
    as (F1 & F2 & F3 & F4 & F5 & F6 & F7).
  fold x in F1, F2, F3, F4, F5, F6, F7.
  simpl in F6. rewrite Hst in F6. simpl in F6.
  assert (W0 : world s ((L ++ [h]) ++ n :: R') epa epm fl ml)
    by (rewrite <- app_assoc; exact W).
  assert (Hnx : x + b_size h = end_addr (heap_start s) (L ++ [h]))
    by (rewrite end_addr_app; reflexivity).
  destruct (remove_free_ok fuel s (L ++ [h]) n R' epa epm fl ml
              (x + b_size h) s1 W0 Hst Hnx Hrm)
    as (fl1 & ml1 & W1 & SH1 & _ & K1).
  set (n' := mkBlock (b_size n) SHole (b_pa n) (b_pm n)) in *.
  assert (Hs1 : heap_start s1 = heap_start s) by apply SH1.
  rewrite <- app_assoc in W1. simpl in W1.
  destruct (coalesce_reads _ _ _ _ _ _ _ _ W1)
    as (_ & _ & G3 & _ & _ & _ & G7).
  rewrite Hs1 in G3, G7. fold x in G3, G7. simpl in G7.
  assert (Hmid : forall b, In b [h; n'] -> b_st b = SHole).
  { intros b [E|[E|[]]]; subst b; [exact Hh|reflexivity]. }
  destruct (merge_ok s1 L [h; n'] R' epa epm fl1 ml1 true (b_pm h)
              W1 ltac:(discriminate) Hmid) as (T1 & T2 & W2 & SH2 & K2).
  rewrite Hs1 in T1, T2, W2, SH2, K2. fold x in T1, T2, W2, SH2, K2.
  simpl in T1, T2, W2, SH2, K2.
  replace (x + b_size h + b_size n - x) with (b_size h + b_size n)
    in T1, T2, W2, SH2, K2 by lia.
  set (total := b_size h + b_size n) in *.
  set (s2 := write_pack s1 x total false true (b_pm h)) in *.
  set (m := mkBlock total SHole true (b_pm h)) in *.
  assert (Hs2 : heap_start s2 = heap_start s)
    by (destruct SH2 as [E _]; rewrite E; exact Hs1).
  pose proof (layout_mid L h (n :: R') (heap_start s)) as Hi.
  destruct (world_block _ _ _ _ _ _ _ _ W Hi) as (_ & _ & _ & _ & [B1 _] & _).
  pose proof (layout_mid (L ++ [h]) n R' (heap_start s)) as Hi'.
  destruct (world_block _ _ _ _ _ _ _ _ W0 Hi') as (_ & _ & _ & _ & [B2 _] & _).
  assert (Htot : (total =? 16) = false)
    by (apply Z.eqb_neq; unfold total; lia).
  assert (Hsz : get_size s2 (x + b_size h) = b_size n).
  { rewrite <- G7. unfold get_size, header, read, s2.
    rewrite write_pack_load_inner by (auto; unfold total; lia).
    reflexivity. }
  destruct (coalesce_reads _ _ _ _ _ _ _ _ W2)
    as (_ & _ & _ & _ & _ & N6 & _).
  rewrite Hs2 in N6. fold x in N6. simpl in N6. rewrite Hna in N6.
  assert (Fr' : flags_ok (is_alloc (b_st n)) (b_size n =? 16) R' epa epm)
    by (simpl in Fr; apply Fr).
  apply no_holes_cons in Hr as [_ Hr'].
  change (n :: R') with ([n] ++ R') in Ar.
  apply no_adj_free_app in Ar as (_ & Ar' & _).
  rewrite Hpa in Fl.
  assert (FIN := finish_ok s2 L m R' epa epm fl1 ml1 _ _
                  (L ++ h :: n :: R') s W2 eq_refl Fl eq_refl Fr' Hna
                  Hl Hr' Al Ar').
  rewrite Hs2 in FIN. fold x in FIN. simpl in FIN. rewrite Htot in FIN.
  unfold coalesce_block.
  rewrite F1, F2, F4, F6, F7, Hpa. simpl. rewrite Hrm.
  rewrite G3. rewrite wrap64_small by (destruct T1; fold total; lia).
  fold total. fold s2. unfold find_next. rewrite Hsz.
  replace (x + b_size h + b_size n) with (x + total) by (unfold total; lia).
  rewrite N6, write_pack_alloc.
  eexists. eexists. split; [reflexivity|].
  apply (coalesced_widen _ _ x total); [|lia|lia].
  apply FIN.
  - apply (same_heap_trans _ s1); assumption.
  - intros x0.
    apply (keeps_trans _ _ _ s1 (L ++ h :: n' :: R')); [|apply K2].
    specialize (K1 x0). rewrite <- !app_assoc in K1. exact K1.
Qed.

Lemma coalesce_case4 : forall fuel s L' p h n R' epa epm fl ml s1 s2,
  coalesce_pre s (L' ++ [p]) h (n :: R') epa epm fl ml ->
  b_pa h = false -> b_st n = SFree -> first_alloc R' = true ->
  let prev := end_addr (heap_start s) L' in
  let x := end_addr (heap_start s) (L' ++ [p]) in
  remove_free fuel s prev = Some s1 ->
  remove_free fuel s1 (x + b_size h) = Some s2 ->
  exists s' bl', coalesce_block fuel s x = Some (s', prev) /\
    coalesced s ((L' ++ [p]) ++ h :: n :: R') x (b_size h) s' prev bl'.
Proof.
  intros fuel s L' p h n R' epa epm fl ml s1 s2
    [W Hh Fl [fa0 [fm0 Fr]] Hl Hr Al Ar] Hpa Hstn Hna prev x Hrm1 Hrm2.
  destruct (prev_block_last _ _ _ _ Fl Hpa Hl Al)
    as (Hst & Hpm & Fl' & Hppa & Hl' & Al').
  destruct (coalesce_reads _ _ _ _ _ _ _ _ W)
    as (F1 & F2 & F3 & F4 & F5 & F6 & F7).
  fold x in F1, F2, F3, F4, F5, F6, F7.
  simpl in F6. rewrite Hstn in F6. simpl in F6.
  assert (Hfp : find_prev s x = prev).
  { apply (find_prev_ok s L' p (h :: n :: R') epa epm fl ml x W Hst eq_refl).
    rewrite F3. exact Hpm. }
  assert (Hx : x = prev + b_size p)
    by (unfold x, prev; rewrite end_addr_app; simpl; lia).
  assert (W0 : world s (L' ++ p :: h :: n :: R') epa epm fl ml)
    by (rewrite <- app_assoc in W; exact W).
  pose proof (layout_mid (L' ++ [p]) h (n :: R') (heap_start s)) as Hi.
  destruct (world_block _ _ _ _ _ _ _ _ W Hi) as (_ & _ & _ & _ & [B1 _] & _).
  pose proof (layout_mid L' p (h :: n :: R') (heap_start s)) as Hi'.
  destruct (world_block _ _ _ _ _ _ _ _ W0 Hi') as (_ & _ & _ & _ & [B2 _] & _).
  destruct (remove_free_ok fuel s L' p (h :: n :: R') epa epm fl ml prev s1
              W0 Hst eq_refl Hrm1) as (fl1 & ml1 & W1 & SH1 & _ & K1).
  set (p' := mkBlock (b_size p) SHole (b_pa p) (b_pm p)) in *.
  assert (Hs1 : heap_start s1 = heap_start s) by apply SH1.
  assert (W1' : world s1 ((L' ++ [p'; h]) ++ n :: R') epa epm fl1 ml1)
    by (rewrite <- app_assoc; exact W1).
  assert (Hnx : x + b_size h = end_addr (heap_start s1) (L' ++ [p'; h])).
  { rewrite Hs1, end_addr_app. fold prev. simpl. lia. }
  destruct (remove_free_ok fuel s1 (L' ++ [p'; h]) n R' epa epm fl1 ml1
              (x + b_size h) s2 W1' Hstn Hnx Hrm2)
    as (fl2 & ml2 & W2 & SH2 & _ & K2).
  set (n' := mkBlock (b_size n) SHole (b_pa n) (b_pm n)) in *.
  assert (Hs2 : heap_start s2 = heap_start s)
    by (destruct SH2 as [E _]; rewrite E; exact Hs1).
  rewrite <- app_assoc in W2. simpl in W2.
  pose proof (layout_mid L' p' (h :: n' :: R') (heap_start s2)) as Hin2.
  destruct (world_fields _ _ _ _ _ _ _ _ W2 Hin2) as (G1 & _ & G3 & G4).
  rewrite Hs2 in G1, G3, G4. fold prev in G1, G3, G4. simpl in G1, G3, G4.
  assert (W2' : world s2 ((L' ++ [p']) ++ h :: n' :: R') epa epm fl2 ml2)
    by (rewrite <- app_assoc; exact W2).
  destruct (coalesce_reads _ _ _ _ _ _ _ _ W2')
    as (_ & _ & _ & _ & _ & _ & G7).
  rewrite Hs2, end_addr_app in G7. fold prev in G7. simpl in G7.
  replace (prev + b_size p) with x in G7 by lia.
  pose proof (layout_mid (L' ++ [p'; h]) n R' (heap_start s1)) as Hi1.
  destruct (world_block _ _ _ _ _ _ _ _ W1' Hi1)
    as (_ & _ & _ & _ & [B3 _] & _).
  assert (Hmid : forall b, In b [p'; h; n'] -> b_st b = SHole).
  { intros b [E|[E|[E|[]]]]; subst b; [reflexivity|exact Hh|reflexivity]. }
  destruct (merge_ok s2 L' [p'; h; n'] R' epa epm fl2 ml2 (b_pa p) (b_pm p)
              W2 ltac:(discriminate) Hmid) as (T1 & T2 & W3 & SH3 & K3).
  rewrite Hs2 in T1, T2, W3, SH3, K3. fold prev in T1, T2, W3, SH3, K3.
  simpl in T1, T2, W3, SH3, K3.
  replace (prev + b_size p + b_size h + b_size n - prev)
    with (b_size h + b_size p + b_size n) in T1, T2, W3, SH3, K3 by lia.
  set (total := b_size h + b_size p + b_size n) in *.
  set (s3 := write_pack s2 prev total false (b_pa p) (b_pm p)) in *.
  set (m := mkBlock total SHole (b_pa p) (b_pm p)) in *.
  assert (Hs3 : heap_start s3 = heap_start s)
    by (destruct SH3 as [E _]; rewrite E; exact Hs2).
  assert (Htot : (total =? 16) = false)
    by (apply Z.eqb_neq; unfold total; lia).
  assert (Hsz : get_size s3 (x + b_size h) = b_size n).
  { rewrite <- G7. unfold get_size, header, read, s3.
    rewrite write_pack_load_inner by (auto; unfold total; lia).
    reflexivity. }
  destruct (coalesce_reads _ _ _ _ _ _ _ _ W3)
    as (_ & _ & _ & _ & _ & N6 & _).
  rewrite Hs3 in N6. fold prev in N6. simpl in N6. rewrite Hna in N6.
  assert (Fr' : flags_ok (is_alloc (b_st n)) (b_size n =? 16) R' epa epm)
    by (simpl in Fr; apply Fr).
  apply no_holes_cons in Hr as [_ Hr'].
  change (n :: R') with ([n] ++ R') in Ar.
  apply no_adj_free_app in Ar as (_ & Ar' & _).
  assert (FIN := finish_ok s3 L' m R' epa epm fl2 ml2 _ _
                  ((L' ++ [p]) ++ h :: n :: R') s W3 eq_refl Fl' Hppa Fr' Hna
                  Hl' Hr' Al' Ar').
  rewrite Hs3 in FIN. fold prev in FIN. simpl in FIN. rewrite Htot in FIN.
  unfold coalesce_block.
  rewrite F1, F2, F4, F6, Hpa, Hfp. simpl. rewrite Hrm1, Hrm2.
  rewrite G1, G3, G4, G7.
  rewrite (wrap64_small (b_size h + b_size p))
    by (destruct T1; unfold total in *; lia).
  rewrite wrap64_small by (destruct T1; fold total; lia).
  fold total. fold s3. unfold find_next. rewrite Hsz.
  replace (x + b_size h + b_size n) with (prev + total)
    by (unfold total; lia).
  rewrite N6, write_pack_alloc.
  eexists. eexists. split; [reflexivity|].
  apply (coalesced_widen _ _ prev total); [|lia|unfold total; lia].
  apply FIN.
  - apply (same_heap_trans _ s2); [|assumption].
    apply (same_heap_trans _ s1); assumption.
  - intros x0.
    apply (keeps_trans _ _ _ s2 (L' ++ p' :: h :: n' :: R')); [|apply K3].
    apply (keeps_trans _ _ _ s1 (L' ++ p' :: h :: n :: R')).
    + rewrite <- app_assoc. apply K1.
    + specialize (K2 x0). rewrite <- !app_assoc in K2. exact K2.
Qed.

Lemma coalesce_none_prev : forall fuel s x,
  get_prev_alloc s x = false ->
  remove_free fuel s (find_prev s x) = None ->
  coalesce_block fuel s x = None.
Proof.
  intros fuel s x Hpa Hrm. unfold coalesce_block.
  rewrite Hpa. cbn [negb andb]. rewrite Hrm.
  destruct (get_alloc s (find_next s x)); reflexivity.
Qed.

Lemma coalesce_none_both : forall fuel s x s1,
  get_prev_alloc s x = false -> get_alloc s (find_next s x) = false ->
  remove_free fuel s (find_prev s x) = Some s1 ->
  remove_free fuel s1 (find_next s x) = None ->
  coalesce_block fuel s x = None.
Proof.
  intros fuel s x s1 Hpa Hna Hrm1 Hrm2. unfold coalesce_block.
  rewrite Hpa, Hna. cbn [negb andb]. rewrite Hrm1, Hrm2. reflexivity.
Qed.

Lemma coalesce_none_next : forall fuel s x,
  get_prev_alloc s x = true -> get_alloc s (find_next s x) = false ->
  remove_free fuel s (find_next s x) = None ->
  coalesce_block fuel s x = None.
Proof.
  intros fuel s x Hpa Hna Hrm. unfold coalesce_block.
  rewrite Hpa, Hna. cbn [negb andb]. rewrite Hrm. reflexivity.
Qed.

(** [coalesce_block] comes to its end when its removals from the lists
    do. *)
Lemma coalesce_block_removals : forall fuel s x,
  coalesce_block fuel s x <> None ->
  let prev := find_prev s x in
  let next := find_next s x in
  (get_prev_alloc s x = false ->
   exists s1, remove_free fuel s prev = Some s1 /\
     (get_alloc s next = false ->
      exists s2, remove_free fuel s1 next = Some s2)) /\
  (get_prev_alloc s x = true -> get_alloc s next = false ->
   exists s1, remove_free fuel s next = Some s1).
Proof.
  intros fuel s x H prev next. split.
  - intros Hpa.
    destruct (remove_free fuel s prev) as [s1|] eqn:E1.
    + exists s1. split; [reflexivity|]. intros Hna.
      destruct (remove_free fuel s1 next) as [s2|] eqn:E2; [eauto|].
      exfalso. apply H.
      exact (coalesce_none_both fuel s x s1 Hpa Hna E1 E2).
    + exfalso. apply H. exact (coalesce_none_prev fuel s x Hpa E1).
  - intros Hpa Hna.
    destruct (remove_free fuel s next) as [s1|] eqn:E1; [eauto|].
    exfalso. apply H. exact (coalesce_none_next fuel s x Hpa Hna E1).
Qed.

Lemma coalesce_run : forall fuel s L h R epa epm fl ml,
  coalesce_pre s L h R epa epm fl ml ->
  let x := end_addr (heap_start s) L in
  coalesce_block fuel s x <> None \/ (length ml < fuel)%nat ->
  exists s' r bl', coalesce_block fuel s x = Some (s', r) /\
    coalesced s (L ++ h :: R) x (b_size h) s' r bl'.
Proof.
  intros fuel s L h R epa epm fl ml P x Hrun.
  pose proof P as [W Hh Fl [fa0 [fm0 Fr]] Hl Hr Al Ar].
  destruct (coalesce_reads _ _ _ _ _ _ _ _ W)
    as (F1 & F2 & F3 & F4 & F5 & F6 & F7).
  fold x in F1, F2, F3, F4, F5, F6, F7.
  destruct (b_pa h) eqn:Hpa; destruct (first_alloc R) eqn:Hna.
  - destruct (coalesce_case1 fuel _ _ _ _ _ _ _ _ P Hpa Hna)
      as (s' & bl' & H1 & H2).
    exists s', x, bl'. split; assumption.
  - destruct (next_block_first R Hna Hr Ar)
      as (n & R' & ER & Hstn & Hna' & _ & _).
    subst R.
    assert (Hrm : exists s1, remove_free fuel s (x + b_size h) = Some s1).
    { destruct Hrun as [Hrun|Hrun].
      - apply coalesce_block_removals in Hrun as [_ Hr2].
        fold x in Hr2. rewrite F4 in Hr2. apply Hr2; [congruence|exact F6].
      - apply (remove_free_total fuel s (L ++ [h]) n R' epa epm fl ml); auto.
        + rewrite <- app_assoc. exact W.
        + rewrite end_addr_app. reflexivity. }
    destruct Hrm as [s1 Hrm].
    destruct (coalesce_case3 fuel _ _ _ _ _ _ _ _ _ s1 P Hpa Hstn Hna' Hrm)
      as (s' & bl' & H1 & H2).
    exists s', x, bl'. split; assumption.
  - destruct (prev_block L _ _ Fl eq_refl Hl) as (L' & p & EL & Hst & Hpm & _).
    subst L.
    assert (Hfp : find_prev s x = end_addr (heap_start s) L').
    { apply (find_prev_ok s L' p (h :: R) epa epm fl ml x W Hst eq_refl).
      rewrite F3. exact Hpm. }
    assert (Hrm : exists s1,
               remove_free fuel s (end_addr (heap_start s) L') = Some s1).
    { destruct Hrun as [Hrun|Hrun].
      - apply coalesce_block_removals in Hrun as [Hr1 _].
        fold x in Hr1. rewrite Hfp in Hr1.
        destruct Hr1 as (s1 & Hr1 & _); [congruence|eauto].
      - apply (remove_free_total fuel s L' p (h :: R) epa epm fl ml); auto.
        rewrite <- app_assoc in W. exact W. }
    destruct Hrm as [s1 Hrm].
    destruct (coalesce_case2 fuel _ _ _ _ _ _ _ _ _ s1 P Hpa Hna Hrm)
      as (s' & bl' & H1 & H2).
    exists s', (end_addr (heap_start s) L'), bl'. split; assumption.
  - destruct (prev_block L _ _ Fl eq_refl Hl) as (L' & p & EL & Hst & Hpm & _).
    subst L.
    destruct (next_block_first R Hna Hr Ar)
      as (n & R' & ER & Hstn & Hna' & _ & _).
    subst R.
    assert (Hfp : find_prev s x = end_addr (heap_start s) L').
    { apply (find_prev_ok s L' p (h :: n :: R') epa epm fl ml x W Hst eq_refl).
      rewrite F3. exact Hpm. }
    assert (W0 : world s (L' ++ p :: h :: n :: R') epa epm fl ml)
      by (rewrite <- app_assoc in W; exact W).
    assert (Hrm : exists s1 s2,
               remove_free fuel s (end_addr (heap_start s) L') = Some s1 /\
               remove_free fuel s1 (x + b_size h) = Some s2).
    { destruct Hrun as [Hrun|Hrun].
      - apply coalesce_block_removals in Hrun as [Hr1 _].
        fold x in Hr1. rewrite Hfp, F4 in Hr1.
        destruct Hr1 as (s1 & Hr1 & Hr2); [congruence|].
        destruct (Hr2 F6) as [s2 Hr3]. eauto.
      - destruct (remove_free_total fuel s L' p (h :: n :: R') epa epm fl ml
                    _ W0 Hst eq_refl Hrun) as [s1 Hr1].
        destruct (remove_free_ok fuel s L' p (h :: n :: R') epa epm fl ml _ s1
                    W0 Hst eq_refl Hr1) as (fl1 & ml1 & W1 & SH1 & Hlen & _).
        set (p' := mkBlock (b_size p) SHole (b_pa p) (b_pm p)) in *.
        assert (Hs1 : heap_start s1 = heap_start s) by apply SH1.
        destruct (remove_free_total fuel s1 (L' ++ [p'; h]) n R' epa epm
                    fl1 ml1 (x + b_size h)) as [s2 Hr2]; auto.
        + rewrite <- app_assoc. exact W1.
        + rewrite Hs1. unfold x. rewrite !end_addr_app. simpl. lia.
        + lia.
        + eauto. }
    destruct Hrm as (s1 & s2 & Hrm1 & Hrm2).
    destruct (coalesce_case4 fuel _ _ _ _ _ _ _ _ _ _ s1 s2 P Hpa Hstn Hna'
                Hrm1 Hrm2) as (s' & bl' & H1 & H2).
    exists s', (end_addr (heap_start s) L'), bl'. split; assumption.
Qed.

(** * Extending the heap *)

Lemma grown_refl : forall s, grown s s.
Proof. intros s. unfold grown. repeat split; lia. Qed.

Lemma grown_trans : forall s1 s2 s3, grown s1 s2 -> grown s2 s3 -> grown s1 s3.
Proof.
  intros s1 s2 s3 (A1 & A2 & A3 & A4) (B1 & B2 & B3 & B4).
  unfold grown. repeat split; try congruence. lia.
Qed.

Lemma same_heap_grown : forall s s', same_heap s s' -> grown s s'.
Proof.
  intros s s' (A1 & A2 & A3 & A4). unfold grown. repeat split; auto. lia.
Qed.

Lemma heap_ok_tidy : forall s live bl,
  heap_ok s live bl <-> tidy s bl /\ live_ok (heap_start s) bl live.
Proof.
  intros s live bl. split.
  - intros [H1 H2 H3 H4]. unfold tidy. auto.
  - intros [(H1 & H2 & H3) H4]. constructor; assumption.
Qed.

(** A new last block in newly committed memory. *)
Lemma world_extend : forall s s' bl epa epm epa' epm' fl ml h,
  world s bl epa epm fl ml ->
  heap_start s' = heap_start s -> mem_start_brk s' = mem_start_brk s ->
  mem_max_addr s' = mem_max_addr s -> seg_list s' = seg_list s ->
  mini_list s' = mini_list s ->
  mem_brk s' = mem_brk s + b_size h -> mem_brk s' <= mem_max_addr s ->
  size_ok (b_size h) -> b_st h <> SFree ->
  outside (mem s) (mem s') (mem_brk s - 8) (mem_brk s') ->
  block_at (mem s') (mem_brk s - 8) h ->
  load64 (mem s') (mem_brk s' - 8) = pack_all 0 true epa' epm' ->
  world s' (bl ++ [h]) epa' epm' fl ml /\
  forall x0, keeps x0 s bl s' (bl ++ [h]).
Proof.
  intros s s' bl epa epm epa' epm' fl ml h [[Hb Hs Hm He Hp Hq] Hl]
    E1 E2 E3 E4 E5 Hbrk Hmax Hsz Hst Hout Hblk Hepi.
  assert (Hfree : forall x sz, free_at (heap_start s) (bl ++ [h]) x sz <->
                               free_at (heap_start s) bl x sz).
  { intros x sz. rewrite free_at_app. split; [|auto].
    intros [H|H]; [exact H|].
    apply free_at_cons in H as [(_ & H & _)|H]; [contradiction|].
    exfalso. exact (free_at_nil _ _ _ H). }
  split; [split|].
  - constructor.
    + destruct Hb as (B1 & B2 & B3 & B4 & B5).
      unfold bounds_ok. rewrite E1, E2, E3. repeat split; auto.
    + apply sizes_ok_app. split; [exact Hs|].
      apply sizes_ok_cons. split; [exact Hsz|constructor].
    + rewrite E1. apply mem_ok_app. split.
      * apply (mem_ok_outside (mem s) _ (mem_brk s - 8) (mem_brk s'));
          auto. left. lia.
      * rewrite He. apply mem_ok_cons. split; [exact Hblk|].
        intros x b [].
    + rewrite E1, end_addr_app, He. simpl. lia.
    + exact Hepi.
    + rewrite E2. rewrite (outside_load64 _ _ _ _ _ Hout); [exact Hq|].
      left. pose proof (end_addr_ge _ (heap_start s) Hs) as Hge.
      destruct Hb as (_ & _ & B3 & _). lia.
  - apply (lists_ok_frame s s' bl (bl ++ [h]) fl ml
             (mem_brk s - 8) (mem_brk s')); auto.
    intros x sz Hf. right.
    destruct (free_at_bounds _ _ _ _ Hs Hf) as (_ & B & Bs).
    pose proof (links_le sz Bs). lia.
  - intros x0.
    apply (keeps_frame x0 s s' bl (bl ++ [h])
             (mem_brk s - 8) (mem_brk s')); auto.
    intros x sz _ Ha. split.
    + right. destruct (alloc_at_bounds _ _ _ _ Hs Ha) as (_ & B & _). lia.
    + apply alloc_at_app. left. exact Ha.
Qed.

Lemma round_up_ok : forall size,
  0 <= size -> size + 15 < 2 ^ 64 ->
  round_up size dsize mod 16 = 0 /\
  size <= round_up size dsize < size + 16.
Proof.
  intros size H1 H2. unfold round_up, dsize, wsize. change (2 * 8) with 16.
  change (16 - 1) with 15.
  rewrite (wrap64_small (size + 15)) by lia.
  assert (H3 : 0 <= 16 * ((size + 15) / 16) <= size + 15).
  { pose proof (Z.mul_div_le (size + 15) 16).
    pose proof (Z.div_pos (size + 15) 16). lia. }
  rewrite wrap64_small by lia.
  split.
  - rewrite Z.mul_comm. apply Z.mod_mul. lia.
  - pose proof (Z.mod_pos_bound (size + 15) 16).
    pose proof (Z.div_mod (size + 15) 16). lia.
Qed.

Lemma tidy_coalesced : forall s bl x sz s' r bl',
  coalesced s bl x sz s' r bl' -> tidy s' bl'.
Proof.
  intros s bl x sz s' r bl' (H1 & H2 & H3 & _). unfold tidy. auto.
Qed.

Lemma layout_length : forall l a,
  sizes_ok l -> 16 * Z.of_nat (length l) <= end_addr a l - a.
Proof.
  induction l as [|b l IH]; intros a Hs; simpl length; simpl end_addr.
  - lia.
  - apply sizes_ok_cons in Hs as [[H1 _] H2].
    specialize (IH (a + b_size b) H2). lia.
Qed.

Lemma layout_fst_length : forall l a, length (map fst (layout a l)) = length l.
Proof.
  induction l as [|b l IH]; intros a; simpl; [reflexivity|].
  rewrite IH. reflexivity.
Qed.

Lemma free_list_bound : forall (l : list Z) a bl,
  NoDup l -> (forall x, In x l -> exists sz, free_at a bl x sz) ->
  (length l <= length bl)%nat.
Proof.
  intros l a bl Hn Hin. rewrite <- (layout_fst_length bl a).
  apply NoDup_incl_length; [exact Hn|].
  intros x Hx. destruct (Hin x Hx) as (sz & b & Hb & _).
  apply in_map_iff. exists (x, b). split; [reflexivity|exact Hb].
Qed.

Lemma blocks_bound : forall s bl epa epm fl ml,
  world s bl epa epm fl ml -> Z.of_nat (length bl) <= mem_max_addr s.
Proof.
  intros s bl epa epm fl ml [[Hb Hs Hm He Hp Hq] Hl].
  pose proof (layout_length bl (heap_start s) Hs).
  destruct Hb as (B1 & B2 & B3 & B4 & B5). lia.
Qed.

Lemma mini_list_bound : forall fuel s bl epa epm fl ml,
  world s bl epa epm fl ml -> enough fuel s -> (length ml < fuel)%nat.
Proof.
  intros fuel s bl epa epm fl ml W He.
  pose proof (blocks_bound _ _ _ _ _ _ W) as Hb.
  destruct W as [_ Hl].
  assert (H : (length ml <= length bl)%nat).
  { apply (free_list_bound ml (heap_start s) bl); [apply Hl|].
    intros x Hx. exists 16. apply Hl. exact Hx. }
  unfold enough in He. lia.
Qed.

Lemma bucket_bound : forall fuel s bl epa epm fl ml c,
  world s bl epa epm fl ml -> enough fuel s -> 0 <= c < 14 ->
  (length (fl c) < fuel)%nat.
Proof.
  intros fuel s bl epa epm fl ml c W He Hc.
  pose proof (blocks_bound _ _ _ _ _ _ W) as Hb.
  destruct W as [_ Hl].
  assert (H : (length (fl c) <= length bl)%nat).
  { apply (free_list_bound (fl c) (heap_start s) bl);
      [apply Hl; exact Hc|].
    intros x Hx. apply (lo_mem _ _ _ _ Hl c x Hc) in Hx as (sz & Hf & _).
    exists sz. exact Hf. }
  unfold enough in He. lia.
Qed.

(** [extend_heap] either fails and changes nothing, or returns a free
    block at the end of the heap that is at least as large as asked. *)
Lemma extend_heap_ok : forall fuel s bl size,
  tidy s bl -> 0 < size -> size + 15 < 2 ^ 64 ->
  extend_heap fuel s size <> None \/ enough fuel s ->
  exists s' r bl', extend_heap fuel s size = Some (s', r) /\
    ((r = NULL /\ s' = s /\ bl' = bl /\ sbrk_fails s size) \/
     (tidy s' bl' /\ grown s s' /\ (forall x0, keeps x0 s bl s' bl') /\
      exists rsz, free_at (heap_start s) bl' r rsz /\ size <= rsz /\
                  mem_brk s' = mem_brk s + round_up size dsize)).
Proof.
  intros fuel s bl size ((epa & epm & fl & ml & W & Fl) & Hh & Ha) H1 H2 Hrun.
  destruct (round_up_ok size ltac:(lia) H2) as [R1 R2].
  unfold extend_heap in *. set (sz := round_up size dsize) in *.
  unfold mem_sbrk in *.
  destruct ((to_intptr sz <? 0) || (mem_max_addr s <? mem_brk s + to_intptr sz))
    eqn:Efail.
  - change (SBRK_FAIL =? SBRK_FAIL) with true. cbv iota.
    exists s, NULL, bl. split; [reflexivity|]. left.
    split; [reflexivity|]. split; [reflexivity|]. split; [reflexivity|].
    unfold sbrk_fails. fold sz.
    apply orb_true_iff in Efail as [E|E].
    + left. apply Z.ltb_lt in E. unfold to_intptr in E.
      destruct (Z.ltb_spec sz (2 ^ 63)); lia.
    + apply Z.ltb_lt in E. unfold to_intptr in E.
      destruct (Z.ltb_spec sz (2 ^ 63)); [right; lia|left; lia].
  - apply orb_false_iff in Efail as [E1 E2].
    apply Z.ltb_ge in E1, E2.
    assert (E3 : to_intptr sz = sz).
    { unfold to_intptr in *. destruct (sz <? 2 ^ 63); lia. }
    rewrite E3 in *.
    pose proof W as [[Hb Hs Hm He Hp Hq] Hl].
    pose proof Hb as (B1 & B2 & B3 & B4 & B5).
    assert (Hbrk : 16 <= mem_brk s < 2 ^ 63).
    { pose proof (end_addr_ge bl (heap_start s) Hs). lia. }
    assert (Enf : (mem_brk s =? SBRK_FAIL) = false)
      by (apply Z.eqb_neq; unfold SBRK_FAIL; lia).
    rewrite Enf in *. cbv iota in *.
    set (s1 := set_brk s (mem_brk s + sz)) in *.
    unfold payload_to_header in *.
    set (block := mem_brk s - 8) in *.
    destruct (world_epilogue_fields _ _ _ _ _ _ W) as (_ & _ & P1 & P2).
    fold block in P1, P2.
    change (get_prev_alloc s1 block) with (get_prev_alloc s block) in *.
    change (get_prev_mini s1 block) with (get_prev_mini s block) in *.
    rewrite P1, P2 in *.
    set (h := mkBlock sz SHole epa epm).
    assert (Hsz : size_ok sz) by (split; lia).
    assert (Hlt : sz < 2 ^ 63) by lia.
    destruct (write_pack_block s1 block sz SHole epa epm Hsz Hlt)
      as (A1 & A2 & _).
    simpl is_alloc in A1, A2.
    set (s2 := write_pack s1 block sz false epa epm) in *.
    destruct (block_at_fields _ _ _ A1 Hsz Hlt) as (G1 & G2 & _).
    simpl in G1, G2.
    assert (Hfn : find_next s2 block = block + sz)
      by (unfold find_next, get_size, header, read; rewrite G1; reflexivity).
    assert (Hga : get_alloc s2 block = false) by exact G2.
    assert (Hmi : is_mini_block s2 block = (sz =? 16))
      by (unfold is_mini_block, get_size, header, read; rewrite G1;
          reflexivity).
    rewrite Hfn, Hga, Hmi in *. unfold write_epilogue in *.
    set (s3 := write s2 (block + sz) (pack_all 0 true false (sz =? 16))) in *.
    assert (SG : same_globals s1 s3).
    { apply (same_globals_trans _ s2);
        [apply write_pack_same_globals|apply write_same_globals]. }
    destruct SG as (S1 & S2 & S3 & S4 & S5 & S6).
    assert (Hout3 : outside (mem s2) (mem s3) (block + sz) (block + sz + 8))
      by apply write_outside.
    assert (Hb3 : mem_brk s3 = mem_brk s + sz) by (rewrite S2; reflexivity).
    assert (Ho : outside (mem s) (mem s3) (mem_brk s - 8) (mem_brk s3)).
    { apply (outside_trans _ (mem s2)).
      - eapply outside_widen; [exact A2|unfold block; lia|].
        rewrite Hb3. unfold block. lia.
      - eapply outside_widen; [exact Hout3|unfold block; lia|].
        rewrite Hb3. unfold block. lia. }
    assert (Hblk : block_at (mem s3) (mem_brk s - 8) h).
    { apply (block_at_outside (mem s2) _ (block + sz) (block + sz + 8));
        auto. left. simpl. lia. }
    assert (Hepi : load64 (mem s3) (mem_brk s3 - 8)
                   = pack_all 0 true false (sz =? 16)).
    { rewrite Hb3.
      replace (mem_brk s + sz - 8) with (block + sz) by (unfold block; lia).
      apply load64_store64_same. apply pack_all_range; [lia|reflexivity]. }
    destruct (world_extend s s3 bl epa epm false (sz =? 16) fl ml h W
                S1 S3 S4 S5 S6 Hb3 ltac:(lia) Hsz ltac:(discriminate)
                Ho Hblk Hepi) as [W3 K3].
    assert (Hmx : mem_max_addr s3 = mem_max_addr s) by exact S4.
    assert (Hhs : heap_start s3 = heap_start s) by exact S1.
    clearbody s3. clear S1 S2 S3 S4 S5 S6.
    assert (P : coalesce_pre s3 bl h [] false (sz =? 16) fl ml).
    { constructor; auto.
      - exists false, (sz =? 16). simpl. auto.
      - constructor.
      - exact I. }
    assert (Hx : end_addr (heap_start s3) bl = block)
      by (rewrite Hhs; exact He).
    destruct (coalesce_run fuel s3 bl h [] false (sz =? 16) fl ml P)
      as (s' & r & bl' & C1 & C2).
    { rewrite Hx. destruct Hrun as [Hrun|Hrun]; [left; exact Hrun|].
      right. apply (mini_list_bound fuel _ _ _ _ _ _ W3).
      unfold enough in *. rewrite Hmx. exact Hrun. }
    rewrite Hx in C1, C2. exists s', r, bl'. split; [exact C1|]. right.
    split; [exact (tidy_coalesced _ _ _ _ _ _ _ C2)|].
    destruct C2 as (_ & _ & _ & SH & K & rsz & F1 & F2 & F3).
    split; [|split].
    + apply (grown_trans _ s3); [|apply same_heap_grown; exact SH].
      destruct (proj1 W3) as [(Q1 & Q2 & Q3 & Q4 & Q5) _ _ _ _].
      unfold grown. repeat split; auto; lia.
    + intros x0. apply (keeps_trans _ _ _ s3 (bl ++ [h])); auto.
    + exists rsz. rewrite Hhs in F1. simpl in F3.
      split; [exact F1|]. split; [lia|].
      destruct SH as (_ & Eb & _). rewrite Eb, Hb3. reflexivity.
Qed.

(** * Initialisation *)

Lemma seg_get_repeat : forall s c,
  seg_list s = repeat NULL (Z.to_nat LENGTH) -> seg_get s c = NULL.
Proof.
  intros s c H. unfold seg_get. rewrite H.
  generalize (Z.to_nat c), (Z.to_nat LENGTH). intros i n. revert i.
  induction n as [|n IH]; intros [|i]; simpl; auto.
Qed.

(** An initialised heap that holds no block yet. *)
Lemma world_empty : forall s,
  provider_ok (mem_start_brk s) (mem_max_addr s) ->
  heap_start s = mem_start_brk s + 8 ->
  mem_brk s = mem_start_brk s + 16 -> mem_brk s <= mem_max_addr s ->
  seg_list s = repeat NULL (Z.to_nat LENGTH) -> mini_list s = NULL ->
  load64 (mem s) (mem_brk s - 8) = pack_all 0 true true false ->
  load64 (mem s) (mem_start_brk s) = pack_all 0 true false false ->
  world s [] true false (fun _ => []) [].
Proof.
  intros s (P1 & P2 & P3 & P4) H1 H2 H3 H4 H5 H6 H7. split.
  - constructor.
    + unfold bounds_ok. auto.
    + constructor.
    + intros x b [].
    + simpl. lia.
    + exact H6.
    + exact H7.
  - constructor.
    + rewrite H4. reflexivity.
    + intros c _. simpl. apply seg_get_repeat. exact H4.
    + intros c x _. split; [intros []|].
      intros (sz & Hf & _). exact (free_at_nil _ _ _ Hf).
    + intros c _. constructor.
    + simpl. exact H5.
    + intros x. split; [intros []|]. apply free_at_nil.
    + constructor.
Qed.

Lemma tidy_empty : forall s,
  world s [] true false (fun _ => []) [] -> tidy s [].
Proof.
  intros s W. split; [|split].
  - exists true, false, (fun _ => []), []. split; [exact W|]. simpl. auto.
  - constructor.
  - exact I.
Qed.

(** [mm_init] on a fresh state: it fails and changes nothing, or it leaves
    an initialised heap. *)
Lemma mm_init_ok : forall fuel s,
  fresh s [] -> mm_init fuel s <> None \/ enough fuel s ->
  exists s' ok, mm_init fuel s = Some (s', ok) /\
    ((ok = false /\ s' = s) \/
     exists bl, tidy s' bl /\ mem_start_brk s' = mem_start_brk s /\
                mem_max_addr s' = mem_max_addr s /\
                (ok = true ->
                 exists r rsz, free_at (heap_start s') bl r rsz /\
                               4096 <= rsz)).
Proof.
  intros fuel s (F1 & F2 & (P1 & P2 & P3 & P4) & _) Hrun.
  unfold mm_init in *. unfold mem_sbrk in *. unfold wsize in *.
  change (2 * 8) with 16 in *. change (16 <? 0) with false in *.
  rewrite orb_false_l in *.
  destruct (mem_max_addr s <? mem_brk s + 16) eqn:Efail.
  - change (SBRK_FAIL =? SBRK_FAIL) with true. cbv iota.
    exists s, false. split; [reflexivity|]. left. auto.
  - apply Z.ltb_ge in Efail.
    assert (Enf : (mem_brk s =? SBRK_FAIL) = false)
      by (apply Z.eqb_neq; unfold SBRK_FAIL; lia).
    rewrite Enf in *. cbv iota in *.
    set (s5 := write (write (set_mini_list (set_seg_list
                 (set_brk s (mem_brk s + 16))
                 (repeat NULL (Z.to_nat LENGTH))) NULL)
                 (mem_brk s) (pack_all 0 true false false))
                 (mem_brk s + 8) (pack_all 0 true true false)) in *.
    set (s6 := set_heap_start s5 (mem_brk s + 8)) in *.
    assert (W6 : world s6 [] true false (fun _ => []) []).
    { apply world_empty; simpl; try lia; try reflexivity.
      - unfold provider_ok. simpl. repeat split; lia.
      - replace (mem_brk s + 16 - 8) with (mem_brk s + 8) by lia.
        apply load64_store64_same. vm_compute. split; [discriminate|reflexivity].
      - rewrite <- F2. rewrite load64_store64_other by lia.
        apply load64_store64_same. vm_compute. split; [discriminate|reflexivity]. }
    destruct (extend_heap_ok fuel s6 [] chunksize (tidy_empty _ W6))
      as (s' & r & bl' & E & Hres).
    + vm_compute. reflexivity.
    + vm_compute. reflexivity.
    + destruct Hrun as [Hrun|Hrun]; [left|right; exact Hrun].
      intros EN. rewrite EN in Hrun. apply Hrun. reflexivity.
    + rewrite E. exists s', (negb (r =? NULL)). split; [reflexivity|].
      right. destruct Hres as [(R1 & R2 & R3 & _)|(T & G & _ & rsz & Hf & Hr & _)].
      * exists []. subst s' r. split; [apply tidy_empty; exact W6|].
        simpl. split; [reflexivity|]. split; [reflexivity|]. discriminate.
      * exists bl'. split; [exact T|].
        destruct G as (G1 & G2 & G3 & G4). simpl in G2, G3.
        split; [exact G2|]. split; [exact G3|]. intros _.
        exists r, rsz. rewrite G1. split; [exact Hf|exact Hr].
Qed.

(** * Placement *)

Lemma scan_class_ok : forall s bl epa epm fl ml asize,
  world s bl epa epm fl ml ->
  forall fuel l block best,
  dchain (mem s) block l ->
  (forall x, In x l -> exists sz, free_at (heap_start s) bl x sz) ->
  fit_for s bl asize best ->
  scan_class fuel s asize best block <> None \/ (length l < fuel)%nat ->
  exists res, scan_class fuel s asize best block = Some res /\
    fit_for s bl asize (match res with Halt b => b | Finished b => b end).
Proof.
  intros s bl epa epm fl ml asize W.
  induction fuel as [|f IH]; intros l block best Hd Hin Hbest Hrun.
  - simpl in Hrun. destruct Hrun as [Hrun|Hrun]; [congruence|lia].
  - simpl in *. destruct (Z.eqb_spec block NULL) as [En|En].
    + exists (Finished best). split; [reflexivity|exact Hbest].
    + destruct l as [|x l']; simpl in Hd; [contradiction|].
      destruct Hd as (Ex & Hd' & _). subst x.
      destruct (Hin block (or_introl eq_refl)) as [sz Hf].
      destruct (world_free_at _ _ _ _ _ _ _ _ W Hf)
        as (_ & _ & _ & _ & _ & Gs & Ga).
      rewrite Ga, Gs in *. simpl negb in *. rewrite andb_true_l in *.
      assert (Hin' : forall x, In x l' ->
                exists sz, free_at (heap_start s) bl x sz)
        by (intros x Hx; apply Hin; right; exact Hx).
      assert (Hlen : forall (P : Prop), P \/ (S (length l') < S f)%nat ->
                P \/ (length l' < f)%nat) by (intros P [H|H]; [auto|right; lia]).
      unfold payload_next, read in *.
      destruct (asize <=? sz) eqn:Efit.
      * apply Z.leb_le in Efit.
        assert (Hnew : fit_for s bl asize block)
          by (right; exists sz; auto).
        destruct (best =? NULL).
        -- apply (IH l'); auto.
        -- destruct (sz <? get_size s best).
           ++ apply (IH l'); auto.
           ++ exists (Halt best). split; [reflexivity|exact Hbest].
      * apply (IH l'); auto.
Qed.

Lemma find_fit_from_ok : forall fuel s bl epa epm fl ml asize,
  world s bl epa epm fl ml ->
  forall n i, 0 <= i -> i + Z.of_nat n <= 14 ->
  find_fit_from fuel s asize n i <> None \/ enough fuel s ->
  exists r, find_fit_from fuel s asize n i = Some r /\ fit_for s bl asize r.
Proof.
  intros fuel s bl epa epm fl ml asize W.
  induction n as [|n IH]; intros i Hi Hn Hrun.
  - exists NULL. split; [reflexivity|]. left. reflexivity.
  - simpl in *.
    assert (Hc : 0 <= i < 14) by lia.
    destruct (scan_class_ok s bl epa epm fl ml asize W fuel (fl i)
                (seg_get s i) NULL) as (res & E & Hres).
    + apply W. exact Hc.
    + intros x Hx. apply (lo_mem _ _ _ _ (proj2 W) i x Hc) in Hx
        as (sz & Hf & _). exists sz. exact Hf.
    + left. reflexivity.
    + destruct Hrun as [Hrun|Hrun].
      * left. intros EN. rewrite EN in Hrun. apply Hrun. reflexivity.
      * right. apply (bucket_bound fuel s bl epa epm fl ml i W Hrun Hc).
    + rewrite E in *. destruct res as [best|best].
      * exists best. split; [reflexivity|exact Hres].
      * destruct (best =? NULL); simpl in *.
        -- apply IH; [lia|lia|exact Hrun].
        -- exists best. split; [reflexivity|exact Hres].
Qed.

Lemma find_fit_ok : forall fuel s bl epa epm fl ml asize,
  world s bl epa epm fl ml ->
  find_fit fuel s asize <> None \/ enough fuel s ->
  exists r, find_fit fuel s asize = Some r /\ fit_for s bl asize r.
Proof.
  intros fuel s bl epa epm fl ml asize W Hrun. unfold find_fit in *.
  destruct ((asize =? min_block_size) && negb (mini_list s =? NULL)) eqn:E.
  - exists (mini_list s). split; [reflexivity|].
    apply andb_true_iff in E as [E1 E2].
    apply Z.eqb_eq in E1. apply negb_true_iff, Z.eqb_neq in E2.
    destruct (mini_head _ _ _ _ _ _ W) as (Hh & _ & _).
    destruct ml as [|x ml']; simpl in Hh; [contradiction|].
    right. exists 16. split.
    + apply (lo_mmem _ _ _ _ (proj2 W)). rewrite Hh. left. reflexivity.
    + rewrite E1. unfold min_block_size, dsize, wsize. lia.
  - pose proof (find_class_range asize) as Hc.
    apply (find_fit_from_ok fuel s bl epa epm fl ml asize W); auto.
    + lia.
    + unfold LENGTH. lia.
Qed.

(** * Placing an allocation in a free block *)

Lemma no_free_one : forall b, b_st b <> SFree -> no_free [b].
Proof. intros b H c [E|[]]. subst c. exact H. Qed.

(** The header of a block off the lists is rewritten as allocated. *)
Lemma mark_alloc_ok : forall s L h R epa epm fl ml,
  world s (L ++ h :: R) epa epm fl ml -> b_st h = SHole ->
  let x := end_addr (heap_start s) L in
  let s' := write_pack s x (b_size h) true (b_pa h) (b_pm h) in
  let a := mkBlock (b_size h) SAlloc (b_pa h) (b_pm h) in
  world s' (L ++ a :: R) epa epm fl ml /\ same_heap s s' /\
  forall x0, keeps x0 s (L ++ h :: R) s' (L ++ a :: R).
Proof.
  intros s L h R epa epm fl ml W Hh x s' a.
  pose proof (layout_mid L h R (heap_start s)) as Hin.
  destruct (world_block _ _ _ _ _ _ _ _ W Hin) as (_ & _ & _ & _ & Hsz & Hlt).
  destruct (write_pack_block s x (b_size h) SAlloc (b_pa h) (b_pm h) Hsz Hlt)
    as (A1 & A2 & _).
  simpl is_alloc in A1, A2. fold s' in A1, A2. fold a in A1.
  assert (SG : same_globals s s') by apply write_pack_same_globals.
  split; [|split].
  - apply (world_surgery s s' L [h] [a] R epa epm fl ml x W eq_refl).
    + apply no_free_one. rewrite Hh. discriminate.
    + apply no_free_one. discriminate.
    + reflexivity.
    + apply sizes_ok_cons. split; [exact Hsz|constructor].
    + exact SG.
    + exact A2.
    + apply mem_ok_cons. split; [exact A1|intros y b []].
  - apply same_globals_heap. exact SG.
  - intros x0.
    apply (surgery_keeps x0 s s' L [h] [a] R x).
    + apply W.
    + reflexivity.
    + reflexivity.
    + apply SG.
    + exact A2.
    + intros y sz _ Ha. apply alloc_at_cons in Ha as [(_ & E & _)|Ha].
      * rewrite Hh in E. discriminate.
      * exfalso. exact (alloc_at_nil _ _ _ Ha).
Qed.

(** [split_block] on an allocated block: nothing when the rest would be
    smaller than a block, else an allocated block of [asize] bytes
    followed by a block off the lists. *)
Lemma split_block_ok : forall s L a R epa epm fl ml asize,
  world s (L ++ a :: R) epa epm fl ml -> b_st a = SAlloc ->
  size_ok asize -> asize <= b_size a ->
  let x := end_addr (heap_start s) L in
  let a' := mkBlock asize SAlloc (b_pa a) (b_pm a) in
  let h' := mkBlock (b_size a - asize) SHole true (asize =? 16) in
  (b_size a - asize < 16 /\ split_block s x asize = (s, NULL)) \/
  (16 <= b_size a - asize /\
   exists s', split_block s x asize = (s', x + asize) /\
     world s' (L ++ a' :: h' :: R) epa epm fl ml /\ same_heap s s' /\
     keeps x s (L ++ a :: R) s' (L ++ a' :: h' :: R)).
Proof.
  intros s L a R epa epm fl ml asize W Ha Hasz Hle x a' h'.
  pose proof (layout_mid L a R (heap_start s)) as Hin.
  destruct (world_block _ _ _ _ _ _ _ _ W Hin) as (_ & _ & _ & _ & Hsz & Hlt).
  destruct (world_fields _ _ _ _ _ _ _ _ W Hin) as (F1 & F2 & F3 & F4).
  fold x in F1, F2, F3, F4.
  unfold split_block. rewrite F1, F3, F4.
  unfold min_block_size, dsize, wsize. change (2 * 8) with 16.
  destruct Hasz as [Z1 Z2]. destruct Hsz as [Y1 Y2].
  rewrite wrap64_small by lia.
  destruct (Z.leb_spec 16 (b_size a - asize)) as [Hbig|Hsmall];
    [right|left; split; [lia|reflexivity]].
  split; [exact Hbig|].
  assert (Hd : size_ok (b_size a - asize)) by (split; lia).
  destruct (write_pack_block s x asize SAlloc (b_pa a) (b_pm a)
              ltac:(split; lia) ltac:(lia)) as (A1 & A2 & _).
  simpl is_alloc in A1, A2.
  set (s1 := write_pack s x asize true (b_pa a) (b_pm a)) in *.
  destruct (block_at_fields _ _ _ A1 ltac:(split; simpl; lia)
              ltac:(simpl; lia)) as (G1 & _).
  cbn [b_size] in G1.
  assert (Hfn : find_next s1 x = x + asize)
    by (unfold find_next, get_size, header, read; rewrite G1; reflexivity).
  rewrite Hfn.
  destruct (write_pack_block s1 (x + asize) (b_size a - asize) SHole true
              (asize =? 16) Hd ltac:(lia)) as (B1 & B2 & _).
  simpl is_alloc in B1, B2.
  set (s2 := write_pack s1 (x + asize) (b_size a - asize) false true
               (asize =? 16)) in *.
  rewrite write_prev_alloc_false.
  exists s2. split; [reflexivity|].
  assert (SG : same_globals s s2).
  { apply (same_globals_trans _ s1); apply write_pack_same_globals. }
  assert (Hout : outside (mem s) (mem s2) x (x + b_size a)).
  { apply (outside_trans _ (mem s1)).
    - eapply outside_widen; [exact A2|lia|lia].
    - eapply outside_widen; [exact B2|lia|lia]. }
  assert (Hend : end_addr x [a'; h'] = end_addr x [a])
    by (simpl; lia).
  split; [|split].
  - apply (world_surgery s s2 L [a] [a'; h'] R epa epm fl ml x W eq_refl).
    + apply no_free_one. rewrite Ha. discriminate.
    + intros c [E|[E|[]]]; subst c; discriminate.
    + exact Hend.
    + apply sizes_ok_cons. split; [split; simpl; lia|].
      apply sizes_ok_cons. split; [exact Hd|constructor].
    + exact SG.
    + exact Hout.
    + apply mem_ok_cons. split.
      * apply (block_at_outside (mem s1) _ (x + asize) (x + b_size a));
          auto.
        -- split; simpl; lia.
        -- eapply outside_widen; [exact B2|lia|lia].
        -- left. simpl. lia.
      * apply mem_ok_cons. split; [exact B1|intros y b []].
  - apply same_globals_heap. exact SG.
  - apply (surgery_keeps x s s2 L [a] [a'; h'] R x).
    + apply W.
    + reflexivity.
    + exact Hend.
    + apply SG.
    + exact Hout.
    + intros y sz Hy Hal. apply alloc_at_cons in Hal as [(E & _)|Hal].
      * contradiction.
      * exfalso. exact (alloc_at_nil _ _ _ Hal).
Qed.

(** [write_prev_alloc] with [true] on the allocated block, or the
    epilogue, that follows a stretch. *)
Lemma mark_next_ok : forall s L R epa epm fl ml,
  world s (L ++ R) epa epm fl ml -> first_alloc R = true ->
  let next := end_addr (heap_start s) L in
  let fm := match R with [] => epm | n :: _ => b_pm n end in
  let s' := write_prev_alloc s next true in
  world s' (L ++ retag true fm R) (retag_epi true R epa)
        (retag_epi fm R epm) fl ml /\
  same_heap s s' /\ forall x0, keeps x0 s (L ++ R) s' (L ++ retag true fm R).
Proof.
  intros s L R epa epm fl ml W Hfa next fm s'.
  destruct (is_alloc_first _ _ _ _ _ _ _ W) as [_ Gs]. fold next in Gs.
  assert (Hw : exists sz pa, 0 <= sz < 2 ^ 63 /\ sz mod 16 = 0 /\
             load64 (mem s) next = pack_all sz true pa fm /\
             get_size s next = sz).
  { destruct R as [|n R'].
    - exists 0, epa. repeat split; try lia; auto.
      pose proof W as [[_ _ _ He Hp _] _].
      rewrite app_nil_r in He. unfold next. rewrite He. exact Hp.
    - pose proof (layout_mid L n R' (heap_start s)) as Hin.
      destruct (world_block _ _ _ _ _ _ _ _ W Hin)
        as ([Hh _] & _ & _ & _ & [S1 S2] & Hlt).
      exists (b_size n), (b_pa n). repeat split; try lia; auto.
      fold next in Hh. rewrite Hh. unfold hdr_word.
      simpl in Hfa. rewrite Hfa. reflexivity. }
  destruct Hw as (sz & pa & H1 & H2 & H3 & H4).
  unfold s'. rewrite (write_prev_alloc_true s next sz pa fm H1 H2 H3).
  rewrite <- H4.
  apply (retag_next_ok s L R epa epm fl ml true fm W Hfa).
Qed.

(** The block off the lists is marked allocated and the header after it
    is told so. *)
Lemma claim_ok_let : forall s L h R epa epm fl ml,
  world s (L ++ h :: R) epa epm fl ml -> b_st h = SHole ->
  flags_ok false (b_size h =? 16) R epa epm -> first_alloc R = true ->
  let x := end_addr (heap_start s) L in
  let s3 := write_pack s x (get_size s x) true (get_prev_alloc s x)
                       (get_prev_mini s x) in
  let s4 := write_prev_alloc s3 (find_next s3 x) true in
  let a := mkBlock (b_size h) SAlloc (b_pa h) (b_pm h) in
  let R4 := retag true (b_size h =? 16) R in
  exists epa4 epm4,
    world s4 (L ++ a :: R4) epa4 epm4 fl ml /\
    flags_ok true (b_size h =? 16) R4 epa4 epm4 /\
    same_heap s s4 /\
    forall x0, keeps x0 s (L ++ h :: R) s4 (L ++ a :: R4).
Proof.
  intros s L h R epa epm fl ml W Hh Fr Hfa x s3 s4 a R4.
  destruct (coalesce_reads _ _ _ _ _ _ _ _ W) as (F1 & F2 & F3 & _).
  fold x in F1, F2, F3.
  destruct (mark_alloc_ok s L h R epa epm fl ml W Hh) as (W3 & SH3 & K3).
  fold x in W3, SH3, K3. fold a in W3, K3.
  unfold s4, s3. rewrite F1, F2, F3.
  set (t3 := write_pack s x (b_size h) true (b_pa h) (b_pm h)) in *.
  assert (Hs3 : heap_start t3 = heap_start s) by apply SH3.
  destruct (coalesce_reads _ _ _ _ _ _ _ _ W3) as (_ & _ & _ & N4 & _).
  rewrite Hs3 in N4. fold x in N4. cbn [b_size a] in N4. rewrite N4.
  assert (W3' : world t3 ((L ++ [a]) ++ R) epa epm fl ml)
    by (rewrite <- app_assoc; exact W3).
  destruct (mark_next_ok t3 (L ++ [a]) R epa epm fl ml W3' Hfa)
    as (W4 & SH4 & K4).
  rewrite Hs3, end_addr_app in W4, SH4, K4. fold x in W4, SH4, K4.
  cbn [end_addr b_size a] in W4, SH4, K4.
  assert (Hfm : match R with [] => epm | n :: _ => b_pm n end
                = (b_size h =? 16)).
  { destruct R as [|n R']; simpl in Fr; [apply Fr|].
    destruct Fr as (_ & E & _). exact E. }
  rewrite Hfm in W4, K4. fold R4 in W4, K4.
  rewrite <- app_assoc in W4. simpl in W4.
  eexists. eexists. split; [exact W4|]. split; [|split].
  - apply (flags_ok_retag R _ _ true (b_size h =? 16) epa epm Fr).
  - apply (same_heap_trans _ t3); assumption.
  - intros x0. apply (keeps_trans _ _ _ t3 (L ++ a :: R)); [apply K3|].
    specialize (K4 x0). rewrite <- !app_assoc in K4. exact K4.
Qed.

Lemma claim_ok : forall s L h R epa epm fl ml x s4,
  world s (L ++ h :: R) epa epm fl ml -> b_st h = SHole ->
  flags_ok false (b_size h =? 16) R epa epm -> first_alloc R = true ->
  x = end_addr (heap_start s) L ->
  s4 = write_prev_alloc
         (write_pack s x (get_size s x) true (get_prev_alloc s x)
                     (get_prev_mini s x))
         (find_next
            (write_pack s x (get_size s x) true (get_prev_alloc s x)
                        (get_prev_mini s x)) x) true ->
  exists epa4 epm4,
    world s4 (L ++ mkBlock (b_size h) SAlloc (b_pa h) (b_pm h)
                :: retag true (b_size h =? 16) R) epa4 epm4 fl ml /\
    flags_ok true (b_size h =? 16) (retag true (b_size h =? 16) R)
             epa4 epm4 /\
    same_heap s s4 /\
    forall x0, keeps x0 s (L ++ h :: R) s4
                     (L ++ mkBlock (b_size h) SAlloc (b_pa h) (b_pm h)
                        :: retag true (b_size h =? 16) R).
Proof.
  intros s L h R epa epm fl ml x s4 W Hh Fr Hfa Hx Hs4. subst x s4.
  exact (claim_ok_let s L h R epa epm fl ml W Hh Fr Hfa).
Qed.

Lemma flags_ok_snoc_alloc : forall L a pa pm,
  flags_ok true false L pa pm -> b_pa a = pa -> b_pm a = pm ->
  b_st a = SAlloc ->
  flags_ok true false (L ++ [a]) true (b_size a =? 16).
Proof.
  intros L a pa pm Fl E1 E2 Ha. apply flags_ok_app.
  exists pa, pm. split; [exact Fl|]. simpl. rewrite Ha. auto.
Qed.

Lemma no_holes_snoc : forall L a,
  no_holes L -> b_st a <> SHole -> no_holes (L ++ [a]).
Proof.
  intros L a H1 H2. apply no_holes_app. split; [exact H1|].
  apply no_holes_cons. split; [exact H2|constructor].
Qed.

Lemma no_adj_free_snoc_alloc : forall L a,
  no_adj_free L -> b_st a = SAlloc -> no_adj_free (L ++ [a]).
Proof.
  intros L a H1 H2. apply no_adj_free_app. split; [exact H1|].
  split; [exact I|]. right. simpl. rewrite H2. reflexivity.
Qed.

Lemma no_adj_free_after_alloc : forall L a R,
  no_adj_free (L ++ [a]) -> b_st a = SAlloc -> no_adj_free R ->
  no_adj_free ((L ++ [a]) ++ R).
Proof.
  intros L a R H1 H2 H3. apply no_adj_free_app. split; [exact H1|].
  split; [exact H3|]. left.
  clear H1 H3. induction L as [|b L IH]; simpl.
  - rewrite H2. reflexivity.
  - destruct (L ++ [a]) eqn:E; [destruct L; discriminate|exact IH].
Qed.

(** An allocated block between two tidy stretches. *)
Lemma tidy_alloc_mid : forall s L a R epa epm fl ml,
  world s (L ++ a :: R) epa epm fl ml -> b_st a = SAlloc ->
  flags_ok true false L (b_pa a) (b_pm a) ->
  flags_ok true (b_size a =? 16) R epa epm ->
  no_holes L -> no_holes R -> no_adj_free L -> no_adj_free R ->
  tidy s (L ++ a :: R).
Proof.
  intros s L a R epa epm fl ml W Ha Fl Fr Hl Hr Al Ar.
  split; [|split].
  - exists epa, epm, fl, ml. split; [exact W|].
    change (a :: R) with ([a] ++ R). rewrite app_assoc.
    apply flags_ok_app. exists true, (b_size a =? 16).
    split; [|exact Fr].
    apply (flags_ok_snoc_alloc L a (b_pa a) (b_pm a)); auto.
  - apply no_holes_app. split; [exact Hl|].
    apply no_holes_cons. split; [rewrite Ha; discriminate|exact Hr].
  - change (a :: R) with ([a] ++ R). rewrite app_assoc.
    apply no_adj_free_after_alloc; auto.
    apply no_adj_free_snoc_alloc; auto.
Qed.

(** The second half of [place]: split the allocated block and give the
    rest back. *)
Lemma split_rest_ok : forall fuel s L a R epa epm fl ml asize,
  world s (L ++ a :: R) epa epm fl ml -> b_st a = SAlloc ->
  flags_ok true false L (b_pa a) (b_pm a) ->
  flags_ok true (b_size a =? 16) R epa epm ->
  no_holes L -> no_holes R -> no_adj_free L -> no_adj_free R ->
  size_ok asize -> asize <= b_size a ->
  let x := end_addr (heap_start s) L in
  forall s5 temp, split_block s x asize = (s5, temp) ->
  let rest := if negb (temp =? NULL) then
                match coalesce_block fuel s5 temp with
                | None => None
                | Some (s6, _) => Some s6
                end
              else Some s5 in
  rest <> None \/ enough fuel s ->
  exists s' bl' sz', rest = Some s' /\ tidy s' bl' /\
    same_heap s s' /\ keeps x s (L ++ a :: R) s' bl' /\
    alloc_at (heap_start s) bl' x sz' /\ asize <= sz'.
Proof.
  intros fuel s L a R epa epm fl ml asize W Ha Fl Fr Hl Hr Al Ar
    Hasz Hle x s5 temp Esp rest Hrun.
  pose proof (layout_mid L a R (heap_start s)) as Hin.
  destruct (world_block _ _ _ _ _ _ _ _ W Hin) as (_ & Hx8 & _).
  fold x in Hx8.
  destruct (split_block_ok s L a R epa epm fl ml asize W Ha Hasz Hle)
    as [[Hsm E]|[Hbig (t5 & E & W5 & SH5 & K5)]];
    fold x in E; rewrite E in Esp; inversion Esp; subst s5 temp; clear Esp.
  - exists s, (L ++ a :: R), (b_size a). split; [reflexivity|].
    split; [|split; [apply same_heap_refl|split;
               [apply keeps_refl|split; [|exact Hle]]]].
    + apply (tidy_alloc_mid s L a R epa epm fl ml); auto.
    + exists a. auto.
  - fold x in K5.
    set (a' := mkBlock asize SAlloc (b_pa a) (b_pm a)) in *.
    set (h' := mkBlock (b_size a - asize) SHole true (asize =? 16)) in *.
    assert (Hs5 : heap_start t5 = heap_start s) by apply SH5.
    assert (Hnn : negb (x + asize =? NULL) = true).
    { apply negb_true_iff, Z.eqb_neq. destruct Hasz. unfold NULL. lia. }
    unfold rest in *. rewrite Hnn in Hrun. rewrite Hnn.
    assert (P : coalesce_pre t5 (L ++ [a']) h' R epa epm fl ml).
    { constructor.
      - rewrite <- app_assoc. exact W5.
      - reflexivity.
      - apply (flags_ok_snoc_alloc L a' (b_pa a) (b_pm a)); auto.
      - eauto.
      - apply no_holes_snoc; [exact Hl|discriminate].
      - exact Hr.
      - apply no_adj_free_snoc_alloc; auto.
      - exact Ar. }
    assert (Hx5 : end_addr (heap_start t5) (L ++ [a']) = x + asize)
      by (rewrite Hs5, end_addr_app; reflexivity).
    destruct (coalesce_run fuel t5 (L ++ [a']) h' R epa epm fl ml P)
      as (s' & r & bl' & C1 & C2).
    { rewrite Hx5. destruct Hrun as [Hrun|Hrun].
      - left. intros EN. rewrite EN in Hrun. apply Hrun. reflexivity.
      - right. apply (mini_list_bound fuel _ _ _ _ _ _ W5).
        unfold enough in *. destruct SH5 as (_ & _ & _ & M5).
        rewrite M5. exact Hrun. }
    rewrite Hx5 in C1, C2. rewrite C1.
    exists s', bl', asize. split; [reflexivity|].
    split; [exact (tidy_coalesced _ _ _ _ _ _ _ C2)|].
    destruct C2 as (_ & _ & _ & SH & K & _).
    rewrite <- app_assoc in K. simpl in K.
    split; [|split; [|split; [|lia]]].
    + apply (same_heap_trans _ t5); assumption.
    + apply (keeps_trans _ _ _ t5 (L ++ a' :: h' :: R)); [exact K5|apply K].
    + assert (Ha5 : alloc_at (heap_start t5) (L ++ a' :: h' :: R) x asize).
      { exists a'. split; [|auto]. rewrite Hs5. apply layout_mid. }
      destruct (K (x - 1) x asize ltac:(lia) Ha5) as [Ha' _].
      destruct SH as [E' _]. rewrite E', Hs5 in Ha'. exact Ha'.
Qed.

Lemma place_eq : forall fuel s x asize s4 s5 temp,
  s4 = write_prev_alloc
         (write_pack s x (get_size s x) true (get_prev_alloc s x)
                     (get_prev_mini s x))
         (find_next
            (write_pack s x (get_size s x) true (get_prev_alloc s x)
                        (get_prev_mini s x)) x) true ->
  split_block s4 x asize = (s5, temp) ->
  place fuel s x asize =
  if negb (temp =? NULL) then
    match coalesce_block fuel s5 temp with
    | None => None
    | Some (s6, _) => Some s6
    end
  else Some s5.
Proof.
  intros fuel s x asize s4 s5 temp E4 E5. unfold place.
  rewrite <- E4. rewrite E5. reflexivity.
Qed.

Lemma place_ok : forall fuel s L h R epa epm fl ml asize,
  world s (L ++ h :: R) epa epm fl ml -> b_st h = SHole ->
  flags_ok true false L (b_pa h) (b_pm h) ->
  flags_ok false (b_size h =? 16) R epa epm -> first_alloc R = true ->
  no_holes L -> no_holes R -> no_adj_free L -> no_adj_free R ->
  size_ok asize -> asize <= b_size h ->
  let x := end_addr (heap_start s) L in
  place fuel s x asize <> None \/ enough fuel s ->
  exists s' bl' sz', place fuel s x asize = Some s' /\ tidy s' bl' /\
    same_heap s s' /\ keeps x s (L ++ h :: R) s' bl' /\
    alloc_at (heap_start s) bl' x sz' /\ asize <= sz'.
Proof.
  intros fuel s L h R epa epm fl ml asize W Hh Fl Fr Hfa Hl Hr Al Ar
    Hasz Hle x Hrun.
  assert (Hex : exists s4, s4 = write_prev_alloc
               (write_pack s x (get_size s x) true (get_prev_alloc s x)
                  (get_prev_mini s x))
               (find_next
                  (write_pack s x (get_size s x) true (get_prev_alloc s x)
                     (get_prev_mini s x)) x) true) by eauto.
  destruct Hex as [s4 Es4].
  destruct (claim_ok s L h R epa epm fl ml x s4 W Hh Fr Hfa eq_refl Es4)
    as (epa4 & epm4 & W4 & Fr4 & SH4 & K4).
  assert (Hs4 : heap_start s4 = heap_start s) by apply SH4.
  assert (Hx : end_addr (heap_start s4) L = x) by (rewrite Hs4; reflexivity).
  destruct (split_block s4 x asize) as [s5 temp] eqn:Esp.
  rewrite (place_eq fuel s x asize s4 s5 temp Es4 Esp) in *.
  clear Es4. rewrite <- Hx in Esp.
  destruct (split_rest_ok fuel s4 L _ _ epa4 epm4 fl ml asize W4 eq_refl
              Fl Fr4 Hl (no_holes_retag _ _ _ Hr) Al
              (no_adj_free_retag _ _ _ Ar) Hasz Hle s5 temp Esp)
    as (s' & bl' & sz' & E & T & SH & K & Aa & Hsz).
  - destruct Hrun as [Hrun|Hrun]; [left; exact Hrun|right].
    unfold enough in *. destruct SH4 as (_ & _ & _ & M4).
    rewrite M4. exact Hrun.
  - rewrite Hx in K. rewrite Hx, Hs4 in Aa.
    exists s', bl', sz'. split; [exact E|]. split; [exact T|].
    split; [apply (same_heap_trans _ s4); assumption|].
    split; [|split; assumption].
    eapply keeps_trans; [apply K4|exact K].
Qed.

(** * malloc *)

(** [malloc_body] as the sequence of its steps. *)
Lemma malloc_body_steps : forall fuel s size,
  size <> 0 ->
  malloc_body fuel s size =
  match find_fit fuel s (round_up (wrap64 (size + wsize)) dsize) with
  | None => None
  | Some found =>
      match (if found =? NULL
             then extend_heap fuel s
                    (max (round_up (wrap64 (size + wsize)) dsize) chunksize)
             else Some (s, found)) with
      | None => None
      | Some (s1, block) =>
          if block =? NULL then Some (s1, NULL)
          else
            match remove_free fuel s1 block with
            | None => None
            | Some s2 =>
                match place fuel s2 block
                        (round_up (wrap64 (size + wsize)) dsize) with
                | None => None
                | Some s6 => Some (s6, header_to_payload block)
                end
            end
      end
  end.
Proof.
  intros fuel s size Hne. unfold malloc_body, place.
  apply Z.eqb_neq in Hne. rewrite Hne.
  destruct (find_fit fuel s (round_up (wrap64 (size + wsize)) dsize))
    as [found|]; [|reflexivity].
  destruct (if found =? NULL then _ else _) as [[s1 block]|]; [|reflexivity].
  destruct (block =? NULL); [reflexivity|].
  destruct (remove_free fuel s1 block) as [s2|]; [|reflexivity].
  destruct (split_block _ block _) as [s5 temp].
  destruct (negb (temp =? NULL)); [|reflexivity].
  destruct (coalesce_block fuel s5 temp) as [[s6 r]|]; reflexivity.
Qed.

Lemma asize_ok : forall size,
  0 < size -> fits size = true ->
  let asize := round_up (wrap64 (size + wsize)) dsize in
  size_ok asize /\ size + 8 <= asize /\ asize + 15 < 2 ^ 64.
Proof.
  intros size H1 H2 asize. unfold fits in H2. apply Z.ltb_lt in H2.
  unfold asize, wsize. rewrite wrap64_small by lia.
  destruct (round_up_ok (size + 8) ltac:(lia) ltac:(lia)) as [R1 R2].
  unfold size_ok. lia.
Qed.

Lemma max_chunk : forall asize,
  asize <= max asize chunksize /\
  (max asize chunksize = asize \/ max asize chunksize = 4096).
Proof.
  intros asize. unfold max. change chunksize with 4096.
  destruct (Z.ltb_spec 4096 asize); lia.
Qed.

Lemma flags_ok_split : forall L b R epa epm,
  flags_ok true false (L ++ b :: R) epa epm ->
  flags_ok true false L (b_pa b) (b_pm b) /\
  flags_ok (is_alloc (b_st b)) (b_size b =? 16) R epa epm.
Proof.
  intros L b R epa epm H. apply flags_ok_app in H as (ma & mm & H1 & H2).
  simpl in H2. destruct H2 as (E1 & E2 & H2). rewrite E1, E2. auto.
Qed.

Lemma no_adj_free_split : forall L b R,
  no_adj_free (L ++ b :: R) ->
  no_adj_free L /\ no_adj_free R /\
  (is_alloc (b_st b) = false -> first_alloc R = true).
Proof.
  intros L b R H. apply no_adj_free_app in H as (H1 & H2 & _).
  change (b :: R) with ([b] ++ R) in H2.
  apply no_adj_free_app in H2 as (_ & H3 & H4).
  split; [exact H1|]. split; [exact H3|]. intros Hb.
  destruct H4 as [H4|H4]; [|exact H4]. simpl in H4. congruence.
Qed.

(** A block of a tidy heap and the stretches around it. *)
Lemma tidy_split : forall s bl epa epm fl ml x b,
  world s bl epa epm fl ml -> flags_ok true false bl epa epm ->
  no_holes bl -> no_adj_free bl ->
  In (x, b) (layout (heap_start s) bl) ->
  exists L R, bl = L ++ b :: R /\ x = end_addr (heap_start s) L /\
    flags_ok true false L (b_pa b) (b_pm b) /\
    flags_ok (is_alloc (b_st b)) (b_size b =? 16) R epa epm /\
    (is_alloc (b_st b) = false -> first_alloc R = true) /\
    no_holes L /\ no_holes R /\ no_adj_free L /\ no_adj_free R.
Proof.
  intros s bl epa epm fl ml x b W Fl Hh Ha Hin.
  destruct (layout_split _ _ _ _ Hin) as (L & R & E & Hx).
  subst bl. exists L, R.
  destruct (flags_ok_split _ _ _ _ _ Fl) as [F1 F2].
  destruct (no_adj_free_split _ _ _ Ha) as (A1 & A2 & A3).
  apply no_holes_app in Hh as [H1 H2].
  apply no_holes_cons in H2 as [_ H2].
  repeat split; auto.
Qed.

Lemma keeps_any : forall x s bl s' bl',
  keeps x s bl s' bl' ->
  (forall sz, ~ alloc_at (heap_start s) bl x sz) ->
  forall x0, keeps x0 s bl s' bl'.
Proof.
  intros x s bl s' bl' K Hn x0 y sz _ Ha.
  destruct (Z.eq_dec y x) as [E|E].
  - subst y. exfalso. exact (Hn sz Ha).
  - apply K; assumption.
Qed.

Lemma hole_not_alloc : forall s L h R epa epm fl ml sz,
  world s (L ++ h :: R) epa epm fl ml -> b_st h <> SAlloc ->
  ~ alloc_at (heap_start s) (L ++ h :: R) (end_addr (heap_start s) L) sz.
Proof.
  intros s L h R epa epm fl ml sz W Hh (b & Hin & Hst & _).
  pose proof (layout_mid L h R (heap_start s)) as Hin'.
  assert (E : b = h).
  { apply (layout_same_addr (L ++ h :: R) (heap_start s)
             (end_addr (heap_start s) L)); auto. apply W. }
  subst b. contradiction.
Qed.

(** A listed free block that is large enough is taken off its list and
    becomes the allocation. *)
Lemma take_ok : forall fuel s bl asize block rsz,
  tidy s bl -> free_at (heap_start s) bl block rsz ->
  size_ok asize -> asize <= rsz ->
  match remove_free fuel s block with
  | None => None
  | Some s2 => place fuel s2 block asize
  end <> None \/ enough fuel s ->
  exists s2 s' bl' sz',
    remove_free fuel s block = Some s2 /\
    place fuel s2 block asize = Some s' /\
    tidy s' bl' /\ same_heap s s' /\ (forall x0, keeps x0 s bl s' bl') /\
    alloc_at (heap_start s) bl' block sz' /\ asize <= sz'.
Proof.
  intros fuel s bl asize block rsz ((epa & epm & fl & ml & W & Fl) & Hh & Ha)
    (f & Hin & Hst & Hsz) Hasz Hle Hrun.
  destruct (tidy_split s bl epa epm fl ml block f W Fl Hh Ha Hin)
    as (L & R & Ebl & Hx & F1 & F2 & F3 & H1 & H2 & A1 & A2).
  subst bl. rewrite Hst in F2, F3. simpl in F2, F3.
  assert (Hrm : exists s2, remove_free fuel s block = Some s2).
  { destruct (remove_free fuel s block) as [s2|] eqn:E; [eauto|].
    destruct Hrun as [Hrun|Hrun]; [congruence|].
    rewrite <- E.
    apply (remove_free_total fuel s L f R epa epm fl ml block W Hst Hx).
    apply (mini_list_bound fuel _ _ _ _ _ _ W Hrun). }
  destruct Hrm as [s2 Hrm]. rewrite Hrm in Hrun.
  destruct (remove_free_ok fuel s L f R epa epm fl ml block s2 W Hst Hx Hrm)
    as (fl2 & ml2 & W2 & SH2 & _ & K2).
  set (h := mkBlock (b_size f) SHole (b_pa f) (b_pm f)) in *.
  assert (Hs2 : heap_start s2 = heap_start s) by apply SH2.
  assert (Hx2 : block = end_addr (heap_start s2) L)
    by (rewrite Hs2; exact Hx).
  destruct (place_ok fuel s2 L h R epa epm fl2 ml2 asize W2 eq_refl F1
              F2 (F3 eq_refl) H1 H2 A1 A2 Hasz ltac:(simpl; lia))
    as (s' & bl' & sz' & E & T & SH & K & Aa & Hsz').
  - rewrite <- Hx2. destruct Hrun as [Hrun|Hrun]; [left; exact Hrun|right].
    unfold enough in *. destruct SH2 as (_ & _ & _ & M). rewrite M.
    exact Hrun.
  - rewrite <- Hx2 in E, K, Aa. rewrite Hs2 in Aa.
    exists s2, s', bl', sz'. split; [exact Hrm|]. split; [exact E|].
    split; [exact T|]. split; [apply (same_heap_trans _ s2); assumption|].
    split; [|split; assumption].
    intros x0. apply (keeps_trans _ _ _ s2 (L ++ h :: R)); [apply K2|].
    apply (keeps_any block); [exact K|].
    intros sz. rewrite Hx2.
    apply (hole_not_alloc s2 L h R epa epm fl2 ml2 sz W2). discriminate.
Qed.

Lemma free_not_alloc : forall s bl epa epm fl ml x sz sz0,
  world s bl epa epm fl ml -> free_at (heap_start s) bl x sz ->
  ~ alloc_at (heap_start s) bl x sz0.
Proof.
  intros s bl epa epm fl ml x sz sz0 W (b & Hb & Hst & _) (c & Hc & Hst' & _).
  assert (E : b = c)
    by (apply (layout_same_addr bl (heap_start s) x); auto; apply W).
  subst c. congruence.
Qed.

(** The end of [malloc_body], from the block that was found or made. *)
Lemma malloc_tail_ok : forall fuel s bl asize block rsz,
  tidy s bl -> free_at (heap_start s) bl block rsz ->
  size_ok asize -> asize <= rsz ->
  let tail :=
    if block =? NULL then Some (s, NULL)
    else
      match remove_free fuel s block with
      | None => None
      | Some s2 =>
          match place fuel s2 block asize with
          | None => None
          | Some s6 => Some (s6, header_to_payload block)
          end
      end in
  tail <> None \/ enough fuel s ->
  exists s' bl' sz',
    tail = Some (s', block + 8) /\
    tidy s' bl' /\ same_heap s s' /\ (forall x0, keeps x0 s bl s' bl') /\
    (forall sz0, ~ alloc_at (heap_start s) bl block sz0) /\
    alloc_at (heap_start s) bl' block sz' /\ asize <= sz'.
Proof.
  intros fuel s bl asize block rsz T Hf Hasz Hle tail Hrun.
  pose proof T as ((epa & epm & fl & ml & W & _) & _).
  destruct (world_free_at _ _ _ _ _ _ _ _ W Hf) as (Hx8 & _).
  assert (Hnn : (block =? NULL) = false)
    by (apply Z.eqb_neq; unfold NULL; lia).
  unfold tail in *. rewrite Hnn in *.
  destruct (take_ok fuel s bl asize block rsz T Hf Hasz Hle)
    as (s2 & s' & bl' & sz' & E1 & E2 & T' & SH & K & Aa & Hsz).
  - destruct Hrun as [Hrun|Hrun]; [left|right; exact Hrun].
    destruct (remove_free fuel s block) as [s2|];
      [|exfalso; apply Hrun; reflexivity].
    destruct (place fuel s2 block asize);
      [discriminate|exfalso; apply Hrun; reflexivity].
  - rewrite E1, E2. exists s', bl', sz'.
    split; [reflexivity|]. split; [exact T'|]. split; [exact SH|].
    split; [exact K|]. split; [|split; assumption].
    intros sz0. apply (free_not_alloc s bl epa epm fl ml block rsz sz0 W Hf).
Qed.

Lemma propagate : forall (A B : Type) (f : option A) (g : option A -> option B)
    (P : Prop),
  g f <> None \/ P -> g None = None -> f <> None \/ P.
Proof.
  intros A B f g P [H|H] Hg; [left|right; exact H].
  intros E. rewrite E in H. contradiction.
Qed.

Lemma malloc_body_ok : forall fuel s bl size,
  tidy s bl -> 0 <= size -> fits size = true ->
  malloc_body fuel s size <> None \/ enough fuel s ->
  exists s' p bl', malloc_body fuel s size = Some (s', p) /\
    tidy s' bl' /\ grown s s' /\ (forall x0, keeps x0 s bl s' bl') /\
    ((p = NULL /\ s' = s /\ bl' = bl) \/ allocated s bl bl' size p).
Proof.
  intros fuel s bl size T H0 Hfit Hrun.
  destruct (Z.eq_dec size 0) as [Ez|Hne].
  { subst size. exists s, NULL, bl. split; [reflexivity|].
    split; [exact T|]. split; [apply grown_refl|].
    split; [intros x0; apply keeps_refl|]. left. auto. }
  rewrite (malloc_body_steps fuel s size Hne) in *.
  destruct (asize_ok size ltac:(lia) Hfit) as (Hasz & Hs8 & Hmax).
  set (asize := round_up (wrap64 (size + wsize)) dsize) in *.
  pose proof T as ((epa & epm & fl & ml & W & _) & _).
  destruct (find_fit_ok fuel s bl epa epm fl ml asize W)
    as (found & Ef & Hfound).
  { destruct Hrun as [Hrun|Hrun]; [left|right; exact Hrun].
    intros E. rewrite E in Hrun. apply Hrun. reflexivity. }
  rewrite Ef in *.
  destruct (Z.eqb_spec found NULL) as [En|En].
  - destruct (max_chunk asize) as [M1 M2].
    destruct (extend_heap_ok fuel s bl (max asize chunksize) T)
      as (s1 & r & bl1 & Ee & Hres).
    + destruct Hasz. lia.
    + destruct M2 as [M2|M2]; rewrite M2; lia.
    + destruct Hrun as [Hrun|Hrun]; [left|right; exact Hrun].
      intros E. rewrite E in Hrun. apply Hrun. reflexivity.
    + rewrite Ee in *.
      destruct Hres as [(R1 & R2 & R3 & _)|(T1 & G1 & K1 & rsz & Hf & Hr & _)].
      * subst r s1 bl1. change (NULL =? NULL) with true. cbv iota.
        exists s, NULL, bl. split; [reflexivity|].
        split; [exact T|]. split; [apply grown_refl|].
        split; [intros x0; apply keeps_refl|]. left. auto.
      * assert (Hs1 : heap_start s1 = heap_start s) by apply G1.
        rewrite <- Hs1 in Hf.
        destruct (malloc_tail_ok fuel s1 bl1 asize r rsz T1 Hf Hasz
                    ltac:(lia))
          as (s' & bl' & sz' & E & T' & SH & K & Hna & Aa & Hsz).
        -- destruct Hrun as [Hrun|Hrun]; [left; exact Hrun|right].
           unfold enough in *. destruct G1 as (_ & _ & M & _).
           rewrite M. exact Hrun.
        -- cbv zeta in E. rewrite E. exists s', (r + 8), bl'.
           split; [reflexivity|]. split; [exact T'|].
           split; [apply (grown_trans _ s1);
                     [exact G1|apply same_heap_grown; exact SH]|].
           split; [intros x0; apply (keeps_trans _ _ _ s1 bl1); auto|].
           right. unfold allocated. replace (r + 8 - 8) with r by lia.
           split; [exact Hne|]. split.
           ++ intros sz0 Ha0.
              destruct (K1 (r - 1) r sz0 ltac:(lia) Ha0) as [Ha1 _].
              exact (Hna sz0 Ha1).
           ++ exists sz'. rewrite <- Hs1. split; [exact Aa|lia].
  - destruct Hfound as [E|(rsz & Hf & Hr)]; [contradiction|].
    destruct (malloc_tail_ok fuel s bl asize found rsz T Hf Hasz Hr)
      as (s' & bl' & sz' & E & T' & SH & K & Hna & Aa & Hsz).
    + exact Hrun.
    + cbv zeta in E. rewrite E. exists s', (found + 8), bl'.
      split; [reflexivity|]. split; [exact T'|].
      split; [apply same_heap_grown; exact SH|].
      split; [exact K|].
      right. unfold allocated. replace (found + 8 - 8) with found by lia.
      split; [exact Hne|]. split; [exact Hna|].
      exists sz'. split; [exact Aa|lia].
Qed.

(** * The public interface *)

Lemma live_ok_keeps : forall s s' bl bl' live,
  live_ok (heap_start s) bl live ->
  (forall x0, keeps x0 s bl s' bl') -> heap_start s' = heap_start s ->
  live_ok (heap_start s') bl' live /\ payloads_kept s s' live.
Proof.
  intros s s' bl bl' live [Hn Hl] K Hs. split; [split; [exact Hn|]|].
  - intros p n Hin. destruct (Hl p n Hin) as (H0 & sz & Ha & Hsz).
    split; [exact H0|]. exists sz. split; [|exact Hsz].
    destruct (K (p - 9) (p - 8) sz ltac:(lia) Ha) as [Ha' _]. exact Ha'.
  - intros q n y Hin Hy. destruct (Hl q n Hin) as (H0 & sz & Ha & Hsz).
    destruct (K (q - 9) (q - 8) sz ltac:(lia) Ha) as [_ Hm].
    apply Hm. lia.
Qed.

Lemma heap_ok_start : forall s live bl,
  heap_ok s live bl -> heap_start s <> NULL.
Proof.
  intros s live bl [(epa & epm & fl & ml & [[Hb _ _ _ _ _] _] & _) _ _ _].
  destruct Hb as (B1 & B2 & B3 & _). unfold NULL. lia.
Qed.

Lemma tidy_alloc_bounds : forall s bl x sz,
  tidy s bl -> alloc_at (heap_start s) bl x sz ->
  x mod 16 = 8 /\ mem_start_brk s + 8 <= x /\ x + sz <= mem_brk s - 8 /\
  16 <= sz.
Proof.
  intros s bl x sz ((epa & epm & fl & ml & W & _) & _) (b & Hin & _ & Hsz).
  destruct (world_block _ _ _ _ _ _ _ _ W Hin)
    as (_ & _ & B2 & B3 & [B4 _] & _).
  pose proof W as [[Hb Hs _ _ _ _] _].
  destruct (layout_bounds _ _ _ _ Hs Hin) as (L1 & _).
  destruct Hb as (_ & _ & Hhs & _). subst sz. lia.
Qed.

(** The client's allocations after a successful or failed [malloc]. *)
Lemma live_ok_add : forall s s' bl bl' live size p,
  tidy s' bl' -> heap_start s' = heap_start s ->
  live_ok (heap_start s) bl live ->
  (forall x0, keeps x0 s bl s' bl') -> 0 <= size ->
  (p = NULL /\ s' = s /\ bl' = bl) \/ allocated s bl bl' size p ->
  live_ok (heap_start s') bl' (add_live p size live).
Proof.
  intros s s' bl bl' live size p T Hs Hl K H0 Hres.
  destruct (live_ok_keeps s s' bl bl' live Hl K Hs) as [[Hn Hl'] _].
  unfold add_live. destruct Hres as [(E1 & E2 & E3)|(Hne & Hna & sz & Ha & Hsz)].
  - subst p. change (NULL =? NULL) with true. cbv iota. split; assumption.
  - rewrite <- Hs in Ha.
    destruct (tidy_alloc_bounds s' bl' (p - 8) sz T Ha) as (_ & B & _).
    assert (Hnn : (p =? NULL) = false).
    { apply Z.eqb_neq. unfold NULL.
      destruct T as ((epa & epm & fl & ml & [[Hb _ _ _ _ _] _] & _) & _).
      destruct Hb as (B1 & _). lia. }
    rewrite Hnn. split.
    + simpl. constructor; [|exact Hn].
      intros Hin. apply in_map_iff in Hin as ([q n] & Eq & Hin).
      simpl in Eq. subst q.
      destruct Hl as [_ Hl]. destruct (Hl p n Hin) as (_ & sz0 & Ha0 & _).
      exact (Hna sz0 Ha0).
    + intros q n [E|Hin].
      * inversion E. subst q n. split; [exact H0|]. exists sz. auto.
      * apply Hl'. exact Hin.
Qed.

Lemma heap_inv_cases : forall s live,
  heap_inv s live ->
  (heap_start s = NULL /\ fresh s live) \/
  (heap_start s <> NULL /\ exists bl, heap_ok s live bl).
Proof.
  intros s live [F|[bl H]].
  - left. split; [apply F|exact F].
  - right. split; [exact (heap_ok_start _ _ _ H)|eauto].
Qed.

(** [malloc_body] on an initialised heap, in terms of what the client
    holds. *)
Lemma malloc_body_live : forall fuel s live bl size,
  heap_ok s live bl -> 0 <= size -> fits size = true ->
  malloc_body fuel s size <> None \/ enough fuel s ->
  exists s' p bl', malloc_body fuel s size = Some (s', p) /\
    heap_ok s' (add_live p size live) bl' /\ grown s s' /\
    payloads_kept s s' live /\
    ((p = NULL /\ s' = s /\ bl' = bl) \/ allocated s bl bl' size p).
Proof.
  intros fuel s live bl size H H0 Hfit Hrun.
  apply heap_ok_tidy in H as [T Hl].
  destruct (malloc_body_ok fuel s bl size T H0 Hfit Hrun)
    as (s' & p & bl' & E & T' & G & K & Hres).
  exists s', p, bl'. split; [exact E|].
  assert (Hs : heap_start s' = heap_start s) by apply G.
  split; [|split; [exact G|split; [|exact Hres]]].
  - apply heap_ok_tidy. split; [exact T'|].
    apply (live_ok_add s s' bl bl' live size p); auto.
  - apply (live_ok_keeps s s' bl bl' live Hl K Hs).
Qed.

(** Where the pointer that [malloc] returns lies. *)
Lemma allocated_pointer : forall s s' bl bl' size p,
  tidy s' bl' -> heap_start s' = heap_start s ->
  allocated s bl bl' size p ->
  p <> NULL /\ p mod 16 = 0 /\ mem_heap_lo s' <= p /\
  p + size <= mem_heap_hi s'.
Proof.
  intros s s' bl bl' size p T Hs (Hne & _ & sz & Ha & Hsz).
  rewrite <- Hs in Ha.
  destruct (tidy_alloc_bounds s' bl' (p - 8) sz T Ha) as (B1 & B2 & B3 & B4).
  destruct T as ((epa & epm & fl & ml & [[Hb _ _ _ _ _] _] & _) & _).
  destruct Hb as (C1 & _).
  unfold mem_heap_lo, mem_heap_hi, NULL. repeat split; lia.
Qed.

Lemma same_region_grown : forall s s', grown s s' -> same_region s s'.
Proof. intros s s' (_ & G2 & G3 & _). split; assumption. Qed.

Lemma enough_region : forall fuel s s',
  same_region s s' -> enough fuel s -> enough fuel s'.
Proof. intros fuel s s' [_ E] H. unfold enough in *. rewrite E. exact H. Qed.

Lemma allocated_fresh : forall s bl bl' size p live,
  live_ok (heap_start s) bl live -> allocated s bl bl' size p ->
  forall n, ~ In (p, n) live.
Proof.
  intros s bl bl' size p live [_ Hl] (_ & Hna & _) n Hin.
  destruct (Hl p n Hin) as (_ & sz & Ha & _). exact (Hna sz Ha).
Qed.

Lemma malloc_body_res : forall fuel s live bl size,
  heap_ok s live bl -> 0 <= size -> fits size = true ->
  malloc_body fuel s size <> None \/ enough fuel s ->
  exists s' p, malloc_body fuel s size = Some (s', p) /\
    malloc_res s live size s' p.
Proof.
  intros fuel s live bl size H H0 Hfit Hrun.
  destruct (malloc_body_live fuel s live bl size H H0 Hfit Hrun)
    as (s' & p & bl' & E & H' & G & Pk & Hres).
  exists s', p. split; [exact E|].
  split; [right; eauto|]. split; [apply same_region_grown; exact G|].
  split; [exact Pk|]. split.
  - intros Hp. destruct Hres as [(E1 & _)|Ha]; [contradiction|].
    apply heap_ok_tidy in H' as [T' _]. apply heap_ok_tidy in H as [_ Hl].
    destruct (allocated_pointer s s' bl bl' size p T' ltac:(apply G) Ha)
      as (_ & A2 & A3 & A4).
    split; [apply Ha|]. split; [exact A2|]. split; [exact A3|].
    split; [exact A4|]. exact (allocated_fresh s bl bl' size p live Hl Ha).
  - intros Hp _. destruct Hres as [(_ & E2 & _)|Ha]; [exact E2|].
    apply heap_ok_tidy in H' as [T' _].
    destruct (allocated_pointer s s' bl bl' size p T' ltac:(apply G) Ha)
      as (A1 & _). contradiction.
Qed.

Lemma malloc_ok : forall fuel s live size,
  heap_inv s live -> 0 <= size -> fits size = true ->
  malloc fuel s size <> None \/ enough fuel s ->
  exists s' p, malloc fuel s size = Some (s', p) /\
    malloc_res s live size s' p.
Proof.
  intros fuel s live size H H0 Hfit Hrun. unfold malloc in *.
  destruct (heap_inv_cases s live H) as [[Hs F]|[Hs [bl Hok]]].
  - rewrite Hs in *. change (NULL =? NULL) with true in *. cbv iota in *.
    assert (El : live = []) by apply F. subst live.
    destruct (mm_init_ok fuel s F) as (s1 & ok & Ei & Hi).
    { destruct Hrun as [Hrun|Hrun]; [left|right; exact Hrun].
      intros E. rewrite E in Hrun. apply Hrun. reflexivity. }
    rewrite Ei in *.
    destruct Hi as [(E1 & E2)|(bl & T & R1 & R2 & _)].
    + subst ok s1. simpl. exists s, NULL. split; [reflexivity|].
      split; [left; exact F|]. split; [split; reflexivity|].
      split; [intros q n y []|]. split; [intros C; contradiction|].
      intros _ C. contradiction.
    + assert (Hok : heap_ok s1 [] bl).
      { apply heap_ok_tidy. split; [exact T|]. split; [constructor|].
        intros p n []. }
      destruct ok; simpl negb in *; cbv iota in *.
      * destruct (malloc_body_res fuel s1 [] bl size Hok H0 Hfit)
          as (s' & p & E & Hr & Hreg & Pk & Hp & _).
        { destruct Hrun as [Hrun|Hrun]; [left; exact Hrun|right].
          apply (enough_region fuel s s1); [split; assumption|exact Hrun]. }
        exists s', p. split; [exact E|]. split; [exact Hr|].
        split; [destruct Hreg; split; congruence|].
        split; [intros q n y []|]. split; [exact Hp|].
        intros _ C. contradiction.
      * exists s1, NULL. split; [reflexivity|].
        split; [right; exists bl; exact Hok|].
        split; [split; assumption|].
        split; [intros q n y []|]. split; [intros C; contradiction|].
        intros _ C. contradiction.
  - apply Z.eqb_neq in Hs. rewrite Hs in *.
    exact (malloc_body_res fuel s live bl size Hok H0 Hfit Hrun).
Qed.

(** ** free *)

(** The header (and footer) of an allocated block is rewritten as free;
    the block is on no list yet. *)
Lemma mark_free_ok : forall s L a R epa epm fl ml,
  world s (L ++ a :: R) epa epm fl ml -> b_st a = SAlloc ->
  let x := end_addr (heap_start s) L in
  let s' := write_pack s x (b_size a) false (b_pa a) (b_pm a) in
  let h := mkBlock (b_size a) SHole (b_pa a) (b_pm a) in
  world s' (L ++ h :: R) epa epm fl ml /\ same_heap s s' /\
  keeps x s (L ++ a :: R) s' (L ++ h :: R).
Proof.
  intros s L a R epa epm fl ml W Ha x s' h.
  pose proof (layout_mid L a R (heap_start s)) as Hin.
  destruct (world_block _ _ _ _ _ _ _ _ W Hin) as (_ & _ & _ & _ & Hsz & Hlt).
  destruct (write_pack_block s x (b_size a) SHole (b_pa a) (b_pm a) Hsz Hlt)
    as (A1 & A2 & _).
  simpl is_alloc in A1, A2. fold s' in A1, A2. fold h in A1.
  assert (SG : same_globals s s') by apply write_pack_same_globals.
  split; [|split].
  - apply (world_surgery s s' L [a] [h] R epa epm fl ml x W eq_refl).
    + apply no_free_one. rewrite Ha. discriminate.
    + apply no_free_one. discriminate.
    + reflexivity.
    + apply sizes_ok_cons. split; [exact Hsz|constructor].
    + exact SG.
    + exact A2.
    + apply mem_ok_cons. split; [exact A1|intros y b []].
  - apply same_globals_heap. exact SG.
  - apply (surgery_keeps x s s' L [a] [h] R x).
    + apply W.
    + reflexivity.
    + reflexivity.
    + apply SG.
    + exact A2.
    + intros y sz Hy Hal. apply alloc_at_cons in Hal as [(E & _)|Hal].
      * contradiction.
      * exfalso. exact (alloc_at_nil _ _ _ Hal).
Qed.

Lemma free_steps : forall fuel s bp,
  bp <> NULL ->
  free fuel s bp =
  match coalesce_block fuel
          (write_pack s (bp - 8) (get_size s (bp - 8)) false
             (get_prev_alloc s (bp - 8)) (get_prev_mini s (bp - 8)))
          (bp - 8) with
  | None => None
  | Some (s3, _) => Some s3
  end.
Proof.
  intros fuel s bp Hne. unfold free, payload_to_header.
  apply Z.eqb_neq in Hne. rewrite Hne.
  rewrite write_prev_alloc_false. reflexivity.
Qed.

(** [free] of an allocated block of a tidy heap. *)
Lemma free_block_ok : forall fuel s bl x sz,
  tidy s bl -> alloc_at (heap_start s) bl x sz ->
  free fuel s (x + 8) <> None \/ enough fuel s ->
  exists s' bl', free fuel s (x + 8) = Some s' /\ tidy s' bl' /\
    same_heap s s' /\ keeps x s bl s' bl' /\
    exists r rsz, free_at (heap_start s) bl' r rsz /\
                  r <= x /\ x + sz <= r + rsz.
Proof.
  intros fuel s bl x sz ((epa & epm & fl & ml & W & Fl) & Hh & Ha)
    (a & Hin & Hst & Hsz) Hrun.
  destruct (tidy_split s bl epa epm fl ml x a W Fl Hh Ha Hin)
    as (L & R & Ebl & Hx & F1 & F2 & _ & H1 & H2 & A1 & A2).
  subst bl.
  destruct (world_block _ _ _ _ _ _ _ _ W Hin) as (_ & Hx8 & _).
  rewrite (free_steps fuel s (x + 8)) in * by (unfold NULL; lia).
  replace (x + 8 - 8) with x in * by lia.
  destruct (world_fields _ _ _ _ _ _ _ _ W Hin) as (G1 & _ & G3 & G4).
  rewrite G1, G3, G4 in *.
  destruct (mark_free_ok s L a R epa epm fl ml W Hst) as (W1 & SH1 & K1).
  rewrite <- Hx in W1, SH1, K1.
  assert (Hex : exists s1, s1 = write_pack s x (b_size a) false (b_pa a)
                                  (b_pm a)) by eauto.
  destruct Hex as [s1 Es1]. rewrite <- Es1 in *. clear Es1.
  set (h := mkBlock (b_size a) SHole (b_pa a) (b_pm a)) in *.
  assert (Hs1 : heap_start s1 = heap_start s) by apply SH1.
  assert (P : coalesce_pre s1 L h R epa epm fl ml).
  { constructor; auto. eauto. }
  assert (Hx1 : end_addr (heap_start s1) L = x) by (rewrite Hs1; auto).
  destruct (coalesce_run fuel s1 L h R epa epm fl ml P)
    as (s' & r & bl' & C1 & C2).
  { rewrite Hx1. destruct Hrun as [Hrun|Hrun].
    - left. intros E. rewrite E in Hrun. apply Hrun. reflexivity.
    - right. apply (mini_list_bound fuel _ _ _ _ _ _ W1).
      apply (enough_region fuel s s1); [|exact Hrun].
      destruct SH1 as (_ & _ & E1 & E2). split; assumption. }
  rewrite Hx1 in C1, C2. rewrite C1.
  exists s', bl'. split; [reflexivity|].
  split; [exact (tidy_coalesced _ _ _ _ _ _ _ C2)|].
  destruct C2 as (_ & _ & _ & SH & K & rsz & Hf & Hr1 & Hr2).
  split; [apply (same_heap_trans _ s1); assumption|].
  split; [apply (keeps_trans _ _ _ s1 (L ++ h :: R)); [exact K1|apply K]|].
  exists r, rsz. rewrite Hs1 in Hf. simpl in Hr2. subst sz. auto.
Qed.

Lemma holds_in : forall live p,
  holds live p = true -> exists n, In (p, n) live.
Proof.
  intros live p H. unfold holds in H. apply existsb_exists in H.
  destruct H as ([q n] & Hin & E). simpl in E. apply Z.eqb_eq in E.
  subst q. eauto.
Qed.

Lemma drop_live_in : forall p live q m,
  In (q, m) (drop_live p live) -> In (q, m) live.
Proof.
  intros p live q m. induction live as [|[q0 n0] t IH]; simpl; [auto|].
  destruct (q0 =? p); [auto|]. intros [E|H]; auto.
Qed.

Lemma drop_live_other : forall p live q m,
  NoDup (map fst live) -> In (q, m) (drop_live p live) -> q <> p.
Proof.
  intros p live q m. induction live as [|[q0 n0] t IH]; simpl; [tauto|].
  intros Hn. inversion Hn as [|? ? Hnot Hn' E]. subst.
  destruct (Z.eqb_spec q0 p) as [E|E].
  - subst q0. intros Hin E. subst q. apply Hnot.
    apply in_map_iff. exists (p, m). auto.
  - intros [E'|Hin]; [inversion E'; subst; exact E|auto].
Qed.

Lemma drop_live_nodup : forall p live,
  NoDup (map fst live) -> NoDup (map fst (drop_live p live)).
Proof.
  intros p live. induction live as [|[q0 n0] t IH]; simpl; [auto|].
  intros Hn. inversion Hn as [|? ? Hnot Hn' E]. subst.
  destruct (q0 =? p); [exact Hn'|]. simpl. constructor; [|auto].
  intros Hin. apply Hnot. apply in_map_iff in Hin as ([q m] & E & Hin).
  simpl in E. subst q. apply in_map_iff. exists (q0, m).
  split; [reflexivity|]. exact (drop_live_in p t q0 m Hin).
Qed.

Lemma drop_live_absent : forall p live,
  (forall n, ~ In (p, n) live) -> drop_live p live = live.
Proof.
  intros p live. induction live as [|[q0 n0] t IH]; simpl; [auto|].
  intros H. destruct (Z.eqb_spec q0 p) as [E|E].
  - subst q0. exfalso. apply (H n0). left. reflexivity.
  - f_equal. apply IH. intros n Hin. apply (H n). right. exact Hin.
Qed.

Lemma live_not_null : forall s live bl n,
  heap_ok s live bl -> ~ In (NULL, n) live.
Proof.
  intros s live bl n H Hin. apply heap_ok_tidy in H as [T [_ Hl]].
  destruct (Hl NULL n Hin) as (_ & sz & Ha & _).
  destruct (tidy_alloc_bounds s bl (NULL - 8) sz T Ha) as (_ & B & _).
  destruct T as ((epa & epm & fl & ml & [[Hb _ _ _ _ _] _] & _) & _).
  destruct Hb as (B1 & _). unfold NULL in *. lia.
Qed.

Lemma heap_inv_not_null : forall s live n,
  heap_inv s live -> ~ In (NULL, n) live.
Proof.
  intros s live n [F|[bl H]].
  - destruct F as (_ & _ & _ & E & _). subst live. intros [].
  - exact (live_not_null s live bl n H).
Qed.

Lemma live_ok_drop : forall s s' bl bl' live p,
  live_ok (heap_start s) bl live ->
  keeps (p - 8) s bl s' bl' -> heap_start s' = heap_start s ->
  live_ok (heap_start s') bl' (drop_live p live) /\
  payloads_kept s s' (drop_live p live).
Proof.
  intros s s' bl bl' live p [Hn Hl] K Hs.
  split; [split; [apply drop_live_nodup; exact Hn|]|].
  - intros q m Hin.
    pose proof (drop_live_other p live q m Hn Hin) as Hne.
    apply drop_live_in in Hin.
    destruct (Hl q m Hin) as (H0 & sz & Ha & Hsz).
    split; [exact H0|]. exists sz. split; [|exact Hsz].
    destruct (K (q - 8) sz ltac:(lia) Ha) as [Ha' _]. exact Ha'.
  - intros q m y Hin Hy.
    pose proof (drop_live_other p live q m Hn Hin) as Hne.
    apply drop_live_in in Hin.
    destruct (Hl q m Hin) as (H0 & sz & Ha & Hsz).
    destruct (K (q - 8) sz ltac:(lia) Ha) as [_ Hm]. apply Hm. lia.
Qed.

Lemma free_ok : forall fuel s live bp,
  heap_inv s live -> (bp =? NULL) || holds live bp = true ->
  free fuel s bp <> None \/ enough fuel s ->
  exists s', free fuel s bp = Some s' /\ free_res s live bp s'.
Proof.
  intros fuel s live bp H Hwf Hrun. unfold free_res.
  destruct (Z.eqb_spec bp NULL) as [En|En].
  - subst bp. exists s. split; [reflexivity|].
    rewrite (drop_live_absent NULL live)
      by (intros n; apply (heap_inv_not_null s live n H)).
    split; [exact H|]. split; [split; reflexivity|].
    split; [intros q n y _ _; reflexivity|auto].
  - simpl in Hwf. destruct (holds_in live bp Hwf) as [n Hin].
    destruct H as [F|[bl H]].
    { destruct F as (_ & _ & _ & E & _). subst live. destruct Hin. }
    apply heap_ok_tidy in H as [T Hl].
    destruct (proj2 Hl bp n Hin) as (_ & sz & Ha & _).
    pose proof (free_block_ok fuel s bl (bp - 8) sz T Ha) as FB.
    replace (bp - 8 + 8) with bp in FB by lia.
    destruct (FB Hrun) as (s' & bl' & E & T' & SH & K & _).
    exists s'. split; [exact E|].
    assert (Hs : heap_start s' = heap_start s) by apply SH.
    destruct (live_ok_drop s s' bl bl' live bp Hl K Hs) as [Hl' Pk].
    split; [right; exists bl'; apply heap_ok_tidy; auto|].
    split; [destruct SH as (_ & _ & E1 & E2); split; assumption|].
    split; [exact Pk|]. intros C. contradiction.
Qed.

(** ** Writes by the client *)

(** Bytes written inside the payload of an allocated block leave the heap
    tidy and every other allocation as it was. *)
Lemma payload_write_ok : forall s bl x sz m',
  tidy s bl -> alloc_at (heap_start s) bl x sz ->
  outside (mem s) m' (x + 8) (x + sz) ->
  tidy (set_mem s m') bl /\ keeps x s bl (set_mem s m') bl.
Proof.
  intros s bl x sz m' ((epa & epm & fl & ml & W & Fl) & Hh & Ha)
    (a & Hin & Hst & Hsz) Hout.
  destruct (layout_split _ _ _ _ Hin) as (L & R & Ebl & Hx).
  subst bl. symmetry in Hx.
  destruct (world_block _ _ _ _ _ _ _ _ W Hin) as (Hb & _ & _ & _ & Hso & _).
  assert (Ho : outside (mem s) m' x (end_addr x [a])).
  { simpl. eapply outside_widen; [exact Hout|lia|lia]. }
  assert (Hfoot : foot a = 0) by (unfold foot; rewrite Hst; reflexivity).
  assert (W' : world (set_mem s m') (L ++ [a] ++ R) epa epm fl ml).
  { apply (world_surgery s (set_mem s m') L [a] [a] R epa epm fl ml x W Hx).
    - apply no_free_one. rewrite Hst. discriminate.
    - apply no_free_one. rewrite Hst. discriminate.
    - reflexivity.
    - apply sizes_ok_cons. split; [exact Hso|constructor].
    - apply same_globals_set_mem.
    - exact Ho.
    - apply mem_ok_cons. split; [|intros y b []].
      apply (block_at_inner (mem s) m' (x + 8) (x + sz)); auto; lia. }
  split.
  - split; [|split; assumption]. exists epa, epm, fl, ml. split; assumption.
  - apply (surgery_keeps x s (set_mem s m') L [a] [a] R x).
    + apply W.
    + exact Hx.
    + reflexivity.
    + reflexivity.
    + exact Ho.
    + intros y sz0 Hy Hal. apply alloc_at_cons in Hal as [(E & _)|Hal].
      * contradiction.
      * exfalso. exact (alloc_at_nil _ _ _ Hal).
Qed.

Lemma outside_memcpy : forall m dst src n,
  outside m (memcpy m dst src n) dst (dst + n).
Proof.
  intros m dst src n y Hy. unfold memcpy.
  destruct (Z.leb_spec dst y); destruct (Z.ltb_spec y (dst + n)); simpl;
    try reflexivity; lia.
Qed.

Lemma outside_memset : forall m dst c n,
  outside m (memset m dst c n) dst (dst + n).
Proof.
  intros m dst c n y Hy. unfold memset.
  destruct (Z.leb_spec dst y); destruct (Z.ltb_spec y (dst + n)); simpl;
    try reflexivity; lia.
Qed.

Lemma outside_store8 : forall m a v,
  outside m (store8 m a v) a (a + 1).
Proof.
  intros m a v y Hy. unfold store8.
  destruct (Z.eqb_spec y a); [lia|reflexivity].
Qed.

(** A write into a region the client holds. *)
Lemma client_write_ok : forall s live p n m' lo hi,
  heap_inv s live -> In (p, n) live -> p <= lo -> hi <= p + n ->
  outside (mem s) m' lo hi ->
  heap_inv (set_mem s m') live /\
  forall q k y, In (q, k) live -> q <> p -> q <= y < q + k ->
                m' y = mem s y.
Proof.
  intros s live p n m' lo hi H Hin Hlo Hhi Hout.
  destruct H as [F|[bl H]].
  { destruct F as (_ & _ & _ & E & _). subst live. destruct Hin. }
  apply heap_ok_tidy in H as [T Hl].
  destruct (proj2 Hl p n Hin) as (_ & sz & Ha & Hsz).
  destruct (payload_write_ok s bl (p - 8) sz m' T Ha) as [T' K].
  { eapply outside_widen; [exact Hout|lia|lia]. }
  split.
  - right. exists bl. apply heap_ok_tidy. split; [exact T'|].
    destruct Hl as [Hn Hl]. split; [exact Hn|].
    intros q k Hq. exact (Hl q k Hq).
  - intros q k y Hq Hne Hy.
    destruct (proj2 Hl q k Hq) as (_ & szq & Haq & Hszq).
    destruct (K (q - 8) szq ltac:(lia) Haq) as [_ Hm].
    apply (Hm y). lia.
Qed.

(** ** realloc *)

Lemma malloc_initialised : forall fuel s size,
  heap_start s <> NULL -> malloc fuel s size = malloc_body fuel s size.
Proof.
  intros fuel s size H. unfold malloc. apply Z.eqb_neq in H. rewrite H.
  reflexivity.
Qed.

Lemma realloc_zero : forall fuel s ptr,
  realloc fuel s ptr 0 =
  match free fuel s ptr with
  | None => None
  | Some s1 => Some (s1, NULL)
  end.
Proof. reflexivity. Qed.

Lemma realloc_null : forall fuel s size,
  size <> 0 -> realloc fuel s NULL size = malloc fuel s size.
Proof.
  intros fuel s size H. unfold realloc. apply Z.eqb_neq in H. rewrite H.
  reflexivity.
Qed.

Lemma realloc_move_eq : forall fuel s ptr size,
  size <> 0 -> ptr <> NULL -> heap_start s <> NULL ->
  realloc fuel s ptr size =
  match malloc_body fuel s size with
  | None => None
  | Some (s1, newptr) =>
      if newptr =? NULL then Some (s1, NULL)
      else
        match free fuel
                (set_mem s1
                   (memcpy (mem s1) newptr ptr
                      (if size <? wrap64 (get_size s1 (ptr - 8) - 8)
                       then size
                       else wrap64 (get_size s1 (ptr - 8) - 8)))) ptr with
        | None => None
        | Some s3 => Some (s3, newptr)
        end
  end.
Proof.
  intros fuel s ptr size H1 H2 H3. unfold realloc.
  apply Z.eqb_neq in H1, H2. rewrite H1, H2.
  rewrite (malloc_initialised fuel s size H3). reflexivity.
Qed.

Lemma tidy_get_size : forall s bl x sz,
  tidy s bl -> alloc_at (heap_start s) bl x sz ->
  get_size s x = sz /\ 16 <= sz < 2 ^ 63.
Proof.
  intros s bl x sz ((epa & epm & fl & ml & W & _) & _) (b & Hin & _ & Hsz).
  destruct (world_fields _ _ _ _ _ _ _ _ W Hin) as (G & _).
  destruct (world_block _ _ _ _ _ _ _ _ W Hin) as (_ & _ & _ & _ & [B1 _] & B2).
  subst sz. auto.
Qed.

(** [realloc] of an allocated block to a new size that is not zero. *)
Lemma realloc_move_ok : forall fuel s bl ptr size S,
  tidy s bl -> alloc_at (heap_start s) bl (ptr - 8) S ->
  0 < size -> fits size = true ->
  realloc fuel s ptr size <> None \/ enough fuel s ->
  exists s' p bl', realloc fuel s ptr size = Some (s', p) /\
    tidy s' bl' /\ grown s s' /\
    ((p = NULL /\ s' = s /\ bl' = bl) \/ moved s bl ptr size S s' p bl').
Proof.
  intros fuel s bl ptr size S T Ha Hpos Hfit Hrun.
  destruct (tidy_alloc_bounds s bl (ptr - 8) S T Ha) as (_ & Bp & _).
  assert (Hhs : heap_start s <> NULL).
  { destruct T as ((epa & epm & fl & ml & [[Hb _ _ _ _ _] _] & _) & _).
    destruct Hb as (B1 & _ & B3 & _). unfold NULL. lia. }
  assert (Hpn : ptr <> NULL).
  { destruct T as ((epa & epm & fl & ml & [[Hb _ _ _ _ _] _] & _) & _).
    destruct Hb as (B1 & _). unfold NULL. lia. }
  rewrite (realloc_move_eq fuel s ptr size ltac:(lia) Hpn Hhs) in *.
  destruct (malloc_body_ok fuel s bl size T ltac:(lia) Hfit)
    as (s1 & p & bl1 & E & T1 & G1 & K1 & Hres).
  { destruct Hrun as [Hrun|Hrun]; [left|right; exact Hrun].
    intros EN. rewrite EN in Hrun. apply Hrun. reflexivity. }
  rewrite E in *.
  destruct Hres as [(E1 & E2 & E3)|Hal].
  { subst p s1 bl1. change (NULL =? NULL) with true. cbv iota.
    exists s, NULL, bl. split; [reflexivity|]. split; [exact T|].
    split; [apply grown_refl|]. left. auto. }
  assert (Hs1 : heap_start s1 = heap_start s) by apply G1.
  destruct (allocated_pointer s s1 bl bl1 size p T1 Hs1 Hal) as (Hp & _).
  apply Z.eqb_neq in Hp. rewrite Hp in *. apply Z.eqb_neq in Hp.
  pose proof Hal as (_ & Hna & szn & Han & Hszn).
  assert (Hne : ptr - 8 <> p - 8) by (intros C; rewrite C in Ha; exact (Hna S Ha)).
  destruct (K1 (p - 8) (ptr - 8) S Hne Ha) as [Ha1 Hm1].
  rewrite <- Hs1 in Han.
  destruct (tidy_get_size s1 bl1 (ptr - 8) S T1 Ha1) as [Gs HS].
  rewrite Gs in *. rewrite (wrap64_small (S - 8)) in * by lia.
  assert (Hcs : (if size <? S - 8 then size else S - 8) = Z.min size (S - 8)).
  { destruct (Z.ltb_spec size (S - 8)); lia. }
  rewrite Hcs in *. set (cs := Z.min size (S - 8)) in *.
  destruct (payload_write_ok s1 bl1 (p - 8) szn (memcpy (mem s1) p ptr cs)
              T1 Han) as [T2 K2].
  { eapply outside_widen; [apply outside_memcpy|lia|unfold cs; lia]. }
  assert (Hex : exists s2, s2 = set_mem s1 (memcpy (mem s1) p ptr cs))
    by eauto.
  destruct Hex as [s2 Es2]. rewrite <- Es2 in *.
  assert (Hs2 : heap_start s2 = heap_start s1) by (rewrite Es2; reflexivity).
  assert (Hm2 : forall y, mem s2 y = memcpy (mem s1) p ptr cs y)
    by (intros y; rewrite Es2; reflexivity).
  assert (Hr2 : same_region s1 s2) by (rewrite Es2; split; reflexivity).
  assert (Hb2 : mem_brk s2 = mem_brk s1) by (rewrite Es2; reflexivity).
  clear Es2.
  destruct (K2 (ptr - 8) S Hne Ha1) as [Ha2 _].
  assert (Han2 : alloc_at (heap_start s2) bl1 (p - 8) szn)
    by (rewrite Hs2; exact Han).
  pose proof (free_block_ok fuel s2 bl1 (ptr - 8) S T2 Ha2) as FB.
  replace (ptr - 8 + 8) with ptr in FB by lia.
  destruct FB as (s3 & bl3 & E3 & T3 & SH3 & K3 & _).
  { destruct Hrun as [Hrun|Hrun].
    - left. intros EN. rewrite EN in Hrun. apply Hrun. reflexivity.
    - right. apply (enough_region fuel s1 s2 Hr2).
      apply (enough_region fuel s s1 (same_region_grown _ _ G1) Hrun). }
  rewrite E3. exists s3, p, bl3. split; [reflexivity|]. split; [exact T3|].
  assert (Hs3 : heap_start s3 = heap_start s2) by apply SH3.
  split.
  { apply (grown_trans _ s1); [exact G1|].
    apply (grown_trans _ s2); [|apply same_heap_grown; exact SH3].
    destruct Hr2 as [R1 R2]. unfold grown. rewrite Hs2, R1, R2, Hb2.
    repeat split; lia. }
  right. split; [|split].
  - split; [lia|]. split; [exact Hna|]. exists szn. split; [|exact Hszn].
    destruct (K3 (p - 8) szn ltac:(lia) Han2) as [Ha3 _].
    rewrite Hs3, Hs2, Hs1 in Ha3. exact Ha3.
  - intros x sz Hx Hax.
    assert (Hxp : x <> p - 8) by (intros C; rewrite C in Hax; exact (Hna sz Hax)).
    destruct (K1 (x - 1) x sz ltac:(lia) Hax) as [A1 M1].
    destruct (K2 x sz Hxp A1) as [A2 M2].
    destruct (K3 x sz Hx A2) as [A3 M3].
    split; [exact A3|].
    intros y Hy. rewrite (M3 y Hy), (M2 y Hy). apply M1. exact Hy.
  - intros i Hi.
    destruct (K3 (p - 8) szn ltac:(lia) Han2) as [_ M3].
    rewrite (M3 (p + i)) by (unfold cs in *; lia).
    rewrite Hm2. unfold memcpy.
    destruct (Z.leb_spec p (p + i)); [|lia].
    destruct (Z.ltb_spec (p + i) (p + cs)); [|lia]. simpl.
    replace (ptr + (p + i - p)) with (ptr + i) by lia.
    apply Hm1. unfold cs in *. lia.
Qed.

Lemma drop_live_keep : forall p live q m,
  q <> p -> In (q, m) live -> In (q, m) (drop_live p live).
Proof.
  intros p live q m Hne. induction live as [|[q0 n0] t IH]; simpl; [auto|].
  destruct (Z.eqb_spec q0 p) as [E|E].
  - intros [E'|H]; [inversion E'; subst; contradiction|exact H].
  - intros [E'|H]; [left; exact E'|right; auto].
Qed.

Lemma live_ok_cons : forall hs bl live p size sz,
  live_ok hs bl live -> alloc_at hs bl (p - 8) sz -> size + 8 <= sz ->
  0 <= size -> (forall n, ~ In (p, n) live) ->
  live_ok hs bl ((p, size) :: live).
Proof.
  intros hs bl live p size sz [Hn Hl] Ha Hsz H0 Hfresh. split.
  - simpl. constructor; [|exact Hn]. intros Hin.
    apply in_map_iff in Hin as ([q n] & E & Hin). simpl in E. subst q.
    exact (Hfresh n Hin).
  - intros q n [E|Hin]; [|auto].
    inversion E. subst q n. split; [exact H0|]. exists sz. auto.
Qed.

Lemma realloc_ok : forall fuel s live ptr size,
  heap_inv s live -> (ptr =? NULL) || holds live ptr = true ->
  0 <= size -> fits size = true ->
  realloc fuel s ptr size <> None \/ enough fuel s ->
  exists s' p, realloc fuel s ptr size = Some (s', p) /\
    realloc_res s live ptr size s' p.
Proof.
  intros fuel s live ptr size H Hwf H0 Hfit Hrun.
  unfold realloc_res, realloc_live.
  destruct (Z.eqb_spec size 0) as [Ez|Hne].
  - subst size. rewrite realloc_zero in *.
    destruct (free_ok fuel s live ptr H Hwf) as (s' & E & Hi & Hr & Pk & _).
    { destruct Hrun as [Hrun|Hrun]; [left|right; exact Hrun].
      intros EN. rewrite EN in Hrun. apply Hrun. reflexivity. }
    rewrite E. exists s', NULL. split; [reflexivity|].
    split; [exact Hi|]. split; [exact Hr|]. split; [|split; [auto|]].
    + intros q k y Hin Hq Hy.
      apply (Pk q k y); [apply drop_live_keep; assumption|exact Hy].
    + intros C. contradiction.
  - destruct (Z.eqb_spec ptr NULL) as [En|En].
    + subst ptr. rewrite (realloc_null fuel s size Hne) in *.
      destruct (malloc_ok fuel s live size H H0 Hfit Hrun)
        as (s' & p & E & Hi & Hr & Pk & _).
      exists s', p. split; [exact E|]. split; [exact Hi|].
      split; [exact Hr|]. split; [|split].
      * intros q k y Hin _ Hy. exact (Pk q k y Hin Hy).
      * intros C. contradiction.
      * intros _ C. contradiction.
    + simpl in Hwf. destruct (holds_in live ptr Hwf) as [n Hin].
      destruct H as [F|[bl H]].
      { destruct F as (_ & _ & _ & E & _). subst live. destruct Hin. }
      apply heap_ok_tidy in H as [T Hl].
      destruct (proj2 Hl ptr n Hin) as (_ & S & Ha & HS).
      destruct (realloc_move_ok fuel s bl ptr size S T Ha ltac:(lia) Hfit
                  Hrun) as (s' & p & bl' & E & T' & G & Hres).
      exists s', p. split; [exact E|].
      assert (Hs : heap_start s' = heap_start s) by apply G.
      destruct Hres as [(E1 & E2 & E3)|(Hal & K & Hcopy)].
      * subst p s' bl'. change (NULL =? NULL) with true. cbv iota.
        split; [right; exists bl; apply heap_ok_tidy; auto|].
        split; [split; reflexivity|].
        split; [intros; reflexivity|]. split; [intros C; contradiction|].
        intros _ _. left. auto.
      * destruct (allocated_pointer s s' bl bl' size p T' Hs Hal)
          as (A1 & A2 & A3 & A4).
        apply Z.eqb_neq in A1. rewrite A1. apply Z.eqb_neq in A1.
        destruct (live_ok_drop s s' bl bl' live ptr Hl K Hs) as [Hl' Pk].
        pose proof Hal as (_ & Hna & szn & Han & Hszn).
        split; [|split; [apply same_region_grown; exact G|split; [|split]]].
        -- right. exists bl'. apply heap_ok_tidy. split; [exact T'|].
           unfold add_live. apply Z.eqb_neq in A1. rewrite A1.
           apply (live_ok_cons _ _ _ p size szn); auto.
           ++ rewrite Hs. exact Han.
           ++ intros k Hk. apply drop_live_in in Hk.
              exact (allocated_fresh s bl bl' size p live Hl Hal k Hk).
        -- intros q k y Hq Hqp Hy.
           apply (Pk q k y); [apply drop_live_keep; assumption|exact Hy].
        -- intros C. contradiction.
        -- intros _ _. right.
           destruct (tidy_get_size s bl (ptr - 8) S T Ha) as [Gs _].
           rewrite Gs. auto.
Qed.

(** ** calloc *)

Lemma calloc_zero : forall fuel s size, calloc fuel s 0 size = Some (s, NULL).
Proof. reflexivity. Qed.

Lemma calloc_overflow : forall fuel s elements size,
  0 < elements < 2 ^ 64 -> 0 <= size < 2 ^ 64 ->
  2 ^ 64 <= elements * size ->
  calloc fuel s elements size = Some (s, NULL).
Proof.
  intros fuel s elements size He Hs Ho. unfold calloc.
  destruct (Z.eqb_spec elements 0) as [E|_]; [lia|].
  assert (Hd : wrap64 (elements * size) / elements <> size).
  { unfold wrap64.
    pose proof (Z.mod_pos_bound (elements * size) (2 ^ 64) ltac:(lia)).
    pose proof (Z.div_mod (elements * size) (2 ^ 64) ltac:(lia)).
    pose proof (Z.div_le_lower_bound (elements * size) (2 ^ 64) 1
                  ltac:(lia) ltac:(lia)).
    assert (Hlt : (elements * size) mod 2 ^ 64 < elements * size) by nia.
    intros C.
    pose proof (Z.mul_div_le ((elements * size) mod 2 ^ 64) elements
                  ltac:(lia)).
    rewrite C in H2. lia. }
  apply Z.eqb_neq in Hd. rewrite Hd. reflexivity.
Qed.

Lemma calloc_steps : forall fuel s elements size,
  0 < elements -> elements * size < 2 ^ 64 -> 0 <= size ->
  calloc fuel s elements size =
  match malloc fuel s (elements * size) with
  | None => None
  | Some (s1, bp) =>
      if bp =? NULL then Some (s1, NULL)
      else Some (set_mem s1 (memset (mem s1) bp 0 (elements * size)), bp)
  end.
Proof.
  intros fuel s elements size He Ho Hs. unfold calloc.
  destruct (Z.eqb_spec elements 0) as [E|_]; [lia|].
  rewrite wrap64_small by nia.
  rewrite Z.mul_comm, Z.div_mul by lia. rewrite Z.eqb_refl.
  rewrite (Z.mul_comm size elements). reflexivity.
Qed.

Lemma add_live_null : forall n live, add_live NULL n live = live.
Proof. reflexivity. Qed.

Lemma add_live_cons : forall p n live,
  p <> NULL -> add_live p n live = (p, n) :: live.
Proof.
  intros p n live H. unfold add_live. apply Z.eqb_neq in H. rewrite H.
  reflexivity.
Qed.

Lemma calloc_ok : forall fuel s live elements size,
  heap_inv s live -> 0 <= elements < 2 ^ 64 -> 0 <= size < 2 ^ 64 ->
  (2 ^ 64 <=? elements * size) || fits (elements * size) = true ->
  calloc fuel s elements size <> None \/ enough fuel s ->
  exists s' p, calloc fuel s elements size = Some (s', p) /\
    calloc_res s live elements size s' p.
Proof.
  intros fuel s live elements size H He Hs Hnw Hrun. unfold calloc_res.
  assert (Hnull : heap_inv s (add_live NULL (wrap64 (elements * size)) live)
                  /\ same_region s s /\ payloads_kept s s live).
  { rewrite add_live_null. split; [exact H|]. split; [split; reflexivity|].
    intros q n y _ _. reflexivity. }
  destruct Hnull as (N1 & N2 & N3).
  destruct (Z.eq_dec elements 0) as [Ez|Hnz].
  { subst elements. rewrite calloc_zero. exists s, NULL.
    split; [reflexivity|]. split; [exact N1|]. split; [exact N2|].
    split; [exact N3|]. split; [auto|]. intros C. contradiction. }
  destruct (Z.le_gt_cases (2 ^ 64) (elements * size)) as [Ho|Ho].
  { rewrite (calloc_overflow fuel s elements size) by lia.
    exists s, NULL. split; [reflexivity|]. split; [exact N1|].
    split; [exact N2|]. split; [exact N3|]. split; [auto|].
    intros C. contradiction. }
  assert (Hfit : fits (elements * size) = true).
  { apply orb_true_iff in Hnw as [C|C]; [apply Z.leb_le in C; lia|exact C]. }
  rewrite (calloc_steps fuel s elements size) in * by lia.
  rewrite (wrap64_small (elements * size)) by nia.
  set (n := elements * size) in *.
  destruct (malloc_ok fuel s live n H ltac:(unfold n; nia) Hfit)
    as (s1 & bp & E & Hi & Hr & Pk & Hp & _).
  { destruct Hrun as [Hrun|Hrun]; [left|right; exact Hrun].
    intros EN. rewrite EN in Hrun. apply Hrun. reflexivity. }
  rewrite E.
  destruct (Z.eqb_spec bp NULL) as [En|En].
  - subst bp. exists s1, NULL. split; [reflexivity|].
    split; [exact Hi|]. split; [exact Hr|]. split; [exact Pk|].
    split; [intros [C|C]; lia|]. intros C. contradiction.
  - destruct (Hp En) as (P1 & P2 & P3 & P4 & P5).
    rewrite (add_live_cons bp n live En) in *.
    destruct (client_write_ok s1 ((bp, n) :: live) bp n
                (memset (mem s1) bp 0 n) bp (bp + n) Hi
                (or_introl eq_refl) ltac:(lia) ltac:(lia)
                (outside_memset _ _ _ _)) as [Hi2 Hoth].
    eexists. exists bp. split; [reflexivity|].
    rewrite (add_live_cons bp n live En).
    split; [exact Hi2|]. split; [exact Hr|]. split; [|split].
    + intros q k y Hq Hy. simpl.
      rewrite (Hoth q k y (or_intror Hq)); [exact (Pk q k y Hq Hy)| |exact Hy].
      intros C. subst q. exact (P5 k Hq).
    + intros [C|C]; lia.
    + intros _. split; [exact Ho|]. split; [exact P2|].
      split; [exact P3|]. split; [exact P4|]. split; [exact P5|].
      intros i Hi0. simpl. unfold memset.
      destruct (Z.leb_spec bp (bp + i)); [|lia].
      destruct (Z.ltb_spec (bp + i) (bp + n)); [|lia]. reflexivity.
Qed.

(** ** Traces *)

Lemma in_word_range : forall x, in_word x = true -> 0 <= x < 2 ^ 64.
Proof.
  intros x H. unfold in_word in H. apply andb_true_iff in H as [H1 H2].
  apply Z.leb_le in H1. apply Z.ltb_lt in H2. lia.
Qed.

Lemma store_ok : forall s live addr byte,
  heap_inv s live -> call_wf live (Store addr byte) = true ->
  heap_inv (set_mem s (store8 (mem s) addr byte)) live /\
  forall q k y, In (q, k) live -> y <> addr -> q <= y < q + k ->
                store8 (mem s) addr byte y = mem s y.
Proof.
  intros s live addr byte H Hwf. simpl in Hwf.
  apply existsb_exists in Hwf as ([p n] & Hin & Hb). simpl in Hb.
  apply andb_true_iff in Hb as [H1 H2].
  apply Z.leb_le in H1. apply Z.ltb_lt in H2.
  destruct (client_write_ok s live p n (store8 (mem s) addr byte)
              addr (addr + 1) H Hin ltac:(lia) ltac:(lia)
              (outside_store8 _ _ _)) as [Hi _].
  split; [exact Hi|].
  intros q k y _ Hy _. apply outside_store8. lia.
Qed.

(** Every well-formed call whose size adjustment does not wrap keeps the
    invariant, and returns when the fuel suffices. *)
Lemma exec_ok : forall fuel s live c,
  heap_inv s live -> call_wf live c = true -> call_args c = true ->
  no_wrap c = true ->
  exec fuel s live c <> None \/ enough fuel s ->
  exists s' live' r, exec fuel s live c = Some (s', live', r) /\
    heap_inv s' live' /\ same_region s s'.
Proof.
  intros fuel s live c H Hwf Hargs Hnw Hrun.
  destruct c as [size|bp|ptr size|elements size|addr byte];
    simpl in Hwf, Hargs, Hnw; simpl exec in *.
  - apply in_word_range in Hargs.
    destruct (malloc_ok fuel s live size H ltac:(lia) Hnw)
      as (s' & p & E & Hi & Hr & _).
    { destruct Hrun as [Hrun|Hrun]; [left|right; exact Hrun].
      intros EN. rewrite EN in Hrun. apply Hrun. reflexivity. }
    rewrite E. eauto 6.
  - destruct (free_ok fuel s live bp H Hwf) as (s' & E & Hi & Hr & _).
    { destruct Hrun as [Hrun|Hrun]; [left|right; exact Hrun].
      intros EN. rewrite EN in Hrun. apply Hrun. reflexivity. }
    rewrite E. eauto 6.
  - apply andb_true_iff in Hargs as [A1 A2].
    apply in_word_range in A1, A2.
    destruct (realloc_ok fuel s live ptr size H Hwf ltac:(lia) Hnw)
      as (s' & p & E & Hi & Hr & _).
    { destruct Hrun as [Hrun|Hrun]; [left|right; exact Hrun].
      intros EN. rewrite EN in Hrun. apply Hrun. reflexivity. }
    rewrite E. unfold realloc_live in Hi.
    destruct (size =? 0); [eauto 6|].
    destruct (ptr =? NULL); [eauto 6|].
    destruct (p =? NULL); eauto 6.
  - apply andb_true_iff in Hargs as [A1 A2].
    apply in_word_range in A1, A2.
    destruct (calloc_ok fuel s live elements size H A1 A2 Hnw)
      as (s' & p & E & Hi & Hr & _).
    { destruct Hrun as [Hrun|Hrun]; [left|right; exact Hrun].
      intros EN. rewrite EN in Hrun. apply Hrun. reflexivity. }
    rewrite E. eauto 6.
  - destruct (store_ok s live addr byte H Hwf) as [Hi _].
    eexists. eexists. eexists. split; [reflexivity|].
    split; [exact Hi|]. split; reflexivity.
Qed.

Lemma boot_fresh : forall m lo max_addr,
  provider_ok lo max_addr -> fresh (boot m lo max_addr) [].
Proof.
  intros m lo max_addr H. unfold fresh, boot. simpl. auto.
Qed.

(** The invariant holds in every state that calls without wrap-around
    reach. *)
Lemma reachable_inv : forall s live,
  reachable no_wrap s live -> heap_inv s live.
Proof.
  intros s live R. induction R as [m lo mx Hp|s live c fuel s' live' r R IH Hwf Ha Hnw E].
  - left. apply boot_fresh. exact Hp.
  - destruct (exec_ok fuel s live c IH Hwf Ha Hnw)
      as (s2 & live2 & r2 & E2 & Hi & _).
    + left. rewrite E. discriminate.
    + rewrite E in E2. inversion E2. subst. exact Hi.
Qed.

(** * The heap checker accepts every tidy heap *)

Lemma prev_flags_first : forall s L R epa epm fl ml,
  world s (L ++ R) epa epm fl ml ->
  get_prev_alloc s (end_addr (heap_start s) L)
  = match R with [] => epa | n :: _ => b_pa n end /\
  get_prev_mini s (end_addr (heap_start s) L)
  = match R with [] => epm | n :: _ => b_pm n end.
Proof.
  intros s L R epa epm fl ml W. destruct R as [|n R].
  - rewrite app_nil_r in W.
    destruct (world_epilogue_fields _ _ _ _ _ _ W) as (_ & _ & F3 & F4).
    replace (end_addr (heap_start s) L) with (mem_brk s - 8)
      by (symmetry; apply W).
    auto.
  - destruct (world_fields _ _ _ _ _ _ _ _ W (layout_mid L n R _))
      as (_ & _ & F3 & F4). auto.
Qed.

(** The flags in the header after a block of a tidy heap. *)
Lemma tidy_next_flags : forall s L b R epa epm fl ml,
  world s (L ++ b :: R) epa epm fl ml ->
  flags_ok true false (L ++ b :: R) epa epm ->
  let next := end_addr (heap_start s) L + b_size b in
  get_prev_alloc s next = is_alloc (b_st b) /\
  get_prev_mini s next = (b_size b =? 16).
Proof.
  intros s L b R epa epm fl ml W Fl next.
  destruct (flags_ok_split _ _ _ _ _ Fl) as [_ F2].
  assert (W' : world s ((L ++ [b]) ++ R) epa epm fl ml)
    by (rewrite <- app_assoc; exact W).
  destruct (prev_flags_first _ _ _ _ _ _ _ W') as [P1 P2].
  rewrite end_addr_app in P1, P2. simpl in P1, P2. fold next in P1, P2.
  rewrite P1, P2. destruct R as [|n R]; simpl in F2.
  - destruct F2 as [E1 E2]. auto.
  - destruct F2 as (E1 & E2 & _). auto.
Qed.

Lemma epilogue_addr : forall s, epilogue s = mem_brk s - 8.
Proof. intros s. unfold epilogue, mem_heap_hi. lia. Qed.

(** What the checks of [general_heap_checker] find at one block. *)
Lemma block_checks : forall s L b R epa epm fl ml,
  world s (L ++ b :: R) epa epm fl ml ->
  flags_ok true false (L ++ b :: R) epa epm ->
  no_adj_free (L ++ b :: R) ->
  let x := end_addr (heap_start s) L in
  x <> mem_heap_hi s - 7 /\
  check_alignment x = true /\ check_boundary s x = true /\
  check_block_size s x = true /\ check_header_footer_match s x = true /\
  check_non_consecutive_free s x = true /\
  find_next s x = end_addr (heap_start s) (L ++ [b]).
Proof.
  intros s L b R epa epm fl ml W Fl Ha x.
  pose proof (layout_mid L b R (heap_start s)) as Hin. fold x in Hin.
  destruct (world_block _ _ _ _ _ _ _ _ W Hin)
    as ([Hh Hf] & B1 & B2 & B3 & [B4 B5] & B6).
  destruct (coalesce_reads _ _ _ _ _ _ _ _ W)
    as (F1 & _ & _ & F4 & _ & F6 & _).
  fold x in F1, F4, F6.
  destruct (world_fields _ _ _ _ _ _ _ _ W Hin) as (_ & F2 & _).
  destruct (tidy_next_flags s L b R epa epm fl ml W Fl) as [_ N2].
  fold x in N2.
  pose proof W as [[Hb _ _ _ _ _] _].
  destruct Hb as (C1 & C2 & C3 & C4 & C5).
  pose proof (end_addr_ge L (heap_start s)
                ltac:(apply sizes_ok_app with (l2 := b :: R); apply W)) as Hge.
  fold x in Hge.
  split; [unfold mem_heap_hi; lia|].
  split; [unfold check_alignment, header_to_payload;
          replace ((x + 8) mod 16 =? 0) with true
            by (symmetry; apply Z.eqb_eq; lia); reflexivity|].
  split; [unfold check_boundary, mem_heap_hi, mem_heap_lo;
          destruct (Z.ltb_spec (mem_brk s - 1) x); [lia|];
          destruct (Z.ltb_spec x (mem_start_brk s)); [lia|reflexivity]|].
  split; [unfold check_block_size, min_block_size, dsize, wsize;
          rewrite F1; change (2 * 8) with 16;
          destruct (Z.ltb_spec (b_size b) 16); [lia|];
          rewrite B5; reflexivity|].
  split; [|split].
  - unfold check_header_footer_match. rewrite F4, N2, F2.
    destruct (is_alloc (b_st b)) eqn:Eal; [reflexivity|].
    destruct (Z.eqb_spec (b_size b) 16) as [E16|E16]; [reflexivity|].
    unfold header_to_footer, read, dsize, wsize. rewrite F1.
    change (2 * 8) with 16.
    replace (x + 8 + b_size b - 16) with (x + b_size b - 8) by lia.
    rewrite (Hf eq_refl E16), Hh, Z.eqb_refl. reflexivity.
  - unfold check_non_consecutive_free. rewrite F4, F2, F6.
    destruct (is_alloc (b_st b)) eqn:Eal; [reflexivity|].
    destruct (no_adj_free_split _ _ _ Ha) as (_ & _ & A3).
    rewrite (A3 Eal). reflexivity.
  - rewrite F4, end_addr_app. reflexivity.
Qed.

Lemma heap_walk_ok : forall s bl epa epm fl ml,
  world s bl epa epm fl ml -> flags_ok true false bl epa epm ->
  no_adj_free bl ->
  forall R L fuel, bl = L ++ R -> (length R < fuel)%nat ->
  heap_walk fuel s (end_addr (heap_start s) L) (mem_heap_hi s - 7)
  = Some true.
Proof.
  intros s bl epa epm fl ml W Fl Ha.
  induction R as [|b R IH]; intros L fuel Ebl Hlen;
    (destruct fuel as [|f]; [simpl in Hlen; lia|]); simpl heap_walk.
  - rewrite app_nil_r in Ebl. subst L.
    replace (end_addr (heap_start s) bl) with (mem_heap_hi s - 7)
      by (unfold mem_heap_hi; destruct W as [[_ _ _ He _ _] _]; lia).
    rewrite Z.eqb_refl. reflexivity.
  - subst bl.
    destruct (block_checks s L b R epa epm fl ml W Fl Ha)
      as (C0 & C1 & C2 & C3 & C4 & C5 & C6).
    apply Z.eqb_neq in C0. rewrite C0, C1, C2, C3, C4, C5, C6. simpl.
    apply IH; [rewrite <- app_assoc; reflexivity|simpl in Hlen; lia].
Qed.

Lemma check_prologue_epilogue_ok : forall s bl epa epm fl ml,
  world s bl epa epm fl ml -> check_prologue_epilogue s = true.
Proof.
  intros s bl epa epm fl ml W.
  destruct (world_epilogue_fields _ _ _ _ _ _ W) as (E1 & E2 & _).
  pose proof W as [[_ _ _ _ _ Hp] _].
  unfold check_prologue_epilogue, mem_heap_lo, mem_heap_hi, read.
  replace (mem_brk s - 1 - 7) with (mem_brk s - 8) by lia.
  rewrite Hp, E1, E2. reflexivity.
Qed.

Lemma general_heap_checker_ok : forall fuel s bl,
  tidy s bl -> enough fuel s -> general_heap_checker fuel s = Some true.
Proof.
  intros fuel s bl ((epa & epm & fl & ml & W & Fl) & _ & Ha) He.
  unfold general_heap_checker.
  rewrite (check_prologue_epilogue_ok s bl epa epm fl ml W). simpl.
  apply (heap_walk_ok s bl epa epm fl ml W Fl Ha bl [] fuel eq_refl).
  pose proof (blocks_bound _ _ _ _ _ _ W). unfold enough in He. lia.
Qed.

Lemma check_bucket_ok : forall s bl epa epm fl ml i,
  world s bl epa epm fl ml -> 0 <= i < 14 ->
  forall l curr fuel,
  dchain (mem s) curr l -> (forall x, In x l -> In x (fl i)) ->
  (length l < fuel)%nat ->
  check_bucket fuel s i curr = Some true.
Proof.
  intros s bl epa epm fl ml i W Hi.
  induction l as [|x l IH]; intros curr fuel Hd Hin Hlen;
    (destruct fuel as [|f]; [simpl in Hlen; lia|]); simpl check_bucket.
  - simpl in Hd. subst curr. reflexivity.
  - simpl in Hd. destruct Hd as (Ex & Hd & Hprev). subst curr.
    destruct (bucket_elem s bl epa epm fl ml i x W Hi
                (Hin x (or_introl eq_refl)))
      as (bu & Hbu & Hst & Hsz & Hcl & Hx).
    destruct (world_block _ _ _ _ _ _ _ _ W Hbu) as (_ & _ & B2 & _).
    destruct (world_fields _ _ _ _ _ _ _ _ W Hbu) as (F1 & _).
    pose proof W as [[Hb Hs _ _ _ _] _].
    destruct (layout_bounds _ _ _ _ Hs Hbu) as (L1 & _).
    destruct Hb as (C1 & C2 & C3 & _).
    destruct (Z.eqb_spec x NULL) as [En|_]; [unfold NULL in En; lia|].
    unfold mem_heap_hi, mem_heap_lo.
    destruct (Z.ltb_spec (mem_brk s - 1) x); [lia|].
    destruct (Z.ltb_spec x (mem_start_brk s)); [lia|].
    rewrite F1, Hcl, Z.eqb_refl. simpl negb.
    unfold payload_next, payload_prev, read.
    assert (Hnext : negb (load64 (mem s) (x + 16) =? NULL) &&
                    negb (load64 (mem s) (load64 (mem s) (x + 16) + 8) =? x)
                    = false).
    { destruct l as [|y l'].
      - simpl in Hd. rewrite Hd. reflexivity.
      - simpl in Hd. destruct Hd as (Ey & _). rewrite Ey, Hprev.
        rewrite Z.eqb_refl. apply andb_false_r. }
    rewrite Hnext.
    apply IH; [exact Hd| |simpl in Hlen; lia].
    intros z Hz. apply Hin. right. exact Hz.
Qed.

Lemma check_list_from_ok : forall fuel s bl epa epm fl ml,
  world s bl epa epm fl ml -> enough fuel s ->
  forall n i, 0 <= i -> i + Z.of_nat n <= 14 ->
  check_list_from fuel s n i = Some true.
Proof.
  intros fuel s bl epa epm fl ml W He.
  induction n as [|n IH]; intros i Hi Hn; simpl; [reflexivity|].
  assert (Hc : 0 <= i < 14) by lia.
  rewrite (check_bucket_ok s bl epa epm fl ml i W Hc (fl i) (seg_get s i)
             fuel).
  - apply IH; lia.
  - apply W. exact Hc.
  - auto.
  - apply (bucket_bound fuel s bl epa epm fl ml i W He Hc).
Qed.

(** The checker accepts a tidy heap. *)
Lemma mm_checkheap_tidy : forall fuel s bl line,
  tidy s bl -> enough fuel s -> mm_checkheap fuel s line = Some true.
Proof.
  intros fuel s bl line T He. unfold mm_checkheap.
  rewrite (general_heap_checker_ok fuel s bl T He).
  destruct T as ((epa & epm & fl & ml & W & _) & _).
  unfold check_list.
  rewrite (check_list_from_ok fuel s bl epa epm fl ml W He); [reflexivity| |].
  - lia.
  - unfold LENGTH. simpl. lia.
Qed.

(** ** What a passing check means *)

Lemma heap_walk_step : forall fuel s curr e,
  heap_walk fuel s curr e = Some true -> curr <> e ->
  check_alignment curr = true /\ check_boundary s curr = true /\
  check_block_size s curr = true /\
  check_header_footer_match s curr = true /\
  check_non_consecutive_free s curr = true /\
  exists f, heap_walk f s (find_next s curr) e = Some true.
Proof.
  intros [|f] s curr e H Hne; [discriminate|].
  cbn [heap_walk] in H. apply Z.eqb_neq in Hne. rewrite Hne in H.
  destruct (check_alignment curr); [|discriminate].
  destruct (check_boundary s curr); [|discriminate].
  destruct (check_block_size s curr); [|discriminate].
  destruct (check_header_footer_match s curr); [|discriminate].
  destruct (check_non_consecutive_free s curr); [|discriminate].
  cbn [negb] in H. repeat split. exists f. exact H.
Qed.

Lemma heap_walk_reaches : forall fuel s b,
  heap_walk fuel s (heap_start s) (epilogue s) = Some true ->
  heap_block s b ->
  exists f, heap_walk f s b (epilogue s) = Some true.
Proof.
  intros fuel s b H Hb. induction Hb as [Hs|b Hb IH Hne].
  - exists fuel. exact H.
  - destruct IH as [f IH].
    destruct (heap_walk_step f s b (epilogue s) IH Hne)
      as (_ & _ & _ & _ & _ & Hn). exact Hn.
Qed.

Lemma check_bucket_sound : forall fuel s i l curr,
  check_bucket fuel s i curr = Some true -> next_chain s curr l ->
  Forall (fun b =>
            mem_heap_lo s <= b <= mem_heap_hi s /\
            find_class (get_size s b) = i /\
            (payload_next s b <> NULL ->
             payload_prev s (payload_next s b) = b)) l.
Proof.
  intros fuel. induction fuel as [|f IH]; intros s i l curr H Hc;
    [discriminate|].
  destruct l as [|x l]; [constructor|].
  destruct Hc as (Ex & Hx & Hc). subst curr.
  cbn [check_bucket] in H. apply Z.eqb_neq in Hx. rewrite Hx in H.
  destruct (Z.ltb_spec (mem_heap_hi s) x) as [|Hhi]; [discriminate|].
  destruct (Z.ltb_spec x (mem_heap_lo s)) as [|Hlo]; [discriminate|].
  cbv zeta in H.
  destruct (negb (payload_next s x =? NULL)
            && negb (payload_prev s (payload_next s x) =? x)) eqn:El;
    [discriminate|].
  destruct (Z.eqb_spec (find_class (get_size s x)) i) as [Ec|];
    [|discriminate].
  cbn [negb] in H. constructor.
  - split; [lia|]. split; [exact Ec|]. intros Hn.
    apply andb_false_iff in El as [El|El].
    + apply negb_false_iff, Z.eqb_eq in El. contradiction.
    + apply negb_false_iff, Z.eqb_eq in El. exact El.
  - exact (IH s i l (payload_next s x) H Hc).
Qed.

Lemma check_list_from_sound : forall fuel s n i0 i,
  check_list_from fuel s n i0 = Some true ->
  i0 <= i < i0 + Z.of_nat n ->
  check_bucket fuel s i (seg_get s i) = Some true.
Proof.
  intros fuel s n. induction n as [|n IH]; intros i0 i H Hi; [lia|].
  cbn [check_list_from] in H.
  destruct (check_bucket fuel s i0 (seg_get s i0)) as [[|]|] eqn:E;
    try discriminate.
  destruct (Z.eq_dec i i0) as [->|Hne]; [exact E|].
  apply (IH (i0 + 1) i H). lia.
Qed.

(** * What the invariant says about the heap as the code reads it *)

(** The blocks that the walk from [heap_start] visits are the blocks of
    the list, and the epilogue. *)
Lemma heap_block_layout : forall s bl epa epm fl ml b,
  world s bl epa epm fl ml -> heap_block s b ->
  exists L R, bl = L ++ R /\ b = end_addr (heap_start s) L.
Proof.
  intros s bl epa epm fl ml b W Hb. induction Hb as [Hs|b Hb IH Hne].
  - exists [], bl. auto.
  - destruct IH as (L & R & Ebl & Eb).
    destruct R as [|blk R].
    + exfalso. apply Hne. rewrite epilogue_addr, Eb.
      rewrite app_nil_r in Ebl. subst L. apply W.
    + subst bl. exists (L ++ [blk]), R. split.
      * rewrite <- app_assoc. reflexivity.
      * destruct (coalesce_reads _ _ _ _ _ _ _ _ W) as (_ & _ & _ & F4 & _).
        rewrite Eb, F4, end_addr_app. reflexivity.
Qed.

Lemma heap_block_split : forall s bl epa epm fl ml b,
  world s bl epa epm fl ml -> heap_block s b -> b <> epilogue s ->
  exists L blk R, bl = L ++ blk :: R /\ b = end_addr (heap_start s) L.
Proof.
  intros s bl epa epm fl ml b W Hb Hne.
  destruct (heap_block_layout s bl epa epm fl ml b W Hb) as (L & R & Ebl & Eb).
  destruct R as [|blk R]; [|eauto].
  exfalso. apply Hne. rewrite epilogue_addr, Eb.
  rewrite app_nil_r in Ebl. subst L. apply W.
Qed.

Lemma fresh_no_block : forall s live b, fresh s live -> ~ heap_block s b.
Proof.
  intros s live b (F1 & _) Hb.
  induction Hb as [Hs|b Hb IH Hne]; [contradiction|exact IH].
Qed.

Lemma inv_no_adjacent_free : forall s live,
  heap_inv s live -> no_adjacent_free s.
Proof.
  intros s live [F|[bl H]] b Hb Hne.
  - exfalso. exact (fresh_no_block s live b F Hb).
  - apply heap_ok_tidy in H as [((epa & epm & fl & ml & W & Fl) & _ & Ha) _].
    destruct (heap_block_split s bl epa epm fl ml b W Hb Hne)
      as (L & blk & R & Ebl & Eb).
    subst bl b.
    apply (block_checks s L blk R epa epm fl ml W Fl Ha).
Qed.

Lemma inv_flags_agree : forall s live, heap_inv s live -> flags_agree s.
Proof.
  intros s live [F|[bl H]] b Hb Hne.
  - exfalso. exact (fresh_no_block s live b F Hb).
  - apply heap_ok_tidy in H as [((epa & epm & fl & ml & W & Fl) & _ & Ha) _].
    destruct (heap_block_split s bl epa epm fl ml b W Hb Hne)
      as (L & blk & R & Ebl & Eb).
    subst bl b.
    destruct (coalesce_reads _ _ _ _ _ _ _ _ W) as (F1 & _ & _ & F4 & _).
    destruct (world_fields _ _ _ _ _ _ _ _ W (layout_mid L blk R _))
      as (_ & F2 & _).
    destruct (tidy_next_flags s L blk R epa epm fl ml W Fl) as [N1 N2].
    rewrite F4, F1, F2. auto.
Qed.

Lemma inv_bucket0_empty : forall s live, heap_inv s live -> bucket0_empty s.
Proof.
  intros s live [F|[bl H]]; unfold bucket0_empty.
  - apply seg_get_repeat. apply F.
  - apply heap_ok_tidy in H as [((epa & epm & fl & ml & W & _) & _) _].
    destruct (bucket_head s bl epa epm fl ml 0 W ltac:(lia)) as (Hh & _).
    rewrite Hh. destruct (fl 0) as [|u l] eqn:E; [reflexivity|].
    exfalso.
    destruct (bucket_elem s bl epa epm fl ml 0 u W ltac:(lia))
      as (bu & _ & _ & Hsz & Hcl & _).
    { rewrite E. left. reflexivity. }
    unfold find_class in Hcl.
    destruct (Z.ltb_spec (b_size bu) 32); [lia|].
    repeat (destruct (_ <? _); [discriminate|]). discriminate.
Qed.

Lemma inv_checkheap : forall fuel s live line,
  heap_inv s live -> heap_start s <> NULL -> enough fuel s ->
  mm_checkheap fuel s line = Some true.
Proof.
  intros fuel s live line [F|[bl H]] Hs He.
  - exfalso. apply Hs. apply F.
  - apply heap_ok_tidy in H as [T _].
    exact (mm_checkheap_tidy fuel s bl line T He).
Qed.

(** ** find_fit finds a block when one fits *)

Lemma scan_class_finds : forall s bl epa epm fl ml asize,
  world s bl epa epm fl ml ->
  forall fuel l block best res,
  dchain (mem s) block l ->
  (forall y, In y l -> exists sz, free_at (heap_start s) bl y sz) ->
  scan_class fuel s asize best block = Some res ->
  best <> NULL \/
  (exists y sz, In y l /\ free_at (heap_start s) bl y sz /\ asize <= sz) ->
  match res with Halt b => b | Finished b => b end <> NULL.
Proof.
  intros s bl epa epm fl ml asize W.
  induction fuel as [|f IH]; intros l block best res Hd Hin Hscan Hfit;
    [discriminate|].
  simpl in Hscan. destruct l as [|x l].
  - simpl in Hd. subst block. change (NULL =? NULL) with true in Hscan.
    inversion Hscan. subst res.
    destruct Hfit as [Hb|(y & sz & [] & _)]. exact Hb.
  - simpl in Hd. destruct Hd as (Ex & Hd & _). subst block.
    destruct (Hin x (or_introl eq_refl)) as [szx Hfx].
    destruct (world_free_at _ _ _ _ _ _ _ _ W Hfx)
      as (Hx8 & _ & _ & _ & _ & Gs & Ga).
    assert (Hxn : x <> NULL) by (unfold NULL; lia).
    apply Z.eqb_neq in Hxn. rewrite Hxn, Ga, Gs in Hscan.
    apply Z.eqb_neq in Hxn. simpl negb in Hscan.
    rewrite andb_true_l in Hscan. unfold payload_next, read in Hscan.
    assert (Hin' : forall y, In y l ->
              exists sz, free_at (heap_start s) bl y sz)
      by (intros y Hy; apply Hin; right; exact Hy).
    destruct (Z.leb_spec asize szx) as [Hle|Hgt].
    + destruct (Z.eqb_spec best NULL) as [Eb|Eb].
      * apply (IH l _ x res Hd Hin' Hscan). left. exact Hxn.
      * destruct (szx <? get_size s best).
        -- apply (IH l _ x res Hd Hin' Hscan). left. exact Hxn.
        -- inversion Hscan. subst res. exact Eb.
    + apply (IH l _ best res Hd Hin' Hscan).
      destruct Hfit as [Hb|(y & sz & [Ey|Hy] & Hfy & Hsz)]; [auto| |].
      * subst y. exfalso.
        destruct Hfx as (b1 & I1 & _ & S1). destruct Hfy as (b2 & I2 & _ & S2).
        assert (b1 = b2)
          by (apply (layout_same_addr bl (heap_start s) x); auto; apply W).
        subst b2. lia.
      * right. exists y, sz. auto.
Qed.

Lemma scan_halt_nonnull : forall s asize fuel best block b,
  scan_class fuel s asize best block = Some (Halt b) -> b <> NULL.
Proof.
  intros s asize. induction fuel as [|f IH]; intros best block b H;
    [discriminate|].
  simpl in H. destruct (block =? NULL); [discriminate|].
  destruct (negb (get_alloc s block) && (asize <=? get_size s block)).
  - destruct (Z.eqb_spec best NULL) as [E|E]; [exact (IH _ _ _ H)|].
    destruct (get_size s block <? get_size s best); [exact (IH _ _ _ H)|].
    inversion H. subst b. exact E.
  - exact (IH _ _ _ H).
Qed.

Lemma find_class_mono : forall a b, a <= b -> find_class a <= find_class b.
Proof.
  intros a b H. unfold find_class.
  repeat match goal with
         | |- context [?x <? ?y] => destruct (Z.ltb_spec x y)
         end; lia.
Qed.

Lemma find_fit_from_finds : forall fuel s bl epa epm fl ml asize x sz,
  world s bl epa epm fl ml ->
  free_at (heap_start s) bl x sz -> sz <> 16 -> asize <= sz ->
  forall n i r, 0 <= i -> i <= find_class sz < i + Z.of_nat n ->
  find_fit_from fuel s asize n i = Some r -> r <> NULL.
Proof.
  intros fuel s bl epa epm fl ml asize x sz W Hf H16 Hle.
  pose proof (find_class_range sz) as Hc.
  induction n as [|n IH]; intros i r Hi Hin Hff; [lia|].
  simpl in Hff.
  destruct (scan_class fuel s asize NULL (seg_get s i)) as [res|] eqn:Es;
    [|discriminate].
  assert (Hi14 : 0 <= i < 14) by lia.
  assert (Hel : forall y, In y (fl i) ->
            exists sz0, free_at (heap_start s) bl y sz0).
  { intros y Hy. apply (lo_mem _ _ _ _ (proj2 W) i y Hi14) in Hy
      as (sz0 & Hf0 & _). eauto. }
  pose proof (scan_class_finds s bl epa epm fl ml asize W fuel (fl i)
                (seg_get s i) NULL res
                (lo_chain _ _ _ _ (proj2 W) i Hi14) Hel Es) as Hfind.
  destruct res as [best|best].
  - inversion Hff. subst r.
    exact (scan_halt_nonnull s asize fuel NULL (seg_get s i) best Es).
  - destruct (Z.eqb_spec best NULL) as [Eb|Eb]; simpl in Hff.
    + destruct (Z.eq_dec i (find_class sz)) as [Ei|Ei].
      * exfalso. apply Hfind; [|exact Eb].
        right. exists x, sz. split; [|auto].
        apply (lo_mem _ _ _ _ (proj2 W) i x Hi14). exists sz. auto.
      * apply (IH (i + 1) r); [lia|lia|exact Hff].
    + inversion Hff. subst r. exact Eb.
Qed.

Lemma find_fit_finds : forall fuel s bl epa epm fl ml asize x sz r,
  world s bl epa epm fl ml ->
  free_at (heap_start s) bl x sz -> 16 <= asize <= sz ->
  find_fit fuel s asize = Some r -> r <> NULL.
Proof.
  intros fuel s bl epa epm fl ml asize x sz r W Hf Hle Hff.
  unfold find_fit in Hff.
  destruct (mini_head _ _ _ _ _ _ W) as (Hh & _ & Hnil).
  destruct ((asize =? min_block_size) && negb (mini_list s =? NULL)) eqn:E.
  - inversion Hff. subst r. apply andb_true_iff in E as [_ E].
    apply negb_true_iff, Z.eqb_neq in E. exact E.
  - destruct (Z.eq_dec sz 16) as [E16|E16].
    + exfalso. subst sz.
      assert (Ea : (asize =? min_block_size) = true)
        by (apply Z.eqb_eq; unfold min_block_size, dsize, wsize; lia).
      rewrite Ea in E. simpl in E. apply negb_false_iff, Z.eqb_eq in E.
      specialize (Hnil E).
      apply (lo_mmem _ _ _ _ (proj2 W)) in Hf. rewrite Hnil in Hf.
      destruct Hf.
    + pose proof (find_class_range asize) as Hc.
      pose proof (find_class_range sz) as Hc'.
      pose proof (find_class_mono asize sz ltac:(lia)) as Hm.
      apply (find_fit_from_finds fuel s bl epa epm fl ml asize x sz W Hf E16
               ltac:(lia) (Z.to_nat (LENGTH - find_class asize))
               (find_class asize) r ltac:(lia)); [|exact Hff].
      unfold LENGTH. lia.
Qed.

(** ** Blocks of the list are blocks of the walk *)

Lemma layout_heap_block : forall s bl epa epm fl ml,
  world s bl epa epm fl ml ->
  forall L R, bl = L ++ R -> heap_block s (end_addr (heap_start s) L).
Proof.
  intros s bl epa epm fl ml W L.
  induction L as [|b L IH] using rev_ind; intros R Ebl.
  - simpl. apply hb_first.
    destruct W as [[Hb _ _ _ _ _] _]. destruct Hb as (B1 & _ & B3 & _).
    unfold NULL. lia.
  - rewrite <- app_assoc in Ebl. simpl in Ebl.
    specialize (IH (b :: R) Ebl). subst bl.
    destruct (coalesce_reads _ _ _ _ _ _ _ _ W) as (_ & _ & _ & F4 & _).
    rewrite end_addr_app. simpl. rewrite <- F4.
    apply hb_next; [exact IH|].
    rewrite epilogue_addr.
    destruct (world_block _ _ _ _ _ _ _ _ W (layout_mid L b R _))
      as (_ & _ & B2 & _ & [B4 _] & _). lia.
Qed.

Lemma free_at_heap_block : forall s bl epa epm fl ml x sz,
  world s bl epa epm fl ml -> free_at (heap_start s) bl x sz ->
  heap_block s x /\ x <> epilogue s /\ get_alloc s x = false /\
  get_size s x = sz.
Proof.
  intros s bl epa epm fl ml x sz W Hf.
  destruct (world_free_at _ _ _ _ _ _ _ _ W Hf)
    as (_ & B2 & _ & [B4 _] & _ & Gs & Ga).
  destruct Hf as (b & Hin & _).
  destruct (layout_split _ _ _ _ Hin) as (L & R & Ebl & Ex).
  split; [|split; [rewrite epilogue_addr; lia|auto]].
  rewrite <- Ex. exact (layout_heap_block s bl epa epm fl ml W L _ Ebl).
Qed.

Lemma heap_block_free_at : forall s bl b,
  tidy s bl -> heap_block s b -> b <> epilogue s -> get_alloc s b = false ->
  free_at (heap_start s) bl b (get_size s b).
Proof.
  intros s bl b ((epa & epm & fl & ml & W & _) & Hh & _) Hb Hne Ha.
  destruct (heap_block_split s bl epa epm fl ml b W Hb Hne)
    as (L & blk & R & Ebl & Eb).
  subst bl b.
  pose proof (layout_mid L blk R (heap_start s)) as Hin.
  destruct (world_fields _ _ _ _ _ _ _ _ W Hin) as (F1 & F2 & _).
  rewrite F1. exists blk. split; [exact Hin|]. split; [|reflexivity].
  apply no_holes_app in Hh as [_ Hh]. apply no_holes_cons in Hh as [Hh _].
  apply not_alloc_free; [exact Hh|congruence].
Qed.

(** ** What the client holds *)

Lemma live_disjoint : forall s live p n q m,
  heap_inv s live -> In (p, n) live -> In (q, m) live -> p <> q ->
  p + n <= q \/ q + m <= p.
Proof.
  intros s live p n q m [F|[bl H]] Hp Hq Hne.
  - destruct F as (_ & _ & _ & E & _). subst live. destruct Hp.
  - apply heap_ok_tidy in H as [((epa & epm & fl & ml & W & _) & _) [_ Hl]].
    destruct (Hl p n Hp) as (_ & sp & Ap & Hsp).
    destruct (Hl q m Hq) as (_ & sq & Aq & Hsq).
    destruct (alloc_at_disjoint bl (heap_start s) (p - 8) sp (q - 8) sq
                ltac:(apply W) Ap Aq) as [[E _]|D]; lia.
Qed.

Lemma live_in_heap : forall s live p n,
  heap_inv s live -> In (p, n) live ->
  p mod 16 = 0 /\ mem_heap_lo s <= p /\ p + n <= mem_heap_hi s /\ 0 <= n.
Proof.
  intros s live p n [F|[bl H]] Hp.
  - destruct F as (_ & _ & _ & E & _). subst live. destruct Hp.
  - apply heap_ok_tidy in H as [T [_ Hl]].
    destruct (Hl p n Hp) as (H0 & sp & Ap & Hsp).
    destruct (tidy_alloc_bounds s bl (p - 8) sp T Ap) as (B1 & B2 & B3 & _).
    destruct T as ((epa & epm & fl & ml & [[Hb _ _ _ _ _] _] & _) & _).
    destruct Hb as (C1 & _).
    unfold mem_heap_lo, mem_heap_hi. repeat split; lia.
Qed.

(** After [free], the block that was freed lies inside a free block. *)
Lemma free_covers : forall fuel s live bp s',
  heap_inv s live -> holds live bp = true -> free fuel s bp = Some s' ->
  exists r, heap_block s' r /\ r <> epilogue s' /\ get_alloc s' r = false /\
            r <= bp - 8 /\ bp - 8 + get_size s (bp - 8) <= r + get_size s' r.
Proof.
  intros fuel s live bp s' H Hh E.
  destruct (holds_in live bp Hh) as [n Hin].
  destruct H as [F|[bl H]].
  { destruct F as (_ & _ & _ & El & _). subst live. destruct Hin. }
  apply heap_ok_tidy in H as [T Hl].
  destruct (proj2 Hl bp n Hin) as (_ & sz & Ha & _).
  destruct (tidy_get_size s bl (bp - 8) sz T Ha) as [Gs _].
  pose proof (free_block_ok fuel s bl (bp - 8) sz T Ha) as FB.
  replace (bp - 8 + 8) with bp in FB by lia.
  destruct FB as (s2 & bl' & E2 & T' & SH & _ & r & rsz & Hf & Hr1 & Hr2).
  { left. rewrite E. discriminate. }
  rewrite E in E2. inversion E2. subst s2.
  destruct T' as ((epa & epm & fl & ml & W & _) & _).
  assert (Hs : heap_start s' = heap_start s) by apply SH.
  rewrite <- Hs in Hf.
  destruct (free_at_heap_block s' bl' epa epm fl ml r rsz W Hf)
    as (B1 & B2 & B3 & B4).
  exists r. rewrite Gs, B4. auto.
Qed.

(** ** Lists are LIFO *)

(** [insert_free] makes the block the head of its list. *)
Lemma insert_free_head : forall s x,
  length (seg_list s) = 14%nat ->
  if get_size s x =? 16 then mini_list (insert_free s x) = x
  else seg_get (insert_free s x) (find_class (get_size s x)) = x.
Proof.
  intros s x Hlen. unfold insert_free, is_mini_block, min_block_size, dsize,
    wsize. change (2 * 8) with 16.
  destruct (get_size s x =? 16).
  - destruct (negb (mini_list s =? NULL)); reflexivity.
  - pose proof (find_class_range (get_size s x)) as Hc.
    destruct (negb (seg_get s (find_class (get_size s x)) =? NULL));
      unfold set_payload_next, set_payload_prev, write;
      change (seg_get (set_mem (set_mem ?a ?m1) ?m2) ?c) with (seg_get a c);
      apply seg_get_set_same; auto; lia.
Qed.

(** Taking a free block off its list and putting it back leaves a tidy
    heap with the same blocks. *)
Lemma remove_insert_ok : forall fuel s bl x sz,
  tidy s bl -> free_at (heap_start s) bl x sz ->
  remove_free fuel s x <> None \/ enough fuel s ->
  exists s1, remove_free fuel s x = Some s1 /\
    tidy (insert_free s1 x) bl /\ same_heap s (insert_free s1 x) /\
    (forall x0, keeps x0 s bl (insert_free s1 x) bl) /\
    get_size s1 x = sz /\ length (seg_list s1) = 14%nat.
Proof.
  intros fuel s bl x sz ((epa & epm & fl & ml & W & Fl) & Hh & Ha)
    (b & Hin & Hst & Hsz) Hrun.
  destruct (layout_split _ _ _ _ Hin) as (L & R & Ebl & Hx).
  subst bl. symmetry in Hx.
  assert (Hrm : exists s1, remove_free fuel s x = Some s1).
  { destruct (remove_free fuel s x) as [s1|] eqn:E; [eauto|].
    destruct Hrun as [Hrun|Hrun]; [congruence|]. rewrite <- E.
    apply (remove_free_total fuel s L b R epa epm fl ml x W Hst Hx).
    apply (mini_list_bound fuel _ _ _ _ _ _ W Hrun). }
  destruct Hrm as [s1 Hrm]. exists s1. split; [exact Hrm|].
  destruct (remove_free_ok fuel s L b R epa epm fl ml x s1 W Hst Hx Hrm)
    as (fl1 & ml1 & W1 & SH1 & _ & K1).
  set (h := mkBlock (b_size b) SHole (b_pa b) (b_pm b)) in *.
  assert (Hs1 : heap_start s1 = heap_start s) by apply SH1.
  destruct (insert_free_ok s1 L h R epa epm fl1 ml1 x W1 eq_refl
              ltac:(rewrite Hs1; exact Hx)) as (fl2 & ml2 & W2 & SH2 & K2).
  assert (Eb : mkBlock (b_size h) SFree (b_pa h) (b_pm h) = b)
    by (destruct b; simpl in *; subst; reflexivity).
  rewrite Eb in W2, K2.
  split; [|split; [apply (same_heap_trans _ s1); assumption|split; [|split]]].
  - split; [|split; assumption]. exists epa, epm, fl2, ml2. auto.
  - intros x0. apply (keeps_trans _ _ _ s1 (L ++ h :: R)); [apply K1|apply K2].
  - assert (Hin1 : In (x, h) (layout (heap_start s1) (L ++ h :: R)))
      by (rewrite Hs1, Hx; apply layout_mid).
    destruct (world_fields _ _ _ _ _ _ _ _ W1 Hin1) as (G & _).
    rewrite G. exact Hsz.
  - apply W1.
Qed.

(** [extend_heap] on an initialised heap, in terms of what the client
    holds. *)
Lemma extend_heap_live : forall fuel s live bl size,
  heap_ok s live bl -> 0 < size -> size + 15 < 2 ^ 64 ->
  extend_heap fuel s size <> None \/ enough fuel s ->
  exists s' r, extend_heap fuel s size = Some (s', r) /\
    ((r = NULL /\ s' = s) \/
     (r <> NULL /\ heap_inv s' live /\ same_region s s' /\
      payloads_kept s s' live /\
      heap_block s' r /\ r <> epilogue s' /\ get_alloc s' r = false /\
      size <= get_size s' r)).
Proof.
  intros fuel s live bl size H Hpos Hov Hrun.
  apply heap_ok_tidy in H as [T Hl].
  destruct (extend_heap_ok fuel s bl size T Hpos Hov Hrun)
    as (s' & r & bl' & E & Hres).
  exists s', r. split; [exact E|].
  destruct Hres as [(R1 & R2 & _)|(T' & G & K & rsz & Hf & Hr & _)]; [auto|].
  right. assert (Hs : heap_start s' = heap_start s) by apply G.
  destruct (live_ok_keeps s s' bl bl' live Hl K Hs) as [Hl' Pk].
  rewrite <- Hs in Hf.
  assert (Hrn : r <> NULL).
  { destruct T' as ((epa & epm & fl & ml & W & _) & _).
    destruct (world_free_at _ _ _ _ _ _ _ _ W Hf) as (B & _).
    unfold NULL. lia. }
  split; [exact Hrn|].
  split; [right; exists bl'; apply heap_ok_tidy; auto|].
  split; [apply same_region_grown; exact G|]. split; [exact Pk|].
  destruct T' as ((epa & epm & fl & ml & W & _) & _).
  destruct (free_at_heap_block s' bl' epa epm fl ml r rsz W Hf)
    as (B1 & B2 & B3 & B4).
  rewrite B4. auto.
Qed.

(** ** Walking back from the block after a free block *)

Lemma find_prev_next : forall s bl b,
  tidy s bl -> heap_block s b -> b <> epilogue s -> get_alloc s b = false ->
  find_prev s (find_next s b) = b /\
  get_prev_alloc s (find_next s b) = false.
Proof.
  intros s bl b ((epa & epm & fl & ml & W & Fl) & Hh & _) Hb Hne Ha.
  destruct (heap_block_split s bl epa epm fl ml b W Hb Hne)
    as (L & blk & R & Ebl & Eb).
  subst bl b.
  pose proof (layout_mid L blk R (heap_start s)) as Hin.
  destruct (world_fields _ _ _ _ _ _ _ _ W Hin) as (F1 & F2 & _).
  assert (Hst : b_st blk = SFree).
  { apply no_holes_app in Hh as [_ Hh]. apply no_holes_cons in Hh as [Hh _].
    apply not_alloc_free; [exact Hh|congruence]. }
  destruct (tidy_next_flags s L blk R epa epm fl ml W Fl) as [N1 N2].
  assert (W' : world s ((L ++ [blk]) ++ R) epa epm fl ml)
    by (rewrite <- app_assoc; exact W).
  assert (Hn : find_next s (end_addr (heap_start s) L)
               = end_addr (heap_start s) (L ++ [blk])).
  { unfold find_next. rewrite F1, end_addr_app. reflexivity. }
  rewrite Hn. split.
  - apply (find_prev_ok s L blk R epa epm fl ml _ W' Hst eq_refl).
    rewrite end_addr_app. exact N2.
  - rewrite end_addr_app. simpl. rewrite N1, Hst. reflexivity.
Qed.

(** ** When malloc fails, and when it does not grow the heap *)






(** * Three small heaps *)

Lemma free_at_one : forall st pa pm x sz,
  free_at 65544 [mkBlock 4096 st pa pm] x sz ->
  x = 65544 /\ sz = 4096 /\ st = SFree.
Proof.
  intros st pa pm x sz H. apply free_at_cons in H as [(E1 & E2 & E3)|H].
  - simpl in *. auto.
  - exfalso. exact (free_at_nil _ _ _ H).
Qed.

Lemma world_hole_state :
  world hole_state [mkBlock 4096 SHole true false] false false
        (fun _ => []) [].
Proof.
  split.
  - constructor.
    + unfold bounds_ok. simpl. repeat split; try lia; reflexivity.
    + constructor; [split; [simpl; lia|reflexivity]|constructor].
    + intros x b [E|[]]. inversion E. subst x b.
      split; [vm_compute; reflexivity|].
      intros _ _. vm_compute. reflexivity.
    + reflexivity.
    + vm_compute. reflexivity.
    + vm_compute. reflexivity.
  - constructor.
    + reflexivity.
    + intros c _. simpl. apply seg_get_repeat. reflexivity.
    + intros c x _. split; [intros []|].
      intros (sz & Hf & _). apply free_at_one in Hf as (_ & _ & C).
      discriminate.
    + intros c _. constructor.
    + reflexivity.
    + intros x. split; [intros []|].
      intros Hf. apply free_at_one in Hf as (_ & _ & C). discriminate.
    + constructor.
Qed.

Lemma world_alloc_state :
  world alloc_state [mkBlock 4096 SAlloc true false] true false
        (fun _ => []) [].
Proof.
  split.
  - constructor.
    + unfold bounds_ok. simpl. repeat split; try lia; reflexivity.
    + constructor; [split; [simpl; lia|reflexivity]|constructor].
    + intros x b [E|[]]. inversion E. subst x b.
      split; [vm_compute; reflexivity|].
      intros C. discriminate.
    + reflexivity.
    + vm_compute. reflexivity.
    + vm_compute. reflexivity.
  - constructor.
    + reflexivity.
    + intros c _. simpl. apply seg_get_repeat. reflexivity.
    + intros c x _. split; [intros []|].
      intros (sz & Hf & _). apply free_at_one in Hf as (_ & _ & C).
      discriminate.
    + intros c _. constructor.
    + reflexivity.
    + intros x. split; [intros []|].
      intros Hf. apply free_at_one in Hf as (_ & _ & C). discriminate.
    + constructor.
Qed.

Lemma class_cases : forall c,
  0 <= c < 14 ->
  c = 0 \/ c = 1 \/ c = 2 \/ c = 3 \/ c = 4 \/ c = 5 \/ c = 6 \/ c = 7 \/
  c = 8 \/ c = 9 \/ c = 10 \/ c = 11 \/ c = 12 \/ c = 13.
Proof. intros c H. lia. Qed.

Lemma world_listed_state :
  world listed_state [mkBlock 4096 SFree true false] false false
        bucket_4096 [].
Proof.
  assert (Hhs : heap_start listed_state = 65544) by (vm_compute; reflexivity).
  split.
  - constructor.
    + unfold bounds_ok.
      repeat split; vm_compute; try reflexivity; discriminate.
    + constructor; [split; [simpl; lia|reflexivity]|constructor].
    + rewrite Hhs. intros x b [E|[]]. inversion E. subst x b.
      split; [vm_compute; reflexivity|].
      intros _ _. vm_compute. reflexivity.
    + vm_compute. reflexivity.
    + vm_compute. reflexivity.
    + vm_compute. reflexivity.
  - constructor.
    + vm_compute. reflexivity.
    + intros c Hc. apply class_cases in Hc.
      repeat (destruct Hc as [Hc|Hc]; [subst c; vm_compute; auto|]).
      subst c. vm_compute. auto.
    + rewrite Hhs. intros c x Hc. unfold bucket_4096. split.
      * destruct (Z.eqb_spec c 9) as [E|E]; [|intros []].
        intros [Ex|[]]. subst c x. exists 4096.
        split; [|split; [lia|reflexivity]].
        exists (mkBlock 4096 SFree true false). simpl. auto.
      * intros (sz & Hf & _ & Hcl).
        apply free_at_one in Hf as (E1 & E2 & _). subst x sz.
        change (find_class 4096) with 9 in Hcl. subst c. left. reflexivity.
    + intros c _. unfold bucket_4096.
      destruct (c =? 9); repeat constructor. intros [].
    + vm_compute. reflexivity.
    + rewrite Hhs. intros x. split; [intros []|].
      intros Hf. apply free_at_one in Hf as (_ & C & _). discriminate.
    + constructor.
Qed.

(** * Further properties of the code *)

(** ** Boundary words *)

(** X1: a header written with [pack_all] reads back field by field: the
    size, the allocation bit and the two flags about the block before,
    for every size that is a multiple of 16 below 2^64. *)
Theorem header_round_trip : forall s block size a pa pm,
  0 <= size < 2 ^ 64 -> size mod 16 = 0 ->
  let s' := write s block (pack_all size a pa pm) in
  get_size s' block = size /\ get_alloc s' block = a /\
  get_prev_alloc s' block = pa /\ get_prev_mini s' block = pm.
Proof.
  intros s block size a pa pm Hs Hm s'.
  unfold get_size, get_alloc, get_prev_alloc, get_prev_mini, header, read, s',
    write. simpl mem.
  rewrite load64_store64_same by (apply pack_all_range; assumption).
  split; [apply extract_size_pack; assumption|].
  split; [apply extract_alloc_pack; assumption|].
  split; [apply prev_alloc_pack; assumption|apply prev_mini_pack; assumption].
Qed.

Lemma header_round_trip_witness :
  let s' := write demo_boot 65544 (pack_all 4096 false true false) in
  get_size s' 65544 = 4096 /\ get_alloc s' 65544 = false /\
  get_prev_alloc s' 65544 = true /\ get_prev_mini s' 65544 = false.
Proof.
  apply (header_round_trip demo_boot 65544 4096 false true false).
  - lia.
  - reflexivity.
Defined.

(** X2: [round_up size 16] is the least multiple of 16 that is not below
    [size], as long as [size + 15] does not overflow. *)
Theorem round_up_multiple : forall size,
  0 <= size -> size + 15 < 2 ^ 64 ->
  round_up size dsize mod 16 = 0 /\
  size <= round_up size dsize < size + 16.
Proof. exact round_up_ok. Qed.

Lemma round_up_multiple_witness :
  round_up 33 dsize mod 16 = 0 /\ 33 <= round_up 33 dsize < 33 + 16.
Proof. apply (round_up_multiple 33); lia. Defined.

(** X3: [find_class] maps every size to a bucket index in 0..13 and is
    monotone: a larger size never goes to a lower bucket. *)
Theorem find_class_monotone : forall a b,
  a <= b ->
  0 <= find_class a <= 13 /\ find_class a <= find_class b.
Proof.
  intros a b H. split; [apply find_class_range|apply find_class_mono; exact H].
Qed.

Lemma find_class_monotone_witness :
  0 <= find_class 48 <= 13 /\ find_class 48 <= find_class 4096.
Proof. apply (find_class_monotone 48 4096). lia. Defined.

(** X4: [write_pack] writes the header, and for a free block that is not
    a mini block the same word as footer in the last word of the block;
    it changes no byte outside the block, and for an allocated block no
    byte outside the header. *)
Theorem write_pack_words : forall s x size alloc pa pm,
  16 <= size < 2 ^ 63 -> size mod 16 = 0 ->
  let s' := write_pack s x size alloc pa pm in
  read s' x = pack_all size alloc pa pm /\
  (alloc = false -> size <> 16 ->
   read s' (x + size - 8) = pack_all size alloc pa pm) /\
  (forall y, y < x \/ x + size <= y -> mem s' y = mem s y) /\
  (alloc = true -> forall y, y < x \/ x + 8 <= y -> mem s' y = mem s y).
Proof.
  intros s x size alloc pa pm Hs Hm s'.
  assert (Hso : size_ok size) by (split; lia).
  destruct alloc.
  - destruct (write_pack_block s x size SAlloc pa pm Hso ltac:(lia))
      as ([Hh _] & Ho & Ha).
    simpl is_alloc in *. fold s' in Hh, Ho, Ha.
    split; [exact Hh|]. split; [discriminate|].
    split; [exact Ho|]. intros _. exact (Ha eq_refl).
  - destruct (write_pack_block s x size SFree pa pm Hso ltac:(lia))
      as ([Hh Hf] & Ho & _).
    simpl is_alloc in *. fold s' in Hh, Hf, Ho.
    split; [exact Hh|]. split; [|split; [exact Ho|discriminate]].
    intros _ H16. exact (Hf eq_refl H16).
Qed.

Lemma write_pack_words_witness :
  let s' := write_pack demo_boot 65544 4096 false true false in
  read s' 65544 = pack_all 4096 false true false /\
  (false = false -> 4096 <> 16 ->
   read s' (65544 + 4096 - 8) = pack_all 4096 false true false) /\
  (forall y, y < 65544 \/ 65544 + 4096 <= y ->
             mem s' y = mem demo_boot y) /\
  (false = true -> forall y, y < 65544 \/ 65544 + 8 <= y ->
                             mem s' y = mem demo_boot y).
Proof.
  apply (write_pack_words demo_boot 65544 4096 false true false).
  - lia.
  - reflexivity.
Defined.

(** ** Reachable states *)

Lemma mixed_reachable :
  reachable no_wrap (state_after trace_mixed) (live_after trace_mixed).
Proof. apply reachable_after; [reflexivity|vm_compute; reflexivity]. Qed.

Lemma mixed_enough : enough (Z.to_nat 1000001) (state_after trace_mixed).
Proof.
  assert (E : mem_max_addr (state_after trace_mixed) = 1000000)
    by (vm_compute; reflexivity).
  unfold enough. rewrite E. lia.
Qed.

Lemma mixed_live :
  live_after trace_mixed = [(65584, 16); (65616, 40); (65552, 24)].
Proof. vm_compute. reflexivity. Qed.

(** X5: in every state reached by well-formed calls whose size adjustment
    does not wrap around, no block that the heap walk visits is free
    together with its right neighbour. *)
Theorem reachable_no_adjacent_free : forall s live,
  reachable no_wrap s live -> no_adjacent_free s.
Proof.
  intros s live R. apply (inv_no_adjacent_free s live).
  apply reachable_inv. exact R.
Qed.

Lemma reachable_no_adjacent_free_witness :
  no_adjacent_free (state_after trace_mixed).
Proof.
  apply (reachable_no_adjacent_free (state_after trace_mixed)
           (live_after trace_mixed)).
  exact mixed_reachable.
Defined.

(** X6: in every such state the header after each block, the epilogue
    included, records whether that block is allocated and whether it is
    a mini block. *)
Theorem reachable_flags_agree : forall s live,
  reachable no_wrap s live -> flags_agree s.
Proof.
  intros s live R. apply (inv_flags_agree s live).
  apply reachable_inv. exact R.
Qed.

Lemma reachable_flags_agree_witness : flags_agree (state_after trace_mixed).
Proof.
  apply (reachable_flags_agree (state_after trace_mixed)
           (live_after trace_mixed)).
  exact mixed_reachable.
Defined.

(** X7: in every such state the bucket of class 0 is empty: blocks of 16
    bytes go to the mini list and no other size falls in that class. *)
Theorem reachable_bucket0_empty : forall s live,
  reachable no_wrap s live -> bucket0_empty s.
Proof.
  intros s live R. apply (inv_bucket0_empty s live).
  apply reachable_inv. exact R.
Qed.

Lemma reachable_bucket0_empty_witness :
  bucket0_empty (state_after trace_mixed).
Proof.
  apply (reachable_bucket0_empty (state_after trace_mixed)
           (live_after trace_mixed)).
  exact mixed_reachable.
Defined.

(** X8: in every such state with an initialised heap the allocator's own
    checker [mm_checkheap] returns [true], given fuel for its loops:
    prologue and epilogue, alignment, bounds, block sizes, matching
    header and footer, no two free neighbours, and the links and classes
    of every bucket. *)
Theorem reachable_checkheap : forall fuel s live line,
  reachable no_wrap s live -> heap_start s <> NULL -> enough fuel s ->
  mm_checkheap fuel s line = Some true.
Proof.
  intros fuel s live line R Hs He.
  apply (inv_checkheap fuel s live line); auto.
  apply reachable_inv. exact R.
Qed.

Lemma reachable_checkheap_witness :
  mm_checkheap (Z.to_nat 1000001) (state_after trace_mixed) 0 = Some true.
Proof.
  apply (reachable_checkheap (Z.to_nat 1000001) (state_after trace_mixed)
           (live_after trace_mixed) 0).
  - exact mixed_reachable.
  - vm_compute. discriminate.
  - exact mixed_enough.
Defined.

(** X9: in every such state every well-formed call that does not wrap
    returns, given fuel for the loops over the free lists, and leaves the
    provider's region as it was. *)
Theorem reachable_call_returns : forall fuel s live c,
  reachable no_wrap s live ->
  call_wf live c = true -> call_args c = true -> no_wrap c = true ->
  enough fuel s ->
  exists s' live' r, exec fuel s live c = Some (s', live', r) /\
                     same_region s s'.
Proof.
  intros fuel s live c R Hwf Ha Hnw He.
  destruct (exec_ok fuel s live c (reachable_inv s live R) Hwf Ha Hnw
              (or_intror He)) as (s' & live' & r & E & _ & Hr).
  eauto.
Qed.

Lemma reachable_call_returns_witness :
  exists s' live' r,
    exec (Z.to_nat 1000001) (state_after trace_mixed)
         (live_after trace_mixed) (Realloc 65616 100) = Some (s', live', r) /\
    same_region (state_after trace_mixed) s'.
Proof.
  apply (reachable_call_returns (Z.to_nat 1000001) (state_after trace_mixed)
           (live_after trace_mixed) (Realloc 65616 100)).
  - exact mixed_reachable.
  - rewrite mixed_live. reflexivity.
  - reflexivity.
  - reflexivity.
  - exact mixed_enough.
Defined.

(** ** The public interface on reachable states *)



(** X11: [free] of [NULL] changes nothing; [free] of a pointer the client
    holds returns (given fuel), keeps every byte of the other allocations,
    and leaves the freed block inside a free block of the heap. *)
Theorem free_reachable : forall fuel s live bp,
  reachable no_wrap s live -> bp = NULL \/ holds live bp = true ->
  free fuel s bp <> None \/ enough fuel s ->
  exists s', free fuel s bp = Some s' /\
    same_region s s' /\ payloads_kept s s' (drop_live bp live) /\
    (bp = NULL -> s' = s) /\
    (bp <> NULL ->
     exists r, heap_block s' r /\ r <> epilogue s' /\
               get_alloc s' r = false /\ r <= bp - 8 /\
               bp - 8 + get_size s (bp - 8) <= r + get_size s' r).
Proof.
  intros fuel s live bp R Hwf Hrun.
  pose proof (reachable_inv s live R) as Hi.
  assert (Hwf' : (bp =? NULL) || holds live bp = true).
  { destruct Hwf as [E|E]; [subst bp; reflexivity|].
    rewrite E. apply orb_true_r. }
  destruct (free_ok fuel s live bp Hi Hwf' Hrun)
    as (s' & E & _ & Hr & Pk & Hn).
  exists s'. split; [exact E|]. split; [exact Hr|]. split; [exact Pk|].
  split; [exact Hn|]. intros Hne.
  destruct Hwf as [C|Hh]; [contradiction|].
  exact (free_covers fuel s live bp s' Hi Hh E).
Qed.

Lemma free_reachable_witness :
  exists s', free (Z.to_nat 1000001) (state_after trace_mixed) 65616
             = Some s' /\
    same_region (state_after trace_mixed) s' /\
    payloads_kept (state_after trace_mixed) s'
                  (drop_live 65616 (live_after trace_mixed)) /\
    (65616 = NULL -> s' = state_after trace_mixed) /\
    (65616 <> NULL ->
     exists r, heap_block s' r /\ r <> epilogue s' /\
               get_alloc s' r = false /\ r <= 65616 - 8 /\
               65616 - 8 + get_size (state_after trace_mixed) (65616 - 8)
               <= r + get_size s' r).
Proof.
  apply (free_reachable (Z.to_nat 1000001) (state_after trace_mixed)
           (live_after trace_mixed) 65616).
  - exact mixed_reachable.
  - right. rewrite mixed_live. reflexivity.
  - right. exact mixed_enough.
Defined.





(** X14: what the client holds in a reachable state are regions that are
    16-byte aligned, lie inside the committed heap, and do not overlap
    one another. *)
Theorem live_allocations_apart : forall s live p n,
  reachable no_wrap s live -> In (p, n) live ->
  p mod 16 = 0 /\ mem_heap_lo s <= p /\ p + n <= mem_heap_hi s /\
  forall q m, In (q, m) live -> q <> p -> p + n <= q \/ q + m <= p.
Proof.
  intros s live p n R Hin.
  pose proof (reachable_inv s live R) as Hi.
  destruct (live_in_heap s live p n Hi Hin) as (H1 & H2 & H3 & _).
  split; [exact H1|]. split; [exact H2|]. split; [exact H3|].
  intros q m Hq Hne.
  apply (live_disjoint s live p n q m Hi Hin Hq). auto.
Qed.

Lemma live_allocations_apart_witness :
  65616 mod 16 = 0 /\ mem_heap_lo (state_after trace_mixed) <= 65616 /\
  65616 + 40 <= mem_heap_hi (state_after trace_mixed) /\
  forall q m, In (q, m) (live_after trace_mixed) -> q <> 65616 ->
              65616 + 40 <= q \/ q + m <= 65616.
Proof.
  apply (live_allocations_apart (state_after trace_mixed)
           (live_after trace_mixed) 65616 40).
  - exact mixed_reachable.
  - rewrite mixed_live. right. left. reflexivity.
Defined.

(** ** The functions behind the interface, on reachable states *)

Lemma reachable_heap_ok : forall s live,
  reachable no_wrap s live -> heap_start s <> NULL ->
  exists bl, heap_ok s live bl.
Proof.
  intros s live R Hs.
  destruct (heap_inv_cases s live (reachable_inv s live R))
    as [[E _]|[_ H]]; [contradiction|exact H].
Qed.

(** X15: on an initialised reachable state [find_fit] returns (given
    fuel); a result that is not [NULL] is a free block of the heap of at
    least [asize] bytes, and the result is [NULL] only when no free block
    of the heap has [asize] bytes. *)
Theorem find_fit_reachable : forall fuel s live asize,
  reachable no_wrap s live -> heap_start s <> NULL -> 16 <= asize ->
  find_fit fuel s asize <> None \/ enough fuel s ->
  exists r, find_fit fuel s asize = Some r /\
    (r <> NULL ->
     heap_block s r /\ r <> epilogue s /\ get_alloc s r = false /\
     asize <= get_size s r) /\
    (r = NULL ->
     forall b, heap_block s b -> b <> epilogue s -> get_alloc s b = false ->
               get_size s b < asize).
Proof.
  intros fuel s live asize R Hs Ha Hrun.
  destruct (reachable_heap_ok s live R Hs) as [bl H].
  apply heap_ok_tidy in H as [T _].
  pose proof T as ((epa & epm & fl & ml & W & _) & _).
  destruct (find_fit_ok fuel s bl epa epm fl ml asize W Hrun)
    as (r & E & Hfit).
  exists r. split; [exact E|]. split.
  - intros Hne. destruct Hfit as [C|(sz & Hf & Hsz)]; [contradiction|].
    destruct (free_at_heap_block s bl epa epm fl ml r sz W Hf)
      as (B1 & B2 & B3 & B4).
    rewrite B4. auto.
  - intros En b Hb Hne Hal.
    destruct (Z.lt_ge_cases (get_size s b) asize) as [Hlt|Hge]; [exact Hlt|].
    exfalso.
    pose proof (heap_block_free_at s bl b T Hb Hne Hal) as Hf.
    apply (find_fit_finds fuel s bl epa epm fl ml asize b (get_size s b) r
             W Hf ltac:(lia) E). exact En.
Qed.

Lemma find_fit_reachable_witness :
  exists r, find_fit (Z.to_nat 1000001) (state_after trace_mixed) 32 = Some r /\
    (r <> NULL ->
     heap_block (state_after trace_mixed) r /\
     r <> epilogue (state_after trace_mixed) /\
     get_alloc (state_after trace_mixed) r = false /\
     32 <= get_size (state_after trace_mixed) r) /\
    (r = NULL ->
     forall b, heap_block (state_after trace_mixed) b ->
               b <> epilogue (state_after trace_mixed) ->
               get_alloc (state_after trace_mixed) b = false ->
               get_size (state_after trace_mixed) b < 32).
Proof.
  apply (find_fit_reachable (Z.to_nat 1000001) (state_after trace_mixed)
           (live_after trace_mixed) 32).
  - exact mixed_reachable.
  - vm_compute. discriminate.
  - lia.
  - right. exact mixed_enough.
Defined.

(** X16: on an initialised reachable state [extend_heap] either fails,
    returning [NULL] with the state as it was, or returns a free block of
    the heap of at least [size] bytes, keeps every byte the client holds
    and leaves a heap that the checker accepts, with flags that agree and
    no two free neighbours. *)
Theorem extend_heap_reachable : forall fuel s live size line,
  reachable no_wrap s live -> heap_start s <> NULL ->
  0 < size -> size + 15 < 2 ^ 64 -> enough fuel s ->
  exists s' r, extend_heap fuel s size = Some (s', r) /\
    ((r = NULL /\ s' = s) \/
     (r <> NULL /\ same_region s s' /\ payloads_kept s s' live /\
      heap_block s' r /\ r <> epilogue s' /\ get_alloc s' r = false /\
      size <= get_size s' r /\
      mm_checkheap fuel s' line = Some true /\
      flags_agree s' /\ no_adjacent_free s')).
Proof.
  intros fuel s live size line R Hs Hpos Hov He.
  destruct (reachable_heap_ok s live R Hs) as [bl H].
  destruct (extend_heap_live fuel s live bl size H Hpos Hov (or_intror He))
    as (s' & r & E & Hres).
  exists s', r. split; [exact E|].
  destruct Hres as [Hn|(Hrn & Hi & Hr & Pk & B1 & B2 & B3 & B4)]; [auto|].
  right.
  destruct (heap_inv_cases s' live Hi) as [[E0 F]|[Hs' _]].
  { exfalso. exact (fresh_no_block s' live r F B1). }
  split; [exact Hrn|]. split; [exact Hr|]. split; [exact Pk|].
  split; [exact B1|]. split; [exact B2|]. split; [exact B3|].
  split; [exact B4|]. split; [|split].
  - apply (inv_checkheap fuel s' live line Hi Hs').
    apply (enough_region fuel s s' Hr He).
  - exact (inv_flags_agree s' live Hi).
  - exact (inv_no_adjacent_free s' live Hi).
Qed.

Lemma extend_heap_reachable_witness :
  exists s' r, extend_heap (Z.to_nat 1000001) (state_after trace_mixed) 4096
               = Some (s', r) /\
    ((r = NULL /\ s' = state_after trace_mixed) \/
     (r <> NULL /\ same_region (state_after trace_mixed) s' /\
      payloads_kept (state_after trace_mixed) s' (live_after trace_mixed) /\
      heap_block s' r /\ r <> epilogue s' /\ get_alloc s' r = false /\
      4096 <= get_size s' r /\
      mm_checkheap (Z.to_nat 1000001) s' 0 = Some true /\
      flags_agree s' /\ no_adjacent_free s')).
Proof.
  apply (extend_heap_reachable (Z.to_nat 1000001) (state_after trace_mixed)
           (live_after trace_mixed) 4096 0).
  - exact mixed_reachable.
  - vm_compute. discriminate.
  - lia.
  - lia.
  - exact mixed_enough.
Defined.

(** X17: [mm_init] on the state before the first call returns (given
    fuel); it either reports failure with the state as it was, or leaves
    an initialised heap, starting 8 bytes above the base of the region,
    that the checker accepts; when it reports success the heap holds a
    free block of at least [chunksize] bytes. *)
Theorem mm_init_boot : forall fuel m lo mx line,
  provider_ok lo mx -> enough fuel (boot m lo mx) ->
  exists s' ok, mm_init fuel (boot m lo mx) = Some (s', ok) /\
    same_region (boot m lo mx) s' /\
    ((ok = false /\ s' = boot m lo mx) \/
     (heap_start s' = lo + 8 /\
      mm_checkheap fuel s' line = Some true /\ flags_agree s' /\
      (ok = true ->
       exists r, heap_block s' r /\ r <> epilogue s' /\
                 get_alloc s' r = false /\ 4096 <= get_size s' r))).
Proof.
  intros fuel m lo mx line Hp He.
  destruct (mm_init_ok fuel (boot m lo mx) (boot_fresh m lo mx Hp)
              (or_intror He)) as (s' & ok & E & Hres).
  exists s', ok. split; [exact E|].
  destruct Hres as [(E1 & E2)|(bl & T & R1 & R2 & Hok)].
  - subst s'. split; [split; reflexivity|]. left. auto.
  - split; [split; assumption|]. right.
    assert (Hi : heap_inv s' []).
    { right. exists bl. apply heap_ok_tidy. split; [exact T|].
      split; [constructor|intros p n []]. }
    pose proof T as ((epa & epm & fl & ml & W & _) & _).
    pose proof W as [[Hb _ _ _ _ _] _].
    destruct Hb as (B1 & B2 & B3 & _).
    assert (Hs : heap_start s' = lo + 8) by (rewrite B3, R1; reflexivity).
    split; [exact Hs|]. split; [|split].
    + apply (inv_checkheap fuel s' [] line Hi).
      * rewrite Hs. unfold NULL. destruct Hp. lia.
      * unfold enough in *. rewrite R2. exact He.
    + exact (inv_flags_agree s' [] Hi).
    + intros Eok. destruct (Hok Eok) as (r & rsz & Hf & Hr).
      destruct (free_at_heap_block s' bl epa epm fl ml r rsz W Hf)
        as (C1 & C2 & C3 & C4).
      exists r. rewrite C4. auto.
Qed.

Lemma mm_init_boot_witness :
  exists s' ok,
    mm_init (Z.to_nat 1000001) (boot zero_memory 65536 1000000)
    = Some (s', ok) /\
    same_region (boot zero_memory 65536 1000000) s' /\
    ((ok = false /\ s' = boot zero_memory 65536 1000000) \/
     (heap_start s' = 65536 + 8 /\
      mm_checkheap (Z.to_nat 1000001) s' 0 = Some true /\ flags_agree s' /\
      (ok = true ->
       exists r, heap_block s' r /\ r <> epilogue s' /\
                 get_alloc s' r = false /\ 4096 <= get_size s' r))).
Proof.
  apply (mm_init_boot (Z.to_nat 1000001) zero_memory 65536 1000000 0).
  - unfold provider_ok. repeat split; try lia; reflexivity.
  - unfold enough. simpl mem_max_addr. lia.
Defined.

(** X18: taking a free block of a reachable heap off its list with
    [remove_free] and putting it back with [insert_free] returns (given
    fuel), keeps every byte the client holds and leaves a heap that the
    checker accepts; the block is then the head of its list (the lists
    are LIFO). *)
Theorem remove_insert_round_trip : forall fuel s live x line,
  reachable no_wrap s live ->
  heap_block s x -> x <> epilogue s -> get_alloc s x = false ->
  enough fuel s ->
  exists s1, remove_free fuel s x = Some s1 /\
    same_region s (insert_free s1 x) /\
    payloads_kept s (insert_free s1 x) live /\
    mm_checkheap fuel (insert_free s1 x) line = Some true /\
    flags_agree (insert_free s1 x) /\
    (if get_size s x =? 16 then mini_list (insert_free s1 x) = x
     else seg_get (insert_free s1 x) (find_class (get_size s x)) = x).
Proof.
  intros fuel s live x line R Hb Hne Hal He.
  destruct (heap_inv_cases s live (reachable_inv s live R))
    as [[_ F]|[Hs [bl H]]].
  { exfalso. exact (fresh_no_block s live x F Hb). }
  apply heap_ok_tidy in H as [T Hl].
  pose proof (heap_block_free_at s bl x T Hb Hne Hal) as Hf.
  destruct (remove_insert_ok fuel s bl x (get_size s x) T Hf (or_intror He))
    as (s1 & E & T2 & SH & K & Gs & Hlen).
  exists s1. split; [exact E|].
  assert (Hs2 : heap_start (insert_free s1 x) = heap_start s) by apply SH.
  destruct (live_ok_keeps s (insert_free s1 x) bl bl live Hl K Hs2)
    as [Hl2 Pk].
  assert (Hi : heap_inv (insert_free s1 x) live)
    by (right; exists bl; apply heap_ok_tidy; auto).
  assert (Hr : same_region s (insert_free s1 x))
    by (destruct SH as (_ & _ & E1 & E2); split; assumption).
  split; [exact Hr|]. split; [exact Pk|]. split; [|split].
  - apply (inv_checkheap fuel _ live line Hi).
    + rewrite Hs2. exact Hs.
    + exact (enough_region fuel s _ Hr He).
  - exact (inv_flags_agree _ live Hi).
  - pose proof (insert_free_head s1 x Hlen) as Hh. rewrite Gs in Hh.
    exact Hh.
Qed.

Lemma mixed_free_block : heap_block (state_after trace_mixed) 65656.
Proof.
  pose proof (heap_block_first_demo trace_mixed) as H0.
  assert (H1 := hb_next _ _ (H0 ltac:(vm_compute; reflexivity))
                  ltac:(vm_compute; discriminate)).
  replace (find_next (state_after trace_mixed) 65544) with 65576 in H1
    by (vm_compute; reflexivity).
  assert (H2 := hb_next _ _ H1 ltac:(vm_compute; discriminate)).
  replace (find_next (state_after trace_mixed) 65576) with 65608 in H2
    by (vm_compute; reflexivity).
  assert (H3 := hb_next _ _ H2 ltac:(vm_compute; discriminate)).
  replace (find_next (state_after trace_mixed) 65608) with 65656 in H3
    by (vm_compute; reflexivity).
  exact H3.
Qed.

Lemma remove_insert_round_trip_witness :
  exists s1,
    remove_free (Z.to_nat 1000001) (state_after trace_mixed) 65656 = Some s1 /\
    same_region (state_after trace_mixed) (insert_free s1 65656) /\
    payloads_kept (state_after trace_mixed) (insert_free s1 65656)
                  (live_after trace_mixed) /\
    mm_checkheap (Z.to_nat 1000001) (insert_free s1 65656) 0 = Some true /\
    flags_agree (insert_free s1 65656) /\
    (if get_size (state_after trace_mixed) 65656 =? 16
     then mini_list (insert_free s1 65656) = 65656
     else seg_get (insert_free s1 65656)
                  (find_class (get_size (state_after trace_mixed) 65656))
          = 65656).
Proof.
  apply (remove_insert_round_trip (Z.to_nat 1000001)
           (state_after trace_mixed) (live_after trace_mixed) 65656 0).
  - exact mixed_reachable.
  - exact mixed_free_block.
  - vm_compute. discriminate.
  - vm_compute. reflexivity.
  - exact mixed_enough.
Defined.

(** ** The list and block operations on a consistent heap *)

(** X19: when the heap is consistent except that the block at [x] is on
    no list and the flags after it may be stale, [coalesce_block] returns
    (given fuel for the mini list) a free block that starts at or before
    [x] and covers the block at [x]; the heap it leaves is consistent, on
    its lists, with flags that agree and no two free neighbours, and
    every allocated block and its payload is as before. *)
Theorem coalesce_block_merges : forall fuel s L h R epa epm fl ml,
  coalesce_pre s L h R epa epm fl ml ->
  let x := end_addr (heap_start s) L in
  coalesce_block fuel s x <> None \/ (length ml < fuel)%nat ->
  exists s' r bl', coalesce_block fuel s x = Some (s', r) /\
    coalesced s (L ++ h :: R) x (b_size h) s' r bl'.
Proof. exact coalesce_run. Qed.

Lemma hole_state_pre :
  coalesce_pre hole_state [] (mkBlock 4096 SHole true false) []
               false false (fun _ => []) [].
Proof.
  constructor.
  - exact world_hole_state.
  - reflexivity.
  - simpl. auto.
  - exists false, false. simpl. auto.
  - constructor.
  - constructor.
  - exact I.
  - exact I.
Qed.

Lemma coalesce_block_merges_witness :
  exists s' r bl', coalesce_block 1 hole_state 65544 = Some (s', r) /\
    coalesced hole_state [mkBlock 4096 SHole true false] 65544 4096 s' r bl'.
Proof.
  apply (coalesce_block_merges 1 hole_state [] (mkBlock 4096 SHole true false)
           [] false false (fun _ => []) [] hole_state_pre).
  right. simpl. lia.
Defined.

(** X20: [insert_free] of a block that is on no list puts it on the list
    of its size (the heap is then consistent with the block listed as
    free), moves no heap boundary and keeps every allocated block and its
    payload. *)
Theorem insert_free_lists : forall s l1 b l2 epa epm fl ml x,
  world s (l1 ++ b :: l2) epa epm fl ml ->
  b_st b = SHole -> x = end_addr (heap_start s) l1 ->
  exists fl' ml',
    world (insert_free s x)
          (l1 ++ mkBlock (b_size b) SFree (b_pa b) (b_pm b) :: l2)
          epa epm fl' ml' /\
    same_heap s (insert_free s x) /\
    forall x0, keeps x0 s (l1 ++ b :: l2) (insert_free s x)
                 (l1 ++ mkBlock (b_size b) SFree (b_pa b) (b_pm b) :: l2).
Proof. exact insert_free_ok. Qed.

Lemma insert_free_lists_witness :
  exists fl' ml',
    world (insert_free hole_state 65544)
          ([] ++ [mkBlock 4096 SFree true false]) false false fl' ml' /\
    same_heap hole_state (insert_free hole_state 65544) /\
    forall x0, keeps x0 hole_state ([] ++ [mkBlock 4096 SHole true false])
                 (insert_free hole_state 65544)
                 ([] ++ [mkBlock 4096 SFree true false]).
Proof.
  apply (insert_free_lists hole_state [] (mkBlock 4096 SHole true false) []
           false false (fun _ => []) [] 65544).
  - exact world_hole_state.
  - reflexivity.
  - reflexivity.
Defined.

(** X21: [remove_free] of a listed free block returns (given fuel for the
    mini list) and takes the block off its list: the heap is consistent
    with the block on no list, the mini list is no longer than before, no
    heap boundary moves and every allocated block and its payload is as
    before. *)
Theorem remove_free_unlists : forall fuel s l1 b l2 epa epm fl ml x,
  world s (l1 ++ b :: l2) epa epm fl ml ->
  b_st b = SFree -> x = end_addr (heap_start s) l1 ->
  remove_free fuel s x <> None \/ (length ml < fuel)%nat ->
  exists s' fl' ml',
    remove_free fuel s x = Some s' /\
    world s' (l1 ++ mkBlock (b_size b) SHole (b_pa b) (b_pm b) :: l2)
          epa epm fl' ml' /\
    same_heap s s' /\ (length ml' <= length ml)%nat /\
    forall x0, keeps x0 s (l1 ++ b :: l2) s'
                 (l1 ++ mkBlock (b_size b) SHole (b_pa b) (b_pm b) :: l2).
Proof.
  intros fuel s l1 b l2 epa epm fl ml x W Hst Hx Hrun.
  assert (Hrm : exists s', remove_free fuel s x = Some s').
  { destruct (remove_free fuel s x) as [s'|] eqn:E; [eauto|].
    destruct Hrun as [Hrun|Hrun]; [congruence|]. rewrite <- E.
    exact (remove_free_total fuel s l1 b l2 epa epm fl ml x W Hst Hx Hrun). }
  destruct Hrm as [s' Hrm]. exists s'.
  destruct (remove_free_ok fuel s l1 b l2 epa epm fl ml x s' W Hst Hx Hrm)
    as (fl' & ml' & H).
  exists fl', ml'. split; [exact Hrm|exact H].
Qed.

Lemma remove_free_unlists_witness :
  exists s' fl' ml',
    remove_free 1 listed_state 65544 = Some s' /\
    world s' ([] ++ [mkBlock 4096 SHole true false]) false false fl' ml' /\
    same_heap listed_state s' /\ (length ml' <= length (@nil Z))%nat /\
    forall x0, keeps x0 listed_state ([] ++ [mkBlock 4096 SFree true false])
                 s' ([] ++ [mkBlock 4096 SHole true false]).
Proof.
  apply (remove_free_unlists 1 listed_state [] (mkBlock 4096 SFree true false)
           [] false false bucket_4096 [] 65544).
  - exact world_listed_state.
  - reflexivity.
  - vm_compute. reflexivity.
  - right. simpl. lia.
Defined.

(** X22: [split_block] on an allocated block of a consistent heap, for an
    [asize] that is a block size not above the block's: when fewer than 16
    bytes would be left it returns [NULL] and the state as it was;
    otherwise it returns the address [asize] bytes further, and the heap
    is consistent with an allocated block of [asize] bytes followed by a
    free block, on no list yet, that holds the rest and whose flags say
    that the block before it is allocated and whether it is a mini block;
    no other allocated block changes. *)
Theorem split_block_splits : forall s L a R epa epm fl ml asize,
  world s (L ++ a :: R) epa epm fl ml -> b_st a = SAlloc ->
  size_ok asize -> asize <= b_size a ->
  let x := end_addr (heap_start s) L in
  let a' := mkBlock asize SAlloc (b_pa a) (b_pm a) in
  let h' := mkBlock (b_size a - asize) SHole true (asize =? 16) in
  (b_size a - asize < 16 /\ split_block s x asize = (s, NULL)) \/
  (16 <= b_size a - asize /\
   exists s', split_block s x asize = (s', x + asize) /\
     world s' (L ++ a' :: h' :: R) epa epm fl ml /\ same_heap s s' /\
     keeps x s (L ++ a :: R) s' (L ++ a' :: h' :: R)).
Proof. exact split_block_ok. Qed.

Lemma split_block_splits_witness :
  (4096 - 32 < 16 /\ split_block alloc_state 65544 32 = (alloc_state, NULL)) \/
  (16 <= 4096 - 32 /\
   exists s', split_block alloc_state 65544 32 = (s', 65544 + 32) /\
     world s' ([] ++ mkBlock 32 SAlloc true false
                 :: mkBlock (4096 - 32) SHole true (32 =? 16) :: [])
           true false (fun _ => []) [] /\
     same_heap alloc_state s' /\
     keeps 65544 alloc_state ([] ++ [mkBlock 4096 SAlloc true false]) s'
           ([] ++ mkBlock 32 SAlloc true false
               :: mkBlock (4096 - 32) SHole true (32 =? 16) :: [])).
Proof.
  apply (split_block_splits alloc_state [] (mkBlock 4096 SAlloc true false) []
           true false (fun _ => []) [] 32).
  - exact world_alloc_state.
  - reflexivity.
  - split; [lia|reflexivity].
  - simpl. lia.
Defined.

(** X23: in a reachable state the header after a free block says that the
    block before it is free, and [find_prev] from there leads back to the
    free block, through the footer or, for a mini block, through the
    [prev_mini] flag. *)
Theorem find_prev_of_next : forall s live b,
  reachable no_wrap s live ->
  heap_block s b -> b <> epilogue s -> get_alloc s b = false ->
  find_prev s (find_next s b) = b /\
  get_prev_alloc s (find_next s b) = false.
Proof.
  intros s live b R Hb Hne Ha.
  destruct (heap_inv_cases s live (reachable_inv s live R))
    as [[_ F]|[Hs [bl H]]].
  { exfalso. exact (fresh_no_block s live b F Hb). }
  apply heap_ok_tidy in H as [T _].
  exact (find_prev_next s bl b T Hb Hne Ha).
Qed.

Lemma find_prev_of_next_witness :
  find_prev (state_after trace_mixed)
            (find_next (state_after trace_mixed) 65656) = 65656 /\
  get_prev_alloc (state_after trace_mixed)
                 (find_next (state_after trace_mixed) 65656) = false.
Proof.
  apply (find_prev_of_next (state_after trace_mixed)
           (live_after trace_mixed) 65656).
  - exact mixed_reachable.
  - exact mixed_free_block.
  - vm_compute. discriminate.
  - vm_compute. reflexivity.
Defined.

(** ** When malloc fails, and when it reuses a block *)





(** ** What a passing heap check means *)

(** X26: when [mm_checkheap] returns true, the prologue and the epilogue
    pass their check and every block that the heap walk visits before the
    epilogue passes the five block checks: alignment, bounds, size,
    header and footer, and no free right neighbour of a free block. *)
Theorem checkheap_true_blocks : forall fuel s line b,
  mm_checkheap fuel s line = Some true ->
  heap_block s b -> b <> epilogue s ->
  check_prologue_epilogue s = true /\
  check_alignment b = true /\ check_boundary s b = true /\
  check_block_size s b = true /\ check_header_footer_match s b = true /\
  check_non_consecutive_free s b = true.
Proof.
  intros fuel s line b H Hb Hne. unfold mm_checkheap in H.
  destruct (general_heap_checker fuel s) as [[|]|] eqn:G; try discriminate.
  unfold general_heap_checker in G.
  destruct (check_prologue_epilogue s); [|discriminate].
  cbn [negb] in G. split; [reflexivity|].
  destruct (heap_walk_reaches fuel s b G Hb) as [f Hf].
  destruct (heap_walk_step f s b (epilogue s) Hf Hne)
    as (C1 & C2 & C3 & C4 & C5 & _).
  auto.
Qed.

Lemma checkheap_true_blocks_witness :
  check_prologue_epilogue (state_after trace_mixed) = true /\
  check_alignment 65656 = true /\
  check_boundary (state_after trace_mixed) 65656 = true /\
  check_block_size (state_after trace_mixed) 65656 = true /\
  check_header_footer_match (state_after trace_mixed) 65656 = true /\
  check_non_consecutive_free (state_after trace_mixed) 65656 = true.
Proof.
  apply (checkheap_true_blocks 100 (state_after trace_mixed) 0 65656).
  - vm_compute. reflexivity.
  - exact mixed_free_block.
  - vm_compute. discriminate.
Defined.

(** X27: when [mm_checkheap] returns true, every block chained in the
    bucket of a class lies inside the heap, has a size of that class, and
    is the [prev] of the block that its [next] link names. *)
Theorem checkheap_true_lists : forall fuel s line i l,
  mm_checkheap fuel s line = Some true ->
  0 <= i < LENGTH -> next_chain s (seg_get s i) l ->
  Forall (fun b =>
            mem_heap_lo s <= b <= mem_heap_hi s /\
            find_class (get_size s b) = i /\
            (payload_next s b <> NULL ->
             payload_prev s (payload_next s b) = b)) l.
Proof.
  intros fuel s line i l H Hi Hc. unfold mm_checkheap in H.
  destruct (general_heap_checker fuel s) as [[|]|]; try discriminate.
  destruct (check_list fuel s) as [[|]|] eqn:C; try discriminate.
  unfold check_list in C.
  apply (check_bucket_sound fuel s i l (seg_get s i)); [|exact Hc].
  apply (check_list_from_sound fuel s (Z.to_nat LENGTH) 0 i C).
  unfold LENGTH in *. lia.
Qed.

Lemma checkheap_true_lists_witness :
  Forall (fun b =>
            mem_heap_lo (state_after trace_mixed) <= b
            <= mem_heap_hi (state_after trace_mixed) /\
            find_class (get_size (state_after trace_mixed) b) = 8 /\
            (payload_next (state_after trace_mixed) b <> NULL ->
             payload_prev (state_after trace_mixed)
               (payload_next (state_after trace_mixed) b) = b)) [65656].
Proof.
  apply (checkheap_true_lists 100 (state_after trace_mixed) 0 8 [65656]).
  - vm_compute. reflexivity.
  - vm_compute. split; [discriminate|reflexivity].
  - vm_compute. split; [reflexivity|]. split; [discriminate|reflexivity].
Defined.
